(** * Escape analysis of the TurboFan compiler: a shallow embedding

    The development follows [src/compiler/escape-analysis.cc].  Zone
    allocated objects ([VirtualObject], [VirtualState]) live in arenas that
    only grow; a pointer is an index into its arena, so that pointer equality
    and sharing are those of the source.  Every method that reads or writes
    the analysis is a computation in a state-and-failure monad over the
    record [Analysis]; failure stands for undefined behaviour of the source
    (an index out of the bounds of a vector, a null dereference), for a
    fatal [UNREACHABLE]/[CHECK], and for a loop that ran out of fuel. *)

From stdpp Require Import base numbers list option.
From Stdlib Require Import Lia.

Open Scope N_scope.

(** ** Identifiers and pointers *)

(** [NodeId]: the dense identifier of an IR node.  The graph keeps its nodes
    in identifier order, so a [Node*] is represented by the node's id. *)
Abbreviation NodeId := nat (only parsing).
(** [Alias], an unsigned 32-bit number. *)
Abbreviation Alias := N (only parsing).
(** Pointers into the zone: indices of the two arenas. *)
Abbreviation ObjPtr := nat (only parsing).
Abbreviation StatePtr := nat (only parsing).

Definition Alias_max : N := 4294967295.
Definition kNotReachable : Alias := Alias_max.
Definition kUntrackable : Alias := Alias_max - 1.

(** ** Flag sets ([base::Flags]) *)

(** [flags & mask], read as a [bool]. *)
Definition has_flag (flags mask : N) : bool := negb (N.land flags mask =? 0).
(** [flags |= mask]. *)
Definition set_flag (flags mask : N) : N := N.lor flags mask.
(** [flags & ~mask]. *)
Definition clear_flag (flags mask : N) : N := N.ldiff flags mask.

(** ** VirtualObject *)

Module VirtualObject.

(** [enum Status]. *)
Definition kInitial : N := 0.
Definition kTracked : N := N.shiftl 1 0.
Definition kInitialized : N := N.shiftl 1 1.
Definition kCopyRequired : N := N.shiftl 1 2.

Record t := mk {
  id_ : NodeId;
  status_ : N;
  fields_ : list (option NodeId);
  phi_ : list bool;
  object_state_ : option NodeId;
  owner_ : StatePtr
}.

Definition with_status (st : N) (o : t) : t :=
  mk (id_ o) st (fields_ o) (phi_ o) (object_state_ o) (owner_ o).
Definition with_fields (fs : list (option NodeId)) (o : t) : t :=
  mk (id_ o) (status_ o) fs (phi_ o) (object_state_ o) (owner_ o).
Definition with_phi (ps : list bool) (o : t) : t :=
  mk (id_ o) (status_ o) (fields_ o) ps (object_state_ o) (owner_ o).
Definition with_object_state (n : option NodeId) (o : t) : t :=
  mk (id_ o) (status_ o) (fields_ o) (phi_ o) n (owner_ o).

(** [std::vector::resize(n)] with value-initialised new elements. *)
Definition resize {A} (n : nat) (d : A) (l : list A) : list A :=
  take n l ++ replicate (n - length l) d.

(** [VirtualObject(NodeId id, VirtualState* owner, Zone* zone)]. *)
Definition create (id : NodeId) (owner : StatePtr) : t :=
  mk id kInitial [] [] None owner.

(** [VirtualObject(VirtualState* owner, const VirtualObject& other)]. *)
Definition copy (owner : StatePtr) (other : t) : t :=
  mk (id_ other) (clear_flag (status_ other) kCopyRequired)
     (fields_ other) (phi_ other) (object_state_ other) owner.

(** [VirtualObject(NodeId id, VirtualState* owner, Zone* zone,
                   size_t field_number, bool initialized)]. *)
Definition create_tracked (id : NodeId) (owner : StatePtr)
    (field_number : nat) (initialized : bool) : t :=
  mk id (N.lor kTracked (if initialized then kInitialized else kInitial))
     (resize field_number None []) (resize field_number false [])
     None owner.

(** [fields_[offset]]; [None] when [offset] is out of bounds. *)
Definition GetField (o : t) (offset : nat) : option (option NodeId) :=
  fields_ o !! offset.

Definition IsCreatedPhi (o : t) (offset : nat) : option bool :=
  phi_ o !! offset.

Definition SetField (offset : nat) (node : option NodeId)
    (created_phi : bool) (o : t) : option t :=
  if decide (offset < length (fields_ o))%nat then
    if decide (offset < length (phi_ o))%nat then
      Some (with_phi (<[offset := created_phi]> (phi_ o))
              (with_fields (<[offset := node]> (fields_ o)) o))
    else None
  else None.

Definition IsTracked (o : t) : bool := has_flag (status_ o) kTracked.
Definition IsInitialized (o : t) : bool := has_flag (status_ o) kInitialized.
(** [bool SetInitialized() { return status_ |= kInitialized; }] *)
Definition SetInitialized (o : t) : t * bool :=
  let st := set_flag (status_ o) kInitialized in
  (with_status st o, negb (st =? 0)).
Definition owner (o : t) : StatePtr := owner_ o.
Definition field_count (o : t) : nat := length (fields_ o).

Definition ResizeFields (field_count : nat) (o : t) : t * bool :=
  if decide (length (fields_ o) < field_count)%nat then
    (with_phi (resize field_count false (phi_ o))
       (with_fields (resize field_count None (fields_ o)) o), true)
  else (o, false).

(** The loop of [ClearAllFields], over the indices still to visit. *)
Fixpoint ClearAllFields_loop (idx : list nat) (o : t) : option t :=
  match idx with
  | [] => Some o
  | i :: idx' =>
      match SetField i None false o with
      | Some o' => ClearAllFields_loop idx' o'
      | None => None
      end
  end.

Definition ClearAllFields (o : t) : option t :=
  ClearAllFields_loop (seq 0 (length (fields_ o))) o.

Definition AllFieldsClear (o : t) : bool :=
  forallb (fun f => match f with None => true | Some _ => false end)
          (fields_ o).

Definition SetObjectState (node : option NodeId) (o : t) : t :=
  with_object_state node o.
Definition GetObjectState (o : t) : option NodeId := object_state_ o.
Definition IsCopyRequired (o : t) : bool := has_flag (status_ o) kCopyRequired.
Definition SetCopyRequired (o : t) : t :=
  with_status (set_flag (status_ o) kCopyRequired) o.

Definition NeedCopyForModification (o : t) : bool :=
  if negb (IsCopyRequired o) || negb (IsInitialized o) then false else true.

Definition id (o : t) : NodeId := id_ o.

(** The field loop of [UpdateFrom]; both vectors have the same size. *)
Fixpoint UpdateFrom_loop (idx : list nat) (other_fields : list (option NodeId))
    (fs : list (option NodeId)) (changed : bool)
    : list (option NodeId) * bool :=
  match idx with
  | [] => (fs, changed)
  | i :: idx' =>
      if decide (fs !! i = other_fields !! i)
      then UpdateFrom_loop idx' other_fields fs changed
      else UpdateFrom_loop idx' other_fields
             (<[i := default None (other_fields !! i)]> fs) true
  end.

(** [bool VirtualObject::UpdateFrom(const VirtualObject& other)]. *)
Definition UpdateFrom (other : t) (o : t) : t * bool :=
  let changed := negb (status_ o =? status_ other) in
  let o1 := with_phi (phi_ other) (with_status (status_ other) o) in
  if decide (length (fields_ o1) = length (fields_ other)) then
    let '(fs, changed') :=
      UpdateFrom_loop (seq 0 (length (fields_ o1))) (fields_ other)
                      (fields_ o1) changed in
    (with_fields fs o1, changed')
  else (with_fields (fields_ other) o1, true).

End VirtualObject.

(** ** VirtualState and MergeCache (data) *)

Module VirtualState.
Record t := mk {
  info_ : list (option ObjPtr);
  owner_ : NodeId
}.
Definition with_info (i : list (option ObjPtr)) (s : t) : t := mk i (owner_ s).
End VirtualState.

Module MergeCache.
Record t := mk {
  states_ : list StatePtr;
  objects_ : list ObjPtr;
  fields_ : list NodeId
}.
Definition empty : t := mk [] [] [].
End MergeCache.

(** ** The IR graph *)

(** Modelled from the spec: the opcode catalogue of the IR host ([opcodes.h]
    is not part of the sources).  The analysis distinguishes the opcodes
    listed in the interface section of the specification, the constants
    named by its debug checks, and treats every other opcode alike. *)
Inductive IrOpcode :=
  | kStart | kEnd | kPhi | kEffectPhi | kBeginRegion | kFinishRegion
  | kAllocate | kStoreField | kLoadField | kStoreElement | kLoadElement
  | kLoad | kFrameState | kStateValues | kReferenceEqual | kObjectIsSmi
  | kSelect | kObjectState | kNumberConstant | kInt32Constant
  | kInt64Constant | kFloat32Constant | kFloat64Constant
  | kOtherOpcode (n : nat).

#[global] Instance IrOpcode_eq_dec : EqDecision IrOpcode.
Proof. solve_decision. Defined.

(** Modelled from the spec: operator parameters read by the analysis: the
    value of a number constant, the byte offset of a field access, the
    header size and element-size logarithm of an element access, and the
    owning id of an [ObjectState].  Numbers are taken integral. *)
Inductive OpParameter :=
  | NoParameter
  | NumberValue (v : Z)
  | FieldAccess (offset : Z)
  | ElementAccess (header_size : Z) (element_size_log2 : Z)
  | ObjectStateId (id : NodeId).

(** Modelled from the spec: operator metadata ([operator.h],
    [operator-properties.h]). *)
Record Operator := mkOperator {
  opcode : IrOpcode;
  ValueInputCount : nat;
  ContextInputCount : nat;
  FrameStateInputCount : nat;
  EffectInputCount : nat;
  ControlInputCount : nat;
  EffectOutputCount : nat;
  parameter : OpParameter
}.

(** Modelled from the spec: a node is its operator and its inputs, laid out
    as value, context, frame-state, effect and control inputs. *)
Record Node := mkNode {
  op : Operator;
  inputs : list NodeId
}.

(** Modelled from the spec: the graph owns the nodes, in id order. *)
Record Graph := mkGraph {
  nodes : list Node;
  start : NodeId;
  end_ : NodeId
}.

(** An edge: the using node [from], the input [index], the used node [to]. *)
Record Edge := mkEdge {
  from : NodeId;
  index : nat;
  to : NodeId
}.

(** ** The analysis state *)

Record Analysis := mkAnalysis {
  graph_ : Graph;
  (* the zone *)
  zone_objects : list VirtualObject.t;
  zone_states : list VirtualState.t;
  (* EscapeStatusAnalysis *)
  stack_ : list NodeId;
  status_ : list N;
  next_free_alias_ : Alias;
  status_stack_ : list NodeId;
  aliases_ : list Alias;
  (* EscapeAnalysis *)
  virtual_states_ : list (option StatePtr);
  replacements_ : list (option NodeId);
  cache_ : option MergeCache.t
}.

Definition set_graph (g : Graph) (a : Analysis) : Analysis :=
  mkAnalysis g (zone_objects a) (zone_states a) (stack_ a) (status_ a)
    (next_free_alias_ a) (status_stack_ a) (aliases_ a) (virtual_states_ a)
    (replacements_ a) (cache_ a).
Definition set_zone_objects (x : list VirtualObject.t) (a : Analysis) : Analysis :=
  mkAnalysis (graph_ a) x (zone_states a) (stack_ a) (status_ a)
    (next_free_alias_ a) (status_stack_ a) (aliases_ a) (virtual_states_ a)
    (replacements_ a) (cache_ a).
Definition set_zone_states (x : list VirtualState.t) (a : Analysis) : Analysis :=
  mkAnalysis (graph_ a) (zone_objects a) x (stack_ a) (status_ a)
    (next_free_alias_ a) (status_stack_ a) (aliases_ a) (virtual_states_ a)
    (replacements_ a) (cache_ a).
Definition set_stack (x : list NodeId) (a : Analysis) : Analysis :=
  mkAnalysis (graph_ a) (zone_objects a) (zone_states a) x (status_ a)
    (next_free_alias_ a) (status_stack_ a) (aliases_ a) (virtual_states_ a)
    (replacements_ a) (cache_ a).
Definition set_status (x : list N) (a : Analysis) : Analysis :=
  mkAnalysis (graph_ a) (zone_objects a) (zone_states a) (stack_ a) x
    (next_free_alias_ a) (status_stack_ a) (aliases_ a) (virtual_states_ a)
    (replacements_ a) (cache_ a).
Definition set_next_free_alias (x : Alias) (a : Analysis) : Analysis :=
  mkAnalysis (graph_ a) (zone_objects a) (zone_states a) (stack_ a) (status_ a)
    x (status_stack_ a) (aliases_ a) (virtual_states_ a)
    (replacements_ a) (cache_ a).
Definition set_status_stack (x : list NodeId) (a : Analysis) : Analysis :=
  mkAnalysis (graph_ a) (zone_objects a) (zone_states a) (stack_ a) (status_ a)
    (next_free_alias_ a) x (aliases_ a) (virtual_states_ a)
    (replacements_ a) (cache_ a).
Definition set_aliases (x : list Alias) (a : Analysis) : Analysis :=
  mkAnalysis (graph_ a) (zone_objects a) (zone_states a) (stack_ a) (status_ a)
    (next_free_alias_ a) (status_stack_ a) x (virtual_states_ a)
    (replacements_ a) (cache_ a).
Definition set_virtual_states (x : list (option StatePtr)) (a : Analysis) : Analysis :=
  mkAnalysis (graph_ a) (zone_objects a) (zone_states a) (stack_ a) (status_ a)
    (next_free_alias_ a) (status_stack_ a) (aliases_ a) x
    (replacements_ a) (cache_ a).
Definition set_replacements (x : list (option NodeId)) (a : Analysis) : Analysis :=
  mkAnalysis (graph_ a) (zone_objects a) (zone_states a) (stack_ a) (status_ a)
    (next_free_alias_ a) (status_stack_ a) (aliases_ a) (virtual_states_ a)
    x (cache_ a).
Definition set_cache (x : option MergeCache.t) (a : Analysis) : Analysis :=
  mkAnalysis (graph_ a) (zone_objects a) (zone_states a) (stack_ a) (status_ a)
    (next_free_alias_ a) (status_stack_ a) (aliases_ a) (virtual_states_ a)
    (replacements_ a) x.

(** ** The monad of the analysis *)

Definition M (A : Type) : Type := Analysis -> option (A * Analysis).

Definition ret {A} (a : A) : M A := fun s => Some (a, s).
Definition bind {A B} (m : M A) (k : A -> M B) : M B :=
  fun s => match m s with
           | Some (a, s') => k a s'
           | None => None
           end.
(** Undefined behaviour or a fatal error of the source. *)
Definition fail {A} : M A := fun _ => None.
Definition gets {A} (f : Analysis -> A) : M A := fun s => Some (f s, s).
Definition modify (f : Analysis -> Analysis) : M unit := fun s => Some (tt, f s).
Definition lift {A} (o : option A) : M A :=
  fun s => match o with Some a => Some (a, s) | None => None end.

Notation "'let*' x ':=' m 'in' k" := (bind m (fun x => k))
  (at level 10, x name, m at level 100, k at level 200).
Notation "'let*' ' p ':=' m 'in' k" := (bind m (fun x => match x with p => k end))
  (at level 10, p pattern, m at level 100, k at level 200).
Notation "m1 ';;' m2" := (bind m1 (fun _ => m2))
  (at level 100, m2 at level 200, right associativity).

(** [for (x : l) body], threading an accumulator. *)
Fixpoint foldM {A B} (body : B -> A -> M B) (b : B) (l : list A) : M B :=
  match l with
  | [] => ret b
  | x :: l' => let* b' := body b x in foldM body b' l'
  end.

Definition forM_ {A} (l : list A) (body : A -> M unit) : M unit :=
  foldM (fun _ x => body x) tt l.

(** *** The zone *)

Definition load_object (p : ObjPtr) : M VirtualObject.t :=
  let* objs := gets zone_objects in lift (objs !! p).
Definition store_object (p : ObjPtr) (o : VirtualObject.t) : M unit :=
  let* objs := gets zone_objects in
  if decide (p < length objs)%nat
  then modify (set_zone_objects (<[p := o]> objs))
  else fail.
(** [new (zone) VirtualObject(...)]. *)
Definition new_object (o : VirtualObject.t) : M ObjPtr :=
  let* objs := gets zone_objects in
  modify (set_zone_objects (objs ++ [o]));; ret (length objs).

Definition load_state (p : StatePtr) : M VirtualState.t :=
  let* sts := gets zone_states in lift (sts !! p).
Definition store_state (p : StatePtr) (st : VirtualState.t) : M unit :=
  let* sts := gets zone_states in
  if decide (p < length sts)%nat
  then modify (set_zone_states (<[p := st]> sts))
  else fail.
(** [new (zone) VirtualState(...)]. *)
Definition new_state (st : VirtualState.t) : M StatePtr :=
  let* sts := gets zone_states in
  modify (set_zone_states (sts ++ [st]));; ret (length sts).

(** ** VirtualState (methods) *)

Definition VirtualObjectFromAlias (this : StatePtr) (alias : nat)
    : M (option ObjPtr) :=
  let* st := load_state this in lift (VirtualState.info_ st !! alias).

Definition SetVirtualObject (this : StatePtr) (alias : nat)
    (obj : option ObjPtr) : M unit :=
  let* st := load_state this in
  if decide (alias < length (VirtualState.info_ st))%nat
  then store_state this
         (VirtualState.with_info (<[alias := obj]> (VirtualState.info_ st)) st)
  else fail.

Definition VirtualState_size (this : StatePtr) : M nat :=
  let* st := load_state this in ret (length (VirtualState.info_ st)).

Definition VirtualState_owner (this : StatePtr) : M NodeId :=
  let* st := load_state this in ret (VirtualState.owner_ st).

(** [VirtualState(Node* owner, Zone* zone, size_t size)]. *)
Definition VirtualState_create (owner : NodeId) (size : nat) : M StatePtr :=
  new_state (VirtualState.mk (replicate size None) owner).

(** [VirtualState(Node* owner, const VirtualState& state)]: the slots are
    copied one by one, the objects stay shared. *)
Definition VirtualState_copy (owner : NodeId) (state : StatePtr) : M StatePtr :=
  let* st := load_state state in
  let n := length (VirtualState.info_ st) in
  new_state
    (VirtualState.mk
       (fold_left
          (fun info i =>
             match VirtualState.info_ st !! i with
             | Some (Some p) => <[i := Some p]> info
             | _ => info
             end)
          (seq 0 n) (replicate n None))
       owner).

Definition VirtualState_SetCopyRequired (this : StatePtr) : M unit :=
  let* st := load_state this in
  forM_ (VirtualState.info_ st)
    (fun obj =>
       match obj with
       | Some p =>
           let* o := load_object p in
           store_object p (VirtualObject.SetCopyRequired o)
       | None => ret tt
       end).

Definition VirtualState_Copy (this : StatePtr) (obj : ObjPtr) (alias : nat)
    : M ObjPtr :=
  let* o := load_object obj in
  if decide (VirtualObject.owner o = this) then ret obj
  else
    let* new_obj := new_object (VirtualObject.copy this o) in
    SetVirtualObject this alias (Some new_obj);;
    ret new_obj.

(** The parameter [field_number] is declared but not read: the object is
    created with no field. *)
Definition GetOrCreateTrackedVirtualObject (this : StatePtr) (alias : nat)
    (id : NodeId) (field_number : nat) (initialized : bool)
    (force_copy : bool) : M ObjPtr :=
  let* found :=
    (if negb force_copy then VirtualObjectFromAlias this alias
     else ret None) in
  match found with
  | Some obj => ret obj
  | None =>
      let* obj := new_object (VirtualObject.create_tracked id this 0 initialized) in
      SetVirtualObject this alias (Some obj);;
      ret obj
  end.

(** One iteration of the loop of [VirtualState::UpdateFrom]. *)
Definition VirtualState_UpdateFrom_step (this from : StatePtr)
    (changed : bool) (alias : nat) : M bool :=
  let* ls := VirtualObjectFromAlias this alias in
  let* rs := VirtualObjectFromAlias from alias in
  match rs with
  | None => ret changed
  | Some r =>
      if decide (ls = rs) then ret changed
      else
        match ls with
        | None =>
            let* ro := load_object r in
            let* l := new_object (VirtualObject.copy this ro) in
            SetVirtualObject this alias (Some l);;
            ret true
        | Some l =>
            let* lo := load_object l in
            let* ro := load_object r in
            let '(lo', c) := VirtualObject.UpdateFrom ro lo in
            store_object l lo';;
            ret (c || changed)
        end
  end.

(** The loop of [VirtualState::UpdateFrom]; its result is the local
    variable [changed]. *)
Definition VirtualState_UpdateFrom_loop (this from : StatePtr) : M bool :=
  let* size := VirtualState_size this in
  foldM (VirtualState_UpdateFrom_step this from) false (seq 0 size).

(** [bool VirtualState::UpdateFrom(VirtualState* from, Zone* zone)]. *)
Definition VirtualState_UpdateFrom (this from : StatePtr) : M bool :=
  if decide (from = this) then ret false
  else
    let* changed := VirtualState_UpdateFrom_loop this from in
    ret false.

(** ** Reasoning about computations *)

Lemma bind_Some {A B} (m : M A) (k : A -> M B) s r s' :
  bind m k s = Some (r, s') <->
  exists a s1, m s = Some (a, s1) /\ k a s1 = Some (r, s').
Proof.
  unfold bind. destruct (m s) as [[a s1]|]; split.
  - intros H. eauto.
  - intros (a' & s1' & E & H). by simplify_eq.
  - done.
  - intros (a' & s1' & E & H). done.
Qed.

Lemma ret_Some {A} (a : A) s r s' : ret a s = Some (r, s') <-> r = a /\ s' = s.
Proof. unfold ret. split; [intros; by simplify_eq | intros [-> ->]; done]. Qed.

Lemma gets_Some {A} (f : Analysis -> A) s r s' :
  gets f s = Some (r, s') <-> r = f s /\ s' = s.
Proof. unfold gets. split; [intros; by simplify_eq | intros [-> ->]; done]. Qed.

Lemma modify_Some f s r s' : modify f s = Some (r, s') <-> s' = f s.
Proof. unfold modify. destruct r. split; [intros; by simplify_eq | intros ->; done]. Qed.

Lemma lift_Some {A} (o : option A) s r s' :
  lift o s = Some (r, s') <-> o = Some r /\ s' = s.
Proof.
  unfold lift. destruct o; split; try done.
  - intros; by simplify_eq.
  - intros [? ->]; by simplify_eq.
  - intros [? _]; done.
Qed.

Lemma fail_Some {A} s (r : A) s' : fail s = Some (r, s') <-> False.
Proof. done. Qed.

(** Inversion of a successful run, one monadic step at a time. *)
Ltac minv1 H :=
  match type of H with
  | bind _ _ _ = Some _ =>
      let a := fresh "a" in let s1 := fresh "s" in
      let E := fresh "E" in
      apply bind_Some in H; destruct H as (a & s1 & E & H); minv1 E; minv1 H
  | ret _ _ = Some _ => apply ret_Some in H; destruct H; subst
  | gets _ _ = Some _ => apply gets_Some in H; destruct H; subst
  | modify _ _ = Some _ => apply modify_Some in H; subst
  | lift _ _ = Some _ => apply lift_Some in H; destruct H; subst
  | fail _ = Some _ => by apply fail_Some in H
  | _ => idtac
  end.

Lemma foldM_inv {A B} (P : B -> Analysis -> Prop) (body : B -> A -> M B) :
  forall l b s r s',
    (forall b x s r s', x ∈ l -> P b s -> body b x s = Some (r, s') -> P r s') ->
    P b s -> foldM body b l s = Some (r, s') -> P r s'.
Proof.
  induction l as [|x l IH]; intros b s r s' Hbody HP H; simpl in H.
  - minv1 H. done.
  - minv1 H. eapply IH; [| |exact H].
    + intros. eapply Hbody; [|done..]. by apply list_elem_of_further.
    + eapply Hbody; [|done..]. apply list_elem_of_here.
Qed.

Lemma foldM_total {A B} (P : B -> Analysis -> Prop) (body : B -> A -> M B) :
  forall l b s,
    (forall b x s, x ∈ l -> P b s ->
                   exists r s', body b x s = Some (r, s') /\ P r s') ->
    P b s -> exists r s', foldM body b l s = Some (r, s') /\ P r s'.
Proof.
  induction l as [|x l IH]; intros b s Hbody HP; simpl.
  - eauto.
  - destruct (Hbody b x s) as (r & s' & E & HP'); [apply list_elem_of_here|done|].
    destruct (IH r s') as (r2 & s2 & E2 & HP2); [|done|].
    + intros. apply Hbody; [|done]. by apply list_elem_of_further.
    + exists r2, s2. split; [|done]. apply bind_Some. eauto.
Qed.

(** ** Access to the graph *)

(** Modelled from the spec: node lookup by id; a dangling [Node*] fails. *)
Definition get_node (n : NodeId) : M Node :=
  let* g := gets graph_ in lift (nodes g !! n).
Definition get_op (n : NodeId) : M Operator :=
  let* nd := get_node n in ret (op nd).
Definition get_opcode (n : NodeId) : M IrOpcode :=
  let* nd := get_node n in ret (opcode (op nd)).
(** Modelled from the spec: [Graph::NodeCount()]. *)
Definition NodeCount : M nat :=
  let* g := gets graph_ in ret (length (nodes g)).

(** Modelled from the spec: the input layout of [NodeProperties]. *)
Definition FirstEffectIndex (o : Operator) : nat :=
  (ValueInputCount o + ContextInputCount o + FrameStateInputCount o)%nat.
Definition FirstControlIndex (o : Operator) : nat :=
  (FirstEffectIndex o + EffectInputCount o)%nat.

Definition InputAt (n : NodeId) (i : nat) : M NodeId :=
  let* nd := get_node n in lift (inputs nd !! i).
Definition GetValueInput (n : NodeId) (i : nat) : M NodeId := InputAt n i.
Definition GetEffectInput (n : NodeId) (i : nat) : M NodeId :=
  let* nd := get_node n in lift (inputs nd !! (FirstEffectIndex (op nd) + i)%nat).
Definition GetControlInput (n : NodeId) (i : nat) : M NodeId :=
  let* nd := get_node n in lift (inputs nd !! (FirstControlIndex (op nd) + i)%nat).

(** Modelled from the spec: [NodeProperties::IsEffectEdge]. *)
Definition IsEffectEdge (e : Edge) : M bool :=
  let* nd := get_node (from e) in
  ret (bool_decide (FirstEffectIndex (op nd) <= index e)%nat &&
       bool_decide (index e < FirstEffectIndex (op nd) + EffectInputCount (op nd))%nat).

(** Modelled from the spec: [node->input_edges()], in input order. *)
Definition edges_of (n : NodeId) (nd : Node) : list Edge :=
  imap (fun i t => mkEdge n i t) (inputs nd).
Definition input_edges (n : NodeId) : M (list Edge) :=
  let* nd := get_node n in ret (edges_of n nd).

(** Modelled from the spec: [node->use_edges()].  The host keeps a use list
    per node; the model recomputes it from the inputs of all nodes and
    enumerates it by user id, then input index. *)
Definition all_edges (g : Graph) : list Edge :=
  concat (imap edges_of (nodes g)).
Definition uses_in (g : Graph) (n : NodeId) : list Edge :=
  filter (fun e => to e = n) (all_edges g).
Definition use_edges (n : NodeId) : M (list Edge) :=
  let* g := gets graph_ in ret (uses_in g n).

(** Modelled from the spec: [Graph::NewNode]: the new node takes the next id. *)
Definition NewNode (o : Operator) (ins : list NodeId) : M NodeId :=
  let* g := gets graph_ in
  modify (set_graph (mkGraph (nodes g ++ [mkNode o ins]) (start g) (end_ g)));;
  ret (length (nodes g)).

(** Modelled from the spec: [NodeProperties::ReplaceValueInput]. *)
Definition ReplaceValueInput (n : NodeId) (value : NodeId) (i : nat) : M unit :=
  let* g := gets graph_ in
  let* nd := lift (nodes g !! n) in
  if decide (i < length (inputs nd))%nat then
    modify (set_graph
              (mkGraph (<[n := mkNode (op nd) (<[i := value]> (inputs nd))]> (nodes g))
                       (start g) (end_ g)))
  else fail.

(** Modelled from the spec: [common->Phi(MachineRepresentation::kTagged, n)]:
    [n] value inputs and one control input. *)
Definition Phi_operator (value_input_count : nat) : Operator :=
  mkOperator kPhi value_input_count 0 0 0 1 0 NoParameter.

(** Modelled from the spec: [NumberMatcher]: the node is a number constant,
    and then its value. *)
Definition NumberMatcher (n : NodeId) : M (option Z) :=
  let* nd := get_node n in
  match opcode (op nd), parameter (op nd) with
  | kNumberConstant, NumberValue v => ret (Some v)
  | kNumberConstant, _ => fail
  | _, _ => ret None
  end.

(** ** EscapeStatusAnalysis *)

(** Modelled from the spec: the [Status] flags of the status table (the
    header is not part of the sources): one bit per flag. *)
Definition kUnknown : N := 0.
Definition kTracked : N := N.shiftl 1 0.
Definition kEscaped : N := N.shiftl 1 1.
Definition kOnStack : N := N.shiftl 1 2.
Definition kVisited : N := N.shiftl 1 3.
Definition kDanglingComputed : N := N.shiftl 1 4.
Definition kDangling : N := N.shiftl 1 5.
Definition kBranchPointComputed : N := N.shiftl 1 6.
Definition kBranchPoint : N := N.shiftl 1 7.
Definition kInQueue : N := N.shiftl 1 8.

(** [status_[id]]. *)
Definition status_at (id : NodeId) : M N :=
  let* st := gets status_ in lift (st !! id).
(** [status_[id] |= mask]. *)
Definition status_or (id : NodeId) (mask : N) : M unit :=
  let* st := gets status_ in
  let* v := lift (st !! id) in
  modify (set_status (<[id := set_flag v mask]> st)).
(** [status_[id] &= ~mask]. *)
Definition status_clear (id : NodeId) (mask : N) : M unit :=
  let* st := gets status_ in
  let* v := lift (st !! id) in
  modify (set_status (<[id := clear_flag v mask]> st)).

(** [aliases_[id]]. *)
Definition alias_at (id : NodeId) : M Alias :=
  let* al := gets aliases_ in lift (al !! id).
Definition set_alias_at (id : NodeId) (a : Alias) : M unit :=
  let* al := gets aliases_ in
  if decide (id < length al)%nat then modify (set_aliases (<[id := a]> al))
  else fail.

Definition HasEntry (node : NodeId) : M bool :=
  let* v := status_at node in ret (has_flag v (N.lor kTracked kEscaped)).

Definition EscapeStatusAnalysis_IsVirtual (id : NodeId) : M bool :=
  let* v := status_at id in
  ret (has_flag v kTracked && negb (has_flag v kEscaped)).

Definition EscapeStatusAnalysis_IsEscaped (node : NodeId) : M bool :=
  let* v := status_at node in ret (has_flag v kEscaped).

Definition IsAllocation (node : NodeId) : M bool :=
  let* oc := get_opcode node in
  ret (bool_decide (oc = kAllocate) || bool_decide (oc = kFinishRegion)).

Definition EscapeStatusAnalysis_SetEscaped (node : NodeId) : M bool :=
  let* v := status_at node in
  let changed := negb (has_flag v kEscaped) in
  status_or node (N.lor kEscaped kTracked);;
  ret changed.

Definition IsInQueue (id : NodeId) : M bool :=
  let* v := status_at id in ret (has_flag v kInQueue).

Definition SetInQueue (id : NodeId) (on_stack : bool) : M unit :=
  if on_stack then status_or id kInQueue else status_clear id kInQueue.

(** [graph()->NodeCount() * 1.1], converted back to [size_t]. *)
Definition grow_size (n : nat) : nat := (n * 11 / 10)%nat.

Definition ResizeStatusVector : M unit :=
  let* st := gets status_ in
  let* n := NodeCount in
  if decide (length st <= n)%nat
  then modify (set_status (VirtualObject.resize (grow_size n) kUnknown st))
  else ret tt.

Definition GetStatusVectorSize : M nat :=
  let* st := gets status_ in ret (length st).

(** The two stacks are vectors used through [back], [pop_back] and
    [push_back]: the head of the list is the back of the vector. *)
Definition status_stack_push (n : NodeId) : M unit :=
  let* stk := gets status_stack_ in modify (set_status_stack (n :: stk)).

Definition EnqueueForStatusAnalysis (node : NodeId) : M unit :=
  let* v := status_at node in
  if negb (has_flag v kOnStack) then
    status_stack_push node;;
    status_or node kOnStack
  else ret tt.

Definition RevisitInputs (node : NodeId) : M unit :=
  let* edges := input_edges node in
  forM_ edges (fun edge => EnqueueForStatusAnalysis (to edge)).

Definition IsNotReachable (node : NodeId) : M bool :=
  let* al := gets aliases_ in
  if decide (length al <= node)%nat then ret false
  else let* a := alias_at node in ret (bool_decide (a = kNotReachable)).

Definition RevisitUses (node : NodeId) : M unit :=
  let* edges := use_edges node in
  forM_ edges
    (fun edge =>
       let use := from edge in
       let* v := status_at use in
       if negb (has_flag v kOnStack) then
         let* nr := IsNotReachable use in
         if negb nr then
           status_stack_push use;;
           status_or use kOnStack
         else ret tt
       else ret tt).

(** The loop of [IsAllocationPhi] over the input edges. *)
Fixpoint IsAllocationPhi_loop (edges : list Edge) : M bool :=
  match edges with
  | [] => ret true
  | edge :: rest =>
      let input := to edge in
      let* oc := get_opcode input in
      let* skip :=
        (if bool_decide (oc = kPhi)
         then let* e := EscapeStatusAnalysis_IsEscaped input in ret (negb e)
         else ret false) in
      if (skip : bool) then IsAllocationPhi_loop rest
      else
        let* a := IsAllocation input in
        if (a : bool) then IsAllocationPhi_loop rest else ret false
  end.

Definition IsAllocationPhi (node : NodeId) : M bool :=
  let* edges := input_edges node in IsAllocationPhi_loop edges.

(** The cases of the [switch] of [CheckUsesForEscape] that share the test
    "the use is itself escaped". *)
Definition is_transparent_use (oc : IrOpcode) : bool :=
  match oc with
  | kStoreField | kLoadField | kStoreElement | kLoadElement | kFrameState
  | kStateValues | kReferenceEqual | kFinishRegion => true
  | _ => false
  end.

(** The loop of [CheckUsesForEscape(uses, rep, phi_escaping)] over the use
    edges of [uses]. *)
Fixpoint CheckUsesForEscape_loop (edges : list Edge) (uses rep : NodeId)
    (phi_escaping : bool) : M bool :=
  match edges with
  | [] => ret false
  | edge :: rest =>
      let use := from edge in
      let continue := CheckUsesForEscape_loop rest uses rep phi_escaping in
      let escaped_use :=
        (* the cases from kStoreField to kFinishRegion *)
        let* e := EscapeStatusAnalysis_IsEscaped use in
        if (e : bool) then
          let* c := EscapeStatusAnalysis_SetEscaped rep in
          if (c : bool) then ret true else continue
        else continue in
      let* nr := IsNotReachable use in
      if (nr : bool) then continue
      else
        let* uop := get_op use in
        if decide (ValueInputCount uop + ContextInputCount uop <= index edge)%nat
        then continue
        else
          match opcode uop with
          | kPhi =>
              let* c :=
                (if phi_escaping then EscapeStatusAnalysis_SetEscaped rep
                 else ret false) in
              if (c : bool) then ret true
              else escaped_use (* fall through *)
          | kObjectIsSmi =>
              let* a := IsAllocation rep in
              if negb a then
                let* c := EscapeStatusAnalysis_SetEscaped rep in
                if (c : bool) then ret true else continue
              else continue
          | kSelect =>
              let* c := EscapeStatusAnalysis_SetEscaped rep in
              if (c : bool) then ret true else continue
          | oc =>
              if is_transparent_use oc then escaped_use
              else
                let* usesop := get_op uses in
                if bool_decide (EffectInputCount uop = 0)%nat &&
                   bool_decide (0 < EffectInputCount usesop)%nat
                then fail (* UNREACHABLE() *)
                else
                  let* c := EscapeStatusAnalysis_SetEscaped rep in
                  if (c : bool) then ret true else continue
          end
  end.

Definition CheckUsesForEscape (uses rep : NodeId) (phi_escaping : bool) : M bool :=
  let* edges := use_edges uses in
  CheckUsesForEscape_loop edges uses rep phi_escaping.

Definition EscapeStatusAnalysis_ProcessStoreField (node : NodeId) : M unit :=
  let* to_ := GetValueInput node 0 in
  let* val := GetValueInput node 1 in
  let* e := EscapeStatusAnalysis_IsEscaped to_ in
  let* cond := (if (e : bool) then ret true
                else let* a := IsAllocation to_ in ret (negb a)) in
  if (cond : bool) then
    let* c := EscapeStatusAnalysis_SetEscaped val in
    if (c : bool) then RevisitUses val;; RevisitInputs val else ret tt
  else ret tt.

Definition EscapeStatusAnalysis_ProcessStoreElement (node : NodeId) : M unit :=
  let* to_ := GetValueInput node 0 in
  let* val := GetValueInput node 2 in
  let* e := EscapeStatusAnalysis_IsEscaped to_ in
  let* cond := (if (e : bool) then ret true
                else let* a := IsAllocation to_ in ret (negb a)) in
  if (cond : bool) then
    let* c := EscapeStatusAnalysis_SetEscaped val in
    if (c : bool) then RevisitUses val;; RevisitInputs val else ret tt
  else ret tt.

Definition ProcessAllocate (node : NodeId) : M unit :=
  let* he := HasEntry node in
  let* done :=
    (if negb he then
       status_or node kTracked;;
       let* in0 := InputAt node 0 in
       let* size := NumberMatcher in0 in
       RevisitUses node;;
       match size with
       | None => EscapeStatusAnalysis_SetEscaped node
         (* already known to escape: the uses are not checked *)
       | Some _ => ret false
       end
     else ret false) in
  if (done : bool) then ret tt
  else
    let* c := CheckUsesForEscape node node true in
    if (c : bool) then RevisitUses node else ret tt.

Definition EscapeStatusAnalysis_ProcessFinishRegion (node : NodeId) : M unit :=
  let* he := HasEntry node in
  (if negb he then status_or node kTracked;; RevisitUses node else ret tt);;
  let* c := CheckUsesForEscape node node true in
  if (c : bool) then RevisitInputs node else ret tt.

(** ** The replacement table *)

(** [Node* EscapeAnalysis::replacement(NodeId id)], on the table. *)
Definition replacement (tbl : list (option NodeId)) (id : NodeId)
    : option NodeId :=
  if decide (length tbl <= id)%nat then None else default None (tbl !! id).

(** The loop of [ResolveReplacement]; [None] when the fuel runs out. *)
Fixpoint ResolveReplacement_fuel (fuel : nat) (tbl : list (option NodeId))
    (node : NodeId) : option NodeId :=
  match fuel with
  | O => None
  | S fuel' =>
      match replacement tbl node with
      | None => Some node
      | Some r => ResolveReplacement_fuel fuel' tbl r
      end
  end.

(** The loop of [GetReplacement(NodeId id)]; [node] is the local variable
    of the same name. *)
Fixpoint GetReplacement_fuel (fuel : nat) (tbl : list (option NodeId))
    (id : NodeId) (node : option NodeId) : option (option NodeId) :=
  match fuel with
  | O => None
  | S fuel' =>
      match replacement tbl id with
      | None => Some node
      | Some r => GetReplacement_fuel fuel' tbl r (Some r)
      end
  end.

(** A chain of replacements that does not end within [length tbl] steps
    visits some entry twice and never ends: [S (length tbl)] tests are all
    the loop can make before it is known to diverge. *)
Definition resolve_fuel (tbl : list (option NodeId)) : nat := S (length tbl).

Definition resolve (tbl : list (option NodeId)) (node : NodeId) : option NodeId :=
  ResolveReplacement_fuel (resolve_fuel tbl) tbl node.

Definition EscapeAnalysis_replacement (id : NodeId) : M (option NodeId) :=
  let* tbl := gets replacements_ in ret (replacement tbl id).

Definition SetReplacement (node : NodeId) (rep : option NodeId) : M bool :=
  let* tbl := gets replacements_ in
  let* old := lift (tbl !! node) in
  modify (set_replacements (<[node := rep]> tbl));;
  ret (negb (bool_decide (old = rep))).

Definition UpdateReplacement (state : option StatePtr) (node : NodeId)
    (rep : option NodeId) : M bool :=
  let* c := SetReplacement node rep in
  if (c : bool) then ret true else ret false.

Definition ResolveReplacement (node : NodeId) : M NodeId :=
  let* tbl := gets replacements_ in lift (resolve tbl node).

Definition GetReplacement (id : NodeId) : M (option NodeId) :=
  let* tbl := gets replacements_ in
  lift (GetReplacement_fuel (resolve_fuel tbl) tbl id None).

(** ** EscapeStatusAnalysis: the status fixed point *)

Definition EscapeStatusAnalysis_Process (node : NodeId) : M unit :=
  let* oc := get_opcode node in
  match oc with
  | kAllocate => ProcessAllocate node
  | kFinishRegion => EscapeStatusAnalysis_ProcessFinishRegion node
  | kStoreField => EscapeStatusAnalysis_ProcessStoreField node
  | kStoreElement => EscapeStatusAnalysis_ProcessStoreElement node
  | kLoadField | kLoadElement =>
      let* r := GetReplacement node in
      match r with
      | Some rep =>
          let* a := IsAllocation rep in
          if (a : bool) then
            let* c := CheckUsesForEscape node rep false in
            if (c : bool) then RevisitInputs rep;; RevisitUses rep else ret tt
          else ret tt
      | None => ret tt
      end;;
      RevisitUses node
  | kPhi =>
      let* he := HasEntry node in
      (if negb he then status_or node kTracked;; RevisitUses node else ret tt);;
      let* ap := IsAllocationPhi node in
      (if negb ap then
         let* c := EscapeStatusAnalysis_SetEscaped node in
         if (c : bool) then RevisitInputs node;; RevisitUses node else ret tt
       else ret tt);;
      let* _ := CheckUsesForEscape node node false in
      ret tt
  | _ => ret tt
  end.

(** The loop of [RunStatusAnalysis]. *)
Fixpoint RunStatusAnalysis_loop (fuel : nat) : M unit :=
  match fuel with
  | O => fail
  | S fuel' =>
      let* stk := gets status_stack_ in
      match stk with
      | [] => ret tt
      | node :: rest =>
          modify (set_status_stack rest);;
          status_clear node kOnStack;;
          EscapeStatusAnalysis_Process node;;
          status_or node kVisited;;
          RunStatusAnalysis_loop fuel'
      end
  end.

Definition RunStatusAnalysis (fuel : nat) : M unit :=
  ResizeStatusVector;; RunStatusAnalysis_loop fuel.

(** [Alias NextAlias() { return next_free_alias_++; }], a 32-bit counter. *)
Definition NextAlias : M Alias :=
  let* a := gets next_free_alias_ in
  modify (set_next_free_alias ((a + 1) mod (Alias_max + 1)));;
  ret a.

Definition AliasCount : M Alias := gets next_free_alias_.

Definition stack_push (n : NodeId) : M unit :=
  let* stk := gets stack_ in modify (set_stack (n :: stk)).

(** The [switch] in the loop of [AssignAliases]. *)
Definition AssignAliases_visit (node : NodeId) : M unit :=
  let* oc := get_opcode node in
  match oc with
  | kAllocate =>
      let* a := alias_at node in
      if decide (kUntrackable <= a) then
        let* fresh := NextAlias in
        set_alias_at node fresh;;
        EnqueueForStatusAnalysis node
      else ret tt
  | kFinishRegion =>
      let* allocate := GetValueInput node 0 in
      let* aoc := get_opcode allocate in
      if decide (aoc = kAllocate) then
        let* a := alias_at allocate in
        (if decide (kUntrackable <= a) then
           (if decide (a = kNotReachable) then stack_push allocate else ret tt);;
           let* fresh := NextAlias in
           set_alias_at allocate fresh;;
           EnqueueForStatusAnalysis allocate
         else ret tt);;
        let* a' := alias_at allocate in
        set_alias_at node a'
      else ret tt
  | _ => ret tt
  end.

Definition AssignAliases_inputs (node : NodeId) : M unit :=
  let* edges := input_edges node in
  forM_ edges
    (fun edge =>
       let input := to edge in
       let* a := alias_at input in
       if decide (a = kNotReachable) then
         stack_push input;; set_alias_at input kUntrackable
       else ret tt).

Fixpoint AssignAliases_loop (fuel : nat) : M unit :=
  match fuel with
  | O => fail
  | S fuel' =>
      let* stk := gets stack_ in
      match stk with
      | [] => ret tt
      | node :: rest =>
          modify (set_stack rest);;
          AssignAliases_visit node;;
          AssignAliases_inputs node;;
          AssignAliases_loop fuel'
      end
  end.

Definition AssignAliases (fuel : nat) : M unit :=
  ResizeStatusVector;;
  let* g := gets graph_ in
  stack_push (end_ g);;
  let* n := NodeCount in
  if decide (N.of_nat n < kUntrackable) then
    let* al := gets aliases_ in
    modify (set_aliases (VirtualObject.resize n kNotReachable al));;
    set_alias_at (end_ g) kUntrackable;;
    AssignAliases_loop fuel
  else fail (* CHECK_LT *).

(** The loop of [IsDanglingEffectNode] over the use edges. *)
Fixpoint IsDanglingEffectNode_loop (node : NodeId) (edges : list Edge) : M bool :=
  match edges with
  | [] => status_or node (N.lor kDanglingComputed kDangling);; ret true
  | edge :: rest =>
      let* a := alias_at (from edge) in
      if decide (a = kNotReachable) then IsDanglingEffectNode_loop node rest
      else
        let* ee := IsEffectEdge edge in
        if (ee : bool) then status_or node kDanglingComputed;; ret false
        else IsDanglingEffectNode_loop node rest
  end.

Definition IsDanglingEffectNode (node : NodeId) : M bool :=
  let* v := status_at node in
  if has_flag v kDanglingComputed then ret (has_flag v kDangling)
  else
    let* o := get_op node in
    let* from_start :=
      (if bool_decide (EffectInputCount o = 0)%nat
          || bool_decide (EffectOutputCount o = 0)%nat then ret true
       else if bool_decide (EffectInputCount o = 1)%nat then
         let* e := GetEffectInput node 0 in
         let* eoc := get_opcode e in
         ret (bool_decide (eoc = kStart))
       else ret false) in
    if (from_start : bool) then status_or node kDanglingComputed;; ret false
    else
      let* edges := use_edges node in
      IsDanglingEffectNode_loop node edges.

(** The loop of [IsEffectBranchPoint] over the use edges. *)
Fixpoint IsEffectBranchPoint_loop (node : NodeId) (edges : list Edge)
    (count : nat) : M bool :=
  match edges with
  | [] => status_or node kBranchPointComputed;; ret false
  | edge :: rest =>
      let use := from edge in
      let* a := alias_at use in
      if decide (a = kNotReachable) then IsEffectBranchPoint_loop node rest count
      else
        let* ee := IsEffectEdge edge in
        if (ee : bool) then
          let* uoc := get_opcode use in
          let* dangling :=
            (if bool_decide (uoc = kLoadField) || bool_decide (uoc = kLoadElement)
                || bool_decide (uoc = kLoad)
             then IsDanglingEffectNode use else ret false) in
          if (dangling : bool) then IsEffectBranchPoint_loop node rest count
          else if decide (1 < S count)%nat then
            status_or node (N.lor kBranchPointComputed kBranchPoint);; ret true
          else IsEffectBranchPoint_loop node rest (S count)
        else IsEffectBranchPoint_loop node rest count
  end.

Definition IsEffectBranchPoint (node : NodeId) : M bool :=
  let* v := status_at node in
  if has_flag v kBranchPointComputed then ret (has_flag v kBranchPoint)
  else
    let* edges := use_edges node in
    IsEffectBranchPoint_loop node edges 0%nat.

(** ** MergeCache (methods) *)

Definition get_cache : M MergeCache.t :=
  let* c := gets cache_ in lift c.
Definition cache_states : M (list StatePtr) :=
  let* c := get_cache in ret (MergeCache.states_ c).
Definition cache_objects : M (list ObjPtr) :=
  let* c := get_cache in ret (MergeCache.objects_ c).
Definition cache_fields : M (list NodeId) :=
  let* c := get_cache in ret (MergeCache.fields_ c).
Definition set_cache_states (l : list StatePtr) : M unit :=
  let* c := get_cache in
  modify (set_cache (Some (MergeCache.mk l (MergeCache.objects_ c) (MergeCache.fields_ c)))).
Definition set_cache_objects (l : list ObjPtr) : M unit :=
  let* c := get_cache in
  modify (set_cache (Some (MergeCache.mk (MergeCache.states_ c) l (MergeCache.fields_ c)))).
Definition set_cache_fields (l : list NodeId) : M unit :=
  let* c := get_cache in
  modify (set_cache (Some (MergeCache.mk (MergeCache.states_ c) (MergeCache.objects_ c) l))).
Definition push_cache_state (p : StatePtr) : M unit :=
  let* l := cache_states in set_cache_states (l ++ [p]).
Definition push_cache_object (p : ObjPtr) : M unit :=
  let* l := cache_objects in set_cache_objects (l ++ [p]).
Definition push_cache_field (n : NodeId) : M unit :=
  let* l := cache_fields in set_cache_fields (l ++ [n]).

Definition MergeCache_Clear : M unit :=
  let* _ := get_cache in modify (set_cache (Some MergeCache.empty)).

Definition LoadVirtualObjectsForFieldsFrom (state : StatePtr) : M unit :=
  set_cache_objects [];;
  let* max_alias := VirtualState_size state in
  let* fields := cache_fields in
  forM_ fields
    (fun field =>
       let* alias := alias_at field in
       if decide (N.of_nat max_alias <= alias) then ret tt
       else
         let* obj := VirtualObjectFromAlias state (N.to_nat alias) in
         match obj with
         | Some p => push_cache_object p
         | None => ret tt
         end).

(** [Node* MergeCache::GetFields(size_t pos)]; [pos] carries the value of
    the [size_t]. *)
Definition MergeCache_GetFields (pos : Z) : M (option NodeId) :=
  set_cache_fields [];;
  let* objs := cache_objects in
  let* front := lift (head objs) in
  let* fo := load_object front in
  let* rep0 :=
    (if decide (Z.of_nat (VirtualObject.field_count fo) <= pos)%Z then ret None
     else lift (VirtualObject.GetField fo (Z.to_nat pos))) in
  foldM
    (fun rep obj =>
       let* o := load_object obj in
       if decide (Z.of_nat (VirtualObject.field_count o) <= pos)%Z then ret rep
       else
         let* field := lift (VirtualObject.GetField o (Z.to_nat pos)) in
         match field with
         | Some f => push_cache_field f
         | None => ret tt
         end;;
         if decide (field = rep) then ret rep else ret None)
    rep0 objs.

(** ** Phi equivalence *)

(** The loop over the value inputs, with the comparison of one pair of
    inputs passed as [eqv]. *)
Fixpoint all_inputs_equivalent (eqv : NodeId -> NodeId -> option bool)
    (ins1 : list NodeId) (ins2 : list NodeId) (idx : list nat) : option bool :=
  match idx with
  | [] => Some true
  | i :: rest =>
      match ins1 !! i, ins2 !! i with
      | Some input1, Some input2 =>
          match eqv input1 input2 with
          | Some true => all_inputs_equivalent eqv ins1 ins2 rest
          | Some false => Some false
          | None => None
          end
      | _, _ => None
      end
  end.

(** [bool IsEquivalentPhi(Node* node1, Node* node2)]; the recursion of the
    source is not structural, the fuel bounds its depth. *)
Fixpoint IsEquivalentPhi_fuel (fuel : nat) (g : Graph) (node1 node2 : NodeId)
    : option bool :=
  match fuel with
  | O => None
  | S fuel' =>
      if decide (node1 = node2) then Some true
      else
        match nodes g !! node1, nodes g !! node2 with
        | Some n1, Some n2 =>
            if bool_decide (opcode (op n1) <> kPhi)
               || bool_decide (opcode (op n2) <> kPhi)
               || bool_decide (ValueInputCount (op n1) <> ValueInputCount (op n2))
            then Some false
            else all_inputs_equivalent (IsEquivalentPhi_fuel fuel' g)
                   (inputs n1) (inputs n2) (seq 0 (ValueInputCount (op n1)))
        | _, _ => None
        end
  end.

(** A recursion deeper than the number of pairs of nodes compares some
    pair twice on one path and never returns. *)
Definition equivalence_fuel (g : Graph) : nat :=
  S (length (nodes g) * length (nodes g)).

Definition IsEquivalentPhi (node1 node2 : NodeId) : M bool :=
  let* g := gets graph_ in
  lift (IsEquivalentPhi_fuel (equivalence_fuel g) g node1 node2).

(** [bool IsEquivalentPhi(Node* phi, ZoneVector<Node*>& inputs)]. *)
Definition IsEquivalentPhi_inputs (phi : NodeId) (ins : list NodeId) : M bool :=
  let* g := gets graph_ in
  let* p := lift (nodes g !! phi) in
  if bool_decide (opcode (op p) <> kPhi) then ret false
  else if bool_decide (ValueInputCount (op p) <> length ins) then ret false
  else
    lift (all_inputs_equivalent (IsEquivalentPhi_fuel (equivalence_fuel g) g)
            (inputs p) ins (seq 0 (length ins))).

(** [bool EscapeAnalysis::CompareVirtualObjects(Node* left, Node* right)].
    The [DCHECK] that both nodes are virtual is left out, as everywhere
    here: the model is the code of a release build. *)
Definition CompareVirtualObjects (left right : NodeId) : M bool :=
  let* left := ResolveReplacement left in
  let* right := ResolveReplacement right in
  let* e := IsEquivalentPhi left right in
  if (e : bool) then ret true else ret false.

(** ** VirtualState::MergeFrom *)

(** The local variables of one iteration of the outer loop while the
    states of the cache are visited. *)
Record MergeLocals := mkMergeLocals {
  copy_merge_object : bool;
  merge_changed : bool;
  (** [None] stands for [std::numeric_limits<size_t>::max()]. *)
  merge_fields : option nat
}.

Definition min_fields (count : nat) (fields : option nat) : option nat :=
  match fields with
  | None => Some count
  | Some f => Some (Nat.min count f)
  end.

Definition MergeFrom_collect (alias : nat) (mergeObject : option ObjPtr)
    (loc : MergeLocals) (state : StatePtr) : M MergeLocals :=
  let* obj := VirtualObjectFromAlias state alias in
  match obj with
  | Some p =>
      push_cache_object p;;
      let* o := load_object p in
      let same := bool_decide (mergeObject = Some p) in
      ret (mkMergeLocals
             (if same then true else copy_merge_object loc)
             (if same then true else merge_changed loc)
             (min_fields (VirtualObject.field_count o) (merge_fields loc)))
  | None => ret loc
  end.

(** The update in place of a phi created by an earlier merge. *)
Definition MergeFrom_update_phi (rep : NodeId) (fields : list NodeId)
    (changed : bool) : M bool :=
  foldM
    (fun changed n =>
       let* old := GetValueInput rep n in
       let* new := lift (fields !! n) in
       if decide (old = new) then ret changed
       else ReplaceValueInput rep new n;; ret true)
    changed (seq 0 (length fields)).

(** One iteration of the loop over the fields of the merged object. *)
Definition MergeFrom_field (mergeObject : ObjPtr) (control : NodeId)
    (arity : nat) (changed : bool) (i : nat) : M bool :=
  let* agreed := MergeCache_GetFields (Z.of_nat i) in
  match agreed with
  | Some field =>
      let* mo := load_object mergeObject in
      let* changed' :=
        (if changed then ret true
         else let* cur := lift (VirtualObject.GetField mo i) in
              ret (negb (bool_decide (cur = Some field)))) in
      let* mo' := lift (VirtualObject.SetField i (Some field) false mo) in
      store_object mergeObject mo';;
      ret changed'
  | None =>
      let* fields := cache_fields in
      let value_input_count := length fields in
      if decide (length fields = arity) then
        let* mo := load_object mergeObject in
        let* rep := lift (VirtualObject.GetField mo i) in
        let* created :=
          match rep with
          | None => ret false
          | Some _ => lift (VirtualObject.IsCreatedPhi mo i)
          end in
        match rep, created with
        | Some r, true => MergeFrom_update_phi r fields changed
        | _, _ =>
            push_cache_field control;;
            let* phi := NewNode (Phi_operator value_input_count)
                                (fields ++ [control]) in
            let* mo' := lift (VirtualObject.SetField i (Some phi) true mo) in
            store_object mergeObject mo';;
            ret true
        end
      else
        let* mo := load_object mergeObject in
        let* cur := lift (VirtualObject.GetField mo i) in
        let* mo' := lift (VirtualObject.SetField i None false mo) in
        store_object mergeObject mo';;
        ret (match cur with Some _ => true | None => changed end)
  end.

(** One iteration of the loop over the aliases. *)
Definition MergeFrom_alias (this : StatePtr) (control : NodeId) (arity : nat)
    (changed : bool) (alias : nat) : M bool :=
  set_cache_objects [];;
  let* mergeObject := VirtualObjectFromAlias this alias in
  let* states := cache_states in
  let* loc := foldM (MergeFrom_collect alias mergeObject)
                    (mkMergeLocals false changed None) states in
  let* objs := cache_objects in
  if decide (length objs = length states) then
    let* front := lift (head objs) in
    let* fo := load_object front in
    let* fields := lift (merge_fields loc) in
    (* the arguments [initialized] and [fields] are passed in the order
       of the call site: the declaration takes the field number first *)
    let* mo := GetOrCreateTrackedVirtualObject this alias (VirtualObject.id fo)
                 (if VirtualObject.IsInitialized fo then 1 else 0)%nat
                 (negb (fields =? 0)%nat)
                 (copy_merge_object loc) in
    let* o := load_object mo in
    let '(o', resized) := VirtualObject.ResizeFields fields o in
    store_object mo o';;
    foldM (MergeFrom_field mo control arity)
          (resized || merge_changed loc) (seq 0 fields)
  else
    SetVirtualObject this alias None;;
    ret (match mergeObject with Some _ => true | None => merge_changed loc end).

(** [bool VirtualState::MergeFrom(MergeCache* cache, Zone* zone, Graph* graph,
    CommonOperatorBuilder* common, Node* control, int arity)]. *)
Definition MergeFrom (this : StatePtr) (control : NodeId) (arity : nat) : M bool :=
  let* size := VirtualState_size this in
  foldM (MergeFrom_alias this control arity) false (seq 0 size).

(** ** EscapeAnalysis: the virtual-state fixed point *)

Section ObjectAnalysis.

(** [kPointerSize] and [kPointerSizeLog2] of the target ([globals.h]). *)
Variable kPointerSize : Z.
Variable kPointerSizeLog2 : Z.

(** The value of an [int] converted to [size_t]. *)
Definition size_t_of_int (z : Z) : Z := (z mod 2 ^ (8 * kPointerSize))%Z.

Definition virtual_state_at (id : NodeId) : M (option StatePtr) :=
  let* vs := gets virtual_states_ in lift (vs !! id).
Definition set_virtual_state_at (id : NodeId) (st : option StatePtr) : M unit :=
  let* vs := gets virtual_states_ in
  if decide (id < length vs)%nat
  then modify (set_virtual_states (<[id := st]> vs))
  else fail.

(** [Alias EscapeAnalysis::GetAlias(NodeId id)]. *)
Definition GetAlias (id : NodeId) : M Alias := alias_at id.

(** [VirtualState* CopyForModificationAt(VirtualState* state, Node* node)]. *)
Definition CopyStateForModificationAt (state : StatePtr) (node : NodeId)
    : M StatePtr :=
  let* owner := VirtualState_owner state in
  if decide (owner <> node) then
    let* new_state := VirtualState_copy node state in
    set_virtual_state_at node (Some new_state);;
    ret new_state
  else ret state.

(** [VirtualObject* CopyForModificationAt(VirtualObject* obj,
    VirtualState* state, Node* node)]. *)
Definition CopyForModificationAt (obj : ObjPtr) (state : StatePtr)
    (node : NodeId) : M ObjPtr :=
  let* o := load_object obj in
  if VirtualObject.NeedCopyForModification o then
    let* state' := CopyStateForModificationAt state node in
    let* alias := GetAlias (VirtualObject.id o) in
    VirtualState_Copy state' obj (N.to_nat alias)
  else ret obj.

Definition ForwardVirtualState (node : NodeId) : M unit :=
  let* effect := GetEffectInput node 0 in
  let* mine := virtual_state_at node in
  let* theirs := virtual_state_at effect in
  match mine with
  | Some st =>
      match theirs with
      | Some from => let* _ := VirtualState_UpdateFrom st from in ret tt
      | None =>
          (* [from] is only dereferenced inside the loop over the aliases *)
          let* size := VirtualState_size st in
          if decide (size = 0)%nat then ret tt else fail
      end
  | None =>
      set_virtual_state_at node theirs;;
      let* bp := IsEffectBranchPoint effect in
      let* o := get_op node in
      if (bp : bool) || bool_decide (0 < FrameStateInputCount o)%nat then
        let* st := lift theirs in VirtualState_SetCopyRequired st
      else ret tt
  end.

Definition ProcessStart (node : NodeId) : M unit :=
  let* n := AliasCount in
  let* st := VirtualState_create node (N.to_nat n) in
  set_virtual_state_at node (Some st).

(** One iteration of the loop of [ProcessEffectPhi] over the effect inputs;
    the accumulator is ([mergeState], [changed]). *)
Definition ProcessEffectPhi_input (node : NodeId) (acc : StatePtr * bool)
    (i : nat) : M (StatePtr * bool) :=
  let '(mergeState, changed) := acc in
  let* input := GetEffectInput node i in
  let* state := virtual_state_at input in
  match state with
  | Some st =>
      push_cache_state st;;
      if decide (st = mergeState) then
        let* n := AliasCount in
        let* fresh := VirtualState_create node (N.to_nat n) in
        set_virtual_state_at node (Some fresh);;
        ret (fresh, true)
      else ret acc
  | None => ret acc
  end.

Definition ProcessEffectPhi (node : NodeId) : M bool :=
  let* existing := virtual_state_at node in
  let* '(mergeState, changed) :=
    match existing with
    | Some st => ret (st, false)
    | None =>
        let* n := AliasCount in
        let* st := VirtualState_create node (N.to_nat n) in
        set_virtual_state_at node (Some st);;
        ret (st, true)
    end in
  MergeCache_Clear;;
  let* o := get_op node in
  let* '(mergeState, changed) :=
    foldM (ProcessEffectPhi_input node) (mergeState, changed)
          (seq 0 (EffectInputCount o)) in
  let* states := cache_states in
  if decide (length states = 0)%nat then ret changed
  else
    let* control := GetControlInput node 0 in
    let* c := MergeFrom mergeState control (EffectInputCount o) in
    let changed := c || changed in
    (if changed then ResizeStatusVector else ret tt);;
    ret changed.

(** [size.Value() / kPointerSize], converted to [size_t]: the quotient is
    truncated, and a negative one has no defined conversion. *)
Definition field_number_of_size (size : Z) : option nat :=
  if decide (0 <= Z.quot size kPointerSize)%Z
  then Some (Z.to_nat (Z.quot size kPointerSize)) else None.

Definition ProcessAllocation (node : NodeId) : M unit :=
  ForwardVirtualState node;;
  let* state := virtual_state_at node in
  let* state := lift state in
  let* alias := GetAlias node in
  (* Check if we have already processed this node. *)
  let* existing := VirtualObjectFromAlias state (N.to_nat alias) in
  match existing with
  | Some _ => ret tt
  | None =>
      let* owner := VirtualState_owner state in
      let* ooc := get_opcode owner in
      let* state :=
        (if decide (ooc = kEffectPhi)
         then CopyStateForModificationAt state node else ret state) in
      let* in0 := InputAt node 0 in
      let* size := NumberMatcher in0 in
      match size with
      | Some v =>
          let* n := lift (field_number_of_size v) in
          let* obj := new_object (VirtualObject.create_tracked node state n false) in
          SetVirtualObject state (N.to_nat alias) (Some obj)
      | None =>
          let* obj := new_object (VirtualObject.create node state) in
          SetVirtualObject state (N.to_nat alias) (Some obj)
      end
  end.

Definition EscapeAnalysis_ProcessFinishRegion (node : NodeId) : M unit :=
  ForwardVirtualState node;;
  let* allocation := GetValueInput node 0 in
  let* aoc := get_opcode allocation in
  if decide (aoc = kAllocate) then
    let* state := virtual_state_at node in
    let* state := lift state in
    let* alias := GetAlias node in
    let* obj := VirtualObjectFromAlias state (N.to_nat alias) in
    let* p := lift obj in
    let* o := load_object p in
    store_object p (fst (VirtualObject.SetInitialized o))
  else ret tt.

Definition EscapeAnalysis_IsVirtual (node : NodeId) : M bool :=
  let* size := GetStatusVectorSize in
  if decide (size <= node)%nat then ret false
  else EscapeStatusAnalysis_IsVirtual node.

Definition EscapeAnalysis_IsEscaped (node : NodeId) : M bool :=
  let* size := GetStatusVectorSize in
  if decide (size <= node)%nat then ret false
  else EscapeStatusAnalysis_IsEscaped node.

Definition EscapeAnalysis_SetEscaped (node : NodeId) : M bool :=
  EscapeStatusAnalysis_SetEscaped node.

(** [VirtualObject* GetVirtualObject(VirtualState* state, Node* node)]. *)
Definition GetVirtualObject (state : option StatePtr) (node : NodeId)
    : M (option ObjPtr) :=
  let* al := gets aliases_ in
  if decide (length al <= node)%nat then ret None
  else
    let* alias := GetAlias node in
    let* st := lift state in
    let* size := VirtualState_size st in
    if decide (N.of_nat size <= alias) then ret None
    else VirtualObjectFromAlias st (N.to_nat alias).

Definition ResolveVirtualObject (state : option StatePtr) (node : NodeId)
    : M (option ObjPtr) :=
  let* r := ResolveReplacement node in GetVirtualObject state r.

Definition field_access_offset (node : NodeId) : M Z :=
  let* o := get_op node in
  match parameter o with
  | FieldAccess offset => ret offset
  | _ => fail
  end.

Definition OffsetFromAccess (node : NodeId) : M Z :=
  let* offset := field_access_offset node in
  ret (Z.quot offset kPointerSize).

Definition ProcessLoadFromPhi (offset : Z) (from node : NodeId)
    (state : option StatePtr) : M unit :=
  set_cache_fields [];;
  let* o := get_op node in
  forM_ (seq 0 (ValueInputCount o))
    (fun i => let* input := GetValueInput node i in push_cache_field input);;
  let* st := lift state in
  LoadVirtualObjectsForFieldsFrom st;;
  let* objs := cache_objects in
  let* fields := cache_fields in
  if decide (length objs = length fields) then
    let* _ := MergeCache_GetFields (size_t_of_int offset) in
    let* fields := cache_fields in
    if decide (length fields = length objs) then
      let* rep := EscapeAnalysis_replacement node in
      let* reuse :=
        match rep with
        | None => ret false
        | Some r => IsEquivalentPhi_inputs r fields
        end in
      if negb reuse then
        let value_input_count := length fields in
        let* control := GetControlInput from 0 in
        push_cache_field control;;
        let* phi := NewNode (Phi_operator value_input_count)
                            (fields ++ [control]) in
        ResizeStatusVector;;
        let* _ := SetReplacement node (Some phi) in
        ret tt
      else ret tt
    else ret tt
  else ret tt.

(** The part shared by the loads once the object is known: the slot is
    read and its resolved value recorded as the replacement. *)
Definition load_from_object (object : ObjPtr) (offset : Z) (node : NodeId)
    (state : StatePtr) : M unit :=
  let* o := load_object object in
  if negb (VirtualObject.IsTracked o)
     || bool_decide (Z.of_nat (VirtualObject.field_count o) <= size_t_of_int offset)%Z
  then ret tt
  else
    let* value := lift (VirtualObject.GetField o (Z.to_nat (size_t_of_int offset))) in
    let* value :=
      match value with
      | Some v => let* r := ResolveReplacement v in ret (Some r)
      | None => ret None
      end in
    let* _ := UpdateReplacement (Some state) node value in
    ret tt.

Definition ProcessLoadField (node : NodeId) : M unit :=
  ForwardVirtualState node;;
  let* in0 := GetValueInput node 0 in
  let* from := ResolveReplacement in0 in
  let* state := virtual_state_at node in
  let* object := GetVirtualObject state from in
  match object with
  | Some obj =>
      let* offset := OffsetFromAccess node in
      let* st := lift state in
      load_from_object obj offset node st
  | None =>
      let* foc := get_opcode from in
      let* aligned :=
        (if bool_decide (foc = kPhi) then
           let* off := field_access_offset node in
           ret (bool_decide (Z.rem off kPointerSize = 0)%Z)
         else ret false) in
      if (aligned : bool) then
        let* offset := OffsetFromAccess node in
        ProcessLoadFromPhi offset from node state
      else
        let* _ := UpdateReplacement state node None in ret tt
  end.

Definition element_access (node : NodeId) : M (Z * Z) :=
  let* o := get_op node in
  match parameter o with
  | ElementAccess header_size log2 => ret (header_size, log2)
  | _ => fail
  end.

(** The two [CHECK]s on an element access. *)
Definition check_element_access (access : Z * Z) : M unit :=
  if decide (kPointerSizeLog2 <= snd access)%Z then
    if decide (Z.rem (fst access) kPointerSize = 0)%Z then ret tt else fail
  else fail.

Definition ProcessLoadElement (node : NodeId) : M unit :=
  ForwardVirtualState node;;
  let* in0 := GetValueInput node 0 in
  let* from := ResolveReplacement in0 in
  let* state := virtual_state_at node in
  let* index_node := InputAt node 1 in
  let* index := NumberMatcher index_node in
  let* access := element_access node in
  match index with
  | Some v =>
      let offset := (v + Z.quot (fst access) kPointerSize)%Z in
      let* object := GetVirtualObject state from in
      match object with
      | Some obj =>
          check_element_access access;;
          let* st := lift state in
          load_from_object obj offset node st
      | None =>
          let* foc := get_opcode from in
          if decide (foc = kPhi) then ProcessLoadFromPhi offset from node state
          else let* _ := UpdateReplacement state node None in ret tt
      end
  | None =>
      (* a load from a non-const index: the object cannot be eliminated *)
      let* _ := EscapeAnalysis_SetEscaped from in ret tt
  end.

(** The part shared by the stores once the object and the slot are known. *)
Definition store_to_object (obj : ObjPtr) (offset : nat) (val : NodeId)
    (state : StatePtr) (node : NodeId) : M unit :=
  let* o := load_object obj in
  let* cur := lift (VirtualObject.GetField o offset) in
  if decide (cur = Some val) then ret tt
  else
    let* obj' := CopyForModificationAt obj state node in
    let* o' := load_object obj' in
    let* o'' := lift (VirtualObject.SetField offset (Some val) false o') in
    store_object obj' o''.

Definition ProcessStoreField (node : NodeId) : M unit :=
  ForwardVirtualState node;;
  let* in0 := GetValueInput node 0 in
  let* to_ := ResolveReplacement in0 in
  let* state := virtual_state_at node in
  let* obj := GetVirtualObject state to_ in
  let* offset := OffsetFromAccess node in
  match obj with
  | Some p =>
      let* o := load_object p in
      if VirtualObject.IsTracked o
         && bool_decide (size_t_of_int offset < Z.of_nat (VirtualObject.field_count o))%Z
      then
        let* in1 := GetValueInput node 1 in
        let* val := ResolveReplacement in1 in
        let* st := lift state in
        store_to_object p (Z.to_nat (size_t_of_int offset)) val st node
      else ret tt
  | None => ret tt
  end.

(** [ClearAllFields] after the copy for modification, when some field is
    still set. *)
Definition clear_object (obj : ObjPtr) (state : StatePtr) (node : NodeId)
    : M unit :=
  let* o := load_object obj in
  if negb (VirtualObject.AllFieldsClear o) then
    let* obj' := CopyForModificationAt obj state node in
    let* o' := load_object obj' in
    let* o'' := lift (VirtualObject.ClearAllFields o') in
    store_object obj' o''
  else ret tt.

Definition ProcessStoreElement (node : NodeId) : M unit :=
  ForwardVirtualState node;;
  let* in0 := GetValueInput node 0 in
  let* to_ := ResolveReplacement in0 in
  let* index_node := InputAt node 1 in
  let* index := NumberMatcher index_node in
  let* access := element_access node in
  let* state := virtual_state_at node in
  let* obj := GetVirtualObject state to_ in
  match index with
  | Some v =>
      let offset := (v + Z.quot (fst access) kPointerSize)%Z in
      match obj with
      | Some p =>
          let* o := load_object p in
          if VirtualObject.IsTracked o
             && bool_decide (size_t_of_int offset < Z.of_nat (VirtualObject.field_count o))%Z
          then
            check_element_access access;;
            let* in2 := GetValueInput node 2 in
            let* val := ResolveReplacement in2 in
            let* st := lift state in
            store_to_object p (Z.to_nat (size_t_of_int offset)) val st node
          else ret tt
      | None => ret tt
      end
  | None =>
      (* a store to a non-const index: the object cannot be eliminated *)
      let* _ := EscapeAnalysis_SetEscaped to_ in
      match obj with
      | Some p =>
          let* o := load_object p in
          if VirtualObject.IsTracked o then
            let* st := lift state in clear_object p st node
          else ret tt
      | None => ret tt
      end
  end.

(** The opcodes that [ProcessAllocationUsers] leaves alone. *)
Definition is_allowed_user (oc : IrOpcode) : bool :=
  match oc with
  | kStoreField | kLoadField | kStoreElement | kLoadElement | kFrameState
  | kStateValues | kReferenceEqual | kFinishRegion | kObjectIsSmi => true
  | _ => false
  end.

Definition ProcessAllocationUsers (node : NodeId) : M unit :=
  let* edges := input_edges node in
  forM_ edges
    (fun edge =>
       let input := to edge in
       let use := from edge in
       let* uop := get_op use in
       if decide (ValueInputCount uop + ContextInputCount uop <= index edge)%nat
       then ret tt
       else
         let* oc := get_opcode node in
         if is_allowed_user oc then ret tt
         else
           let* state := virtual_state_at node in
           let* obj := ResolveVirtualObject state input in
           match obj with
           | Some p => let* st := lift state in clear_object p st node
           | None => ret tt
           end).

Definition EscapeAnalysis_Process (node : NodeId) : M bool :=
  let* oc := get_opcode node in
  match oc with
  | kAllocate => ProcessAllocation node;; ret true
  | kBeginRegion => ForwardVirtualState node;; ret true
  | kFinishRegion => EscapeAnalysis_ProcessFinishRegion node;; ret true
  | kStoreField => ProcessStoreField node;; ret true
  | kLoadField => ProcessLoadField node;; ret true
  | kStoreElement => ProcessStoreElement node;; ret true
  | kLoadElement => ProcessLoadElement node;; ret true
  | kStart => ProcessStart node;; ret true
  | kEffectPhi => ProcessEffectPhi node
  | _ =>
      let* o := get_op node in
      (if decide (0 < EffectInputCount o)%nat
       then ForwardVirtualState node else ret tt);;
      ProcessAllocationUsers node;;
      ret true
  end.

(** The queue of [RunObjectAnalysis] is a deque: the head of the list is
    its back.  One use edge of the node just processed; the accumulator is
    the queue and the vector [danglers]. *)
Definition RunObjectAnalysis_use (acc : list NodeId * list NodeId)
    (edge : Edge) : M (list NodeId * list NodeId) :=
  let '(queue, danglers) := acc in
  let use := from edge in
  let* nr := IsNotReachable use in
  if (nr : bool) then ret acc
  else
    let* ee := IsEffectEdge edge in
    if (ee : bool) then
      let* uoc := get_opcode use in
      if decide (uoc = kEffectPhi) then
        let* q := IsInQueue use in
        if negb q then ret (queue ++ [use], danglers) else ret acc
      else
        let* enqueue :=
          (if bool_decide (uoc <> kLoadField) && bool_decide (uoc <> kLoadElement)
           then ret true
           else let* d := IsDanglingEffectNode use in ret (negb d)) in
        if (enqueue : bool) then
          let* q := IsInQueue use in
          if negb q then SetInQueue use true;; ret (use :: queue, danglers)
          else ret acc
        else ret (queue, danglers ++ [use])
    else ret acc.

Fixpoint RunObjectAnalysis_loop (fuel : nat) (queue : list NodeId) : M unit :=
  match fuel with
  | O => fail
  | S fuel' =>
      match queue with
      | [] => ret tt
      | node :: queue =>
          SetInQueue node false;;
          let* p := EscapeAnalysis_Process node in
          if (p : bool) then
            let* edges := use_edges node in
            let* '(queue, danglers) :=
              foldM RunObjectAnalysis_use (queue, []) edges in
            (* danglers are processed immediately *)
            RunObjectAnalysis_loop fuel' (rev danglers ++ queue)
          else RunObjectAnalysis_loop fuel' queue
      end
  end.

Definition RunObjectAnalysis (fuel : nat) : M unit :=
  let* n := NodeCount in
  let* vs := gets virtual_states_ in
  modify (set_virtual_states (VirtualObject.resize n None vs));;
  let* g := gets graph_ in
  RunObjectAnalysis_loop fuel [start g].

(** [void EscapeAnalysis::Run()]; [fuel] bounds the iterations of each of
    the three work lists. *)
Definition Run (fuel : nat) : M unit :=
  let* n := NodeCount in
  let* tbl := gets replacements_ in
  modify (set_replacements (VirtualObject.resize n None tbl));;
  AssignAliases fuel;;
  let* count := AliasCount in
  if decide (0 < count) then
    modify (set_cache (Some MergeCache.empty));;
    let* n := NodeCount in
    let* tbl := gets replacements_ in
    modify (set_replacements (VirtualObject.resize n None tbl));;
    ResizeStatusVector;;
    RunObjectAnalysis fuel;;
    RunStatusAnalysis fuel
  else ret tt.

End ObjectAnalysis.

(** The analysis as its constructors leave it: the status of every node of
    the graph is [kUnknown], every other table is empty. *)
Definition new_EscapeAnalysis (g : Graph) : Analysis :=
  mkAnalysis g [] [] [] (replicate (length (nodes g)) kUnknown) 0 [] []
             [] [] None.

(** * Properties *)

(** ** Flag sets *)

Lemma has_flag_true (v m : N) : has_flag v m = true <-> N.land v m <> 0.
Proof.
  unfold has_flag. rewrite negb_true_iff, N.eqb_neq. done.
Qed.

Lemma has_flag_false (v m : N) : has_flag v m = false <-> N.land v m = 0.
Proof.
  unfold has_flag. rewrite negb_false_iff, N.eqb_eq. done.
Qed.

Lemma has_flag_lor_mask (v a b : N) :
  has_flag v (N.lor a b) = has_flag v a || has_flag v b.
Proof.
  unfold has_flag. rewrite N.land_lor_distr_r.
  destruct (N.eqb_spec (N.land v a) 0) as [Ha|Ha],
           (N.eqb_spec (N.land v b) 0) as [Hb|Hb]; simpl;
    rewrite ?negb_true_iff, ?negb_false_iff, ?N.eqb_eq, ?N.eqb_neq,
            N.lor_eq_0_iff; tauto.
Qed.

Lemma has_flag_set_flag (v m m' : N) :
  has_flag (set_flag v m) m' = has_flag v m' || has_flag m m'.
Proof.
  unfold has_flag, set_flag. rewrite N.land_lor_distr_l.
  destruct (N.eqb_spec (N.land v m') 0) as [Ha|Ha],
           (N.eqb_spec (N.land m m') 0) as [Hb|Hb]; simpl;
    rewrite ?negb_true_iff, ?negb_false_iff, ?N.eqb_eq, ?N.eqb_neq,
            N.lor_eq_0_iff; tauto.
Qed.

Lemma has_flag_clear_flag_other (v m m' : N) :
  N.land m m' = 0 -> has_flag (clear_flag v m) m' = has_flag v m'.
Proof.
  intros H. unfold has_flag, clear_flag. f_equal. f_equal.
  apply N.bits_inj. intros i.
  rewrite !N.land_spec, N.ldiff_spec.
  assert (Hi : N.testbit (N.land m m') i = false) by (rewrite H; apply N.bits_0).
  rewrite N.land_spec in Hi.
  destruct (N.testbit v i), (N.testbit m i), (N.testbit m' i); done.
Qed.

Lemma has_flag_clear_flag_same (v m : N) : has_flag (clear_flag v m) m = false.
Proof.
  apply has_flag_false. unfold clear_flag. apply N.bits_inj. intros i.
  rewrite N.land_spec, N.ldiff_spec, N.bits_0.
  destruct (N.testbit v i), (N.testbit m i); done.
Qed.

(** ** The status table *)

Lemma status_at_Some id s v s' :
  status_at id s = Some (v, s') <-> status_ s !! id = Some v /\ s' = s.
Proof.
  unfold status_at. split.
  - intros H. minv1 H. done.
  - intros [H ->]. apply bind_Some. exists (status_ s), s.
    split; [done|]. by apply lift_Some.
Qed.

Lemma status_or_Some id mask s u s' :
  status_or id mask s = Some (u, s') <->
  exists v, status_ s !! id = Some v /\
            s' = set_status (<[id := set_flag v mask]> (status_ s)) s.
Proof.
  unfold status_or. split.
  - intros H. minv1 H. eauto.
  - intros (v & Hv & ->). destruct u.
    apply bind_Some. exists (status_ s), s. split; [done|].
    apply bind_Some. exists v, s. split; [by apply lift_Some|done].
Qed.

Lemma status_clear_Some id mask s u s' :
  status_clear id mask s = Some (u, s') <->
  exists v, status_ s !! id = Some v /\
            s' = set_status (<[id := clear_flag v mask]> (status_ s)) s.
Proof.
  unfold status_clear. split.
  - intros H. minv1 H. eauto.
  - intros (v & Hv & ->). destruct u.
    apply bind_Some. exists (status_ s), s. split; [done|].
    apply bind_Some. exists v, s. split; [by apply lift_Some|done].
Qed.

Lemma SetEscaped_Some node s c s' :
  EscapeStatusAnalysis_SetEscaped node s = Some (c, s') <->
  exists v, status_ s !! node = Some v /\ c = negb (has_flag v kEscaped) /\
            s' = set_status (<[node := set_flag v (N.lor kEscaped kTracked)]> (status_ s)) s.
Proof.
  unfold EscapeStatusAnalysis_SetEscaped. split.
  - intros H. minv1 H. apply status_at_Some in E as [Hv ->].
    apply status_or_Some in E0 as (v & Hv' & ->). simplify_eq. eauto.
  - intros (v & Hv & -> & ->).
    apply bind_Some. exists v, s. split; [by apply status_at_Some|].
    apply bind_Some. eexists tt, _. split; [apply status_or_Some; eauto|done].
Qed.

Lemma IsEscaped_Some node s b s' :
  EscapeStatusAnalysis_IsEscaped node s = Some (b, s') <->
  exists v, status_ s !! node = Some v /\ b = has_flag v kEscaped /\ s' = s.
Proof.
  unfold EscapeStatusAnalysis_IsEscaped. split.
  - intros H. minv1 H. apply status_at_Some in E as [Hv ->]. eauto.
  - intros (v & Hv & -> & ->).
    apply bind_Some. exists v, s. split; [by apply status_at_Some|done].
Qed.

Lemma IsVirtual_Some id s b s' :
  EscapeStatusAnalysis_IsVirtual id s = Some (b, s') <->
  exists v, status_ s !! id = Some v /\
            b = has_flag v kTracked && negb (has_flag v kEscaped) /\ s' = s.
Proof.
  unfold EscapeStatusAnalysis_IsVirtual. split.
  - intros H. minv1 H. apply status_at_Some in E as [Hv ->]. eauto.
  - intros (v & Hv & -> & ->).
    apply bind_Some. exists v, s. split; [by apply status_at_Some|done].
Qed.

Lemma HasEntry_Some node s b s' :
  HasEntry node s = Some (b, s') <->
  exists v, status_ s !! node = Some v /\
            b = has_flag v (N.lor kTracked kEscaped) /\ s' = s.
Proof.
  unfold HasEntry. split.
  - intros H. minv1 H. apply status_at_Some in E as [Hv ->]. eauto.
  - intros (v & Hv & -> & ->).
    apply bind_Some. exists v, s. split; [by apply status_at_Some|done].
Qed.

(** C10.  Marking a node escaped sets both [kEscaped] and [kTracked]; in
    every state of the analysis a node that is escaped has a status entry,
    and no node is both virtual and escaped. *)
Theorem escaped_has_entry_and_is_not_virtual (s : Analysis) (node : NodeId) :
  ((node < length (status_ s))%nat ->
   exists c s' v,
     EscapeStatusAnalysis_SetEscaped node s = Some (c, s') /\
     status_ s' !! node = Some v /\
     has_flag v kEscaped = true /\ has_flag v kTracked = true /\
     EscapeStatusAnalysis_IsEscaped node s' = Some (true, s') /\
     HasEntry node s' = Some (true, s')) /\
  (EscapeStatusAnalysis_IsEscaped node s = Some (true, s) ->
   HasEntry node s = Some (true, s)) /\
  ~ (EscapeStatusAnalysis_IsVirtual node s = Some (true, s) /\
     EscapeStatusAnalysis_IsEscaped node s = Some (true, s)).
Proof.
  split; [|split].
  - intros Hlt. destruct (lookup_lt_is_Some_2 _ _ Hlt) as [v Hv].
    set (v' := set_flag v (N.lor kEscaped kTracked)).
    assert (He : has_flag v' kEscaped = true).
    { unfold v'. rewrite has_flag_set_flag. apply orb_true_iff. right. done. }
    assert (Ht : has_flag v' kTracked = true).
    { unfold v'. rewrite has_flag_set_flag. apply orb_true_iff. right. done. }
    eexists _, _, v'. split; [apply SetEscaped_Some; eauto|]. simpl.
    assert (Hv' : <[node := v']> (status_ s) !! node = Some v')
      by (by apply list_lookup_insert_eq).
    split; [done|]. split; [done|]. split; [done|]. split.
    + apply IsEscaped_Some. exists v'. by rewrite He.
    + apply HasEntry_Some. exists v'. split; [done|]. split; [|done].
      rewrite has_flag_lor_mask, Ht. done.
  - intros H. apply IsEscaped_Some in H as (v & Hv & He & _).
    apply HasEntry_Some. exists v. split; [done|]. split; [|done].
    rewrite has_flag_lor_mask, <- He. by rewrite orb_true_r.
  - intros [Hv He].
    apply IsVirtual_Some in Hv as (v & Hv & Hb & _).
    apply IsEscaped_Some in He as (v' & Hv' & He & _). simplify_eq.
    rewrite <- He in Hb. by rewrite andb_false_r in Hb.
Qed.

(** ** The replacement table: resolution *)

(** [follow tbl k n]: the node reached from [n] after [k] replacements. *)
Fixpoint follow (tbl : list (option NodeId)) (k : nat) (n : NodeId)
    : option NodeId :=
  match k with
  | O => Some n
  | S k' =>
      match replacement tbl n with
      | Some m => follow tbl k' m
      | None => None
      end
  end.

(** No node reaches itself through one or more replacements. *)
Definition acyclic (tbl : list (option NodeId)) : Prop :=
  forall n k, follow tbl (S k) n <> Some n.

(** Every replacement points to a node with a smaller id: a sufficient
    condition that can be computed. *)
Definition points_earlier (tbl : list (option NodeId)) : bool :=
  forallb (fun n => match replacement tbl n with
                    | Some m => bool_decide (m < n)%nat
                    | None => true
                    end)
          (seq 0 (length tbl)).

Lemma replacement_Some_lt tbl n m :
  replacement tbl n = Some m -> (n < length tbl)%nat /\ tbl !! n = Some (Some m).
Proof.
  unfold replacement. case_decide; [done|].
  destruct (tbl !! n) as [[x|]|] eqn:E; simpl; intros; simplify_eq.
  split; [lia|done].
Qed.

Lemma replacement_out_of_bounds tbl n :
  (length tbl <= n)%nat -> replacement tbl n = None.
Proof. intros H. unfold replacement. by case_decide. Qed.

Lemma follow_add tbl j i n :
  follow tbl (j + i) n = follow tbl j n ≫= follow tbl i.
Proof.
  revert n. induction j as [|j IH]; intros n; simpl; [done|].
  destruct (replacement tbl n); simpl; [apply IH|done].
Qed.

Lemma follow_S_r tbl k n :
  follow tbl (S k) n = follow tbl k n ≫= replacement tbl.
Proof.
  replace (S k) with (k + 1)%nat by lia. rewrite follow_add.
  destruct (follow tbl k n) as [m|]; simpl; [|done].
  by destruct (replacement tbl m).
Qed.

Lemma points_earlier_spec tbl :
  points_earlier tbl = true ->
  forall n m, replacement tbl n = Some m -> (m < n)%nat.
Proof.
  unfold points_earlier. rewrite forallb_forall. intros H n m Hr.
  destruct (replacement_Some_lt _ _ _ Hr) as [Hlt _].
  specialize (H n). rewrite Hr in H.
  eapply bool_decide_eq_true_1. apply H. apply in_seq. lia.
Qed.

Lemma follow_earlier tbl :
  (forall n m, replacement tbl n = Some m -> (m < n)%nat) ->
  forall k n m, follow tbl (S k) n = Some m -> (m < n)%nat.
Proof.
  intros H. induction k as [|k IH]; intros n m.
  - simpl. destruct (replacement tbl n) eqn:E; [|done].
    intros; simplify_eq. by apply H.
  - intros Hf. change (follow tbl (S (S k)) n) with
      (match replacement tbl n with
       | Some x => follow tbl (S k) x | None => None end) in Hf.
    destruct (replacement tbl n) as [x|] eqn:E; [|done].
    apply H in E. apply IH in Hf. lia.
Qed.

Lemma points_earlier_acyclic tbl : points_earlier tbl = true -> acyclic tbl.
Proof.
  intros H n k Hf.
  eapply follow_earlier in Hf; [lia|]. by apply points_earlier_spec.
Qed.

(** The loop gives up exactly when the chain is at least as long as the
    fuel. *)
Lemma ResolveReplacement_fuel_None fuel tbl n :
  ResolveReplacement_fuel fuel tbl n = None <-> is_Some (follow tbl fuel n).
Proof.
  revert n. induction fuel as [|fuel IH]; intros n; simpl.
  - split; [eauto|done].
  - destruct (replacement tbl n) as [m|]; [apply IH|].
    split; [done|]. by intros [? ?].
Qed.

Lemma ResolveReplacement_fuel_Some fuel tbl n r :
  ResolveReplacement_fuel fuel tbl n = Some r <->
  exists k, (k < fuel)%nat /\ follow tbl k n = Some r /\ replacement tbl r = None.
Proof.
  revert n. induction fuel as [|fuel IH]; intros n; simpl.
  - split; [done|]. intros (k & ? & _). lia.
  - destruct (replacement tbl n) as [m|] eqn:E.
    + rewrite IH. split.
      * intros (k & Hk & Hf & Hr). exists (S k). split; [lia|].
        simpl. by rewrite E.
      * intros (k & Hk & Hf & Hr). destruct k as [|k]; simpl in Hf.
        -- simplify_eq; congruence.
        -- rewrite E in Hf. exists k. split; [lia|done].
    + split.
      * intros ?; simplify_eq. exists 0%nat. split; [lia|done].
      * intros (k & Hk & Hf & Hr). destruct k as [|k]; simpl in Hf.
        -- by simplify_eq.
        -- by rewrite E in Hf.
Qed.

Lemma follow_is_Some_le tbl k n :
  is_Some (follow tbl k n) -> forall j, (j <= k)%nat -> is_Some (follow tbl j n).
Proof.
  intros H j Hj. replace k with (j + (k - j))%nat in H by lia.
  rewrite follow_add in H. destruct (follow tbl j n); [eauto|].
  by destruct H.
Qed.

(** Pigeonhole: in an acyclic table a chain leaves the table after at most
    [length tbl] replacements. *)
Lemma acyclic_chain_bounded tbl n :
  acyclic tbl -> ~ is_Some (follow tbl (S (length tbl)) n).
Proof.
  intros Hac Hsome.
  set (L := length tbl).
  (* the nodes n_0 .. n_L, each of which has a replacement *)
  assert (Hnodes : forall i, (i <= L)%nat ->
            exists x, follow tbl i n = Some x /\ (x < L)%nat).
  { intros i Hi.
    destruct (follow_is_Some_le _ _ _ Hsome (S i)) as [y Hy]; [unfold L in *; lia|].
    rewrite follow_S_r in Hy.
    destruct (follow tbl i n) as [x|]; [|done]. simpl in Hy.
    exists x. split; [done|]. by apply replacement_Some_lt in Hy as [? _]. }
  set (l := map (fun i => default 0%nat (follow tbl i n)) (seq 0 (S L))).
  assert (Hl : forall i, (i <= L)%nat -> l !! i = follow tbl i n).
  { intros i Hi. unfold l. rewrite list_lookup_fmap, lookup_seq_lt by lia.
    simpl. by destruct (Hnodes i Hi) as (x & -> & _). }
  assert (Hlen : length l = S L) by (unfold l; by rewrite length_map, length_seq).
  assert (Hnd : NoDup l).
  { apply NoDup_alt. intros i j x Hi Hj.
    assert (Hil : (i <= L)%nat) by (apply lookup_lt_Some in Hi; lia).
    assert (Hjl : (j <= L)%nat) by (apply lookup_lt_Some in Hj; lia).
    rewrite Hl in Hi, Hj by done.
    destruct (Nat.lt_trichotomy i j) as [Hlt|[Heq|Hlt]]; [|done|]; exfalso.
    - replace j with (i + S (j - i - 1))%nat in Hj by lia.
      rewrite follow_add, Hi in Hj. by apply Hac in Hj.
    - replace i with (j + S (i - j - 1))%nat in Hi by lia.
      rewrite follow_add, Hj in Hi. by apply Hac in Hi. }
  assert (Hsub : l ⊆+ seq 0 L).
  { apply NoDup_submseteq; [done|]. intros x Hx.
    apply list_elem_of_lookup in Hx as [i Hi].
    assert (Hil : (i <= L)%nat) by (apply lookup_lt_Some in Hi; lia).
    rewrite Hl in Hi by done.
    destruct (Hnodes i Hil) as (y & Hy & Hlt).
    assert (x = y) by congruence. subst.
    apply elem_of_seq. lia. }
  apply submseteq_length in Hsub. rewrite length_seq in Hsub. lia.
Qed.

Lemma resolve_Some tbl n r :
  resolve tbl n = Some r <->
  exists k, (k <= length tbl)%nat /\ follow tbl k n = Some r /\
            replacement tbl r = None.
Proof.
  unfold resolve, resolve_fuel. rewrite ResolveReplacement_fuel_Some.
  split; intros (k & Hk & H); exists k; (split; [lia|done]).
Qed.

(** The model gives up only on a table with a cycle, where the loop of the
    source does not end either. *)
Lemma resolve_None_cyclic tbl n : resolve tbl n = None -> ~ acyclic tbl.
Proof.
  intros H%ResolveReplacement_fuel_None Hac. by eapply acyclic_chain_bounded.
Qed.

(** C6.  On an acyclic replacement table the loop of [ResolveReplacement]
    ends for every node: it returns the node [r] reached after at most
    [length tbl] replacements, which has no replacement itself, and the
    method returns it without touching the analysis. *)
Theorem resolve_terminates (tbl : list (option NodeId)) (n : NodeId) :
  acyclic tbl ->
  exists r k,
    resolve tbl n = Some r /\
    (k <= length tbl)%nat /\ follow tbl k n = Some r /\
    replacement tbl r = None /\
    forall s, replacements_ s = tbl -> ResolveReplacement n s = Some (r, s).
Proof.
  intros Hac. destruct (resolve tbl n) as [r|] eqn:E.
  - pose proof E as (k & Hk & Hf & Hr)%resolve_Some.
    exists r, k. repeat split; try done.
    intros s <-. unfold ResolveReplacement.
    apply bind_Some. exists (replacements_ s), s. split; [done|].
    by apply lift_Some.
  - by apply resolve_None_cyclic in E.
Qed.

Lemma resolve_terminates_witness :
  exists r k,
    resolve [None; Some 0%nat; Some 1%nat] 2%nat = Some r /\
    (k <= 3)%nat /\ follow [None; Some 0%nat; Some 1%nat] k 2%nat = Some r /\
    replacement [None; Some 0%nat; Some 1%nat] r = None /\
    forall s, replacements_ s = [None; Some 0%nat; Some 1%nat] ->
              ResolveReplacement 2%nat s = Some (r, s).
Proof.
  apply (resolve_terminates [None; Some 0%nat; Some 1%nat] 2%nat).
  apply points_earlier_acyclic. reflexivity.
Defined.

(** C5.  Resolution is idempotent: resolving the result of a resolution
    gives that result again (and when the chain of [n] has a cycle, neither
    side is defined). *)
Theorem resolve_idempotent (tbl : list (option NodeId)) (n : NodeId) :
  resolve tbl n ≫= resolve tbl = resolve tbl n.
Proof.
  destruct (resolve tbl n) as [r|] eqn:E; simpl; [|done].
  apply resolve_Some in E as (k & _ & _ & Hr).
  apply resolve_Some. exists 0%nat. split; [lia|done].
Qed.

(** [GetReplacement] is null on a node without replacement, and the
    resolved node otherwise. *)
Lemma GetReplacement_fuel_spec fuel tbl id node :
  GetReplacement_fuel fuel tbl id node =
  match replacement tbl id with
  | None => (fun _ => node) <$> ResolveReplacement_fuel fuel tbl id
  | Some _ => Some <$> ResolveReplacement_fuel fuel tbl id
  end.
Proof.
  revert id node. induction fuel as [|fuel IH]; intros id node; simpl.
  - by destruct (replacement tbl id).
  - destruct (replacement tbl id) as [r|] eqn:E; [|done].
    rewrite IH. destruct (replacement tbl r) eqn:E2; [done|].
    destruct fuel; simpl; [done|]. by rewrite E2.
Qed.

Lemma GetReplacement_Some id s r s' :
  GetReplacement id s = Some (r, s') <->
  GetReplacement_fuel (resolve_fuel (replacements_ s)) (replacements_ s) id None
    = Some r /\ s' = s.
Proof.
  unfold GetReplacement. split.
  - intros H. minv1 H. done.
  - intros [H ->]. apply bind_Some. exists (replacements_ s), s.
    split; [done|]. by apply lift_Some.
Qed.

(** C9.  The public queries tolerate a node id beyond the tables: past the
    end of the status table [IsVirtual] and [IsEscaped] answer [false], past
    the end of the replacement table [replacement] and [GetReplacement]
    answer null, and the analysis (hence the size of every table) is left
    as it was. *)
Theorem queries_are_grow_safe (s : Analysis) (id : NodeId) :
  ((length (status_ s) <= id)%nat ->
   EscapeAnalysis_IsVirtual id s = Some (false, s) /\
   EscapeAnalysis_IsEscaped id s = Some (false, s)) /\
  ((length (replacements_ s) <= id)%nat ->
   EscapeAnalysis_replacement id s = Some (None, s) /\
   GetReplacement id s = Some (None, s)).
Proof.
  split.
  - intros Hle. unfold EscapeAnalysis_IsVirtual, EscapeAnalysis_IsEscaped,
      GetStatusVectorSize.
    split; apply bind_Some; exists (length (status_ s)), s;
      (split; [apply bind_Some; exists (status_ s), s; done|]);
      by case_decide.
  - intros Hle. pose proof (replacement_out_of_bounds _ _ Hle) as Hr. split.
    + unfold EscapeAnalysis_replacement. apply bind_Some.
      exists (replacements_ s), s. split; [done|]. by rewrite Hr.
    + apply GetReplacement_Some. split; [|done].
      unfold resolve_fuel. simpl. by rewrite Hr.
Qed.

Lemma queries_are_grow_safe_witness :
  (EscapeAnalysis_IsVirtual 7%nat (new_EscapeAnalysis (mkGraph [] 0%nat 0%nat))
     = Some (false, new_EscapeAnalysis (mkGraph [] 0%nat 0%nat)) /\
   EscapeAnalysis_IsEscaped 7%nat (new_EscapeAnalysis (mkGraph [] 0%nat 0%nat))
     = Some (false, new_EscapeAnalysis (mkGraph [] 0%nat 0%nat))) /\
  (EscapeAnalysis_replacement 7%nat (new_EscapeAnalysis (mkGraph [] 0%nat 0%nat))
     = Some (None, new_EscapeAnalysis (mkGraph [] 0%nat 0%nat)) /\
   GetReplacement 7%nat (new_EscapeAnalysis (mkGraph [] 0%nat 0%nat))
     = Some (None, new_EscapeAnalysis (mkGraph [] 0%nat 0%nat))).
Proof.
  destruct (queries_are_grow_safe (new_EscapeAnalysis (mkGraph [] 0%nat 0%nat)) 7%nat)
    as [H1 H2].
  split; [apply H1|apply H2]; simpl; lia.
Defined.

Open Scope nat_scope.

(** ** The zone: loads, stores, allocation *)

Lemma load_object_Some p s o s' :
  load_object p s = Some (o, s') <-> zone_objects s !! p = Some o /\ s' = s.
Proof.
  unfold load_object. split.
  - intros H. minv1 H. done.
  - intros [H ->]. apply bind_Some. exists (zone_objects s), s.
    split; [done|]. by apply lift_Some.
Qed.

Lemma store_object_Some p o s u s' :
  store_object p o s = Some (u, s') <->
  (p < length (zone_objects s))%nat /\
  s' = set_zone_objects (<[p := o]> (zone_objects s)) s.
Proof.
  unfold store_object. destruct u. split.
  - intros H. minv1 H. case_decide; [|done]. minv1 H. done.
  - intros [Hp ->]. apply bind_Some. exists (zone_objects s), s.
    split; [done|]. by case_decide.
Qed.

Lemma new_object_Some o s p s' :
  new_object o s = Some (p, s') <->
  p = length (zone_objects s) /\ s' = set_zone_objects (zone_objects s ++ [o]) s.
Proof.
  unfold new_object. split.
  - intros H. minv1 H. done.
  - intros [-> ->]. apply bind_Some. exists (zone_objects s), s. split; [done|].
    apply bind_Some. eexists tt, _. split; done.
Qed.

Lemma load_state_Some p s st s' :
  load_state p s = Some (st, s') <-> zone_states s !! p = Some st /\ s' = s.
Proof.
  unfold load_state. split.
  - intros H. minv1 H. done.
  - intros [H ->]. apply bind_Some. exists (zone_states s), s.
    split; [done|]. by apply lift_Some.
Qed.

Lemma store_state_Some p st s u s' :
  store_state p st s = Some (u, s') <->
  (p < length (zone_states s))%nat /\
  s' = set_zone_states (<[p := st]> (zone_states s)) s.
Proof.
  unfold store_state. destruct u. split.
  - intros H. minv1 H. case_decide; [|done]. minv1 H. done.
  - intros [Hp ->]. apply bind_Some. exists (zone_states s), s.
    split; [done|]. by case_decide.
Qed.

Lemma new_state_Some st s p s' :
  new_state st s = Some (p, s') <->
  p = length (zone_states s) /\ s' = set_zone_states (zone_states s ++ [st]) s.
Proof.
  unfold new_state. split.
  - intros H. minv1 H. done.
  - intros [-> ->]. apply bind_Some. exists (zone_states s), s. split; [done|].
    apply bind_Some. eexists tt, _. split; done.
Qed.

Lemma VirtualObjectFromAlias_Some this alias s r s' :
  VirtualObjectFromAlias this alias s = Some (r, s') <->
  exists st, zone_states s !! this = Some st /\
             VirtualState.info_ st !! alias = Some r /\ s' = s.
Proof.
  unfold VirtualObjectFromAlias. split.
  - intros H. minv1 H. apply load_state_Some in E as [? ->]. eauto.
  - intros (st & Hst & Hr & ->). apply bind_Some. exists st, s.
    split; [by apply load_state_Some|]. by apply lift_Some.
Qed.

Lemma SetVirtualObject_Some this alias obj s u s' :
  SetVirtualObject this alias obj s = Some (u, s') <->
  exists st, zone_states s !! this = Some st /\
             (alias < length (VirtualState.info_ st))%nat /\
             s' = set_zone_states
                    (<[this := VirtualState.with_info
                                 (<[alias := obj]> (VirtualState.info_ st)) st]>
                       (zone_states s)) s.
Proof.
  unfold SetVirtualObject. destruct u. split.
  - intros H. minv1 H. apply load_state_Some in E as [? ->].
    case_decide; [|done]. apply store_state_Some in H as [? ->]. eauto.
  - intros (st & Hst & Hlt & ->). apply bind_Some. exists st, s.
    split; [by apply load_state_Some|]. case_decide; [|done].
    apply store_state_Some. split; [|done]. by eapply lookup_lt_Some.
Qed.

Lemma VirtualState_size_Some this s n s' :
  VirtualState_size this s = Some (n, s') <->
  exists st, zone_states s !! this = Some st /\
             n = length (VirtualState.info_ st) /\ s' = s.
Proof.
  unfold VirtualState_size. split.
  - intros H. minv1 H. apply load_state_Some in E as [? ->]. eauto.
  - intros (st & Hst & -> & ->). apply bind_Some. exists st, s.
    split; [by apply load_state_Some|done].
Qed.

Lemma VirtualState_owner_Some this s n s' :
  VirtualState_owner this s = Some (n, s') <->
  exists st, zone_states s !! this = Some st /\
             n = VirtualState.owner_ st /\ s' = s.
Proof.
  unfold VirtualState_owner. split.
  - intros H. minv1 H. apply load_state_Some in E as [? ->]. eauto.
  - intros (st & Hst & -> & ->). apply bind_Some. exists st, s.
    split; [by apply load_state_Some|done].
Qed.

(** Inversion of the primitive operations met in a successful run. *)
Ltac prim_inv H :=
  match type of H with
  | load_object _ _ = Some _ => apply load_object_Some in H; destruct H as [H ?]; subst
  | store_object _ _ _ = Some _ => apply store_object_Some in H; destruct H as [H ?]; subst
  | new_object _ _ = Some _ => apply new_object_Some in H; destruct H; subst
  | load_state _ _ = Some _ => apply load_state_Some in H; destruct H as [H ?]; subst
  | store_state _ _ _ = Some _ => apply store_state_Some in H; destruct H as [H ?]; subst
  | new_state _ _ = Some _ => apply new_state_Some in H; destruct H; subst
  | VirtualObjectFromAlias _ _ _ = Some _ =>
      let st := fresh "st" in let H1 := fresh H in let H2 := fresh H in
      apply VirtualObjectFromAlias_Some in H; destruct H as (st & H & H1 & ?); subst
  | SetVirtualObject _ _ _ _ = Some _ =>
      let st := fresh "st" in let H1 := fresh H in
      apply SetVirtualObject_Some in H; destruct H as (st & H & H1 & ?); subst
  | VirtualState_size _ _ = Some _ =>
      let st := fresh "st" in
      apply VirtualState_size_Some in H; destruct H as (st & H & ? & ?); subst
  | VirtualState_owner _ _ = Some _ =>
      let st := fresh "st" in
      apply VirtualState_owner_Some in H; destruct H as (st & H & ? & ?); subst
  | status_at _ _ = Some _ => apply status_at_Some in H; destruct H as [H ?]; subst
  | status_or _ _ _ = Some _ =>
      let v := fresh "v" in
      apply status_or_Some in H; destruct H as (v & H & ?); subst
  | status_clear _ _ _ = Some _ =>
      let v := fresh "v" in
      apply status_clear_Some in H; destruct H as (v & H & ?); subst
  | _ => idtac
  end.

Ltac minv H :=
  match type of H with
  | bind _ _ _ = Some _ =>
      let a := fresh "a" in let s1 := fresh "s" in
      let E := fresh "E" in
      apply bind_Some in H; destruct H as (a & s1 & E & H); minv E; minv H
  | ret _ _ = Some _ => apply ret_Some in H; destruct H; subst
  | gets _ _ = Some _ => apply gets_Some in H; destruct H; subst
  | modify _ _ = Some _ => apply modify_Some in H; subst
  | lift _ _ = Some _ => apply lift_Some in H; destruct H as [H ?]; subst
  | fail _ = Some _ => by apply fail_Some in H
  | _ => prim_inv H
  end.

(** ** C4: the field count of a VirtualObject *)

(** The operations of the class that change an object. *)
Inductive Mutation :=
  | DoSetField (offset : nat) (node : option NodeId) (created_phi : bool)
  | DoSetInitialized
  | DoResizeFields (field_count : nat)
  | DoClearAllFields
  | DoUpdateFrom (other : VirtualObject.t)
  | DoSetObjectState (node : option NodeId)
  | DoSetCopyRequired.

Definition mutate (m : Mutation) (o : VirtualObject.t) : option VirtualObject.t :=
  match m with
  | DoSetField offset node created_phi =>
      VirtualObject.SetField offset node created_phi o
  | DoSetInitialized => Some (fst (VirtualObject.SetInitialized o))
  | DoResizeFields n => Some (fst (VirtualObject.ResizeFields n o))
  | DoClearAllFields => VirtualObject.ClearAllFields o
  | DoUpdateFrom other => Some (fst (VirtualObject.UpdateFrom other o))
  | DoSetObjectState node => Some (VirtualObject.SetObjectState node o)
  | DoSetCopyRequired => Some (VirtualObject.SetCopyRequired o)
  end.

Lemma resize_length {A} n (d : A) l : length (VirtualObject.resize n d l) = n.
Proof.
  unfold VirtualObject.resize. rewrite length_app, length_take, length_replicate.
  lia.
Qed.

Lemma SetField_field_count offset node phi o o' :
  VirtualObject.SetField offset node phi o = Some o' ->
  VirtualObject.field_count o' = VirtualObject.field_count o /\
  length (VirtualObject.phi_ o') = length (VirtualObject.phi_ o).
Proof.
  unfold VirtualObject.SetField. repeat case_decide; intros; simplify_eq.
  unfold VirtualObject.field_count. simpl. by rewrite !length_insert.
Qed.

Lemma ClearAllFields_loop_field_count idx o o' :
  VirtualObject.ClearAllFields_loop idx o = Some o' ->
  VirtualObject.field_count o' = VirtualObject.field_count o.
Proof.
  revert o. induction idx as [|i idx IH]; intros o; simpl.
  - by intros; simplify_eq.
  - destruct (VirtualObject.SetField i None false o) as [o1|] eqn:E; [|done].
    intros H%IH. apply SetField_field_count in E as [E _]. congruence.
Qed.

Lemma ResizeFields_field_count n o :
  VirtualObject.field_count (fst (VirtualObject.ResizeFields n o))
  = Nat.max n (VirtualObject.field_count o).
Proof.
  unfold VirtualObject.ResizeFields, VirtualObject.field_count.
  case_decide; simpl; [rewrite resize_length|]; lia.
Qed.

Lemma UpdateFrom_loop_length idx other fs changed :
  length (fst (VirtualObject.UpdateFrom_loop idx other fs changed)) = length fs.
Proof.
  revert fs changed. induction idx as [|i idx IH]; intros fs changed; simpl.
  - done.
  - case_decide; rewrite IH; [done|]. by rewrite length_insert.
Qed.

(** After [UpdateFrom] the object has as many fields as [other]. *)
Lemma UpdateFrom_field_count other o :
  VirtualObject.field_count (fst (VirtualObject.UpdateFrom other o))
  = VirtualObject.field_count other.
Proof.
  unfold VirtualObject.UpdateFrom, VirtualObject.field_count. simpl.
  case_decide as Hlen; simpl; [|done].
  destruct (VirtualObject.UpdateFrom_loop _ _ _ _) as [fs c] eqn:E. simpl.
  pose proof (UpdateFrom_loop_length (seq 0 (length (VirtualObject.fields_ o)))
                (VirtualObject.fields_ other) (VirtualObject.fields_ o)
                (negb (VirtualObject.status_ o =? VirtualObject.status_ other)%N)) as H.
  rewrite E in H. simpl in H. congruence.
Qed.




(** ** C1: the result of VirtualState::UpdateFrom *)

Lemma bind_run {A B} (m : M A) (k : A -> M B) s a s1 :
  m s = Some (a, s1) -> bind m k s = k a s1.
Proof. unfold bind. by intros ->. Qed.

(** The state at [p] is allocated and its slots point into the zone. *)
Definition state_ok (s : Analysis) (p : StatePtr) : Prop :=
  exists st, zone_states s !! p = Some st /\
             forall i q, VirtualState.info_ st !! i = Some (Some q) ->
                         q < length (zone_objects s).

Definition state_size (s : Analysis) (p : StatePtr) : nat :=
  match zone_states s !! p with
  | Some st => length (VirtualState.info_ st)
  | None => 0
  end.

Lemma VirtualState_UpdateFrom_step_total this from changed alias s :
  from <> this ->
  state_ok s this -> state_ok s from ->
  alias < state_size s this -> state_size s this <= state_size s from ->
  exists c s',
    VirtualState_UpdateFrom_step this from changed alias s = Some (c, s') /\
    state_ok s' this /\ state_ok s' from /\
    state_size s' this = state_size s this /\
    state_size s' from = state_size s from.
Proof.
  intros Hne (st & Hst & Hok) (sf & Hsf & Hokf) Hlt Hle.
  unfold state_size in *. rewrite Hst in Hlt, Hle |- *. rewrite Hsf in Hle |- *.
  destruct (lookup_lt_is_Some_2 (VirtualState.info_ st) alias Hlt) as [ls Hls].
  destruct (lookup_lt_is_Some_2 (VirtualState.info_ sf) alias ltac:(lia)) as [rs Hrs].
  unfold VirtualState_UpdateFrom_step.
  rewrite (bind_run _ _ s ls s)
    by (apply VirtualObjectFromAlias_Some; eauto).
  rewrite (bind_run _ _ s rs s)
    by (apply VirtualObjectFromAlias_Some; eauto).
  assert (Hsame : state_ok s this /\ state_ok s from) by (split; red; eauto).
  destruct rs as [r|].
  2:{ exists changed, s. rewrite Hst, Hsf. by destruct Hsame. }
  case_decide as Heq.
  { exists changed, s. rewrite Hst, Hsf. by destruct Hsame. }
  pose proof (Hokf _ _ Hrs) as Hr.
  destruct (lookup_lt_is_Some_2 _ _ Hr) as [ro Hro].
  destruct ls as [l|].
  - pose proof (Hok _ _ Hls) as Hl.
    destruct (lookup_lt_is_Some_2 _ _ Hl) as [lo Hlo].
    rewrite (bind_run _ _ s lo s) by (by apply load_object_Some).
    rewrite (bind_run _ _ s ro s) by (by apply load_object_Some).
    destruct (VirtualObject.UpdateFrom ro lo) as [lo' c] eqn:EU.
    erewrite (bind_run _ _ _ tt) by (apply store_object_Some; split; [exact Hl|reflexivity]).
    eexists _, _. split; [reflexivity|]. simpl. rewrite Hst, Hsf.
    repeat split; try done.
    + exists st. split; [done|]. intros i q Hq. simpl. rewrite length_insert. eauto.
    + exists sf. split; [done|]. intros i q Hq. simpl. rewrite length_insert. eauto.
  - rewrite (bind_run _ _ s ro s) by (by apply load_object_Some).
    erewrite bind_run by (by apply new_object_Some).
    erewrite (bind_run _ _ _ tt).
    2:{ apply SetVirtualObject_Some. exists st. simpl. split; [done|].
        split; [done|reflexivity]. }
    eexists _, _. split; [reflexivity|]. simpl.
    assert (Hthis' : <[this:=VirtualState.with_info
                        (<[alias:=Some (length (zone_objects s))]>
                           (VirtualState.info_ st)) st]> (zone_states s) !! this
                     = Some (VirtualState.with_info
                               (<[alias:=Some (length (zone_objects s))]>
                                  (VirtualState.info_ st)) st))
      by (apply list_lookup_insert_eq; by eapply lookup_lt_Some).
    assert (Hfrom' : <[this:=VirtualState.with_info
                        (<[alias:=Some (length (zone_objects s))]>
                           (VirtualState.info_ st)) st]> (zone_states s) !! from
                     = Some sf)
      by (rewrite list_lookup_insert_ne by done; done).
    rewrite Hthis', Hfrom'. simpl. rewrite length_insert.
    repeat split; try done.
    + eexists. split; [exact Hthis'|].
      simpl. intros i q Hq. rewrite length_app. simpl.
      destruct (decide (i = alias)) as [->|Hi].
      * rewrite list_lookup_insert_eq in Hq by done. simplify_eq. lia.
      * rewrite list_lookup_insert_ne in Hq by done. apply Hok in Hq. lia.
    + exists sf. split; [exact Hfrom'|].
      simpl. intros i q Hq. rewrite length_app. apply Hokf in Hq. lia.
Qed.

(** C1.  The state-level [UpdateFrom] returns [false] whenever it returns,
    whatever its loop computed in [changed]; and it does return on every
    pair of allocated states whose slots point into the zone, the updated
    one being no larger than the other. *)
Theorem VirtualState_UpdateFrom_returns_false
    (this from : StatePtr) (s : Analysis) :
  (forall r s', VirtualState_UpdateFrom this from s = Some (r, s') -> r = false) /\
  (state_ok s this -> state_ok s from ->
   state_size s this <= state_size s from ->
   exists s', VirtualState_UpdateFrom this from s = Some (false, s')).
Proof.
  split.
  - intros r s'. unfold VirtualState_UpdateFrom.
    case_decide; intros Hrun; minv Hrun; done.
  - intros Hthis Hfrom Hle. unfold VirtualState_UpdateFrom.
    case_decide as Heq; [by eexists|].
    pose proof Hthis as (st & Hst & Hok).
    assert (Hloop : exists c s',
               VirtualState_UpdateFrom_loop this from s = Some (c, s')).
    { unfold VirtualState_UpdateFrom_loop.
      rewrite (bind_run _ _ s (length (VirtualState.info_ st)) s)
        by (apply VirtualState_size_Some; eauto).
      destruct (foldM_total
                  (fun _ s1 => state_ok s1 this /\ state_ok s1 from /\
                               state_size s1 this = state_size s this /\
                               state_size s1 from = state_size s from)
                  (VirtualState_UpdateFrom_step this from)
                  (seq 0 (length (VirtualState.info_ st))) false s)
        as (r & s' & E & _); [| |by eauto].
      - intros b x s1 Hx (H1 & H2 & H3 & H4). apply elem_of_seq in Hx.
        destruct (VirtualState_UpdateFrom_step_total this from b x s1)
          as (c & s2 & E & ? & ? & ? & ?); try done.
        + rewrite H3. unfold state_size. rewrite Hst. lia.
        + lia.
        + exists c, s2. repeat split; try done; congruence.
      - done. }
    destruct Hloop as (c & s' & E). exists s'.
    by rewrite (bind_run _ _ _ _ _ E).
Qed.

(** An analysis with two states that hold different snapshots of the
    object of alias 0. *)
Definition two_snapshots : Analysis :=
  mkAnalysis (mkGraph [] 0 0)
    [VirtualObject.mk 2 VirtualObject.kTracked [Some 5] [false] None 0;
     VirtualObject.mk 2 VirtualObject.kTracked [Some 6] [false] None 1]
    [VirtualState.mk [Some 0] 3; VirtualState.mk [Some 1] 4]
    [] [] 0%N [] [] [] [] None.

Lemma VirtualState_UpdateFrom_returns_false_witness :
  (exists s', VirtualState_UpdateFrom_loop 0 1 two_snapshots = Some (true, s')) /\
  (exists s', VirtualState_UpdateFrom 0 1 two_snapshots = Some (false, s')).
Proof.
  split; [eexists; vm_compute; reflexivity|].
  apply (VirtualState_UpdateFrom_returns_false 0 1 two_snapshots).
  - eexists. split; [reflexivity|]. intros [|[|i]] q H; simpl in H; simplify_eq.
    simpl. lia.
  - eexists. split; [reflexivity|]. intros [|[|i]] q H; simpl in H; simplify_eq.
    simpl. lia.
  - vm_compute. lia.
Defined.

(** ** C3: copy for modification *)

Lemma NeedCopyForModification_spec o :
  VirtualObject.NeedCopyForModification o
  = VirtualObject.IsCopyRequired o && VirtualObject.IsInitialized o.
Proof.
  unfold VirtualObject.NeedCopyForModification.
  by destruct (VirtualObject.IsCopyRequired o), (VirtualObject.IsInitialized o).
Qed.

Lemma copy_clears_CopyRequired owner o :
  VirtualObject.IsCopyRequired (VirtualObject.copy owner o) = false.
Proof.
  unfold VirtualObject.IsCopyRequired, VirtualObject.copy. simpl.
  apply has_flag_clear_flag_same.
Qed.

Lemma CopyStateForModificationAt_Some state node s r s' :
  CopyStateForModificationAt state node s = Some (r, s') ->
  exists st, zone_states s !! state = Some st /\
    zone_objects s' = zone_objects s /\ aliases_ s' = aliases_ s /\
    ((VirtualState.owner_ st = node /\ r = state /\ s' = s) \/
     (VirtualState.owner_ st <> node /\ r = length (zone_states s) /\
      exists info, zone_states s' = zone_states s ++ [VirtualState.mk info node] /\
                   length info = length (VirtualState.info_ st))).
Proof.
  unfold CopyStateForModificationAt. intros H. minv H.
  exists st. split; [done|]. case_decide as Hown.
  - minv H. unfold VirtualState_copy in E0. minv E0.
    unfold set_virtual_state_at in E1. minv E1. case_decide; [|done]. minv E1.
    simpl. simplify_eq. repeat split; try done. right. repeat split; try done.
    eexists. split; [reflexivity|].
    assert (forall idx (acc : list (option nat)),
              length (fold_left
                        (fun info i =>
                           match VirtualState.info_ st !! i with
                           | Some (Some p) => <[i:=Some p]> info
                           | _ => info
                           end) idx acc) = length acc) as Hfold.
    { induction idx as [|i idx IH]; intros acc; simpl; [done|].
      rewrite IH. destruct (VirtualState.info_ st !! i) as [[?|]|]; [|done..].
      by rewrite length_insert. }
    by rewrite Hfold, length_replicate.
  - minv H. repeat split; try done. left. split; [|done].
    try done; by destruct (decide (VirtualState.owner_ st = node)).
Qed.

(** C3, as amended.  The copy for modification clones [obj] exactly when
    [obj] has both [CopyRequired] and [Initialized] set and the state is not
    owned by the node or is not the owner of [obj]; the clone is a new
    object of the zone with the fields of [obj] and [CopyRequired] cleared. *)
Theorem CopyForModificationAt_clones_iff
    (obj : ObjPtr) (state : StatePtr) (node : NodeId) (s : Analysis)
    (o : VirtualObject.t) (st : VirtualState.t) (r : ObjPtr) (s' : Analysis) :
  zone_objects s !! obj = Some o ->
  zone_states s !! state = Some st ->
  VirtualObject.owner o < length (zone_states s) ->
  CopyForModificationAt obj state node s = Some (r, s') ->
  (r <> obj <->
   VirtualObject.IsCopyRequired o = true /\ VirtualObject.IsInitialized o = true /\
   (VirtualState.owner_ st <> node \/ VirtualObject.owner o <> state)) /\
  (r <> obj ->
   zone_objects s !! r = None /\
   exists o', zone_objects s' !! r = Some o' /\
              VirtualObject.IsCopyRequired o' = false /\
              VirtualObject.fields_ o' = VirtualObject.fields_ o /\
              VirtualObject.id o' = VirtualObject.id o) /\
  zone_objects s' !! obj = Some o.
Proof.
  intros Ho Hst Hown Hrun. unfold CopyForModificationAt in Hrun. minv Hrun.
  simplify_eq. rewrite NeedCopyForModification_spec in Hrun.
  destruct (VirtualObject.IsCopyRequired o) eqn:Hcr; simpl in Hrun.
  2:{ minv Hrun. split; [|split]; try done. split; [done|]. by intros (? & _). }
  destruct (VirtualObject.IsInitialized o) eqn:Hin; simpl in Hrun.
  2:{ minv Hrun. split; [|split]; try done. split; [done|]. by intros (? & ? & _). }
  minv Hrun.
  apply CopyStateForModificationAt_Some in E as (st' & Hst' & Hobjs & Hal & Hcase).
  simplify_eq. unfold GetAlias, alias_at in E0. minv E0.
  unfold VirtualState_Copy in Hrun. minv Hrun.
  rewrite Hobjs in E. simplify_eq.
  assert (Hobj : obj < length (zone_objects s)) by (by eapply lookup_lt_Some).
  case_decide as Howner.
  - (* the state, possibly new, already owns the object *)
    minv Hrun. split; [|split]; [|done|congruence].
    split; [done|]. intros (_ & _ & Hor). exfalso.
    destruct Hcase as [(H1 & H2 & H3)|(H1 & H2 & H3)]; [|lia].
    destruct Hor; done.
  - minv Hrun. simpl. rewrite Hobjs.
    split; [|split].
    + split; [|lia]. intros _. repeat split; try done.
      destruct Hcase as [(H1 & H2 & H3)|(H1 & H2 & H3)]; [right|by left].
      congruence.
    + intros _. split; [apply lookup_ge_None; lia|].
      exists (VirtualObject.copy a o). split.
      * rewrite lookup_app_r by lia. by rewrite Nat.sub_diag.
      * split; [apply copy_clears_CopyRequired|done].
    + rewrite lookup_app_l by lia. done.
Qed.

(** A state owned by node 3 with an initialised object that is marked
    [CopyRequired]; the store at node 5 is about to change it. *)
Definition shared_snapshot : Analysis :=
  mkAnalysis (mkGraph [] 0 0)
    [VirtualObject.mk 2 7%N [Some 5] [false] None 0]
    [VirtualState.mk [Some 0] 3]
    [] [] 1%N [] [kUntrackable; kUntrackable; 0%N]
    (replicate 6 None) [] None.

Lemma CopyForModificationAt_clones_iff_witness :
  exists r s' o',
    CopyForModificationAt 0 0 5 shared_snapshot = Some (r, s') /\
    r <> 0 /\ zone_objects s' !! r = Some o' /\
    VirtualObject.IsCopyRequired o' = false /\
    VirtualObject.fields_ o' = [Some 5].
Proof.
  destruct (CopyForModificationAt 0 0 5 shared_snapshot) as [[r s']|] eqn:E;
    [|vm_compute in E; discriminate E].
  destruct (CopyForModificationAt_clones_iff 0 0 5 shared_snapshot
              (VirtualObject.mk 2 7%N [Some 5] [false] None 0)
              (VirtualState.mk [Some 0] 3) r s'
              eq_refl eq_refl ltac:(simpl; lia) E) as (Hiff & Hclone & _).
  assert (Hr : r <> 0).
  { apply Hiff. split; [reflexivity|]. split; [reflexivity|]. left. simpl. lia. }
  destruct (Hclone Hr) as (_ & o' & Ho' & Hcr & Hf & _).
  exists r, s', o'. repeat split; assumption.
Defined.

(** The state of node 5 was copied from the state of an effect phi (node 3),
    with which it shares the merged object; the object is initialised and
    not marked [CopyRequired]. *)
Definition foreign_object : Analysis :=
  mkAnalysis (mkGraph [] 0 0)
    [VirtualObject.mk 2 3%N [Some 5] [false] None 0]
    [VirtualState.mk [Some 0] 3; VirtualState.mk [Some 0] 5]
    [] [] 1%N [] [kUntrackable; kUntrackable; 0%N]
    (replicate 7 None) [] None.

(** C3, as stated, fails: an object owned by another state is not cloned
    unless it is marked [CopyRequired] and initialised. *)
Lemma CopyForModificationAt_shares_foreign_object :
  ~ (forall obj state node s o st r s',
       zone_objects s !! obj = Some o ->
       zone_states s !! state = Some st ->
       VirtualObject.owner o < length (zone_states s) ->
       CopyForModificationAt obj state node s = Some (r, s') ->
       (r <> obj <->
        VirtualObject.owner o <> state \/
        (VirtualObject.IsCopyRequired o = true /\
         VirtualObject.IsInitialized o = true))).
Proof.
  intros H.
  specialize (H 0 1 6 foreign_object _ _ 0 foreign_object
                eq_refl eq_refl ltac:(simpl; lia) eq_refl).
  destruct H as [_ H]. apply H; [|reflexivity]. left. simpl. lia.
Qed.

(** ** Framing: what a computation leaves related *)

(** [post R m]: every successful run of [m] relates the state it starts
    from to the state it ends in. *)
Definition post {A} (R : relation Analysis) (m : M A) : Prop :=
  forall s r s', m s = Some (r, s') -> R s s'.

Section Post.
Context (R : relation Analysis) `{!Reflexive R} `{!Transitive R}.

Lemma post_ret {A} (a : A) : post R (ret a).
Proof. intros s r s' H. minv H. reflexivity. Qed.

Lemma post_fail {A} : post R (@fail A).
Proof. intros s r s' H. done. Qed.

Lemma post_gets {A} (f : Analysis -> A) : post R (gets f).
Proof. intros s r s' H. minv H. reflexivity. Qed.

Lemma post_lift {A} (o : option A) : post R (lift o).
Proof. intros s r s' H. apply lift_Some in H as [_ ->]. reflexivity. Qed.

Lemma post_modify (f : Analysis -> Analysis) :
  (forall s, R s (f s)) -> post R (modify f).
Proof. intros Hf s r s' H. minv H. apply Hf. Qed.

Lemma post_bind {A B} (m : M A) (k : A -> M B) :
  post R m -> (forall a, post R (k a)) -> post R (bind m k).
Proof.
  intros Hm Hk s r s' H. apply bind_Some in H as (a & s1 & E & H).
  etrans; [by eapply Hm|by eapply Hk].
Qed.

Lemma post_foldM {A B} (body : B -> A -> M B) (l : list A) (b : B) :
  (forall b x, post R (body b x)) -> post R (foldM body b l).
Proof.
  intros Hbody. revert b. induction l as [|x l IH]; intros b; simpl.
  - apply post_ret.
  - apply post_bind; [apply Hbody|apply IH].
Qed.

Lemma post_forM_ {A} (l : list A) (body : A -> M unit) :
  (forall x, post R (body x)) -> post R (forM_ l body).
Proof. intros Hbody. apply post_foldM. intros _ x. apply Hbody. Qed.

End Post.

Create HintDb post discriminated.

Ltac head_of x :=
  match x with
  | ?f _ => head_of f
  | _ => x
  end.

(** Walks through the body of a computation: the monadic structure is
    taken apart, a computation with a lemma in the hint database [post] is
    closed by it, and any other definition is unfolded. *)
Ltac post_step := idtac.

Ltac post_structure :=
  match goal with
  | |- post _ (ret _) => apply post_ret; try typeclasses eauto
  | |- post _ fail => apply post_fail
  | |- post _ (gets _) => apply post_gets; try typeclasses eauto
  | |- post _ (lift _) => apply post_lift; try typeclasses eauto
  | |- post _ (modify _) =>
      apply post_modify; intros ?;
      solve [repeat split;
             first [reflexivity | let H := fresh in intro H; exact H]]
  | |- post _ (bind _ _) => apply post_bind; [try typeclasses eauto| |intros ?]
  | |- post _ (foldM _ _ _) =>
      apply post_foldM; [try typeclasses eauto|try typeclasses eauto|intros ? ?]
  | |- post _ (forM_ _ _) =>
      apply post_forM_; [try typeclasses eauto|try typeclasses eauto|intros ?]
  | |- post _ (match ?x with _ => _ end) => destruct x
  | |- post _ (let '(_, _) := ?x in _) => destruct x
  | |- post _ ?m => let h := head_of m in progress (unfold h)
  end.

Ltac post_step ::=
  first [ solve [eauto with post] | post_structure ].

Ltac post_auto := repeat post_step.

(** ** C2: the merge at an effect phi *)

(** The states collected in the cache. *)
Definition cache_states_of (s : Analysis) : option (list nat) :=
  MergeCache.states_ <$> cache_ s.

(** The zone and the states of the cache are as they were. *)
Definition zone_same : relation Analysis :=
  fun s s' => zone_objects s' = zone_objects s /\
              zone_states s' = zone_states s /\
              cache_states_of s' = cache_states_of s.

#[global] Instance zone_same_refl : Reflexive zone_same.
Proof. by intros s. Qed.
#[global] Instance zone_same_trans : Transitive zone_same.
Proof. intros s1 s2 s3 (? & ? & ?) (? & ? & ?). repeat split; congruence. Qed.

Lemma set_cache_objects_zone_same l : post zone_same (set_cache_objects l).
Proof.
  intros s r s' H. unfold set_cache_objects, get_cache in H. minv H.
  unfold zone_same, cache_states_of. simpl. by rewrite E.
Qed.

Lemma set_cache_fields_zone_same l : post zone_same (set_cache_fields l).
Proof.
  intros s r s' H. unfold set_cache_fields, get_cache in H. minv H.
  unfold zone_same, cache_states_of. simpl. by rewrite E.
Qed.
#[global] Hint Resolve set_cache_objects_zone_same set_cache_fields_zone_same : post.

Lemma MergeCache_GetFields_zone_same pos : post zone_same (MergeCache_GetFields pos).
Proof. unfold MergeCache_GetFields. post_auto. Qed.

Lemma MergeFrom_update_phi_zone_same rep fields changed :
  post zone_same (MergeFrom_update_phi rep fields changed).
Proof. unfold MergeFrom_update_phi. post_auto. Qed.

Lemma NewNode_zone_same o ins : post zone_same (NewNode o ins).
Proof. unfold NewNode. post_auto. Qed.

Lemma push_cache_field_zone_same n : post zone_same (push_cache_field n).
Proof. unfold push_cache_field. post_auto. Qed.

Lemma push_cache_object_zone_same n : post zone_same (push_cache_object n).
Proof. unfold push_cache_object. post_auto. Qed.
#[global] Hint Resolve MergeCache_GetFields_zone_same MergeFrom_update_phi_zone_same
  NewNode_zone_same push_cache_field_zone_same push_cache_object_zone_same : post.

Lemma post_weaken {A} (R R' : relation Analysis) (m : M A) :
  (forall s s', R s s' -> R' s s') -> post R m -> post R' m.
Proof. intros HR Hm s r s' H. apply HR. by eapply Hm. Qed.

(** The slot of alias [a] in the state at [p]. *)
Definition slot (s : Analysis) (p : nat) (a : nat) : option (option nat) :=
  zone_states s !! p ≫= fun st => VirtualState.info_ st !! a.

(** The objects that the states [cs] hold at alias [a], in order. *)
Definition contributors (s : Analysis) (cs : list nat) (a : nat) : list nat :=
  omap (fun p => mjoin (slot s p a)) cs.

Definition field_count_at (s : Analysis) (q : nat) : nat :=
  from_option VirtualObject.field_count 0 (zone_objects s !! q).

(** The least of a list of numbers, as the loop over the states computes
    it; [None] for the empty list. *)
Definition minimum (l : list nat) : option nat :=
  fold_left (fun acc n => min_fields n acc) l None.

Lemma fold_min_fields l acc :
  fold_left (fun acc n => min_fields n acc) l (Some acc)
  = Some (fold_left Nat.min l acc).
Proof.
  revert acc. induction l as [|x l IH]; intros acc; simpl; [done|].
  rewrite IH. f_equal. f_equal. lia.
Qed.

Lemma fold_min_le l acc : fold_left Nat.min l acc <= acc.
Proof.
  revert acc. induction l as [|x l IH]; intros acc; simpl; [done|].
  etrans; [apply IH|]. lia.
Qed.

Lemma fold_min_lower l acc x : x ∈ l -> fold_left Nat.min l acc <= x.
Proof.
  revert acc. induction l as [|y l IH]; intros acc Hx; simpl.
  - by apply elem_of_nil in Hx.
  - apply elem_of_cons in Hx as [->|Hx]; [|by apply IH].
    etrans; [apply fold_min_le|]. lia.
Qed.

Lemma fold_min_attained l acc :
  fold_left Nat.min l acc = acc \/ fold_left Nat.min l acc ∈ l.
Proof.
  revert acc. induction l as [|y l IH]; intros acc; simpl; [by left|].
  destruct (IH (Nat.min acc y)) as [H|H].
  - rewrite H. destruct (Nat.min_spec acc y) as [[_ ->]|[_ ->]];
      [by left|right; apply list_elem_of_here].
  - right. by apply list_elem_of_further.
Qed.

(** [minimum] is the least element. *)
Lemma minimum_spec l f :
  minimum l = Some f -> f ∈ l /\ forall x, x ∈ l -> f <= x.
Proof.
  unfold minimum. destruct l as [|y l]; simpl; [done|].
  rewrite fold_min_fields. intros ?; simplify_eq. split.
  - destruct (fold_min_attained l y) as [->|H];
      [apply list_elem_of_here|by apply list_elem_of_further].
  - intros x [->|Hx]%elem_of_cons; [apply fold_min_le|by apply fold_min_lower].
Qed.

Lemma slot_Some s p a r :
  slot s p a = Some r <->
  exists st, zone_states s !! p = Some st /\ VirtualState.info_ st !! a = Some r.
Proof.
  unfold slot. destruct (zone_states s !! p) as [st|]; simpl.
  - split; [eauto|]. by intros (? & ? & ?); simplify_eq.
  - split; [done|]. by intros (? & ? & _).
Qed.

Lemma zone_same_slot s s' p a : zone_same s s' -> slot s' p a = slot s p a.
Proof. intros (_ & H & _). unfold slot. by rewrite H. Qed.

Lemma zone_same_contributors s s' cs a :
  zone_same s s' -> contributors s' cs a = contributors s cs a.
Proof.
  intros H. unfold contributors.
  induction cs as [|p cs IH]; csimpl; [done|].
  by rewrite (zone_same_slot _ _ _ _ H), IH.
Qed.

Lemma zone_same_field_count_at s s' q :
  zone_same s s' -> field_count_at s' q = field_count_at s q.
Proof. intros (H & _). unfold field_count_at. by rewrite H. Qed.

Definition cache_objects_of (s : Analysis) : option (list nat) :=
  MergeCache.objects_ <$> cache_ s.

Lemma push_cache_object_Some p s u s' :
  push_cache_object p s = Some (u, s') ->
  zone_same s s' /\
  exists l, cache_objects_of s = Some l /\ cache_objects_of s' = Some (l ++ [p]).
Proof.
  intros H. split; [by eapply push_cache_object_zone_same|].
  unfold push_cache_object, cache_objects, set_cache_objects, get_cache in H.
  minv H. assert (a = a0) by congruence. subst.
  unfold cache_objects_of. rewrite E. simpl. eauto.
Qed.

(** The loop of [MergeFrom] over the states of the cache. *)
Lemma MergeFrom_collect_fold alias mergeObject cs :
  forall loc s loc' s' l,
    cache_objects_of s = Some l ->
    foldM (MergeFrom_collect alias mergeObject) loc cs s = Some (loc', s') ->
    zone_same s s' /\
    cache_objects_of s' = Some (l ++ contributors s cs alias) /\
    merge_fields loc' =
      fold_left (fun acc n => min_fields n acc)
                (field_count_at s <$> contributors s cs alias) (merge_fields loc) /\
    (copy_merge_object loc' = true <->
     copy_merge_object loc = true \/
     exists q, q ∈ contributors s cs alias /\ mergeObject = Some q) /\
    (merge_changed loc = true -> merge_changed loc' = true) /\
    (forall q, q ∈ contributors s cs alias -> is_Some (zone_objects s !! q)).
Proof.
  induction cs as [|p cs IH]; intros loc s loc' s' l Hl H; simpl in H.
  - minv H. simpl. rewrite app_nil_r. repeat split; try done.
    + by left.
    + intros [?|(q & Hq & _)]; [done|]. by apply elem_of_nil in Hq.
    + intros q Hq. by apply elem_of_nil in Hq.
  - apply bind_Some in H as (loc1 & s1 & E & H).
    unfold MergeFrom_collect in E. minv E.
    assert (Hslot : slot s p alias = Some a).
    { apply slot_Some. eauto. }
    destruct a as [q|].
    + minv E. apply push_cache_object_Some in E2 as (Hsame & l0 & Hl0 & Hl1).
      assert (l0 = l) by congruence. subst l0.
      destruct (IH _ _ _ _ _ Hl1 H) as (Hsame' & Hobjs & Hf & Hc & Hch & Hval).
      assert (Hcontr : contributors s (p :: cs) alias
                       = q :: contributors s0 cs alias).
      { rewrite (zone_same_contributors _ _ _ _ Hsame).
        unfold contributors. csimpl. rewrite Hslot. done. }
      rewrite Hcontr. clear Hcontr.
      pose proof Hsame as (Hso & Hss & Hsc).
      split; [by etrans; [|exact Hsame']|].
      split; [by rewrite Hobjs, <- app_assoc|].
      split.
      { rewrite Hf. csimpl. f_equal.
        - apply list_fmap_ext. intros. unfold field_count_at. by rewrite Hso.
        - unfold field_count_at. by rewrite <- Hso, E3. }
      split.
      { rewrite Hc. simpl. split.
        - intros [Hcp|(q' & Hq' & ->)].
          + case_bool_decide as Hmo; [right|by left].
            exists q. split; [apply list_elem_of_here|done].
          + right. exists q'. split; [by apply list_elem_of_further|done].
        - intros [Hcp|(q' & [->|Hq']%elem_of_cons & ->)].
          + left. by case_bool_decide.
          + left. by rewrite bool_decide_eq_true_2.
          + right. eauto. }
      split.
      { intros Hch0. apply Hch. simpl. case_bool_decide; done. }
      intros q' [->|Hq']%elem_of_cons.
      * rewrite <- Hso. eauto.
      * rewrite <- Hso. by apply Hval.
    + minv E.
      destruct (IH _ _ _ _ _ Hl H) as (Hsame' & Hobjs & Hf & Hc & Hch & Hval).
      assert (Hcontr : contributors s (p :: cs) alias = contributors s cs alias).
      { unfold contributors. csimpl. by rewrite Hslot. }
      rewrite Hcontr. done.
Qed.

(** Only the object at [mo] changes, and it keeps its number of fields. *)
Definition only_fields_of (mo : nat) : relation Analysis :=
  fun s s' =>
    zone_states s' = zone_states s /\
    cache_states_of s' = cache_states_of s /\
    length (zone_objects s') = length (zone_objects s) /\
    (forall q, q <> mo -> zone_objects s' !! q = zone_objects s !! q) /\
    field_count_at s' mo = field_count_at s mo.

#[global] Instance only_fields_of_refl mo : Reflexive (only_fields_of mo).
Proof. by intros s. Qed.
#[global] Instance only_fields_of_trans mo : Transitive (only_fields_of mo).
Proof.
  intros s1 s2 s3 (A1 & A2 & A3 & H1 & A5) (B1 & B2 & B3 & H2 & B5).
  repeat split; try congruence. intros q Hq. rewrite H2, H1; done.
Qed.

Lemma zone_same_only_fields_of mo s s' : zone_same s s' -> only_fields_of mo s s'.
Proof.
  intros (Ho & Hs & Hc). unfold only_fields_of, field_count_at.
  rewrite Ho. done.
Qed.

Lemma store_SetField mo i x phi s o o' :
  zone_objects s !! mo = Some o ->
  VirtualObject.SetField i x phi o = Some o' ->
  only_fields_of mo s (set_zone_objects (<[mo := o']> (zone_objects s)) s).
Proof.
  intros Ho Hset. unfold only_fields_of, field_count_at. simpl.
  rewrite length_insert. repeat split; try done.
  - intros q Hq. by rewrite list_lookup_insert_ne.
  - rewrite list_lookup_insert_eq by (by eapply lookup_lt_Some).
    rewrite Ho. simpl. by apply SetField_field_count in Hset as [-> _].
Qed.

Lemma cache_fields_zone_same : post zone_same cache_fields.
Proof. unfold cache_fields. post_auto. Qed.

Lemma MergeFrom_field_only_fields mo control arity changed i :
  post (only_fields_of mo) (MergeFrom_field mo control arity changed i).
Proof.
  intros s c s' H. unfold MergeFrom_field in H.
  apply bind_Some in H as (agreed & s1 & E & H).
  apply MergeCache_GetFields_zone_same in E.
  etrans; [by apply zone_same_only_fields_of|]. clear E s.
  destruct agreed as [field|].
  - minv H. destruct changed; minv E0; by eapply store_SetField.
  - apply bind_Some in H as (fields & s2 & E & H).
    apply cache_fields_zone_same in E.
    etrans; [by apply zone_same_only_fields_of|]. clear E s1.
    case_decide as Harity.
    + apply bind_Some in H as (mobj & s3 & E & H). minv E.
      apply bind_Some in H as (rep & s3 & E0 & H). minv E0.
      apply bind_Some in H as (created & s3 & E1 & H).
      assert (s3 = s2) as ->.
      { destruct rep; minv E1; done. }
      assert (Hcreate :
        forall c s',
          (push_cache_field control;;
           let* phi := NewNode (Phi_operator (length fields)) (fields ++ [control]) in
           let* mo' := lift (VirtualObject.SetField i (Some phi) true mobj) in
           store_object mo mo';; ret true) s2 = Some (c, s') ->
          only_fields_of mo s2 s').
      { clear H. intros c0 s0 H.
        apply bind_Some in H as (u & s4 & E4 & H).
        apply push_cache_field_zone_same in E4.
        apply bind_Some in H as (phi & s5 & E5 & H).
        apply NewNode_zone_same in E5.
        assert (Hz : zone_same s2 s5) by (etrans; done).
        etrans; [by apply zone_same_only_fields_of|].
        minv H. eapply store_SetField; [|done].
        destruct Hz as (-> & _). done. }
      destruct rep as [r|]; [destruct created|]; try by eapply Hcreate.
      apply MergeFrom_update_phi_zone_same in H.
      by apply zone_same_only_fields_of.
    + minv H. by eapply store_SetField.
Qed.

Lemma set_cache_objects_Some l s u s' :
  set_cache_objects l s = Some (u, s') ->
  zone_same s s' /\ cache_objects_of s' = Some l.
Proof.
  intros H. split; [by eapply set_cache_objects_zone_same|].
  unfold set_cache_objects, get_cache in H. minv H. done.
Qed.

Lemma cache_states_Some s l s' :
  cache_states s = Some (l, s') -> cache_states_of s = Some l /\ s' = s.
Proof.
  unfold cache_states, get_cache. intros H. minv H.
  unfold cache_states_of. by rewrite E.
Qed.

Lemma cache_objects_Some s l s' :
  cache_objects s = Some (l, s') -> cache_objects_of s = Some l /\ s' = s.
Proof.
  unfold cache_objects, get_cache. intros H. minv H.
  unfold cache_objects_of. by rewrite E.
Qed.

(** What the fields loop and the resize leave behind for the merged object
    [mo], whose record before the resize is [o]. *)
Lemma MergeFrom_resize_and_fields mo control arity fields b o s c s' :
  zone_objects s !! mo = Some o ->
  (let '(o', resized) := VirtualObject.ResizeFields fields o in
   (store_object mo o';;
    foldM (MergeFrom_field mo control arity) (resized || b) (seq 0 fields))) s
  = Some (c, s') ->
  zone_states s' = zone_states s /\
  cache_states_of s' = cache_states_of s /\
  length (zone_objects s') = length (zone_objects s) /\
  (forall q, q <> mo -> zone_objects s' !! q = zone_objects s !! q) /\
  field_count_at s' mo = Nat.max fields (VirtualObject.field_count o).
Proof.
  intros Ho H.
  pose proof (ResizeFields_field_count fields o) as Hfc.
  destruct (VirtualObject.ResizeFields fields o) as [o' resized]. simpl in Hfc.
  apply bind_Some in H as (u & s1 & E & H). minv E.
  apply (post_foldM (only_fields_of mo)) in H;
    [|typeclasses eauto..|intros; apply MergeFrom_field_only_fields].
  destruct H as (Hs & Hc & Hlen & Hothers & Hcount). simpl in *.
  rewrite length_insert in Hlen. repeat split; try done.
  - intros q Hq. rewrite Hothers by done. by rewrite list_lookup_insert_ne.
  - rewrite Hcount. unfold field_count_at. simpl.
    rewrite list_lookup_insert_eq by done. done.
Qed.

(** What one iteration of [MergeFrom] does to the slot of its alias. *)
Definition merged_slot (this : nat) (cs : list nat) (a : nat)
    (s s' : Analysis) : Prop :=
  if decide (length (contributors s cs a) = length cs) then
    exists mo f,
      slot s' this a = Some (Some mo) /\
      minimum (field_count_at s <$> contributors s cs a) = Some f /\
      ((slot s this a = Some (Some mo) /\ (mo ∉ contributors s cs a) /\
        mo < length (zone_objects s) /\
        field_count_at s' mo = Nat.max f (field_count_at s mo)) \/
       (mo = length (zone_objects s) /\ field_count_at s' mo = f)) /\
      mo < length (zone_objects s') /\
      (forall q, q <> mo -> q < length (zone_objects s) ->
                 zone_objects s' !! q = zone_objects s !! q)
  else slot s' this a = Some None /\ zone_objects s' = zone_objects s.

Lemma MergeFrom_alias_spec this control arity changed a s c s' cs :
  cache_states_of s = Some cs ->
  MergeFrom_alias this control arity changed a s = Some (c, s') ->
  cache_states_of s' = Some cs /\
  (forall p, p <> this -> zone_states s' !! p = zone_states s !! p) /\
  (exists st st',
     zone_states s !! this = Some st /\ zone_states s' !! this = Some st' /\
     length (VirtualState.info_ st') = length (VirtualState.info_ st) /\
     forall b, b <> a -> VirtualState.info_ st' !! b = VirtualState.info_ st !! b) /\
  length (zone_objects s) <= length (zone_objects s') /\
  (forall q, q ∈ contributors s cs a -> q < length (zone_objects s)) /\
  merged_slot this cs a s s'.
Proof.
  intros Hcs H. unfold MergeFrom_alias in H.
  apply bind_Some in H as (u & s1 & E & H).
  apply set_cache_objects_Some in E as (Hsame1 & Hobjs1).
  apply bind_Some in H as (mergeObject & s1' & E & H). minv E.
  rename E into Hst, E0 into Hmo.
  apply bind_Some in H as (states & s1' & E & H).
  apply cache_states_Some in E as (Hstates & ->).
  assert (states = cs) as ->.
  { destruct Hsame1 as (_ & _ & Hc). congruence. }
  apply bind_Some in H as (loc & s2 & E & H).
  eapply MergeFrom_collect_fold in E as (Hsame2 & Hobjs2 & Hfields & Hcopy & _ & Hvalid);
    [|exact Hobjs1].
  simpl in Hobjs2, Hfields, Hcopy.
  apply bind_Some in H as (objs & s2' & E & H).
  apply cache_objects_Some in E as (Hobjs & ->).
  assert (objs = contributors s1 cs a) as -> by congruence.
  assert (Hsame : zone_same s s2) by (etrans; done).
  rewrite (zone_same_contributors _ _ _ _ Hsame1) in *.
  assert (Hfc1 : field_count_at s1 <$> contributors s cs a
                 = field_count_at s <$> contributors s cs a).
  { apply list_fmap_ext. intros. by apply zone_same_field_count_at. }
  rewrite Hfc1 in Hfields. clear Hfc1.
  pose proof Hsame1 as (Ho1 & Hs1 & Hc1).
  pose proof Hsame as (Ho2 & Hs2 & Hc2).
  assert (Hslot : slot s this a = Some mergeObject).
  { apply slot_Some. rewrite <- Hs1. eauto. }
  assert (Hvalid' : forall q, q ∈ contributors s cs a -> q < length (zone_objects s)).
  { intros q Hq. apply Hvalid in Hq. rewrite Ho1 in Hq.
    by apply lookup_lt_is_Some. }
  unfold merged_slot. case_decide as Hall.
  - (* every state holds an object *)
    apply bind_Some in H as (front & s2' & E & H). minv E. clear E.
    apply bind_Some in H as (fo & s2' & E & H). minv E. clear E.
    apply bind_Some in H as (fields & s2' & E & H). minv E.
    rename E into Hmin. rewrite Hfields in Hmin. fold (minimum (field_count_at s <$> contributors s cs a)) in Hmin.
    apply bind_Some in H as (mo & s3 & E & H).
    unfold GetOrCreateTrackedVirtualObject in E.
    apply bind_Some in E as (found & s2' & Efound & E).
    assert (s2' = s2 /\ (found = None \/
              (exists q, found = Some q /\ mergeObject = Some q /\
                         q ∉ contributors s cs a))) as (-> & Hfound).
    { destruct (copy_merge_object loc) eqn:Hcp; simpl in Efound.
      - minv Efound. split; [done|by left].
      - minv Efound. split; [done|].
        assert (found = mergeObject).
        { rewrite Hs2, <- Hs1, Hst in Efound. simplify_eq. congruence. }
        subst found. destruct mergeObject as [q|]; [right|by left].
        exists q. repeat split; try done. intros Hq.
        assert (false = true); [|done]. apply Hcopy. right. eauto. }
    assert (Hst2 : zone_states s2 !! this = Some st) by (by rewrite Hs2, <- Hs1).
    destruct Hfound as [->|(q & -> & -> & Hnotin)].
    + (* a new object *)
      minv E. simpl in *. assert (st0 = st) by congruence. subst st0.
      apply bind_Some in H as (o & s4 & E & H). minv E. simpl in E.
      rewrite lookup_app_r in E by lia.
      rewrite Nat.sub_diag in E. simpl in E. simplify_eq.
      eapply MergeFrom_resize_and_fields in H as (Hs4 & Hc4 & Hl4 & Hoth & Hcount).
      2:{ simpl. rewrite lookup_app_r by lia. by rewrite Nat.sub_diag. }
      simpl in *. rewrite length_app in Hl4. simpl in Hl4.
      assert (Hthis : <[this:=VirtualState.with_info
                         (<[a:=Some (length (zone_objects s2))]>
                            (VirtualState.info_ st)) st]> (zone_states s2) !! this
                      = Some (VirtualState.with_info
                                (<[a:=Some (length (zone_objects s2))]>
                                   (VirtualState.info_ st)) st))
        by (apply list_lookup_insert_eq; by eapply lookup_lt_Some).
      split; [rewrite Hc4; unfold cache_states_of in *; simpl; congruence|].
      split; [intros p Hp; by rewrite Hs4, list_lookup_insert_ne, Hs2|].
      split.
      { rewrite <- Hs2. eexists _, _. split; [done|]. rewrite Hs4.
        split; [exact Hthis|].
        simpl. rewrite length_insert. split; [done|].
        intros b Hb. by rewrite list_lookup_insert_ne. }
      split; [rewrite <- Ho2; lia|].
      split; [done|].
      exists (length (zone_objects s2)), fields.
      split.
      { apply slot_Some. rewrite Hs4. eexists. split; [exact Hthis|].
        simpl. by apply list_lookup_insert_eq. }
      split; [done|]. split.
      { right. split; [by rewrite Ho2|]. rewrite Hcount.
        unfold VirtualObject.field_count, VirtualObject.create_tracked. simpl. lia. }
      split; [lia|].
      intros q Hq Hlt. rewrite Hoth by done. rewrite <- Ho2 in Hlt.
      rewrite lookup_app_l by lia. by rewrite Ho2.
    + (* the object merged into before *)
      minv E.
      apply bind_Some in H as (o & s4 & E & H). minv E.
      eapply MergeFrom_resize_and_fields in H as (Hs4 & Hc4 & Hl4 & Hoth & Hcount);
        [|done].
      split; [by rewrite Hc4, Hc2|].
      split; [intros p Hp; by rewrite Hs4, Hs2|].
      split.
      { exists st, st. rewrite Hs4, Hs2. rewrite Hs1 in Hst. done. }
      split; [rewrite Hl4, Ho2; lia|].
      split; [done|].
      exists q, fields.
      split; [apply slot_Some; rewrite Hs4; eauto|].
      split; [done|].
      assert (Hq : q < length (zone_objects s)).
      { rewrite <- Ho2. by eapply lookup_lt_Some. }
      split.
      { left. repeat split; try done. rewrite Hcount.
        unfold field_count_at. by rewrite <- Ho2, E. }
      split; [rewrite Hl4, Ho2; lia|].
      intros q' Hq' _. rewrite Hoth by done. by rewrite Ho2.
  - (* the alias is not live in every state *)
    minv H. simpl in *.
    assert (st0 = st) as -> by (rewrite Hs2, <- Hs1 in E; congruence).
    assert (Hthis : <[this:=VirtualState.with_info (<[a:=None]> (VirtualState.info_ st)) st]>
                      (zone_states s2) !! this
                    = Some (VirtualState.with_info (<[a:=None]> (VirtualState.info_ st)) st))
      by (apply list_lookup_insert_eq; by eapply lookup_lt_Some).
    split; [unfold cache_states_of in *; simpl; congruence|].
    split; [intros p Hp; by rewrite list_lookup_insert_ne, Hs2|].
    split.
    { eexists st, _. rewrite <- Hs1. split; [done|]. split; [exact Hthis|].
      simpl. rewrite length_insert. split; [done|].
      intros b Hb. by rewrite list_lookup_insert_ne. }
    split; [by rewrite Ho2|]. split; [done|]. split; [|done].
    apply slot_Some. eexists. split; [exact Hthis|].
    simpl. by apply list_lookup_insert_eq.
Qed.

(** Each object is held at one alias only, in the states [ps]. *)
Definition one_alias_per_object (s : Analysis) (ps : list nat) : Prop :=
  forall p p' a b q,
    p ∈ ps -> p' ∈ ps ->
    slot s p a = Some (Some q) -> slot s p' b = Some (Some q) -> a = b.

(** The slot of alias [a] after the merge of the states [cs] of [s] into
    [this], [s'] being the state reached. *)
Definition merge_result (this : nat) (cs : list nat) (s : Analysis)
    (a : nat) (s' : Analysis) : Prop :=
  if decide (length (contributors s cs a) = length cs) then
    exists mo f,
      slot s' this a = Some (Some mo) /\
      minimum (field_count_at s <$> contributors s cs a) = Some f /\
      mo < length (zone_objects s') /\
      ((slot s this a = Some (Some mo) /\ (mo ∉ contributors s cs a) /\
        field_count_at s' mo = Nat.max f (field_count_at s mo)) \/
       (length (zone_objects s) <= mo /\ field_count_at s' mo = f))
  else slot s' this a = Some None.

(** The invariant of the loop over the aliases, before alias [k]. *)
Definition merge_invariant (this : nat) (cs : list nat) (s : Analysis)
    (k : nat) (sk : Analysis) : Prop :=
  cache_states_of sk = Some cs /\
  (forall p, p <> this -> zone_states sk !! p = zone_states s !! p) /\
  (exists st stk,
     zone_states s !! this = Some st /\ zone_states sk !! this = Some stk /\
     length (VirtualState.info_ stk) = length (VirtualState.info_ st) /\
     forall b, k <= b -> VirtualState.info_ stk !! b = VirtualState.info_ st !! b) /\
  length (zone_objects s) <= length (zone_objects sk) /\
  (forall q, q < length (zone_objects s) ->
             (forall b, b < k -> slot s this b <> Some (Some q)) ->
             zone_objects sk !! q = zone_objects s !! q) /\
  (forall a, a < k -> merge_result this cs s a sk).

Lemma state_ok_slot s p a q :
  state_ok s p -> slot s p a = Some (Some q) -> q < length (zone_objects s).
Proof.
  intros (st & Hst & Hok) (st' & Hst' & Hq)%slot_Some. simplify_eq. eauto.
Qed.

Lemma contributors_elem s cs a q :
  q ∈ contributors s cs a <-> exists p, p ∈ cs /\ slot s p a = Some (Some q).
Proof.
  unfold contributors. rewrite list_elem_of_omap. split.
  - intros (p & Hp & Hq). exists p. split; [done|].
    destruct (slot s p a) as [[?|]|]; simpl in Hq; by simplify_eq.
  - intros (p & Hp & Hq). exists p. split; [done|]. by rewrite Hq.
Qed.

Lemma merge_invariant_step this control arity cs s k sk b c sk' :
  state_ok s this -> (forall p, p ∈ cs -> state_ok s p) ->
  one_alias_per_object s (this :: cs) ->
  merge_invariant this cs s k sk ->
  MergeFrom_alias this control arity b k sk = Some (c, sk') ->
  merge_invariant this cs s (S k) sk'.
Proof.
  intros Hthis Hcs Hone (Hcache & Hstates & (st & stk & Hst & Hstk & Hlen & Hinfo)
                         & Hgrow & Hobjs & Hres) Hrun.
  eapply MergeFrom_alias_spec in Hrun
    as (Hcache' & Hstates' & (stk0 & stk' & Hstk0 & Hstk' & Hlen' & Hinfo')
        & Hgrow' & Hvalid & Hslot); [|done].
  assert (stk0 = stk) as -> by congruence.
  (* the slots of alias [k] and above are those of [s] *)
  assert (Hslots : forall p a, (p = this \/ p ∈ cs) -> k <= a ->
                               slot sk p a = slot s p a).
  { intros p a Hp Ha. unfold slot. destruct (decide (p = this)) as [->|Hne].
    - rewrite Hstk, Hst. simpl. by apply Hinfo.
    - by rewrite Hstates. }
  assert (Hcontr : contributors sk cs k = contributors s cs k).
  { unfold contributors. apply list_omap_ext. apply Forall2_same_length_lookup.
    split; [done|]. intros i p p' Hp Hp'. simplify_eq.
    rewrite Hslots; [done| |done]. right. by eapply list_elem_of_lookup_2. }
  (* the objects held at alias [k] and above are those of [s] *)
  assert (Hkeep : forall p a q, (p = this \/ p ∈ cs) -> k <= a ->
                    slot s p a = Some (Some q) ->
                    q < length (zone_objects s) /\
                    zone_objects sk !! q = zone_objects s !! q).
  { intros p a q Hp Ha Hq.
    assert (Hlt : q < length (zone_objects s)).
    { destruct Hp as [->|Hp];
        [by eapply state_ok_slot|eapply state_ok_slot; [by apply Hcs|done]]. }
    split; [done|]. apply Hobjs; [done|]. intros b' Hb' Hq'.
    assert (a = b'); [|lia].
    eapply (Hone p this a b' q); try done.
    - destruct Hp as [->|Hp]; [apply list_elem_of_here|by apply list_elem_of_further].
    - apply list_elem_of_here. }
  assert (Hfc : field_count_at sk <$> contributors s cs k
                = field_count_at s <$> contributors s cs k).
  { apply list_fmap_ext. intros i q Hq.
    apply list_elem_of_lookup_2, contributors_elem in Hq as (p & Hp & Hq).
    unfold field_count_at. f_equal. eapply Hkeep; [|done..]. by right. }
  unfold merged_slot in Hslot. rewrite Hcontr, Hfc in Hslot.
  unfold merge_invariant.
  split; [done|].
  split; [intros p Hp; by rewrite Hstates', Hstates|].
  split.
  { exists st, stk'. repeat split; try done; [congruence|].
    intros b' Hb'. rewrite Hinfo' by lia. apply Hinfo. lia. }
  split; [lia|].
  (* what became of the objects *)
  assert (Hchange :
    forall q, q < length (zone_objects sk) ->
      zone_objects sk' !! q = zone_objects sk !! q \/
      (length (contributors s cs k) = length cs /\
       slot sk' this k = Some (Some q) /\ slot s this k = Some (Some q))).
  { intros q Hq. case_decide as Hall.
    - destruct Hslot as (mo & f & Hmo & Hmin & Hor & Hmolt & Hoth).
      destruct (decide (q = mo)) as [->|Hne]; [|left; by apply Hoth].
      destruct Hor as [(Hprev & _)|(Heq & _)]; [|lia].
      right. repeat split; try done. rewrite <- Hslots; [done|by left|done].
    - left. destruct Hslot as [_ ->]. done. }
  split.
  { intros q Hq Hnot.
    destruct (Hchange q ltac:(lia)) as [->|(_ & _ & Hq')].
    - apply Hobjs; [done|]. intros b' Hb'. apply Hnot. lia.
    - exfalso. eapply (Hnot k); [lia|done]. }
  intros a Ha. destruct (decide (a = k)) as [->|Hne].
  - (* the alias just merged *)
    unfold merge_result. case_decide as Hall; [|by destruct Hslot].
    destruct Hslot as (mo & f & Hmo & Hmin & Hor & Hmolt & Hoth).
    exists mo, f. repeat split; try done.
    destruct Hor as [(Hprev & Hnotin & Hprevlt & Hcount)|(-> & Hcount)].
    + left. rewrite Hslots in Hprev; [|by left|done].
      repeat split; try done. rewrite Hcount. f_equal.
      unfold field_count_at. f_equal. eapply Hkeep; [by left| |done]. done.
    + right. split; [lia|done].
  - (* an alias merged before *)
    assert (Hlt : a < k) by lia. specialize (Hres a Hlt).
    unfold merge_result in *.
    destruct (decide (length (contributors s cs a) = length cs)) as [Hall|Hall].
    + destruct Hres as (mo & f & Hmo & Hmin & Hmolt & Hor).
      assert (Hmo' : slot sk' this a = Some (Some mo)).
      { apply slot_Some in Hmo as (st0 & Hst0 & Hq). simplify_eq.
        apply slot_Some. exists stk'. split; [done|]. by rewrite Hinfo'. }
      assert (Hsame : zone_objects sk' !! mo = zone_objects sk !! mo).
      { destruct (Hchange mo Hmolt) as [->|(_ & _ & Hq')]; [done|]. exfalso.
        destruct Hor as [(Hprev & _)|(Hfresh & _)].
        - assert (a = k); [|lia].
          eapply (Hone this this a k mo); try done; apply list_elem_of_here.
        - apply state_ok_slot in Hq'; [lia|done]. }
      exists mo, f. split; [done|]. split; [done|]. split; [lia|].
      unfold field_count_at in *. rewrite Hsame. done.
    + apply slot_Some in Hres as (st0 & Hst0 & Hq). simplify_eq.
      apply slot_Some. exists stk'. split; [done|]. by rewrite Hinfo'.
Qed.

Lemma MergeFrom_loop_invariant this control arity cs s :
  state_ok s this -> (forall p, p ∈ cs -> state_ok s p) ->
  one_alias_per_object s (this :: cs) ->
  forall m k b sk c s',
    merge_invariant this cs s k sk ->
    foldM (MergeFrom_alias this control arity) b (seq k m) sk = Some (c, s') ->
    merge_invariant this cs s (k + m) s'.
Proof.
  intros Hthis Hcs Hone. induction m as [|m IH]; intros k b sk c s' Hinv H.
  - simpl in H. minv H. by rewrite Nat.add_0_r.
  - simpl in H. apply bind_Some in H as (b' & sk' & E & H).
    eapply merge_invariant_step in E; [|done..].
    replace (k + S m) with (S k + m) by lia. by eapply IH.
Qed.


(** An effect phi (node 9) with two predecessors whose states hold
    snapshots with two fields of the object of alias 0; the state of the
    phi still holds an object with three fields. *)
Definition longer_merged_object : Analysis :=
  mkAnalysis (mkGraph [] 0 0)
    [VirtualObject.mk 2 3%N [Some 5; Some 6; Some 7] [false; false; false] None 0;
     VirtualObject.mk 2 3%N [Some 5; Some 6] [false; false] None 1;
     VirtualObject.mk 2 3%N [Some 5; Some 6] [false; false] None 2]
    [VirtualState.mk [Some 0] 9; VirtualState.mk [Some 1] 7;
     VirtualState.mk [Some 2] 8]
    [] [] 1%N [] [] [] [] (Some (MergeCache.mk [1; 2] [] [])).

Lemma longer_merged_object_ok :
  state_ok longer_merged_object 0 /\
  (forall p, p ∈ [1; 2] -> state_ok longer_merged_object p) /\
  one_alias_per_object longer_merged_object [0; 1; 2].
Proof.
  assert (Hok : forall p, p ∈ [0; 1; 2] -> state_ok longer_merged_object p).
  { intros p Hp. unfold state_ok.
    repeat (apply elem_of_cons in Hp as [->|Hp]); [| | |by apply elem_of_nil in Hp];
      (eexists; split; [reflexivity|]);
      intros [|i] q Hq; simpl in Hq; simplify_eq; simpl; lia. }
  split; [apply Hok; apply list_elem_of_here|].
  split; [intros p Hp; apply Hok; by apply list_elem_of_further|].
  assert (Hslot : forall p a q, p ∈ [0; 1; 2] ->
            slot longer_merged_object p a = Some (Some q) -> a = 0).
  { intros p a q Hp Hq.
    repeat (apply elem_of_cons in Hp as [->|Hp]); [| | |by apply elem_of_nil in Hp];
      destruct a as [|a]; simpl in Hq; done. }
  intros p p' a b q Hp Hp' Ha Hb.
  apply Hslot in Ha; [|done]. apply Hslot in Hb; [|done]. congruence.
Qed.



(** ** C7: the allocation in the virtual-state fixed point *)

Lemma get_node_run n s nd :
  nodes (graph_ s) !! n = Some nd -> get_node n s = Some (nd, s).
Proof.
  intros H. unfold get_node. rewrite (bind_run _ _ s (graph_ s) s) by done.
  unfold lift. by rewrite H.
Qed.

Lemma get_opcode_run n s nd :
  nodes (graph_ s) !! n = Some nd -> get_opcode n s = Some (opcode (op nd), s).
Proof.
  intros H. unfold get_opcode. by rewrite (bind_run _ _ s nd s) by (by apply get_node_run).
Qed.

Lemma InputAt_run n i s nd x :
  nodes (graph_ s) !! n = Some nd -> inputs nd !! i = Some x ->
  InputAt n i s = Some (x, s).
Proof.
  intros H Hi. unfold InputAt.
  rewrite (bind_run _ _ s nd s) by (by apply get_node_run).
  unfold lift. by rewrite Hi.
Qed.

Lemma NumberMatcher_run n s nd v :
  nodes (graph_ s) !! n = Some nd ->
  opcode (op nd) = kNumberConstant -> parameter (op nd) = NumberValue v ->
  NumberMatcher n s = Some (Some v, s).
Proof.
  intros H Hoc Hp. unfold NumberMatcher.
  rewrite (bind_run _ _ s nd s) by (by apply get_node_run).
  by rewrite Hoc, Hp.
Qed.

Lemma virtual_state_at_run id s x :
  virtual_states_ s !! id = Some x -> virtual_state_at id s = Some (x, s).
Proof.
  intros H. unfold virtual_state_at.
  rewrite (bind_run _ _ s (virtual_states_ s) s) by done.
  unfold lift. by rewrite H.
Qed.

Lemma alias_at_run id s a :
  aliases_ s !! id = Some a -> alias_at id s = Some (a, s).
Proof.
  intros H. unfold alias_at.
  rewrite (bind_run _ _ s (aliases_ s) s) by done.
  unfold lift. by rewrite H.
Qed.

Lemma VirtualObjectFromAlias_run this alias s r :
  slot s this alias = Some r -> VirtualObjectFromAlias this alias s = Some (r, s).
Proof.
  intros (st & Hst & Hr)%slot_Some. apply VirtualObjectFromAlias_Some. eauto.
Qed.

(** The new object is installed in [state], which is the state of [node]. *)
Lemma install_object state alias o s :
  forall st, zone_states s !! state = Some st ->
  alias < length (VirtualState.info_ st) ->
  exists s',
    (let* obj := new_object o in SetVirtualObject state alias (Some obj)) s
      = Some (tt, s') /\
    virtual_states_ s' = virtual_states_ s /\
    slot s' state alias = Some (Some (length (zone_objects s))) /\
    zone_objects s' !! length (zone_objects s) = Some o.
Proof.
  intros st Hst Hlt.
  eexists. split.
  - erewrite bind_run by (by apply new_object_Some).
    apply SetVirtualObject_Some. exists st. split; [done|]. split; [done|reflexivity].
  - simpl. split; [done|]. split.
    + apply slot_Some. eexists.
      split; [apply list_lookup_insert_eq; by eapply lookup_lt_Some|].
      simpl. by apply list_lookup_insert_eq.
    + rewrite lookup_app_r by lia. by rewrite Nat.sub_diag.
Qed.

(** The graph is as it was. *)
Definition graph_same : relation Analysis := fun s s' => graph_ s' = graph_ s.

#[global] Instance graph_same_refl : Reflexive graph_same.
Proof. by intros s. Qed.
#[global] Instance graph_same_trans : Transitive graph_same.
Proof. intros s1 s2 s3 H1 H2. unfold graph_same in *. congruence. Qed.

Lemma IsDanglingEffectNode_loop_graph_same node edges :
  post graph_same (IsDanglingEffectNode_loop node edges).
Proof. induction edges as [|e edges IH]; simpl; post_auto. Qed.
#[global] Hint Resolve IsDanglingEffectNode_loop_graph_same : post.

Lemma IsDanglingEffectNode_graph_same node :
  post graph_same (IsDanglingEffectNode node).
Proof. unfold IsDanglingEffectNode. post_auto. Qed.
#[global] Hint Resolve IsDanglingEffectNode_graph_same : post.

Lemma IsEffectBranchPoint_loop_graph_same node edges count :
  post graph_same (IsEffectBranchPoint_loop node edges count).
Proof.
  revert count. induction edges as [|e edges IH]; intros count; simpl; post_auto.
Qed.
#[global] Hint Resolve IsEffectBranchPoint_loop_graph_same : post.

Lemma ForwardVirtualState_graph_same node :
  post graph_same (ForwardVirtualState node).
Proof. unfold ForwardVirtualState. post_auto. Qed.

Lemma CopyStateForModificationAt_graph_same state node :
  post graph_same (CopyStateForModificationAt state node).
Proof. unfold CopyStateForModificationAt. post_auto. Qed.

Lemma CopyStateForModificationAt_total state node s st :
  zone_states s !! state = Some st ->
  node < length (virtual_states_ s) ->
  exists r s', CopyStateForModificationAt state node s = Some (r, s').
Proof.
  intros Hst Hlt.
  unfold CopyStateForModificationAt, VirtualState_owner, VirtualState_copy,
    set_virtual_state_at, load_state, new_state, bind, gets, lift, modify, ret.
  simpl. rewrite Hst. simpl. case_decide; [|eauto].
  rewrite Hst. simpl. case_decide; [eauto|lia].
Qed.

Lemma ProcessAllocation_installs_object
    (kPointerSize : Z) (node : nat) (s s1 : Analysis)
    (state : nat) (alias : N) (nd cst ownd : Node) (in0 : nat) (v : Z)
    (st : VirtualState.t) :
  nodes (graph_ s) !! node = Some nd ->
  inputs nd !! 0 = Some in0 ->
  nodes (graph_ s) !! in0 = Some cst ->
  opcode (op cst) = kNumberConstant -> parameter (op cst) = NumberValue v ->
  (0 <= Z.quot v kPointerSize)%Z ->
  ForwardVirtualState node s = Some (tt, s1) ->
  virtual_states_ s1 !! node = Some (Some state) ->
  aliases_ s1 !! node = Some alias ->
  slot s1 state (N.to_nat alias) = Some None ->
  zone_states s1 !! state = Some st ->
  nodes (graph_ s) !! VirtualState.owner_ st = Some ownd ->
  exists s' state' obj o,
    ProcessAllocation kPointerSize node s = Some (tt, s') /\
    virtual_states_ s' !! node = Some (Some state') /\
    slot s' state' (N.to_nat alias) = Some (Some obj) /\
    zone_objects s1 !! obj = None /\
    zone_objects s' !! obj = Some o /\
    VirtualObject.field_count o = Z.to_nat (Z.quot v kPointerSize) /\
    VirtualObject.status_ o = VirtualObject.kTracked /\
    VirtualObject.IsTracked o = true /\
    VirtualObject.IsInitialized o = false /\
    VirtualObject.id o = node /\ VirtualObject.owner o = state'.
Proof.
  intros Hnd Hin0 Hcst Hcoc Hcv Hpos Hfwd Hvs Hal Hslot Hst Hown.
  pose proof (ForwardVirtualState_graph_same _ _ _ _ Hfwd) as Hg.
  unfold graph_same in Hg.
  unfold ProcessAllocation.
  assert (Hlt : N.to_nat alias < length (VirtualState.info_ st)).
  { apply slot_Some in Hslot as (st0 & Hst0 & Hq). simplify_eq.
    by eapply lookup_lt_Some. }
  set (o := VirtualObject.create_tracked node state
              (Z.to_nat (Z.quot v kPointerSize)) false).
  assert (Hnew : forall state' s2 st2,
            graph_ s2 = graph_ s ->
            zone_objects s2 = zone_objects s1 ->
            zone_states s2 !! state' = Some st2 ->
            length (VirtualState.info_ st2) = length (VirtualState.info_ st) ->
            virtual_states_ s2 !! node = Some (Some state') ->
            exists s' obj o,
              (let* in0 := InputAt node 0 in
               let* size := NumberMatcher in0 in
               match size with
               | Some v =>
                   let* n := lift (field_number_of_size kPointerSize v) in
                   let* obj := new_object
                                 (VirtualObject.create_tracked node state' n false) in
                   SetVirtualObject state' (N.to_nat alias) (Some obj)
               | None =>
                   let* obj := new_object (VirtualObject.create node state') in
                   SetVirtualObject state' (N.to_nat alias) (Some obj)
               end) s2 = Some (tt, s') /\
              virtual_states_ s' !! node = Some (Some state') /\
              slot s' state' (N.to_nat alias) = Some (Some obj) /\
              zone_objects s1 !! obj = None /\
              zone_objects s' !! obj = Some o /\
              VirtualObject.field_count o = Z.to_nat (Z.quot v kPointerSize) /\
              VirtualObject.status_ o = VirtualObject.kTracked /\
              VirtualObject.IsTracked o = true /\
              VirtualObject.IsInitialized o = false /\
              VirtualObject.id o = node /\ VirtualObject.owner o = state').
  { intros state' s2 st2 Hg2 Ho2 Hst2 Hlen2 Hvs2.
    rewrite (bind_run _ _ s2 in0 s2)
      by (eapply InputAt_run; [rewrite Hg2; exact Hnd|done]).
    rewrite (bind_run _ _ s2 (Some v) s2)
      by (eapply NumberMatcher_run; [rewrite Hg2; exact Hcst|done..]).
    rewrite (bind_run _ _ s2 (Z.to_nat (Z.quot v kPointerSize)) s2).
    2:{ apply lift_Some. split; [|done]. unfold field_number_of_size.
        by case_decide. }
    destruct (install_object state' (N.to_nat alias)
                (VirtualObject.create_tracked node state'
                   (Z.to_nat (Z.quot v kPointerSize)) false) s2 st2 Hst2
                ltac:(lia)) as (s' & Hrun & Hvs' & Hslot' & Hobj').
    exists s', (length (zone_objects s2)), (VirtualObject.create_tracked node state'
                   (Z.to_nat (Z.quot v kPointerSize)) false).
    split; [exact Hrun|]. split; [by rewrite Hvs'|]. split; [done|].
    split; [rewrite Ho2; apply lookup_ge_None; lia|]. split; [done|].
    split; [unfold VirtualObject.field_count; simpl; apply resize_length|].
    done. }
  rewrite (bind_run _ _ s tt s1) by done.
  rewrite (bind_run _ _ s1 (Some state) s1) by (by apply virtual_state_at_run).
  rewrite (bind_run _ _ s1 state s1) by done.
  rewrite (bind_run _ _ s1 alias s1) by (by apply alias_at_run).
  rewrite (bind_run _ _ s1 None s1) by (by apply VirtualObjectFromAlias_run).
  rewrite (bind_run _ _ s1 (VirtualState.owner_ st) s1)
    by (apply VirtualState_owner_Some; eauto).
  rewrite (bind_run _ _ s1 (opcode (op ownd)) s1)
    by (apply get_opcode_run; by rewrite Hg).
  case_decide as Hphi.
  - (* the state is owned by an effect phi: it is copied first *)
    destruct (CopyStateForModificationAt state node s1) as [[state' s2]|] eqn:Ecopy.
    + pose proof (CopyStateForModificationAt_graph_same _ _ _ _ _ Ecopy) as Hg2.
      unfold graph_same in Hg2.
      pose proof Ecopy as (st0 & Hst0 & Ho2 & _ & Hcase)%CopyStateForModificationAt_Some.
      assert (st0 = st) as -> by congruence.
      assert (Hvs2 : virtual_states_ s2 !! node = Some (Some state')).
      { unfold CopyStateForModificationAt in Ecopy. minv Ecopy.
        case_decide.
        - minv Ecopy. unfold set_virtual_state_at in E1. minv E1.
          case_decide; [|done]. minv E1. simpl. by apply list_lookup_insert_eq.
        - minv Ecopy. done. }
      destruct Hcase as [(_ & -> & ->)|(_ & -> & info & Hs2 & Hlen)].
      * destruct (Hnew state s1 st) as (s' & obj & o' & Hrun & Hrest); try done.
        exists s', state, obj, o'.
        rewrite (bind_run _ _ s1 state s1) by done. done.
      * destruct (Hnew (length (zone_states s1)) s2 (VirtualState.mk info node))
          as (s' & obj & o' & Hrun & Hrest); try done.
        { congruence. }
        { rewrite Hs2, lookup_app_r by lia. by rewrite Nat.sub_diag. }
        exists s', (length (zone_states s1)), obj, o'.
        rewrite (bind_run _ _ s1 (length (zone_states s1)) s2) by done. done.
    + exfalso.
      destruct (CopyStateForModificationAt_total state node s1 st Hst)
        as (r & s2 & Hr); [by eapply lookup_lt_Some|congruence].
  - destruct (Hnew state s1 st) as (s' & obj & o' & Hrun & Hrest); try done.
    exists s', state, obj, o'.
    rewrite (bind_run _ _ s1 state s1) by done. done.
Qed.

(** C7.  When the virtual-state fixed point processes an [Allocate] node
    whose size input is the number constant [v], and the state of the node
    after forwarding holds no object at the alias of the node, it installs
    at that alias, in the state of the node, a new object whose field count
    is [v / kPointerSize], which is tracked and not initialised. *)
Theorem Process_Allocate_installs_object
    (kPointerSize kPointerSizeLog2 : Z) (node : nat) (s s1 : Analysis)
    (state : nat) (alias : N) (nd cst ownd : Node) (in0 : nat) (v : Z)
    (st : VirtualState.t) :
  nodes (graph_ s) !! node = Some nd ->
  opcode (op nd) = kAllocate ->
  inputs nd !! 0 = Some in0 ->
  nodes (graph_ s) !! in0 = Some cst ->
  opcode (op cst) = kNumberConstant -> parameter (op cst) = NumberValue v ->
  (0 <= Z.quot v kPointerSize)%Z ->
  ForwardVirtualState node s = Some (tt, s1) ->
  virtual_states_ s1 !! node = Some (Some state) ->
  aliases_ s1 !! node = Some alias ->
  slot s1 state (N.to_nat alias) = Some None ->
  zone_states s1 !! state = Some st ->
  nodes (graph_ s) !! VirtualState.owner_ st = Some ownd ->
  exists s' state' obj o,
    EscapeAnalysis_Process kPointerSize kPointerSizeLog2 node s = Some (true, s') /\
    virtual_states_ s' !! node = Some (Some state') /\
    slot s' state' (N.to_nat alias) = Some (Some obj) /\
    zone_objects s1 !! obj = None /\
    zone_objects s' !! obj = Some o /\
    VirtualObject.field_count o = Z.to_nat (Z.quot v kPointerSize) /\
    VirtualObject.status_ o = VirtualObject.kTracked /\
    VirtualObject.IsTracked o = true /\
    VirtualObject.IsInitialized o = false /\
    VirtualObject.id o = node /\ VirtualObject.owner o = state'.
Proof.
  intros Hnd Hoc Hin0 Hcst Hcoc Hcv Hpos Hfwd Hvs Hal Hslot Hst Hown.
  destruct (ProcessAllocation_installs_object kPointerSize node s s1 state alias
              nd cst ownd in0 v st) as (s' & state' & obj & o & Hrun & Hrest);
    try done.
  exists s', state', obj, o. split; [|done].
  unfold EscapeAnalysis_Process.
  rewrite (bind_run _ _ s kAllocate s) by (rewrite <- Hoc; by apply get_opcode_run).
  by rewrite (bind_run _ _ s tt s') by done.
Qed.

(** ** A sample graph *)

(** [Start -> Allocate(size = 8) -> FinishRegion -> StoreField(offset 0, 42)
    -> LoadField(offset 0) -> Return(load) -> End]; node 1 is the size,
    node 4 the stored constant. *)
Definition store_load_graph : Graph :=
  mkGraph
    [ mkNode (mkOperator kStart 0 0 0 0 0 1 NoParameter) [];
      mkNode (mkOperator kNumberConstant 0 0 0 0 0 0 (NumberValue 8)) [];
      mkNode (mkOperator kAllocate 1 0 0 1 1 1 NoParameter) [1; 0; 0];
      mkNode (mkOperator kFinishRegion 1 0 0 1 0 1 NoParameter) [2; 2];
      mkNode (mkOperator kNumberConstant 0 0 0 0 0 0 (NumberValue 42)) [];
      mkNode (mkOperator kStoreField 2 0 0 1 1 1 (FieldAccess 0)) [3; 4; 3; 0];
      mkNode (mkOperator kLoadField 1 0 0 1 1 1 (FieldAccess 0)) [3; 5; 0];
      mkNode (mkOperator (kOtherOpcode 0) 1 0 0 1 1 0 NoParameter) [6; 6; 0];
      mkNode (mkOperator kEnd 0 0 0 0 1 0 NoParameter) [7] ]
    0 8.

Definition state_after {A} (m : M A) (s : Analysis) : Analysis :=
  match m s with
  | Some (_, s') => s'
  | None => s
  end.

(** The analysis of the sample graph when [Start] has been processed and
    the allocation is next. *)
Definition before_allocation : Analysis :=
  Eval vm_compute in
    state_after
      (AssignAliases 20;;
       modify (set_virtual_states (replicate 9 None));;
       ProcessStart 0)
      (new_EscapeAnalysis store_load_graph).

Lemma Process_Allocate_installs_object_witness :
  exists s' state' obj o,
    EscapeAnalysis_Process 8 3 2 before_allocation = Some (true, s') /\
    virtual_states_ s' !! 2 = Some (Some state') /\
    slot s' state' (N.to_nat 0) = Some (Some obj) /\
    zone_objects (state_after (ForwardVirtualState 2) before_allocation) !! obj = None /\
    zone_objects s' !! obj = Some o /\
    VirtualObject.field_count o = Z.to_nat (Z.quot 8 8) /\
    VirtualObject.status_ o = VirtualObject.kTracked /\
    VirtualObject.IsTracked o = true /\
    VirtualObject.IsInitialized o = false /\
    VirtualObject.id o = 2 /\ VirtualObject.owner o = state'.
Proof.
  apply (Process_Allocate_installs_object 8 3 2 before_allocation
           (state_after (ForwardVirtualState 2) before_allocation) 0 0%N
           (mkNode (mkOperator kAllocate 1 0 0 1 1 1 NoParameter) [1; 0; 0])
           (mkNode (mkOperator kNumberConstant 0 0 0 0 0 0 (NumberValue 8)) [])
           (mkNode (mkOperator kStart 0 0 0 0 0 1 NoParameter) [])
           1 8 (VirtualState.mk [None] 0));
    try reflexivity.
  vm_compute. discriminate.
Defined.

(** ** C8: allocations of non-constant size *)

(** *** The virtual-state fixed point and the status table *)

(** In every status word [kTracked] and [kEscaped] are both set or both
    clear. *)
Definition paired (st : list N) : Prop :=
  forall m v, st !! m = Some v -> has_flag v kTracked = has_flag v kEscaped.

(** What the virtual-state fixed point leaves alone: the stack of the
    status fixed point, the aliases, and the pairing of the two flags. *)
Definition object_phase : relation Analysis :=
  fun s s' =>
    status_stack_ s' = status_stack_ s /\
    aliases_ s' = aliases_ s /\
    (paired (status_ s) -> paired (status_ s')).

#[global] Instance object_phase_refl : Reflexive object_phase.
Proof. by intros s. Qed.
#[global] Instance object_phase_trans : Transitive object_phase.
Proof.
  intros s1 s2 s3 (A1 & A2 & A3) (B1 & B2 & B3).
  repeat split; try congruence. auto.
Qed.

Lemma paired_insert st id v :
  paired st -> has_flag v kTracked = has_flag v kEscaped ->
  paired (<[id := v]> st).
Proof.
  intros Hp Hv m w Hm. destruct (decide (m = id)) as [->|Hne].
  - apply list_lookup_insert_Some in Hm as [(_ & <- & _)|(? & _)]; done.
  - rewrite list_lookup_insert_ne in Hm by done. by eapply Hp.
Qed.

Lemma status_or_object_phase id mask :
  has_flag mask kTracked = false -> has_flag mask kEscaped = false ->
  post object_phase (status_or id mask).
Proof.
  intros Ht He s r s' H. minv H. repeat split; try done. simpl.
  intros Hp. apply paired_insert; [done|].
  rewrite !has_flag_set_flag, Ht, He, !orb_false_r. by eapply Hp.
Qed.

Lemma status_clear_object_phase id mask :
  N.land mask kTracked = 0%N -> N.land mask kEscaped = 0%N ->
  post object_phase (status_clear id mask).
Proof.
  intros Ht He s r s' H. minv H. repeat split; try done. simpl.
  intros Hp. apply paired_insert; [done|].
  rewrite !has_flag_clear_flag_other by done. by eapply Hp.
Qed.

Lemma SetEscaped_object_phase node :
  post object_phase (EscapeStatusAnalysis_SetEscaped node).
Proof.
  intros s r s' H. apply SetEscaped_Some in H as (v & Hv & _ & ->).
  repeat split; try done. simpl. intros Hp. apply paired_insert; [done|].
  rewrite !has_flag_set_flag.
  replace (has_flag (N.lor kEscaped kTracked) kTracked) with true by done.
  replace (has_flag (N.lor kEscaped kTracked) kEscaped) with true by done.
  by rewrite !orb_true_r.
Qed.

Lemma paired_resize n st : paired st -> paired (VirtualObject.resize n kUnknown st).
Proof.
  intros Hp m v Hm. unfold VirtualObject.resize in Hm.
  apply lookup_app_Some in Hm as [Hm|(_ & Hm)].
  - apply lookup_take_Some in Hm as [Hm _]. by eapply Hp.
  - apply lookup_replicate in Hm as [-> _]. done.
Qed.

Lemma ResizeStatusVector_object_phase : post object_phase ResizeStatusVector.
Proof.
  intros s r s' H. unfold ResizeStatusVector, NodeCount in H. minv H.
  case_decide; minv H; repeat split; try done.
  simpl. apply paired_resize.
Qed.

#[global] Hint Resolve SetEscaped_object_phase ResizeStatusVector_object_phase : post.
#[global] Hint Extern 1 (post object_phase (status_or _ _)) =>
  apply status_or_object_phase; reflexivity : post.
#[global] Hint Extern 1 (post object_phase (status_clear _ _)) =>
  apply status_clear_object_phase; reflexivity : post.

Lemma IsDanglingEffectNode_loop_object_phase node edges :
  post object_phase (IsDanglingEffectNode_loop node edges).
Proof. induction edges as [|e edges IH]; simpl; post_auto. Qed.
#[global] Hint Resolve IsDanglingEffectNode_loop_object_phase : post.

Lemma IsDanglingEffectNode_object_phase node :
  post object_phase (IsDanglingEffectNode node).
Proof. unfold IsDanglingEffectNode. post_auto. Qed.
#[global] Hint Resolve IsDanglingEffectNode_object_phase : post.

Lemma IsEffectBranchPoint_loop_object_phase node edges count :
  post object_phase (IsEffectBranchPoint_loop node edges count).
Proof.
  revert count. induction edges as [|e edges IH]; intros count; simpl; post_auto.
Qed.
#[global] Hint Resolve IsEffectBranchPoint_loop_object_phase : post.

Lemma ForwardVirtualState_object_phase node :
  post object_phase (ForwardVirtualState node).
Proof. unfold ForwardVirtualState. post_auto. Qed.
#[global] Hint Resolve ForwardVirtualState_object_phase : post.

Lemma EscapeAnalysis_Process_object_phase kPointerSize kPointerSizeLog2 node :
  post object_phase (EscapeAnalysis_Process kPointerSize kPointerSizeLog2 node).
Proof. unfold EscapeAnalysis_Process. post_auto. Qed.
#[global] Hint Resolve EscapeAnalysis_Process_object_phase : post.

Lemma RunObjectAnalysis_loop_object_phase kPointerSize kPointerSizeLog2 fuel :
  forall queue,
    post object_phase
      (RunObjectAnalysis_loop kPointerSize kPointerSizeLog2 fuel queue).
Proof.
  induction fuel as [|fuel IH]; intros queue; simpl; [apply post_fail|].
  destruct queue as [|node queue]; post_auto.
Qed.
#[global] Hint Resolve RunObjectAnalysis_loop_object_phase : post.

Lemma RunObjectAnalysis_object_phase kPointerSize kPointerSizeLog2 fuel :
  post object_phase (RunObjectAnalysis kPointerSize kPointerSizeLog2 fuel).
Proof. unfold RunObjectAnalysis. post_auto. Qed.

(** *** The status fixed point *)

(** How the status fixed point may change the two flags of a status word:
    not at all, or by setting both. *)
Definition flags_kept (v v' : N) : Prop :=
  (has_flag v' kTracked = has_flag v kTracked /\
   has_flag v' kEscaped = has_flag v kEscaped) \/
  (has_flag v' kTracked = true /\ has_flag v' kEscaped = true).

Lemma flags_kept_refl v : flags_kept v v.
Proof. by left. Qed.

Lemma flags_kept_trans v1 v2 v3 :
  flags_kept v1 v2 -> flags_kept v2 v3 -> flags_kept v1 v3.
Proof.
  intros [[A1 A2]|[A1 A2]] [[B1 B2]|[B1 B2]]; unfold flags_kept;
    first [left; split; congruence | right; split; congruence].
Qed.

(** What a step of the status fixed point leaves related: the graph is the
    same, no node leaves the stack, and the flags of every node other than
    [node], the node being processed, are kept or both set. *)
Definition status_phase (node : option NodeId) : relation Analysis :=
  fun s s' =>
    graph_ s' = graph_ s /\
    (forall x, x ∈ status_stack_ s -> x ∈ status_stack_ s') /\
    length (status_ s') = length (status_ s) /\
    forall m v v', Some m <> node ->
      status_ s !! m = Some v -> status_ s' !! m = Some v' -> flags_kept v v'.

#[global] Instance status_phase_refl node : Reflexive (status_phase node).
Proof.
  intros s. repeat split; try done.
  intros m v v' _ H1 H2. simplify_eq. apply flags_kept_refl.
Qed.

#[global] Instance status_phase_trans node : Transitive (status_phase node).
Proof.
  intros s1 s2 s3 (A1 & A2 & A3 & A4) (B1 & B2 & B3 & B4).
  repeat split; try congruence; [auto|].
  intros m v v' Hm H1 H3.
  destruct (lookup_lt_is_Some_2 (status_ s2) m) as [v2 H2].
  { rewrite A3. by eapply lookup_lt_Some. }
  eapply flags_kept_trans; [by eapply A4|by eapply B4].
Qed.

Lemma status_phase_None node s s' :
  status_phase None s s' -> status_phase node s s'.
Proof.
  intros (A1 & A2 & A3 & A4). repeat split; try done.
  intros m v v' _. by apply A4.
Qed.

Lemma status_phase_insert node s id w :
  (forall v, status_ s !! id = Some v -> Some id <> node -> flags_kept v w) ->
  status_phase node s (set_status (<[id := w]> (status_ s)) s).
Proof.
  intros Hw. repeat split; try done.
  - simpl. by rewrite length_insert.
  - simpl. intros m v v' Hm H1 H2. destruct (decide (m = id)) as [->|Hne].
    + apply list_lookup_insert_Some in H2 as [(_ & <- & _)|(? & _)]; [|done].
      by apply Hw.
    + rewrite list_lookup_insert_ne in H2 by done. simplify_eq.
      apply flags_kept_refl.
Qed.

Lemma status_or_status_phase node id mask :
  has_flag mask kTracked = false -> has_flag mask kEscaped = false ->
  post (status_phase node) (status_or id mask).
Proof.
  intros Ht He s r s' H. apply status_or_Some in H as (v & Hv & ->).
  apply status_phase_insert. intros v' Hv' _. simplify_eq. left.
  by rewrite !has_flag_set_flag, Ht, He, !orb_false_r.
Qed.

Lemma status_or_node_status_phase node mask :
  post (status_phase (Some node)) (status_or node mask).
Proof.
  intros s r s' H. apply status_or_Some in H as (v & Hv & ->).
  apply status_phase_insert. intros v' Hv' Hne. done.
Qed.

Lemma status_clear_status_phase node id mask :
  N.land mask kTracked = 0%N -> N.land mask kEscaped = 0%N ->
  post (status_phase node) (status_clear id mask).
Proof.
  intros Ht He s r s' H. apply status_clear_Some in H as (v & Hv & ->).
  apply status_phase_insert. intros v' Hv' _. simplify_eq. left.
  by rewrite !has_flag_clear_flag_other.
Qed.

Lemma SetEscaped_status_phase node id :
  post (status_phase node) (EscapeStatusAnalysis_SetEscaped id).
Proof.
  intros s r s' H. apply SetEscaped_Some in H as (v & Hv & _ & ->).
  apply status_phase_insert. intros v' Hv' _. right.
  rewrite !has_flag_set_flag.
  replace (has_flag (N.lor kEscaped kTracked) kTracked) with true by done.
  replace (has_flag (N.lor kEscaped kTracked) kEscaped) with true by done.
  by rewrite !orb_true_r.
Qed.

Lemma status_stack_push_status_phase node n :
  post (status_phase node) (status_stack_push n).
Proof.
  intros s r s' H. unfold status_stack_push in H. minv H.
  repeat split; try done.
  - simpl. intros x Hx. by apply list_elem_of_further.
  - simpl. intros m v v' _ H1 H2. simplify_eq. apply flags_kept_refl.
Qed.

#[global] Hint Resolve SetEscaped_status_phase status_stack_push_status_phase : post.
#[global] Hint Extern 1 (post (status_phase _) (status_or _ _)) =>
  first [ apply status_or_status_phase; reflexivity
        | apply status_or_node_status_phase ] : post.
#[global] Hint Extern 1 (post (status_phase _) (status_clear _ _)) =>
  apply status_clear_status_phase; reflexivity : post.

Lemma RevisitUses_status_phase node n : post (status_phase node) (RevisitUses n).
Proof. unfold RevisitUses. post_auto. Qed.

Lemma RevisitInputs_status_phase node n : post (status_phase node) (RevisitInputs n).
Proof. unfold RevisitInputs. post_auto. Qed.
#[global] Hint Resolve RevisitUses_status_phase RevisitInputs_status_phase : post.

Lemma IsAllocationPhi_loop_status_phase node edges :
  post (status_phase node) (IsAllocationPhi_loop edges).
Proof. induction edges as [|e edges IH]; simpl; post_auto. Qed.
#[global] Hint Resolve IsAllocationPhi_loop_status_phase : post.

Lemma CheckUsesForEscape_loop_status_phase node edges uses rep phi_escaping :
  post (status_phase node) (CheckUsesForEscape_loop edges uses rep phi_escaping).
Proof. induction edges as [|e edges IH]; simpl; post_auto. Qed.
#[global] Hint Resolve CheckUsesForEscape_loop_status_phase : post.

Lemma CheckUsesForEscape_status_phase node uses rep phi_escaping :
  post (status_phase node) (CheckUsesForEscape uses rep phi_escaping).
Proof. unfold CheckUsesForEscape. post_auto. Qed.
#[global] Hint Resolve CheckUsesForEscape_status_phase : post.

Lemma EscapeStatusAnalysis_Process_status_phase node :
  post (status_phase (Some node)) (EscapeStatusAnalysis_Process node).
Proof. unfold EscapeStatusAnalysis_Process. post_auto. Qed.

(** An [Allocate] node whose size input is not a number constant. *)
Definition dynamic_allocation (g : Graph) (m : NodeId) : Prop :=
  exists nd size sz,
    nodes g !! m = Some nd /\ opcode (op nd) = kAllocate /\
    inputs nd !! 0 = Some size /\
    nodes g !! size = Some sz /\ opcode (op sz) <> kNumberConstant.

(** The status of [m] has both flags. *)
Definition settled (m : NodeId) (s : Analysis) : Prop :=
  exists v, status_ s !! m = Some v /\
            has_flag v kTracked = true /\ has_flag v kEscaped = true.

(** [m] waits on the stack of the status fixed point, with both flags or
    none. *)
Definition pending (m : NodeId) (s : Analysis) : Prop :=
  m ∈ status_stack_ s /\
  forall v, status_ s !! m = Some v -> has_flag v kTracked = has_flag v kEscaped.

Lemma settled_status_phase node m s s' :
  status_phase node s s' -> Some m <> node -> settled m s -> settled m s'.
Proof.
  intros (_ & _ & Hlen & Hkept) Hne (v & Hv & Ht & He).
  destruct (lookup_lt_is_Some_2 (status_ s') m) as [v' Hv'].
  { rewrite Hlen. by eapply lookup_lt_Some. }
  exists v'. split; [done|].
  destruct (Hkept m v v' Hne Hv Hv') as [[-> ->]|[-> ->]]; done.
Qed.

Lemma pending_status_phase node m s s' :
  status_phase node s s' -> Some m <> node -> pending m s -> pending m s'.
Proof.
  intros (_ & Hstk & Hlen & Hkept) Hne (Hin & Hp). split; [auto|].
  intros v' Hv'.
  destruct (lookup_lt_is_Some_2 (status_ s) m) as [v Hv].
  { rewrite <- Hlen. by eapply lookup_lt_Some. }
  destruct (Hkept m v v' Hne Hv Hv') as [[-> ->]|[-> ->]]; auto.
Qed.

Lemma NumberMatcher_not_constant size s sz :
  nodes (graph_ s) !! size = Some sz -> opcode (op sz) <> kNumberConstant ->
  NumberMatcher size s = Some (None, s).
Proof.
  intros Hsz Hoc. unfold NumberMatcher.
  rewrite (bind_run _ _ s sz s) by (by apply get_node_run).
  by destruct (opcode (op sz)).
Qed.

(** Processing an allocation of non-constant size leaves it with both
    flags. *)
Lemma ProcessAllocate_settles node s s' :
  dynamic_allocation (graph_ s) node ->
  (forall v, status_ s !! node = Some v ->
             has_flag v kTracked = has_flag v kEscaped) ->
  ProcessAllocate node s = Some (tt, s') ->
  settled node s'.
Proof.
  intros (nd & size & sz & Hnd & Hoc & Hin & Hsz & Hdyn) Hpair H.
  unfold ProcessAllocate in H.
  apply bind_Some in H as (he & s0 & Hhe & H).
  apply HasEntry_Some in Hhe as (v & Hv & -> & ->).
  apply bind_Some in H as (done_ & s1 & Hdone & H).
  assert (settled node s1) as Hs1.
  { destruct (has_flag v (N.lor kTracked kEscaped)) eqn:Hentry; simpl in Hdone.
    - minv Hdone. exists v. split; [done|].
      rewrite has_flag_lor_mask in Hentry. specialize (Hpair v Hv).
      destruct (has_flag v kTracked), (has_flag v kEscaped); done.
    - apply bind_Some in Hdone as ([] & s2 & Hor & Hdone).
      apply status_or_Some in Hor as (v' & Hv' & ->).
      rewrite (bind_run _ _ _ size _) in Hdone by (by eapply InputAt_run).
      rewrite (bind_run _ _ _ None _) in Hdone
        by (by eapply NumberMatcher_not_constant).
      apply bind_Some in Hdone as ([] & s3 & Hrev & Hdone).
      apply SetEscaped_Some in Hdone as (w & Hw & _ & ->).
      exists (set_flag w (N.lor kEscaped kTracked)). simpl. split.
      + apply list_lookup_insert_eq. by eapply lookup_lt_Some.
      + rewrite !has_flag_set_flag.
        replace (has_flag (N.lor kEscaped kTracked) kTracked) with true by done.
        replace (has_flag (N.lor kEscaped kTracked) kEscaped) with true by done.
        by rewrite !orb_true_r. }
  assert (post (status_phase None)
            (if (done_ : bool) then ret tt
             else let* c := CheckUsesForEscape node node true in
                  if (c : bool) then RevisitUses node else ret tt)) as Hrest
    by post_auto.
  eapply settled_status_phase; [by eapply Hrest|done|done].
Qed.

Lemma settled_paired m s v :
  settled m s -> status_ s !! m = Some v ->
  has_flag v kTracked = has_flag v kEscaped.
Proof. intros (w & Hw & Ht & He) Hv. simplify_eq. congruence. Qed.

(** The status fixed point settles every allocation of non-constant size
    that is on its stack. *)
Lemma RunStatusAnalysis_loop_settles m fuel :
  forall s s',
    dynamic_allocation (graph_ s) m ->
    pending m s \/ settled m s ->
    RunStatusAnalysis_loop fuel s = Some (tt, s') ->
    settled m s'.
Proof.
  induction fuel as [|fuel IH]; intros s s' Hdyn Hm H; simpl in H; [done|].
  apply bind_Some in H as (stk & s0 & Hstk & H).
  apply gets_Some in Hstk as [-> ->].
  destruct (status_stack_ s) as [|node rest] eqn:Hstack.
  { minv H. destruct Hm as [[Hin _]|Hm]; [|done].
    rewrite Hstack in Hin. by apply elem_of_nil in Hin. }
  apply bind_Some in H as ([] & s1 & Hpop & H). apply modify_Some in Hpop.
  apply bind_Some in H as ([] & s2 & Hclear & H).
  apply bind_Some in H as ([] & s3 & Hproc & H).
  apply bind_Some in H as ([] & s4 & Hvisited & H).
  assert (status_phase None s1 s2) as H12.
  { eapply (status_clear_status_phase None node kOnStack); [done|done|].
    exact Hclear. }
  assert (status_phase (Some node) s2 s3) as H23
    by (by eapply EscapeStatusAnalysis_Process_status_phase).
  assert (status_phase None s3 s4) as H34.
  { eapply (status_or_status_phase None node kVisited); [done|done|].
    exact Hvisited. }
  assert (graph_ s1 = graph_ s) as Hg1 by (by subst s1).
  assert (graph_ s2 = graph_ s) as Hg2
    by (destruct H12 as [-> _]; done).
  assert (graph_ s4 = graph_ s) as Hg4.
  { destruct H34 as [-> _]. destruct H23 as [-> _]. done. }
  eapply IH; [by rewrite Hg4| |exact H].
  destruct (decide (m = node)) as [->|Hne].
  - right. eapply settled_status_phase; [exact H34|done|].
    destruct Hdyn as (nd & size & sz & Hnd & Hoc & Hdyn).
    unfold EscapeStatusAnalysis_Process in Hproc.
    rewrite (bind_run _ _ _ kAllocate s2) in Hproc.
    2:{ rewrite <- Hoc. apply get_opcode_run. by rewrite Hg2. }
    eapply ProcessAllocate_settles; [| |exact Hproc].
    { rewrite Hg2. by exists nd, size, sz. }
    assert (forall v, status_ s1 !! node = Some v ->
                      has_flag v kTracked = has_flag v kEscaped) as Hp1.
    { subst s1. simpl. destruct Hm as [[_ Hp]|Hm]; [done|].
      intros v. by apply settled_paired. }
    intros v2 Hv2. destruct H12 as (_ & _ & Hlen & Hkept).
    destruct (lookup_lt_is_Some_2 (status_ s1) node) as [v1 Hv1].
    { rewrite <- Hlen. by eapply lookup_lt_Some. }
    specialize (Hp1 v1 Hv1).
    destruct (Hkept node v1 v2 ltac:(done) Hv1 Hv2) as [[-> ->]|[-> ->]]; done.
  - assert (Some m <> Some node) as Hne' by congruence.
    assert (Some m <> (None : option NodeId)) as HneN by done.
    destruct Hm as [[Hin Hp]|Hm].
    + left.
      eapply pending_status_phase; [exact H34|done|].
      eapply pending_status_phase; [exact H23|done|].
      eapply pending_status_phase; [exact H12|done|].
      subst s1. split; simpl.
      * rewrite Hstack in Hin. apply elem_of_cons in Hin as [?|?]; done.
      * done.
    + right.
      eapply settled_status_phase; [exact H34|done|].
      eapply settled_status_phase; [exact H23|done|].
      eapply settled_status_phase; [exact H12|done|].
      by subst s1.
Qed.

(** *** The discovery of the trackable nodes *)

(** The nodes that [AssignAliases] visits: [end] and, from a visited node,
    its inputs. *)
Inductive reachable (g : Graph) : NodeId -> Prop :=
  | reachable_end : reachable g (end_ g)
  | reachable_input n nd i :
      reachable g n -> nodes g !! n = Some nd -> i ∈ inputs nd ->
      reachable g i.

Definition is_allocate (g : Graph) (x : NodeId) : Prop :=
  exists nd, nodes g !! x = Some nd /\ opcode (op nd) = kAllocate.

(** The alias of [x] is no longer [kNotReachable]. *)
Definition marked (s : Analysis) (x : NodeId) : Prop :=
  exists a, aliases_ s !! x = Some a /\ a <> kNotReachable.

(** [x] is the node in hand or on the stack of the traversal. *)
Definition waiting (c : option NodeId) (s : Analysis) (x : NodeId) : Prop :=
  c = Some x \/ x ∈ stack_ s.

(** The invariant of the loop of [AssignAliases] on the graph [g], while
    the node [c] is in hand. *)
Record discovery (g : Graph) (c : option NodeId) (s : Analysis) : Prop := {
  disc_graph : graph_ s = g;
  disc_count : (N.of_nat (length (nodes g)) < kUntrackable)%N;
  disc_aliases : length (aliases_ s) = length (nodes g);
  disc_end : marked s (end_ g);
  disc_inputs : forall x nd i,
    marked s x -> ~ waiting c s x -> nodes g !! x = Some nd ->
    i ∈ inputs nd -> marked s i;
  disc_untrackable : forall x a,
    is_allocate g x -> aliases_ s !! x = Some a -> a <> kNotReachable ->
    (kUntrackable <= a)%N -> waiting c s x;
  disc_tracked : forall x a,
    is_allocate g x -> aliases_ s !! x = Some a -> (a < kUntrackable)%N ->
    x ∈ status_stack_ s;
  disc_status_stack : forall x,
    x ∈ status_stack_ s ->
    exists a, aliases_ s !! x = Some a /\ (a < kUntrackable)%N;
  disc_on_stack : forall x v,
    status_ s !! x = Some v -> has_flag v kOnStack = true ->
    x ∈ status_stack_ s;
  disc_nodup : NoDup (status_stack_ s);
  disc_next : next_free_alias_ s = N.of_nat (length (status_stack_ s))
}.

(** Aliases only move down: from [kNotReachable] to [kUntrackable] to an
    alias of an object. *)
Definition alias_mono (s s' : Analysis) : Prop :=
  forall x a, aliases_ s !! x = Some a ->
    exists a', aliases_ s' !! x = Some a' /\
               (a <> kNotReachable -> a' <> kNotReachable) /\
               ((a < kUntrackable)%N -> (a' < kUntrackable)%N).

Lemma alias_mono_refl s : alias_mono s s.
Proof. intros x a H. eauto. Qed.

Lemma alias_mono_trans s1 s2 s3 :
  alias_mono s1 s2 -> alias_mono s2 s3 -> alias_mono s1 s3.
Proof.
  intros H12 H23 x a H.
  destruct (H12 x a H) as (a2 & H2 & A1 & A2).
  destruct (H23 x a2 H2) as (a3 & H3 & B1 & B2).
  exists a3. auto.
Qed.

Lemma alias_mono_marked s s' x : alias_mono s s' -> marked s x -> marked s' x.
Proof.
  intros Hm (a & Ha & Hne). destruct (Hm x a Ha) as (a' & Ha' & H1 & _).
  exists a'. auto.
Qed.

Lemma alias_mono_insert s s' x a' :
  aliases_ s' = <[x := a']> (aliases_ s) ->
  a' <> kNotReachable ->
  (forall a, aliases_ s !! x = Some a -> (a < kUntrackable)%N ->
             (a' < kUntrackable)%N) ->
  alias_mono s s'.
Proof.
  intros Hs' Hne Hlt y a Hy. rewrite Hs'.
  destruct (decide (y = x)) as [->|Hxy].
  - exists a'. split; [|by eauto].
    apply list_lookup_insert_eq. by eapply lookup_lt_Some.
  - exists a. by rewrite list_lookup_insert_ne.
Qed.

Lemma NoDup_bounded_length (l : list nat) (n : nat) :
  NoDup l -> (forall x, x ∈ l -> x < n) -> length l <= n.
Proof.
  intros Hnd Hlt.
  assert (l ⊆+ seq 0 n) as Hsub.
  { apply NoDup_submseteq; [done|]. intros x Hx.
    apply elem_of_seq. specialize (Hlt x Hx). lia. }
  apply submseteq_length in Hsub. by rewrite length_seq in Hsub.
Qed.

Lemma discovery_fresh g c s x :
  discovery g c s -> x ∉ status_stack_ s -> x < length (nodes g) ->
  (next_free_alias_ s < kUntrackable)%N /\
  ((next_free_alias_ s + 1) mod (Alias_max + 1))%N =
    N.of_nat (length (x :: status_stack_ s)).
Proof.
  intros D Hx Hlt.
  assert (length (x :: status_stack_ s) <= length (nodes g)) as Hlen.
  { apply NoDup_bounded_length.
    - apply NoDup_cons_2; [done|apply D].
    - intros y [->|Hy]%elem_of_cons; [done|].
      destruct (disc_status_stack _ _ _ D y Hy) as (a & Ha & _).
      rewrite <- (disc_aliases _ _ _ D). by eapply lookup_lt_Some. }
  pose proof (disc_count _ _ _ D) as Hcount. simpl in Hlen.
  rewrite (disc_next _ _ _ D). unfold kUntrackable, Alias_max in *. split.
  - lia.
  - rewrite N.mod_small by lia. simpl length. lia.
Qed.

Lemma discovery_push g c s y :
  discovery g c s -> discovery g c (set_stack (y :: stack_ s) s).
Proof.
  intros D.
  assert (forall x, waiting c s x -> waiting c (set_stack (y :: stack_ s) s) x)
    as Hw.
  { intros x [?|?]; [by left|right]. simpl. by apply list_elem_of_further. }
  destruct D as [D1 D2 D3 D4 D5 D6 D7 D8 D9 D10 D11].
  constructor; try done.
  - intros x nd i Hx Hnw. apply D5; [done|]. intros ?. by apply Hnw, Hw.
  - intros x a Hal Ha Hne Hle. apply Hw. by eapply D6.
Qed.

(** An input that was not reachable is pushed and marked. *)
Lemma discovery_mark g c s y :
  discovery g c s -> aliases_ s !! y = Some kNotReachable ->
  let s' := set_aliases (<[y := kUntrackable]> (aliases_ s))
                        (set_stack (y :: stack_ s) s) in
  discovery g c s' /\ alias_mono s s'.
Proof.
  intros D Hy s'.
  assert (alias_mono s s') as Hmono.
  { eapply alias_mono_insert; [done|done|].
    intros a Ha. rewrite Hy in Ha. by simplify_eq. }
  split; [|done].
  assert (forall x, waiting c s x -> waiting c s' x) as Hw.
  { intros x [?|?]; [by left|right]. simpl. by apply list_elem_of_further. }
  assert (waiting c s' y) as Hwy by (right; simpl; apply list_elem_of_here).
  assert (forall x, x <> y -> aliases_ s' !! x = aliases_ s !! x) as Hother.
  { intros x Hne. simpl. by rewrite list_lookup_insert_ne. }
  assert (aliases_ s' !! y = Some kUntrackable) as Hy'.
  { simpl. apply list_lookup_insert_eq. by eapply lookup_lt_Some. }
  destruct D as [D1 D2 D3 D4 D5 D6 D7 D8 D9 D10 D11].
  constructor; try done.
  - simpl. by rewrite length_insert.
  - by eapply alias_mono_marked.
  - intros x nd i Hx Hnw Hnd Hi.
    assert (x <> y) as Hne by (intros ->; done).
    eapply alias_mono_marked; [done|].
    eapply D5; [|intros ?; by apply Hnw, Hw|done|done].
    destruct Hx as (a & Ha & ?). rewrite Hother in Ha by done. by exists a.
  - intros x a Hal Ha Hn Hle. destruct (decide (x = y)) as [->|Hne]; [done|].
    rewrite Hother in Ha by done. by eapply Hw, D6.
  - intros x a Hal Ha Hlt. destruct (decide (x = y)) as [->|Hne].
    + rewrite Hy' in Ha. simplify_eq. lia.
    + rewrite Hother in Ha by done. by eapply D7.
  - intros x Hx. destruct (D8 x Hx) as (a & Ha & Hlt).
    destruct (decide (x = y)) as [->|Hne].
    + rewrite Hy in Ha. simplify_eq. unfold kNotReachable, kUntrackable in Hlt. lia.
    + exists a. by rewrite Hother.
Qed.

(** An allocation gets the next alias and is pushed for the status fixed
    point. *)
Lemma discovery_assign g c s x a v :
  discovery g c s ->
  aliases_ s !! x = Some a -> (kUntrackable <= a)%N -> waiting c s x ->
  status_ s !! x = Some v ->
  let s' :=
    set_status (<[x := set_flag v kOnStack]> (status_ s))
      (set_status_stack (x :: status_stack_ s)
         (set_aliases (<[x := next_free_alias_ s]> (aliases_ s))
            (set_next_free_alias
               ((next_free_alias_ s + 1) mod (Alias_max + 1))%N s))) in
  discovery g c s' /\ alias_mono s s' /\
  (exists a', aliases_ s' !! x = Some a' /\ (a' < kUntrackable)%N).
Proof.
  intros D Hx Hle Hwx Hv s'.
  assert (x ∉ status_stack_ s) as Hnin.
  { intros Hin. destruct (disc_status_stack _ _ _ D x Hin) as (b & Hb & Hlt).
    simplify_eq. lia. }
  assert (x < length (nodes g)) as Hxn.
  { rewrite <- (disc_aliases _ _ _ D). by eapply lookup_lt_Some. }
  destruct (discovery_fresh g c s x D Hnin Hxn) as [Hfresh Hnext].
  assert (aliases_ s' !! x = Some (next_free_alias_ s)) as Hx'.
  { simpl. apply list_lookup_insert_eq. by eapply lookup_lt_Some. }
  assert (forall z, z <> x -> aliases_ s' !! z = aliases_ s !! z) as Hother.
  { intros z Hne. simpl. by rewrite list_lookup_insert_ne. }
  assert (alias_mono s s') as Hmono.
  { eapply alias_mono_insert; [done| |done].
    unfold kNotReachable, kUntrackable in *. lia. }
  split; [|split; [done|by eauto]].
  destruct D as [D1 D2 D3 D4 D5 D6 D7 D8 D9 D10 D11].
  constructor; try done.
  - simpl. by rewrite length_insert.
  - by eapply alias_mono_marked.
  - intros z nd i Hz Hnw Hnd Hi.
    assert (z <> x) as Hne by (intros ->; done).
    eapply alias_mono_marked; [done|]. eapply D5; [|done|done|done].
    destruct Hz as (b & Hb & ?). rewrite Hother in Hb by done. by exists b.
  - intros z b Hal Hb Hn Hleb. destruct (decide (z = x)) as [->|Hne]; [done|].
    rewrite Hother in Hb by done. by eapply D6.
  - intros z b Hal Hb Hlt. simpl. destruct (decide (z = x)) as [->|Hne].
    + apply list_elem_of_here.
    + rewrite Hother in Hb by done. apply list_elem_of_further. by eapply D7.
  - intros z Hz. destruct (decide (z = x)) as [->|Hne]; [by eauto|].
    simpl in Hz. apply elem_of_cons in Hz as [?|Hz]; [done|].
    rewrite Hother by done. by apply D8.
  - intros z w Hz Hw. simpl. destruct (decide (z = x)) as [->|Hne].
    + apply list_elem_of_here.
    + simpl in Hz. rewrite list_lookup_insert_ne in Hz by done.
      apply list_elem_of_further. by eapply D9.
  - simpl. by apply NoDup_cons_2.
Qed.

Lemma assign_alias_discovery g c x s s' a :
  discovery g c s ->
  aliases_ s !! x = Some a -> (kUntrackable <= a)%N -> waiting c s x ->
  (let* fresh := NextAlias in
   set_alias_at x fresh;; EnqueueForStatusAnalysis x) s = Some (tt, s') ->
  discovery g c s' /\ alias_mono s s' /\ stack_ s' = stack_ s /\
  (exists a', aliases_ s' !! x = Some a' /\ (a' < kUntrackable)%N).
Proof.
  intros D Hx Hle Hwx H.
  apply bind_Some in H as (fresh & s1 & Hnext & H).
  unfold NextAlias in Hnext. minv Hnext.
  apply bind_Some in H as ([] & s2 & Hset & H).
  unfold set_alias_at in Hset. minv Hset. case_decide; [|done]. minv Hset.
  unfold EnqueueForStatusAnalysis in H.
  apply bind_Some in H as (v & s3 & Hv & H).
  apply status_at_Some in Hv as [Hv ->]. simpl in Hv.
  destruct (has_flag v kOnStack) eqn:Hon; simpl in H.
  - exfalso. pose proof (disc_on_stack _ _ _ D x v Hv Hon) as Hin.
    destruct (disc_status_stack _ _ _ D x Hin) as (b & Hb & Hlt).
    simplify_eq. lia.
  - apply bind_Some in H as ([] & s4 & Hpush & H).
    unfold status_stack_push in Hpush. minv Hpush.
    apply status_or_Some in H as (v' & Hv' & ->). simpl in Hv'. simplify_eq.
    destruct (discovery_assign g c s x a v D Hx Hle Hwx Hv) as (D' & Hm & Ha').
    split; [exact D'|]. split; [exact Hm|]. split; [done|exact Ha'].
Qed.

Lemma get_node_Some n s nd s' :
  get_node n s = Some (nd, s') <-> nodes (graph_ s) !! n = Some nd /\ s' = s.
Proof.
  unfold get_node. split.
  - intros H. minv H. done.
  - intros [H ->]. rewrite (bind_run _ _ s (graph_ s) s) by done.
    unfold lift. by rewrite H.
Qed.

Lemma get_opcode_Some n s oc s' :
  get_opcode n s = Some (oc, s') ->
  exists nd, nodes (graph_ s) !! n = Some nd /\ oc = opcode (op nd) /\ s' = s.
Proof.
  unfold get_opcode. intros H. apply bind_Some in H as (nd & s1 & Hnd & H).
  apply get_node_Some in Hnd as [Hnd ->]. minv H. eauto.
Qed.

Lemma InputAt_Some n i s x s' :
  InputAt n i s = Some (x, s') ->
  exists nd, nodes (graph_ s) !! n = Some nd /\ inputs nd !! i = Some x /\ s' = s.
Proof.
  unfold InputAt. intros H. apply bind_Some in H as (nd & s1 & Hnd & H).
  apply get_node_Some in Hnd as [Hnd ->]. minv H. eauto.
Qed.

Lemma input_edges_Some n s edges s' :
  input_edges n s = Some (edges, s') ->
  exists nd, nodes (graph_ s) !! n = Some nd /\ edges = edges_of n nd /\ s' = s.
Proof.
  unfold input_edges. intros H. apply bind_Some in H as (nd & s1 & Hnd & H).
  apply get_node_Some in Hnd as [Hnd ->]. minv H. eauto.
Qed.

Lemma alias_at_Some id s a s' :
  alias_at id s = Some (a, s') <-> aliases_ s !! id = Some a /\ s' = s.
Proof.
  unfold alias_at. split.
  - intros H. minv H. done.
  - intros [H ->]. rewrite (bind_run _ _ s (aliases_ s) s) by done.
    unfold lift. by rewrite H.
Qed.

Lemma set_alias_at_Some id a s u s' :
  set_alias_at id a s = Some (u, s') ->
  id < length (aliases_ s) /\ s' = set_aliases (<[id := a]> (aliases_ s)) s.
Proof.
  unfold set_alias_at. intros H. minv H. case_decide; [|done]. by minv H.
Qed.

Lemma stack_push_Some n s u s' :
  stack_push n s = Some (u, s') -> s' = set_stack (n :: stack_ s) s.
Proof. unfold stack_push. intros H. by minv H. Qed.

(** The alias of the node in hand, which is not an allocation, is set. *)
Lemma discovery_set_alias g node s a :
  discovery g (Some node) s -> ~ is_allocate g node ->
  node < length (aliases_ s) -> (a < kUntrackable)%N ->
  let s' := set_aliases (<[node := a]> (aliases_ s)) s in
  discovery g (Some node) s' /\ alias_mono s s'.
Proof.
  intros D Hnot Hlen Hlt s'.
  assert (alias_mono s s') as Hmono.
  { eapply alias_mono_insert; [done| |done].
    unfold kNotReachable, kUntrackable in *. lia. }
  split; [|done].
  assert (forall z, z <> node -> aliases_ s' !! z = aliases_ s !! z) as Hother.
  { intros z Hne. simpl. by rewrite list_lookup_insert_ne. }
  destruct D as [D1 D2 D3 D4 D5 D6 D7 D8 D9 D10 D11].
  constructor; try done.
  - simpl. by rewrite length_insert.
  - by eapply alias_mono_marked.
  - intros z nd i Hz Hnw Hnd Hi.
    assert (z <> node) as Hne by (intros ->; apply Hnw; by left).
    eapply alias_mono_marked; [done|]. eapply D5; [|done|done|done].
    destruct Hz as (b & Hb & ?). rewrite Hother in Hb by done. by exists b.
  - intros z b Hal Hb Hn Hleb. destruct (decide (z = node)) as [->|Hne]; [done|].
    rewrite Hother in Hb by done. by eapply D6.
  - intros z b Hal Hb Hltb. destruct (decide (z = node)) as [->|Hne]; [done|].
    rewrite Hother in Hb by done. by eapply D7.
  - intros z Hz. destruct (decide (z = node)) as [->|Hne].
    + exists a. split; [|done]. simpl. by apply list_lookup_insert_eq.
    + rewrite Hother by done. by apply D8.
Qed.

(** The [switch] of the loop keeps the invariant, and an allocation in
    hand leaves it with an alias of its own. *)
Lemma AssignAliases_visit_discovery g node s s' :
  discovery g (Some node) s ->
  AssignAliases_visit node s = Some (tt, s') ->
  discovery g (Some node) s' /\ alias_mono s s' /\
  (is_allocate g node ->
   exists a, aliases_ s' !! node = Some a /\ (a < kUntrackable)%N).
Proof.
  intros D H. unfold AssignAliases_visit in H.
  apply bind_Some in H as (oc & s0 & Hoc & H).
  apply get_opcode_Some in Hoc as (nd & Hnd & -> & ->).
  rewrite (disc_graph _ _ _ D) in Hnd.
  assert (forall nd', nodes g !! node = Some nd' -> nd' = nd) as Huniq
    by (intros; congruence).
  destruct (opcode (op nd)) eqn:Hopc.
  all: try (minv H; split; [done|]; split; [apply alias_mono_refl|];
            intros (nd' & Hnd' & Hoc'); apply Huniq in Hnd'; congruence).
  - (* kFinishRegion *)
    assert (~ is_allocate g node) as Hnot.
    { intros (nd' & Hnd' & Hoc'). apply Huniq in Hnd'. congruence. }
    apply bind_Some in H as (allocate & s0 & Hin & H).
    apply InputAt_Some in Hin as (_ & _ & _ & ->).
    apply bind_Some in H as (aoc & s0 & Haoc & H).
    apply get_opcode_Some in Haoc as (and & Hand & -> & ->).
    rewrite (disc_graph _ _ _ D) in Hand.
    destruct (decide (opcode (op and) = kAllocate)) as [Hal|Hal].
    2:{ minv H. split; [done|]. split; [apply alias_mono_refl|done]. }
    assert (is_allocate g allocate) as Hallocate by (by exists and).
    apply bind_Some in H as (a & s0 & Ha & H).
    apply alias_at_Some in Ha as [Ha ->].
    apply bind_Some in H as ([] & s1 & Hassign & H).
    assert (discovery g (Some node) s1 /\ alias_mono s s1 /\
            exists a1, aliases_ s1 !! allocate = Some a1 /\
                       (a1 < kUntrackable)%N) as (D1 & Hm1 & a1 & Ha1 & Hlt1).
    { destruct (decide (kUntrackable <= a)%N) as [Hle|Hlt].
      - apply bind_Some in Hassign as ([] & s2 & Hpush & Hassign).
        assert (discovery g (Some node) s2 /\ aliases_ s2 = aliases_ s /\
                waiting (Some node) s2 allocate) as (D2 & Hal2 & Hw2).
        { destruct (decide (a = kNotReachable)) as [Hnr|Hnr].
          - apply stack_push_Some in Hpush as ->.
            split; [by apply discovery_push|]. split; [done|].
            right. simpl. apply list_elem_of_here.
          - minv Hpush. split; [done|]. split; [done|].
            by eapply (disc_untrackable _ _ _ D). }
        eapply assign_alias_discovery in Hassign as (D' & Hm & _ & Ha');
          [|exact D2|by rewrite Hal2|done|done].
        split; [done|]. split; [|done].
        intros z b Hz. apply Hm. by rewrite Hal2.
      - minv Hassign. split; [done|]. split; [apply alias_mono_refl|].
        exists a. split; [done|lia]. }
    apply bind_Some in H as (a' & s2 & Ha' & H).
    apply alias_at_Some in Ha' as [Ha' ->]. simplify_eq.
    apply set_alias_at_Some in H as [Hlen ->].
    destruct (discovery_set_alias g node s1 a' D1 Hnot Hlen Hlt1) as [D' Hm'].
    split; [exact D'|]. split; [|done].
    eapply alias_mono_trans; [exact Hm1|exact Hm'].
  - (* kAllocate *)
    apply bind_Some in H as (a & s0 & Ha & H).
    apply alias_at_Some in Ha as [Ha ->].
    destruct (decide (kUntrackable <= a)%N) as [Hle|Hlt].
    + eapply assign_alias_discovery in H as (D' & Hm & _ & Ha');
        [|exact D|exact Ha|done|by left].
      done.
    + minv H. split; [done|]. split; [apply alias_mono_refl|].
      intros _. exists a. split; [done|lia].
Qed.

(** A loop whose body keeps [I], establishes [Q] for the element it
    handles and keeps [Q] for the others, establishes [Q] for every
    element. *)
Lemma forM__establishes {A} (I : Analysis -> Prop) (Q : A -> Analysis -> Prop)
    (body : A -> M unit) :
  (forall x s u s', I s -> body x s = Some (u, s') ->
                    I s' /\ Q x s' /\ forall y, Q y s -> Q y s') ->
  forall l s u s',
    I s -> forM_ l body s = Some (u, s') ->
    I s' /\ (forall x, x ∈ l -> Q x s') /\ forall y, Q y s -> Q y s'.
Proof.
  intros Hbody. unfold forM_.
  induction l as [|x l IH]; intros s u s' HI H; simpl in H.
  - minv H. split; [done|]. split; [|done]. intros x Hx.
    by apply elem_of_nil in Hx.
  - apply bind_Some in H as ([] & s1 & Hx & H).
    destruct (Hbody x s tt s1 HI Hx) as (HI1 & HQ1 & Hkeep1).
    destruct (IH s1 u s' HI1 H) as (HI' & HQ' & Hkeep').
    split; [done|]. split; [|by auto].
    intros y [->|Hy]%elem_of_cons; auto.
Qed.

Lemma to_edges_of n nd e : e ∈ edges_of n nd -> to e ∈ inputs nd.
Proof.
  unfold edges_of. intros He.
  apply list_elem_of_lookup in He as [i Hi].
  rewrite list_lookup_imap in Hi.
  destruct (inputs nd !! i) as [t|] eqn:Ht; simplify_eq/=.
  by eapply list_elem_of_lookup_2.
Qed.

Lemma edges_of_to n nd i : i ∈ inputs nd -> exists e, e ∈ edges_of n nd /\ to e = i.
Proof.
  intros Hi. apply list_elem_of_lookup in Hi as [k Hk].
  exists (mkEdge n k i). split; [|done].
  apply list_elem_of_lookup. exists k. unfold edges_of.
  by rewrite list_lookup_imap, Hk.
Qed.

(** The loop over the inputs marks every input of the node in hand. *)
Lemma AssignAliases_inputs_discovery g node s s' :
  discovery g (Some node) s ->
  AssignAliases_inputs node s = Some (tt, s') ->
  discovery g (Some node) s' /\ alias_mono s s' /\
  forall nd i, nodes g !! node = Some nd -> i ∈ inputs nd -> marked s' i.
Proof.
  intros D H. unfold AssignAliases_inputs in H.
  apply bind_Some in H as (edges & s0 & Hedges & H).
  apply input_edges_Some in Hedges as (nd & Hnd & -> & ->).
  rewrite (disc_graph _ _ _ D) in Hnd.
  eapply (forM__establishes
            (fun s1 => discovery g (Some node) s1 /\ alias_mono s s1)
            (fun e s1 => marked s1 (to e))) in H.
  - destruct H as ((D' & Hm) & Hall & _). split; [done|]. split; [done|].
    intros nd' i Hnd' Hi. simplify_eq.
    destruct (edges_of_to node nd i Hi) as (e & He & <-). by apply Hall.
  - clear H. intros e s1 u s2 [D1 Hm1] H.
    apply bind_Some in H as (a & s3 & Ha & H).
    apply alias_at_Some in Ha as [Ha ->].
    destruct (decide (a = kNotReachable)) as [->|Hne].
    + apply bind_Some in H as ([] & s3 & Hpush & H).
      apply stack_push_Some in Hpush as ->.
      apply set_alias_at_Some in H as [Hlen ->]. simpl in Hlen.
      destruct (discovery_mark g (Some node) s1 (to e) D1 Ha) as [D2 Hm2].
      split; [split; [exact D2|]|split].
      * eapply alias_mono_trans; [exact Hm1|exact Hm2].
      * exists kUntrackable. split; [|done]. simpl.
        by apply list_lookup_insert_eq.
      * intros y Hy. eapply alias_mono_marked; [exact Hm2|done].
    + minv H. split; [done|]. split; [|done]. by exists a.
  - split; [done|apply alias_mono_refl].
Qed.

Lemma discovery_take g s node rest :
  discovery g None s -> stack_ s = node :: rest ->
  discovery g (Some node) (set_stack rest s).
Proof.
  intros D Hstk.
  assert (forall x, waiting None s x <-> waiting (Some node) (set_stack rest s) x)
    as Hw.
  { intros x. unfold waiting. simpl. rewrite Hstk, elem_of_cons.
    split; [intros [?|[->|?]]|intros [?|?]]; simplify_eq; auto. }
  destruct D as [D1 D2 D3 D4 D5 D6 D7 D8 D9 D10 D11].
  constructor; try done.
  - intros x nd i Hx Hnw. apply D5; [done|]. by rewrite Hw.
  - intros x a Hal Ha Hne Hle. apply Hw. by eapply D6.
Qed.

Lemma discovery_release g node s :
  discovery g (Some node) s ->
  (is_allocate g node ->
   exists a, aliases_ s !! node = Some a /\ (a < kUntrackable)%N) ->
  (forall nd i, nodes g !! node = Some nd -> i ∈ inputs nd -> marked s i) ->
  discovery g None s.
Proof.
  intros D Halloc Hinputs.
  destruct D as [D1 D2 D3 D4 D5 D6 D7 D8 D9 D10 D11].
  constructor; try done.
  - intros x nd i Hx Hnw Hnd Hi. destruct (decide (x = node)) as [->|Hne].
    + by eapply Hinputs.
    + eapply D5; [done| |done|done]. intros [?|?]; [by simplify_eq|].
      apply Hnw. by right.
  - intros x a Hal Ha Hne Hle.
    destruct (D6 x a Hal Ha Hne Hle) as [?|?]; [|by right]. simplify_eq.
    destruct (Halloc Hal) as (b & Hb & Hlt). simplify_eq. lia.
Qed.

(** The loop of [AssignAliases] keeps the invariant and ends with an empty
    stack. *)
Lemma AssignAliases_loop_discovery g fuel :
  forall s s',
    discovery g None s ->
    AssignAliases_loop fuel s = Some (tt, s') ->
    discovery g None s' /\ stack_ s' = [].
Proof.
  induction fuel as [|fuel IH]; intros s s' D H; simpl in H; [done|].
  apply bind_Some in H as (stk & s0 & Hstk & H).
  apply gets_Some in Hstk as [-> ->].
  destruct (stack_ s) as [|node rest] eqn:Hstack.
  { minv H. done. }
  apply bind_Some in H as ([] & s1 & Hpop & H). apply modify_Some in Hpop.
  apply bind_Some in H as ([] & s2 & Hvisit & H).
  apply bind_Some in H as ([] & s3 & Hinputs & H).
  assert (discovery g (Some node) s1) as D1
    by (subst s1; by apply discovery_take).
  destruct (AssignAliases_visit_discovery g node s1 s2 D1 Hvisit)
    as (D2 & Hm12 & Halloc).
  destruct (AssignAliases_inputs_discovery g node s2 s3 D2 Hinputs)
    as (D3 & Hm23 & Hmarked).
  eapply IH; [|exact H].
  eapply discovery_release; [exact D3| |exact Hmarked].
  intros Hal. destruct (Halloc Hal) as (a & Ha & Hlt).
  destruct (Hm23 node a Ha) as (a' & Ha' & _ & Hlt'). eauto.
Qed.

Lemma discovery_reachable g s :
  discovery g None s -> stack_ s = [] ->
  forall m, reachable g m -> marked s m.
Proof.
  intros D Hstk m Hm. induction Hm as [|n nd i Hn IH Hnd Hi].
  - apply D.
  - eapply (disc_inputs _ _ _ D); [exact IH| |exact Hnd|exact Hi].
    intros [?|Hin]; [done|]. rewrite Hstk in Hin. by apply elem_of_nil in Hin.
Qed.

(** When the traversal is over, every reachable allocation is on the
    stack of the status fixed point. *)
Lemma discovery_allocations g s m :
  discovery g None s -> stack_ s = [] ->
  reachable g m -> is_allocate g m -> m ∈ status_stack_ s.
Proof.
  intros D Hstk Hm Hal.
  destruct (discovery_reachable g s D Hstk m Hm) as (a & Ha & Hne).
  destruct (decide (a < kUntrackable)%N) as [Hlt|Hge].
  - by eapply (disc_tracked _ _ _ D).
  - destruct (disc_untrackable _ _ _ D m a Hal Ha Hne ltac:(lia)) as [?|Hin];
      [done|].
    rewrite Hstk in Hin. by apply elem_of_nil in Hin.
Qed.

Lemma ResizeStatusVector_Some s u s' :
  ResizeStatusVector s = Some (u, s') ->
  graph_ s' = graph_ s /\ stack_ s' = stack_ s /\
  status_stack_ s' = status_stack_ s /\ aliases_ s' = aliases_ s /\
  next_free_alias_ s' = next_free_alias_ s /\
  (status_ s' = status_ s \/
   exists n, status_ s' = VirtualObject.resize n kUnknown (status_ s)).
Proof.
  unfold ResizeStatusVector, NodeCount. intros H. minv H.
  case_decide; minv H; repeat split; eauto.
Qed.

(** The traversal, started on the tables of a new analysis. *)
Lemma AssignAliases_discovery fuel s s' :
  stack_ s = [] -> status_stack_ s = [] -> aliases_ s = [] ->
  next_free_alias_ s = 0%N ->
  (forall x v, status_ s !! x = Some v -> has_flag v kOnStack = false) ->
  AssignAliases fuel s = Some (tt, s') ->
  discovery (graph_ s) None s' /\ stack_ s' = [].
Proof.
  intros Hstk Hsstk Hal Hnext Hstatus H. unfold AssignAliases in H.
  apply bind_Some in H as ([] & s1 & Hresize & H).
  apply ResizeStatusVector_Some in Hresize
    as (Hg1 & Hstk1 & Hsstk1 & Hal1 & Hnext1 & Hst1).
  apply bind_Some in H as (g & s0 & Hg & H). apply gets_Some in Hg as [-> ->].
  apply bind_Some in H as ([] & s2 & Hpush & H).
  apply stack_push_Some in Hpush as ->.
  apply bind_Some in H as (n & s0 & Hn & H).
  unfold NodeCount in Hn. minv Hn. simpl in H.
  destruct (decide (N.of_nat (length (nodes (graph_ s1))) < kUntrackable)%N)
    as [Hcount|]; [|done].
  apply bind_Some in H as (al & s0 & Hal' & H).
  apply gets_Some in Hal' as [-> ->]. simpl in H.
  apply bind_Some in H as ([] & s3 & Hres & H). apply modify_Some in Hres.
  apply bind_Some in H as ([] & s4 & Hend & H).
  apply set_alias_at_Some in Hend as [Hlen ->].
  rewrite Hal1, Hal in Hres. unfold VirtualObject.resize in Hres.
  rewrite take_nil, Nat.sub_0_r in Hres. simpl in Hres.
  rewrite Hstk1, Hstk in Hres.
  rewrite <- Hg1.
  eapply AssignAliases_loop_discovery; [|exact H].
  subst s3. simpl in *. rewrite length_replicate in Hlen.
  set (n := length (nodes (graph_ s1))) in *.
  set (e := end_ (graph_ s1)) in *.
  assert (forall x a, <[e := kUntrackable]> (replicate n kNotReachable) !! x
                      = Some a -> a <> kNotReachable -> x = e) as Honly.
  { intros x a Hx Hne. destruct (decide (x = e)) as [|Hxe]; [done|].
    rewrite list_lookup_insert_ne in Hx by done.
    apply lookup_replicate in Hx as [-> _]. done. }
  assert (<[e := kUntrackable]> (replicate n kNotReachable) !! e
          = Some kUntrackable) as Hend.
  { apply list_lookup_insert_eq. by rewrite length_replicate. }
  constructor; simpl.
  - done.
  - done.
  - by rewrite length_insert, length_replicate.
  - by exists kUntrackable.
  - intros x nd i (a & Ha & Hne) Hnw. apply Honly in Ha as ->; [|done].
    exfalso. apply Hnw. right. simpl. apply list_elem_of_here.
  - intros x a _ Ha Hne _. apply Honly in Ha as ->; [|done].
    right. simpl. apply list_elem_of_here.
  - intros x a _ Ha Hlt.
    assert (x = e) as ->.
    { eapply Honly; [done|]. unfold kNotReachable, kUntrackable in *. lia. }
    rewrite Hend in Ha. simplify_eq. lia.
  - rewrite Hsstk1, Hsstk. intros x Hx. by apply elem_of_nil in Hx.
  - intros x v Hv Hon. exfalso.
    assert (has_flag v kOnStack = false) as Hoff; [|congruence].
    destruct Hst1 as [Hst1|[k Hst1]]; rewrite Hst1 in Hv.
    + by eapply Hstatus.
    + unfold VirtualObject.resize in Hv.
      apply lookup_app_Some in Hv as [Hv|(_ & Hv)].
      * apply lookup_take_Some in Hv as [Hv _]. by eapply Hstatus.
      * apply lookup_replicate in Hv as [-> _]. done.
  - rewrite Hsstk1, Hsstk. apply NoDup_nil_2.
  - rewrite Hsstk1, Hsstk, Hnext1, Hnext. done.
Qed.

(** The traversal sets neither [kTracked] nor [kEscaped]. *)
Definition pairing : relation Analysis :=
  fun s s' => paired (status_ s) -> paired (status_ s').

#[global] Instance pairing_refl : Reflexive pairing.
Proof. intros s H. exact H. Qed.
#[global] Instance pairing_trans : Transitive pairing.
Proof. intros s1 s2 s3 H12 H23 H. auto. Qed.

Lemma object_phase_pairing {A} (m : M A) : post object_phase m -> post pairing m.
Proof. apply post_weaken. by intros s s' (_ & _ & H). Qed.

#[global] Hint Extern 1 (post pairing (status_or _ _)) =>
  apply object_phase_pairing, status_or_object_phase; reflexivity : post.
#[global] Hint Extern 1 (post pairing ResizeStatusVector) =>
  apply object_phase_pairing, ResizeStatusVector_object_phase : post.

Lemma AssignAliases_loop_pairing fuel : post pairing (AssignAliases_loop fuel).
Proof. induction fuel as [|fuel IH]; simpl; post_auto. Qed.
#[global] Hint Resolve AssignAliases_loop_pairing : post.

Lemma AssignAliases_pairing fuel : post pairing (AssignAliases fuel).
Proof. unfold AssignAliases. post_auto. Qed.

Lemma status_phase_graph_same {A} node (m : M A) :
  post (status_phase node) m -> post graph_same m.
Proof. apply post_weaken. by intros s s' (H & _). Qed.

Lemma RunStatusAnalysis_loop_graph_same fuel :
  post graph_same (RunStatusAnalysis_loop fuel).
Proof.
  induction fuel as [|fuel IH]; simpl; [apply post_fail|].
  apply post_bind; [typeclasses eauto|apply post_gets; typeclasses eauto|].
  intros [|node rest]; [apply post_ret; typeclasses eauto|].
  apply post_bind; [typeclasses eauto|apply post_modify; by intros s|intros _].
  apply post_bind; [typeclasses eauto| |intros _].
  { apply (status_phase_graph_same None), status_clear_status_phase; done. }
  apply post_bind; [typeclasses eauto| |intros _].
  { eapply status_phase_graph_same, EscapeStatusAnalysis_Process_status_phase. }
  apply post_bind; [typeclasses eauto| |intros _; exact IH].
  apply (status_phase_graph_same None), status_or_status_phase; done.
Qed.

Lemma new_EscapeAnalysis_paired g : paired (status_ (new_EscapeAnalysis g)).
Proof. intros m v Hv. simpl in Hv. apply lookup_replicate in Hv as [-> _]. done. Qed.

Lemma is_allocate_graph g g' m :
  (forall x nd, nodes g !! x = Some nd -> nodes g' !! x = Some nd) ->
  is_allocate g m -> is_allocate g' m.
Proof. intros Hg (nd & Hnd & Hoc). exists nd. auto. Qed.

(** The whole run: a reachable allocation whose size, in the graph as the
    run leaves it, is not a number constant ends with both flags. *)
Lemma Run_settles kPointerSize kPointerSizeLog2 fuel g s' m :
  reachable g m -> is_allocate g m -> dynamic_allocation (graph_ s') m ->
  Run kPointerSize kPointerSizeLog2 fuel (new_EscapeAnalysis g) = Some (tt, s') ->
  settled m s'.
Proof.
  intros Hreach Halloc Hdyn H. unfold Run in H.
  apply bind_Some in H as (n & s0 & Hn & H). unfold NodeCount in Hn. minv Hn.
  apply bind_Some in H as (tbl & s0 & Htbl & H). apply gets_Some in Htbl as [-> ->].
  apply bind_Some in H as ([] & s0 & Hmod & H). apply modify_Some in Hmod.
  apply bind_Some in H as ([] & s1 & Hassign & H).
  assert (paired (status_ s1)) as Hp1.
  { eapply (AssignAliases_pairing _ _ _ _ Hassign). subst s0. simpl.
    apply new_EscapeAnalysis_paired. }
  apply AssignAliases_discovery in Hassign as [D Hstk]; subst s0; try done.
  2:{ simpl. intros x v Hv. apply lookup_replicate in Hv as [-> _]. done. }
  simpl in D.
  pose proof (discovery_allocations g s1 m D Hstk Hreach Halloc) as Hin1.
  apply bind_Some in H as (count & s0 & Hcount & H).
  unfold AliasCount in Hcount. apply gets_Some in Hcount as [-> ->].
  destruct (decide (0 < next_free_alias_ s1)%N) as [_|Hzero].
  2:{ exfalso. apply Hzero. rewrite (disc_next _ _ _ D).
      destruct (status_stack_ s1); [by apply elem_of_nil in Hin1|simpl; lia]. }
  apply bind_Some in H as ([] & s2 & Hcache & H). apply modify_Some in Hcache.
  apply bind_Some in H as (n & s0 & Hn & H). unfold NodeCount in Hn. minv Hn.
  apply bind_Some in H as (tbl & s0 & Htbl & H). apply gets_Some in Htbl as [-> ->].
  apply bind_Some in H as ([] & s3 & Hmod & H). apply modify_Some in Hmod.
  apply bind_Some in H as ([] & s4 & Hresize & H).
  apply bind_Some in H as ([] & s5 & Hobject & H).
  unfold RunStatusAnalysis in H.
  apply bind_Some in H as ([] & s6 & Hresize' & H).
  apply ResizeStatusVector_object_phase in Hresize as (A1 & _ & A3).
  apply RunObjectAnalysis_object_phase in Hobject as (B1 & _ & B3).
  pose proof (ResizeStatusVector_Some _ _ _ Hresize') as (Hg6 & _).
  apply ResizeStatusVector_object_phase in Hresize' as (C1 & _ & C3).
  pose proof (RunStatusAnalysis_loop_graph_same _ _ _ _ H) as Hg.
  unfold graph_same in Hg.
  eapply RunStatusAnalysis_loop_settles; [|left|exact H].
  - by rewrite <- Hg.
  - split.
    + rewrite C1, B1, A1. by subst s3.
    + intros v. apply C3, B3, A3. by subst s3.
Qed.

(** *** The graph through the virtual-state fixed point *)

(** The fixed point adds phis to the graph and rewires the inputs of phis
    it has added; the nodes of the graph it starts from stay as they are.
    A field of an object that is marked as a created phi holds a node that
    was added to [g]. *)
Definition phi_ok (g : Graph) (o : VirtualObject.t) : Prop :=
  forall i p,
    VirtualObject.phi_ o !! i = Some true ->
    VirtualObject.fields_ o !! i = Some (Some p) ->
    length (nodes g) <= p.

Definition nodes_kept (g : Graph) (s : Analysis) : Prop :=
  forall x nd, nodes g !! x = Some nd -> nodes (graph_ s) !! x = Some nd.

Definition heap_inv (g : Graph) (s : Analysis) : Prop :=
  nodes_kept g s /\
  forall p o, zone_objects s !! p = Some o -> phi_ok g o.

Definition heap_step (g : Graph) : relation Analysis :=
  fun s s' => heap_inv g s -> heap_inv g s'.

#[global] Instance heap_step_refl g : Reflexive (heap_step g).
Proof. intros s H. exact H. Qed.
#[global] Instance heap_step_trans g : Transitive (heap_step g).
Proof. intros s1 s2 s3 H12 H23 H. auto. Qed.

Lemma lookup_resize {A} n (d : A) l i x :
  VirtualObject.resize n d l !! i = Some x -> l !! i = Some x \/ x = d.
Proof.
  unfold VirtualObject.resize. intros H.
  apply lookup_app_Some in H as [H|(_ & H)].
  - apply lookup_take_Some in H as [H _]. by left.
  - apply lookup_replicate in H as [-> _]. by right.
Qed.

Lemma phi_ok_create g id owner : phi_ok g (VirtualObject.create id owner).
Proof. intros i p H. done. Qed.

Lemma phi_ok_create_tracked g id owner n initialized :
  phi_ok g (VirtualObject.create_tracked id owner n initialized).
Proof.
  intros i p H _. simpl in H. apply lookup_resize in H as [H|H]; done.
Qed.

Lemma phi_ok_copy g owner o :
  phi_ok g o -> phi_ok g (VirtualObject.copy owner o).
Proof. intros H i p. apply H. Qed.

Lemma phi_ok_SetCopyRequired g o :
  phi_ok g o -> phi_ok g (VirtualObject.SetCopyRequired o).
Proof. intros H i p. apply H. Qed.

Lemma phi_ok_SetInitialized g o :
  phi_ok g o -> phi_ok g (fst (VirtualObject.SetInitialized o)).
Proof. intros H i p. apply H. Qed.

Lemma phi_ok_SetField g offset node created o o' :
  VirtualObject.SetField offset node created o = Some o' ->
  phi_ok g o ->
  (created = true -> forall p, node = Some p -> length (nodes g) <= p) ->
  phi_ok g o'.
Proof.
  unfold VirtualObject.SetField. intros H Ho Hnew.
  repeat case_decide; simplify_eq. intros i p. simpl.
  destruct (decide (i = offset)) as [->|Hne].
  - rewrite !list_lookup_insert_eq by done. intros ? ?. simplify_eq. by eapply Hnew.
  - rewrite !list_lookup_insert_ne by done. apply Ho.
Qed.

Lemma phi_ok_SetField_plain g offset node o o' :
  VirtualObject.SetField offset node false o = Some o' ->
  phi_ok g o -> phi_ok g o'.
Proof. intros H Ho. eapply phi_ok_SetField; [exact H|exact Ho|done]. Qed.

Lemma phi_ok_SetField_created g offset p o o' :
  VirtualObject.SetField offset (Some p) true o = Some o' ->
  phi_ok g o -> length (nodes g) <= p -> phi_ok g o'.
Proof.
  intros H Ho Hp. eapply phi_ok_SetField; [exact H|exact Ho|].
  intros _ q ?. by simplify_eq.
Qed.

Lemma phi_ok_ResizeFields g n o o' r :
  VirtualObject.ResizeFields n o = (o', r) -> phi_ok g o -> phi_ok g o'.
Proof.
  unfold VirtualObject.ResizeFields. intros H Ho.
  case_decide; simplify_eq; [|done]. intros i p. simpl. intros Hphi Hf.
  apply lookup_resize in Hphi as [Hphi|?]; [|done].
  apply lookup_resize in Hf as [Hf|?]; [|done]. by eapply Ho.
Qed.

Lemma phi_ok_ClearAllFields_loop g idx :
  forall o o', VirtualObject.ClearAllFields_loop idx o = Some o' ->
               phi_ok g o -> phi_ok g o'.
Proof.
  induction idx as [|i idx IH]; intros o o' H Ho; simpl in H.
  - by simplify_eq.
  - destruct (VirtualObject.SetField i None false o) as [o1|] eqn:H1; [|done].
    eapply IH; [exact H|]. by eapply phi_ok_SetField_plain.
Qed.

Lemma phi_ok_ClearAllFields g o o' :
  VirtualObject.ClearAllFields o = Some o' -> phi_ok g o -> phi_ok g o'.
Proof. apply phi_ok_ClearAllFields_loop. Qed.

Lemma UpdateFrom_loop_fields other idx :
  forall fs changed fs' changed',
    VirtualObject.UpdateFrom_loop idx other fs changed = (fs', changed') ->
    length fs = length other ->
    forall i, i ∈ idx \/ fs !! i = other !! i -> fs' !! i = other !! i.
Proof.
  induction idx as [|j idx IH]; intros fs changed fs' changed' H Hlen; simpl in H.
  - simplify_eq. intros i [Hi|Hi]; [|done]. by apply elem_of_nil in Hi.
  - destruct (decide (fs !! j = other !! j)) as [Heq|Hne].
    + intros i [Hi|Hi]; [|by eapply IH; eauto].
      apply elem_of_cons in Hi as [->|Hi]; eapply IH; eauto.
    + assert (forall i, i = j \/ fs !! i = other !! i ->
                <[j := default None (other !! j)]> fs !! i = other !! i) as Hj.
      { intros i Hi. destruct (decide (i = j)) as [->|Hij].
        - destruct (other !! j) as [x|] eqn:Hx.
          + apply list_lookup_insert_eq. rewrite Hlen. by eapply lookup_lt_Some.
          + apply lookup_ge_None. rewrite length_insert, Hlen.
            by apply lookup_ge_None.
        - rewrite list_lookup_insert_ne by done. by destruct Hi. }
      intros i Hi. eapply IH; [exact H|by rewrite length_insert|].
      destruct Hi as [Hi|Hi]; [|by auto].
      apply elem_of_cons in Hi as [->|Hi]; auto.
Qed.

Lemma phi_ok_UpdateFrom g other o o' c :
  VirtualObject.UpdateFrom other o = (o', c) -> phi_ok g other -> phi_ok g o'.
Proof.
  unfold VirtualObject.UpdateFrom. intros H Hother.
  destruct (decide _) as [Hlen|Hlen]; simpl in *.
  - destruct (VirtualObject.UpdateFrom_loop _ _ _ _) as [fs c'] eqn:Hloop.
    simplify_eq. intros i p. simpl. intros Hphi Hf.
    eapply Hother; [exact Hphi|]. rewrite <- Hf. symmetry.
    eapply UpdateFrom_loop_fields; [exact Hloop|done|].
    destruct (decide (i < length (VirtualObject.fields_ o))) as [Hi|Hi].
    + left. apply elem_of_seq. lia.
    + right. rewrite !(lookup_ge_None_2 _ i); [done|lia..].
  - simplify_eq. intros i p. simpl. apply Hother.
Qed.

Create HintDb phi_ok.
#[global] Hint Resolve phi_ok_create phi_ok_create_tracked phi_ok_copy
  phi_ok_SetCopyRequired phi_ok_SetInitialized phi_ok_SetField_plain
  phi_ok_SetField_created phi_ok_ResizeFields phi_ok_ClearAllFields
  phi_ok_UpdateFrom : phi_ok.

(** A field that is marked as a created phi. *)
Lemma phi_ok_created g o i r :
  phi_ok g o ->
  VirtualObject.GetField o i = Some (Some r) ->
  VirtualObject.IsCreatedPhi o i = Some true ->
  length (nodes g) <= r.
Proof. intros Ho Hf Hphi. by eapply Ho. Qed.
#[global] Hint Resolve phi_ok_created : phi_ok.

Lemma post_bind_ret {A B} (R : relation Analysis) (a : A) (k : A -> M B) :
  post R (k a) -> post R (bind (ret a) k).
Proof. intros Hk s r s' H. apply (Hk s r s'). exact H. Qed.

Lemma post_bind_lift {A B} (R : relation Analysis) (o : option A) (k : A -> M B) :
  (forall a, o = Some a -> post R (k a)) -> post R (bind (lift o) k).
Proof.
  intros Hk s r s' H. apply bind_Some in H as (a & s1 & Ha & H).
  apply lift_Some in Ha as [Ha ->]. by eapply Hk.
Qed.

Lemma heap_bind_load {B} g p (k : VirtualObject.t -> M B) :
  (forall o, phi_ok g o -> post (heap_step g) (k o)) ->
  post (heap_step g) (bind (load_object p) k).
Proof.
  intros Hk s r s' H Hinv. apply bind_Some in H as (o & s1 & Ho & H).
  apply load_object_Some in Ho as [Ho ->].
  eapply Hk; [|exact H|exact Hinv]. destruct Hinv as [_ Hobjs]. by eapply Hobjs.
Qed.

Lemma nodes_kept_length g s : nodes_kept g s -> length (nodes g) <= length (nodes (graph_ s)).
Proof.
  intros Hk. destruct (nodes g) as [|nd0 l] eqn:Hg using rev_ind; [simpl; lia|].
  clear IHl. rewrite <- Hg. 
  assert (nodes g !! length l = Some nd0) as Hlast.
  { rewrite Hg. apply list_lookup_middle. done. }
  apply Hk, lookup_lt_Some in Hlast. rewrite Hg, length_app. simpl. lia.
Qed.

Lemma heap_bind_NewNode {B} g o ins (k : NodeId -> M B) :
  (forall phi, length (nodes g) <= phi -> post (heap_step g) (k phi)) ->
  post (heap_step g) (bind (NewNode o ins) k).
Proof.
  intros Hk s r s' H Hinv. apply bind_Some in H as (phi & s1 & Hphi & H).
  unfold NewNode in Hphi. minv Hphi.
  eapply Hk; [|exact H|].
  - apply nodes_kept_length, Hinv.
  - destruct Hinv as [Hn Hobjs]. split; [|exact Hobjs].
    intros x nd Hx. simpl. apply lookup_app_l_Some. by apply Hn.
Qed.

Lemma NewNode_heap_step g o ins : post (heap_step g) (NewNode o ins).
Proof.
  intros s r s' H Hinv. unfold NewNode in H. minv H.
  destruct Hinv as [Hn Hobjs]. split; [|exact Hobjs].
  intros x nd Hx. simpl. apply lookup_app_l_Some. by apply Hn.
Qed.

Lemma store_object_heap_step g p o :
  phi_ok g o -> post (heap_step g) (store_object p o).
Proof.
  intros Ho s r s' H Hinv. apply store_object_Some in H as [_ ->].
  destruct Hinv as [Hn Hobjs]. split; [exact Hn|]. simpl.
  intros q o' Hq. destruct (decide (q = p)) as [->|Hne].
  - apply list_lookup_insert_Some in Hq as [(_ & <- & _)|(? & _)]; done.
  - rewrite list_lookup_insert_ne in Hq by done. by eapply Hobjs.
Qed.

Lemma new_object_heap_step g o :
  phi_ok g o -> post (heap_step g) (new_object o).
Proof.
  intros Ho s r s' H Hinv. apply new_object_Some in H as [_ ->].
  destruct Hinv as [Hn Hobjs]. split; [exact Hn|]. simpl.
  intros q o' Hq. apply lookup_app_Some in Hq as [Hq|(_ & Hq)].
  - by eapply Hobjs.
  - apply list_lookup_singleton_Some in Hq as [_ <-]. done.
Qed.

Lemma ReplaceValueInput_heap_step g n value i :
  length (nodes g) <= n -> post (heap_step g) (ReplaceValueInput n value i).
Proof.
  intros Hn s r s' H Hinv. unfold ReplaceValueInput in H. minv H.
  case_decide; [|done]. minv H.
  destruct Hinv as [Hk Hobjs]. split; [|exact Hobjs].
  intros x nd Hx. simpl. rewrite list_lookup_insert_ne; [by apply Hk|].
  apply lookup_lt_Some in Hx. lia.
Qed.

(** The walk of [post_auto], with what is known of the values kept: an
    object read from the zone satisfies [phi_ok], a node made by [NewNode]
    is new. *)
Ltac heap_special :=
  match goal with
  | |- post (heap_step _) (bind (load_object _) _) =>
      apply heap_bind_load; intros ? ?
  | |- post (heap_step _) (bind (NewNode _ _) _) =>
      apply heap_bind_NewNode; intros ? ?
  | |- post _ (bind (lift _) _) => apply post_bind_lift; intros ? ?
  | |- post _ (bind (ret _) _) => apply post_bind_ret
  | |- post _ (bind (match ?x with _ => _ end) _) => destruct x eqn:?
  | |- post (heap_step _) (store_object _ _) =>
      apply store_object_heap_step; solve [eauto with phi_ok]
  | |- post (heap_step _) (new_object _) =>
      apply new_object_heap_step; solve [eauto with phi_ok]
  | |- post (heap_step _) (ReplaceValueInput _ _ _) =>
      apply ReplaceValueInput_heap_step; solve [eauto with phi_ok]
  | |- post (heap_step _) (modify _) =>
      apply post_modify; intros ? ?; assumption
  | |- post _ (match ?x with _ => _ end) => destruct x eqn:?
  end.

Ltac heap_auto := repeat first [heap_special | post_step].

#[global] Hint Resolve NewNode_heap_step : post.

Lemma VirtualState_SetCopyRequired_heap_step g this :
  post (heap_step g) (VirtualState_SetCopyRequired this).
Proof. unfold VirtualState_SetCopyRequired. heap_auto. Qed.

Lemma VirtualState_Copy_heap_step g this obj alias :
  post (heap_step g) (VirtualState_Copy this obj alias).
Proof. unfold VirtualState_Copy. heap_auto. Qed.

Lemma GetOrCreateTrackedVirtualObject_heap_step g this alias id n i f :
  post (heap_step g) (GetOrCreateTrackedVirtualObject this alias id n i f).
Proof. unfold GetOrCreateTrackedVirtualObject. heap_auto. Qed.

Lemma VirtualState_UpdateFrom_heap_step g this from :
  post (heap_step g) (VirtualState_UpdateFrom this from).
Proof.
  unfold VirtualState_UpdateFrom, VirtualState_UpdateFrom_loop,
    VirtualState_UpdateFrom_step.
  heap_auto.
Qed.
#[global] Hint Resolve VirtualState_SetCopyRequired_heap_step
  VirtualState_Copy_heap_step GetOrCreateTrackedVirtualObject_heap_step
  VirtualState_UpdateFrom_heap_step : post.

Lemma IsDanglingEffectNode_loop_heap_step g node edges :
  post (heap_step g) (IsDanglingEffectNode_loop node edges).
Proof. induction edges as [|e edges IH]; simpl; heap_auto. Qed.
#[global] Hint Resolve IsDanglingEffectNode_loop_heap_step : post.

Lemma IsDanglingEffectNode_heap_step g node :
  post (heap_step g) (IsDanglingEffectNode node).
Proof. unfold IsDanglingEffectNode. heap_auto. Qed.
#[global] Hint Resolve IsDanglingEffectNode_heap_step : post.

Lemma IsEffectBranchPoint_loop_heap_step g node edges count :
  post (heap_step g) (IsEffectBranchPoint_loop node edges count).
Proof.
  revert count. induction edges as [|e edges IH]; intros count; simpl; heap_auto.
Qed.
#[global] Hint Resolve IsEffectBranchPoint_loop_heap_step : post.

Lemma ForwardVirtualState_heap_step g node :
  post (heap_step g) (ForwardVirtualState node).
Proof. unfold ForwardVirtualState. heap_auto. Qed.
#[global] Hint Resolve ForwardVirtualState_heap_step : post.

Lemma MergeFrom_update_phi_heap_step g rep fields changed :
  length (nodes g) <= rep ->
  post (heap_step g) (MergeFrom_update_phi rep fields changed).
Proof. intros Hrep. unfold MergeFrom_update_phi. heap_auto. Qed.
#[global] Hint Extern 1 (post (heap_step _) (MergeFrom_update_phi _ _ _)) =>
  apply MergeFrom_update_phi_heap_step; solve [eauto with phi_ok] : post.

Lemma MergeCache_GetFields_heap_step g pos :
  post (heap_step g) (MergeCache_GetFields pos).
Proof. unfold MergeCache_GetFields. heap_auto. Qed.
#[global] Hint Resolve MergeCache_GetFields_heap_step : post.

Lemma MergeFrom_field_heap_step g mo control arity changed i :
  post (heap_step g) (MergeFrom_field mo control arity changed i).
Proof. unfold MergeFrom_field. heap_auto. Qed.
#[global] Hint Resolve MergeFrom_field_heap_step : post.

Lemma MergeFrom_heap_step g this control arity :
  post (heap_step g) (MergeFrom this control arity).
Proof. unfold MergeFrom, MergeFrom_alias, MergeFrom_collect. heap_auto. Qed.
#[global] Hint Resolve MergeFrom_heap_step : post.

Lemma EscapeAnalysis_Process_heap_step g kPointerSize kPointerSizeLog2 node :
  post (heap_step g) (EscapeAnalysis_Process kPointerSize kPointerSizeLog2 node).
Proof. unfold EscapeAnalysis_Process. heap_auto. Qed.
#[global] Hint Resolve EscapeAnalysis_Process_heap_step : post.

Lemma RunObjectAnalysis_loop_heap_step g kPointerSize kPointerSizeLog2 fuel :
  forall queue,
    post (heap_step g)
      (RunObjectAnalysis_loop kPointerSize kPointerSizeLog2 fuel queue).
Proof.
  induction fuel as [|fuel IH]; intros queue; simpl; [apply post_fail|].
  destruct queue as [|node queue]; heap_auto.
Qed.
#[global] Hint Resolve RunObjectAnalysis_loop_heap_step : post.

Lemma RunObjectAnalysis_heap_step g kPointerSize kPointerSizeLog2 fuel :
  post (heap_step g) (RunObjectAnalysis kPointerSize kPointerSizeLog2 fuel).
Proof. unfold RunObjectAnalysis. heap_auto. Qed.

Lemma AssignAliases_loop_heap_step g fuel : post (heap_step g) (AssignAliases_loop fuel).
Proof. induction fuel as [|fuel IH]; simpl; heap_auto. Qed.
#[global] Hint Resolve AssignAliases_loop_heap_step : post.

Lemma IsAllocationPhi_loop_heap_step g edges :
  post (heap_step g) (IsAllocationPhi_loop edges).
Proof. induction edges as [|e edges IH]; simpl; heap_auto. Qed.
#[global] Hint Resolve IsAllocationPhi_loop_heap_step : post.

Lemma CheckUsesForEscape_loop_heap_step g edges uses rep phi_escaping :
  post (heap_step g) (CheckUsesForEscape_loop edges uses rep phi_escaping).
Proof. induction edges as [|e edges IH]; simpl; heap_auto. Qed.
#[global] Hint Resolve CheckUsesForEscape_loop_heap_step : post.

Lemma EscapeStatusAnalysis_Process_heap_step g node :
  post (heap_step g) (EscapeStatusAnalysis_Process node).
Proof. unfold EscapeStatusAnalysis_Process. heap_auto. Qed.
#[global] Hint Resolve EscapeStatusAnalysis_Process_heap_step : post.

Lemma RunStatusAnalysis_loop_heap_step g fuel :
  post (heap_step g) (RunStatusAnalysis_loop fuel).
Proof. induction fuel as [|fuel IH]; simpl; heap_auto. Qed.
#[global] Hint Resolve RunStatusAnalysis_loop_heap_step
  RunObjectAnalysis_heap_step : post.

Lemma Run_heap_step g kPointerSize kPointerSizeLog2 fuel :
  post (heap_step g) (Run kPointerSize kPointerSizeLog2 fuel).
Proof. unfold Run. heap_auto. Qed.

(** The run leaves the nodes of the graph it is given as they are. *)
Lemma Run_nodes_kept kPointerSize kPointerSizeLog2 fuel g s' :
  Run kPointerSize kPointerSizeLog2 fuel (new_EscapeAnalysis g) = Some (tt, s') ->
  nodes_kept g s'.
Proof.
  intros H. eapply (Run_heap_step g) in H. apply H. split.
  - by intros x nd Hx.
  - intros p o Hp. done.
Qed.

Lemma dynamic_allocation_kept g s m :
  nodes_kept g s -> dynamic_allocation g m -> dynamic_allocation (graph_ s) m.
Proof.
  intros Hk (nd & size & sz & Hnd & Hoc & Hin & Hsz & Hdyn).
  exists nd, size, sz. repeat split; auto.
Qed.

Lemma dynamic_allocation_is_allocate g m :
  dynamic_allocation g m -> is_allocate g m.
Proof. intros (nd & size & sz & Hnd & Hoc & _). by exists nd. Qed.


(** S3: the size of the allocation is the node 1, which is not a
    constant. *)
Definition dynamic_size_graph : Graph :=
  mkGraph
    [ mkNode (mkOperator kStart 0 0 0 0 0 1 NoParameter) [];
      mkNode (mkOperator (kOtherOpcode 1) 0 0 0 0 0 0 NoParameter) [];
      mkNode (mkOperator kAllocate 1 0 0 1 1 1 NoParameter) [1; 0; 0];
      mkNode (mkOperator kFinishRegion 1 0 0 1 0 1 NoParameter) [2; 2];
      mkNode (mkOperator (kOtherOpcode 0) 1 0 0 1 1 0 NoParameter) [3; 3; 0];
      mkNode (mkOperator kEnd 0 0 0 0 1 0 NoParameter) [4] ]
    0 5.

Definition after_run (g : Graph) : Analysis :=
  match Run 8 3 100 (new_EscapeAnalysis g) with
  | Some (_, s) => s
  | None => new_EscapeAnalysis g
  end.

Definition dynamic_size_run : Analysis :=
  Eval vm_compute in after_run dynamic_size_graph.


(** An allocation of non-constant size that [end] does not reach: the
    node 3. *)
Definition dead_allocation_graph : Graph :=
  mkGraph
    [ mkNode (mkOperator kStart 0 0 0 0 0 1 NoParameter) [];
      mkNode (mkOperator kEnd 0 0 0 0 1 0 NoParameter) [0];
      mkNode (mkOperator (kOtherOpcode 1) 0 0 0 0 0 0 NoParameter) [];
      mkNode (mkOperator kAllocate 1 0 0 1 1 1 NoParameter) [2; 0; 0] ]
    0 1.

Definition dead_allocation_run : Analysis :=
  Eval vm_compute in after_run dead_allocation_graph.


(** * Further properties of the code *)

(** ** VirtualObject: the field vector *)

(** The two vectors of an object have one entry per field: the constructors
    build them so and every member function keeps them so. *)
Definition wf_object (o : VirtualObject.t) : Prop :=
  length (VirtualObject.phi_ o) = length (VirtualObject.fields_ o).

Lemma resize_grow {A} n (d : A) l :
  length l <= n ->
  VirtualObject.resize n d l = l ++ replicate (n - length l) d.
Proof. intros H. unfold VirtualObject.resize. by rewrite take_ge. Qed.

Lemma wf_object_create id owner : wf_object (VirtualObject.create id owner).
Proof. done. Qed.

Lemma wf_object_create_tracked id owner n initialized :
  wf_object (VirtualObject.create_tracked id owner n initialized).
Proof. unfold wf_object. simpl. by rewrite !resize_length. Qed.

Lemma wf_object_copy owner o : wf_object o -> wf_object (VirtualObject.copy owner o).
Proof. done. Qed.

Lemma SetField_Some offset node created o o' :
  VirtualObject.SetField offset node created o = Some o' <->
  offset < length (VirtualObject.fields_ o) /\
  offset < length (VirtualObject.phi_ o) /\
  o' = VirtualObject.with_phi (<[offset := created]> (VirtualObject.phi_ o))
         (VirtualObject.with_fields (<[offset := node]> (VirtualObject.fields_ o)) o).
Proof.
  unfold VirtualObject.SetField. repeat case_decide; split.
  all: try (intros ?; by simplify_eq).
  all: try (intros (? & ? & ?); by simplify_eq).
Qed.

(** X1.  [SetField] writes one field and its created-phi mark and nothing
    else: the field and the mark read back, every other field and mark, the
    field count, the status, the id and the owner are as before, and the
    two vectors keep the same size if they had it. *)
Theorem SetField_then_GetField offset node created (o o' : VirtualObject.t) :
  VirtualObject.SetField offset node created o = Some o' ->
  VirtualObject.GetField o' offset = Some node /\
  VirtualObject.IsCreatedPhi o' offset = Some created /\
  (forall i, i <> offset ->
     VirtualObject.GetField o' i = VirtualObject.GetField o i /\
     VirtualObject.IsCreatedPhi o' i = VirtualObject.IsCreatedPhi o i) /\
  VirtualObject.field_count o' = VirtualObject.field_count o /\
  VirtualObject.status_ o' = VirtualObject.status_ o /\
  VirtualObject.id o' = VirtualObject.id o /\
  VirtualObject.owner o' = VirtualObject.owner o /\
  (wf_object o -> wf_object o').
Proof.
  intros (Hf & Hp & ->)%SetField_Some.
  unfold VirtualObject.GetField, VirtualObject.IsCreatedPhi,
    VirtualObject.field_count, wf_object. simpl.
  rewrite !list_lookup_insert_eq, !length_insert by done.
  repeat split; try done.
  all: by rewrite list_lookup_insert_ne.
Qed.

Lemma SetField_then_GetField_witness :
  VirtualObject.GetField
    (VirtualObject.with_phi [false; true]
       (VirtualObject.with_fields [None; Some 7]
          (VirtualObject.create_tracked 2 0 2 false))) 1 = Some (Some 7).
Proof.
  apply (SetField_then_GetField 1 (Some 7) true
           (VirtualObject.create_tracked 2 0 2 false)).
  reflexivity.
Defined.

(** X2.  [ResizeFields] only ever grows the object: afterwards it has the
    larger of the two counts, the fields it had are untouched, the fields it
    gains are null and not created phis, and the result is [true] exactly
    when it grew. *)
Theorem ResizeFields_extends n (o : VirtualObject.t) :
  let o' := fst (VirtualObject.ResizeFields n o) in
  VirtualObject.field_count o' = Nat.max n (VirtualObject.field_count o) /\
  (forall i, i < VirtualObject.field_count o ->
             VirtualObject.GetField o' i = VirtualObject.GetField o i) /\
  (forall i, VirtualObject.field_count o <= i < n ->
             VirtualObject.GetField o' i = Some None) /\
  (wf_object o ->
   wf_object o' /\
   forall i, VirtualObject.field_count o <= i < n ->
             VirtualObject.IsCreatedPhi o' i = Some false) /\
  (snd (VirtualObject.ResizeFields n o) = true <->
   VirtualObject.field_count o < n).
Proof.
  unfold VirtualObject.ResizeFields, VirtualObject.field_count,
    VirtualObject.GetField, VirtualObject.IsCreatedPhi, wf_object.
  case_decide as Hn; simpl.
  - rewrite !resize_length.
    split; [lia|]. split.
    { intros i Hi. rewrite resize_grow by lia. by rewrite lookup_app_l. }
    split.
    { intros i Hi. rewrite resize_grow by lia.
      rewrite lookup_app_r by lia. apply lookup_replicate. split; [done|lia]. }
    split; [|done].
    intros Hwf. split; [done|]. intros i Hi. rewrite resize_grow by lia.
    rewrite lookup_app_r by lia. apply lookup_replicate. split; [done|lia].
  - split; [lia|]. split; [done|]. split; [intros i Hi; lia|].
    split; [|split; [done|lia]].
    intros Hwf. split; [done|]. intros i Hi. lia.
Qed.

(** X3.  [SetInitialized] returns [status_ |= kInitialized] converted to
    [bool], which is [true] whatever the object was; the object is
    initialised afterwards and its other flags and its fields are kept. *)
Theorem SetInitialized_returns_true (o : VirtualObject.t) :
  snd (VirtualObject.SetInitialized o) = true /\
  VirtualObject.IsInitialized (fst (VirtualObject.SetInitialized o)) = true /\
  VirtualObject.IsTracked (fst (VirtualObject.SetInitialized o))
    = VirtualObject.IsTracked o /\
  VirtualObject.IsCopyRequired (fst (VirtualObject.SetInitialized o))
    = VirtualObject.IsCopyRequired o /\
  VirtualObject.fields_ (fst (VirtualObject.SetInitialized o))
    = VirtualObject.fields_ o.
Proof.
  unfold VirtualObject.SetInitialized, VirtualObject.IsInitialized,
    VirtualObject.IsTracked, VirtualObject.IsCopyRequired. simpl.
  rewrite !has_flag_set_flag.
  replace (has_flag VirtualObject.kInitialized VirtualObject.kInitialized)
    with true by done.
  replace (has_flag VirtualObject.kInitialized VirtualObject.kTracked)
    with false by done.
  replace (has_flag VirtualObject.kInitialized VirtualObject.kCopyRequired)
    with false by done.
  rewrite !orb_false_r, orb_true_r. repeat split; try done.
  apply negb_true_iff, N.eqb_neq. unfold set_flag. intros H.
  apply N.lor_eq_0_iff in H as [_ H]. done.
Qed.

Lemma UpdateFrom_loop_changed other idx :
  forall fs changed fs' changed',
    VirtualObject.UpdateFrom_loop idx other fs changed = (fs', changed') ->
    (changed = true -> changed' = true) /\
    (changed' = false -> fs' = fs) /\
    ((forall i, i ∈ idx -> fs !! i = other !! i) -> changed' = changed).
Proof.
  induction idx as [|j idx IH]; intros fs changed fs' changed' H; simpl in H.
  - by simplify_eq.
  - destruct (decide (fs !! j = other !! j)) as [Heq|Hne].
    + destruct (IH _ _ _ _ H) as (A & B & C). repeat split; try done.
      intros Hall. apply C. intros i Hi. apply Hall. by apply list_elem_of_further.
    + destruct (IH _ _ _ _ H) as (A & B & C). split; [auto|].
      split; [intros Hc; rewrite A in Hc; done|].
      intros Hall. exfalso. apply Hne, Hall, list_elem_of_here.
Qed.

Lemma UpdateFrom_fields other o :
  VirtualObject.fields_ (fst (VirtualObject.UpdateFrom other o))
  = VirtualObject.fields_ other.
Proof.
  unfold VirtualObject.UpdateFrom. simpl.
  destruct (decide _) as [Hlen|Hlen]; simpl in *; [|done].
  destruct (VirtualObject.UpdateFrom_loop _ _ _ _) as [fs c'] eqn:Hloop.
  simpl. apply list_eq. intros i.
  eapply UpdateFrom_loop_fields; [exact Hloop|done|].
  destruct (decide (i < length (VirtualObject.fields_ o))) as [Hi|Hi].
  - left. apply elem_of_seq. lia.
  - right. rewrite !(lookup_ge_None_2 _ i); [done|lia..].
Qed.

Lemma UpdateFrom_unchanged other o :
  snd (VirtualObject.UpdateFrom other o) = false <->
  VirtualObject.status_ o = VirtualObject.status_ other /\
  VirtualObject.fields_ o = VirtualObject.fields_ other.
Proof.
  pose proof (UpdateFrom_fields other o) as Hfields.
  unfold VirtualObject.UpdateFrom in *. simpl in *.
  destruct (decide _) as [Hlen|Hlen]; simpl in *.
  - destruct (VirtualObject.UpdateFrom_loop _ _ _ _) as [fs c'] eqn:Hloop.
    simpl in *. destruct (UpdateFrom_loop_changed _ _ _ _ _ _ Hloop)
      as (A & B & C).
    split.
    + intros ->. split.
      * destruct (N.eqb_spec (VirtualObject.status_ o)
                    (VirtualObject.status_ other)) as [?|?]; [done|].
        by specialize (A eq_refl).
      * rewrite <- Hfields. symmetry. by apply B.
    + intros [Hs Hf]. rewrite C.
      * rewrite Hs, N.eqb_refl. done.
      * intros i _. by rewrite Hf.
  - split; [done|]. intros [_ Hf]. by rewrite Hf in Hlen.
Qed.

(** X4.  [VirtualObject::UpdateFrom] makes the object a snapshot of
    [other]: afterwards its fields, its created-phi marks and its status
    are those of [other], while its id, its owner and its object state are
    its own.  It reports [false] exactly when status and fields were
    already those of [other] (a difference in the marks alone is not
    reported), so updating a second time from the same object reports no
    change. *)
Theorem UpdateFrom_takes_snapshot (other o : VirtualObject.t) :
  let o' := fst (VirtualObject.UpdateFrom other o) in
  VirtualObject.fields_ o' = VirtualObject.fields_ other /\
  VirtualObject.phi_ o' = VirtualObject.phi_ other /\
  VirtualObject.status_ o' = VirtualObject.status_ other /\
  VirtualObject.id o' = VirtualObject.id o /\
  VirtualObject.owner o' = VirtualObject.owner o /\
  VirtualObject.GetObjectState o' = VirtualObject.GetObjectState o /\
  (snd (VirtualObject.UpdateFrom other o) = false <->
   VirtualObject.status_ o = VirtualObject.status_ other /\
   VirtualObject.fields_ o = VirtualObject.fields_ other) /\
  snd (VirtualObject.UpdateFrom other o') = false.
Proof.
  intros o'. pose proof (UpdateFrom_fields other o) as Hfields.
  assert (VirtualObject.phi_ o' = VirtualObject.phi_ other /\
          VirtualObject.status_ o' = VirtualObject.status_ other /\
          VirtualObject.id o' = VirtualObject.id o /\
          VirtualObject.owner o' = VirtualObject.owner o /\
          VirtualObject.GetObjectState o' = VirtualObject.GetObjectState o)
    as (Hphi & Hstatus & Hid & Howner & Hstate).
  { unfold o', VirtualObject.UpdateFrom. simpl.
    destruct (decide _); simpl; [|done].
    by destruct (VirtualObject.UpdateFrom_loop _ _ _ _). }
  split; [done|]. split; [done|]. split; [done|]. split; [done|].
  split; [done|]. split; [done|]. split; [apply UpdateFrom_unchanged|].
  apply UpdateFrom_unchanged. by split.
Qed.

Lemma ClearAllFields_loop_spec idx :
  forall o,
    wf_object o ->
    (forall i, i ∈ idx -> i < length (VirtualObject.fields_ o)) ->
    exists o',
      VirtualObject.ClearAllFields_loop idx o = Some o' /\
      wf_object o' /\
      length (VirtualObject.fields_ o') = length (VirtualObject.fields_ o) /\
      VirtualObject.status_ o' = VirtualObject.status_ o /\
      VirtualObject.id_ o' = VirtualObject.id_ o /\
      VirtualObject.owner_ o' = VirtualObject.owner_ o /\
      (forall i, i ∈ idx ->
         VirtualObject.fields_ o' !! i = Some None /\
         VirtualObject.phi_ o' !! i = Some false) /\
      (forall i, i ∉ idx ->
         VirtualObject.fields_ o' !! i = VirtualObject.fields_ o !! i /\
         VirtualObject.phi_ o' !! i = VirtualObject.phi_ o !! i).
Proof.
  induction idx as [|j idx IH]; intros o Hwf Hidx; simpl.
  - exists o. do 6 (split; [done|]). split; [|done].
    intros i Hi. by apply elem_of_nil in Hi.
  - assert (j < length (VirtualObject.fields_ o)) as Hj
      by apply Hidx, list_elem_of_here.
    assert (j < length (VirtualObject.phi_ o)) as Hjp
      by (unfold wf_object in Hwf; lia).
    destruct (VirtualObject.SetField j None false o) as [o1|] eqn:H1.
    2:{ exfalso. unfold VirtualObject.SetField in H1.
        repeat case_decide; done. }
    apply SetField_Some in H1 as (_ & _ & ->).
    set (o1 := VirtualObject.with_phi _ _).
    destruct (IH o1) as (o' & Hrun & Hwf' & Hlen & Hst & Hid & Hown & Hin & Hout).
    { unfold wf_object, o1. simpl. by rewrite !length_insert. }
    { intros i Hi. unfold o1. simpl. rewrite length_insert.
      by apply Hidx, list_elem_of_further. }
    exists o'. split; [done|]. split; [done|].
    unfold o1 in Hlen, Hst, Hid, Hown, Hout. simpl in *.
    rewrite length_insert in Hlen.
    do 4 (split; [done|]). split.
    + intros i Hi. destruct (decide (i ∈ idx)) as [Hi'|Hi']; [by apply Hin|].
      apply elem_of_cons in Hi as [->|?]; [|done].
      destruct (Hout j Hi') as [-> ->].
      by rewrite !list_lookup_insert_eq.
    + intros i Hi. apply not_elem_of_cons in Hi as [Hne Hnin].
      destruct (Hout i Hnin) as [-> ->].
      by rewrite !list_lookup_insert_ne.
Qed.

(** X5.  On an object whose two vectors have the same size
    [ClearAllFields] stays within bounds and leaves every field null and
    every created-phi mark clear, so that [AllFieldsClear] holds; the field
    count, the status, the id and the owner are kept. *)
Theorem ClearAllFields_clears (o : VirtualObject.t) :
  wf_object o ->
  exists o',
    VirtualObject.ClearAllFields o = Some o' /\
    VirtualObject.AllFieldsClear o' = true /\
    (forall i, i < VirtualObject.field_count o ->
               VirtualObject.GetField o' i = Some None /\
               VirtualObject.IsCreatedPhi o' i = Some false) /\
    VirtualObject.field_count o' = VirtualObject.field_count o /\
    VirtualObject.status_ o' = VirtualObject.status_ o /\
    VirtualObject.id o' = VirtualObject.id o /\
    VirtualObject.owner o' = VirtualObject.owner o /\
    wf_object o'.
Proof.
  intros Hwf.
  destruct (ClearAllFields_loop_spec
              (seq 0 (length (VirtualObject.fields_ o))) o Hwf)
    as (o' & Hrun & Hwf' & Hlen & Hst & Hid & Hown & Hall & _).
  { intros i Hi. apply elem_of_seq in Hi. lia. }
  exists o'. split; [exact Hrun|].
  assert (forall i, i < length (VirtualObject.fields_ o) ->
            VirtualObject.fields_ o' !! i = Some None /\
            VirtualObject.phi_ o' !! i = Some false) as Hclear.
  { intros i Hi. apply Hall. apply elem_of_seq. lia. }
  split; [|split; [exact Hclear|by repeat split]].
  unfold VirtualObject.AllFieldsClear. apply forallb_forall.
  intros f Hf. apply list_elem_of_In, list_elem_of_lookup in Hf as [i Hi].
  assert (i < length (VirtualObject.fields_ o)) as Hlt
    by (rewrite <- Hlen; by eapply lookup_lt_Some).
  destruct (Hclear i Hlt) as [Hnone _]. rewrite Hnone in Hi. by simplify_eq.
Qed.

Lemma ClearAllFields_clears_witness :
  exists o',
    VirtualObject.ClearAllFields
      (VirtualObject.mk 2 3%N [Some 5; None; Some 6] [false; false; true] None 0)
      = Some o' /\
    VirtualObject.AllFieldsClear o' = true.
Proof.
  destruct (ClearAllFields_clears
              (VirtualObject.mk 2 3%N [Some 5; None; Some 6]
                 [false; false; true] None 0))
    as (o' & H & Hclear & _); [reflexivity|].
  exists o'. split; [exact H|exact Hclear].
Defined.

Lemma UpdateFrom_phi other o :
  VirtualObject.phi_ (fst (VirtualObject.UpdateFrom other o))
  = VirtualObject.phi_ other.
Proof.
  unfold VirtualObject.UpdateFrom. simpl.
  destruct (decide _); simpl; [|done].
  by destruct (VirtualObject.UpdateFrom_loop _ _ _ _).
Qed.

(** X6.  The two vectors of an object keep the same size under every
    member function (for [UpdateFrom], when the object copied from has
    them so): an offset below the field count is within bounds of both. *)
Theorem mutations_keep_vectors_aligned (m : Mutation) (o o' : VirtualObject.t) :
  wf_object o ->
  (forall other, m = DoUpdateFrom other -> wf_object other) ->
  mutate m o = Some o' ->
  wf_object o'.
Proof.
  intros Hwf Hother Hm. destruct m; simpl in Hm.
  - apply SetField_Some in Hm as (_ & _ & ->).
    unfold wf_object in *. simpl. by rewrite !length_insert.
  - by simplify_eq.
  - simplify_eq. unfold VirtualObject.ResizeFields.
    case_decide; simpl; [|done].
    unfold wf_object. simpl. by rewrite !resize_length.
  - destruct (ClearAllFields_loop_spec
                (seq 0 (length (VirtualObject.fields_ o))) o Hwf)
      as (o1 & H1 & Hwf1 & _).
    { intros i Hi. apply elem_of_seq in Hi. lia. }
    unfold VirtualObject.ClearAllFields in Hm. rewrite H1 in Hm. by simplify_eq.
  - simplify_eq. specialize (Hother other eq_refl).
    unfold wf_object in *. by rewrite UpdateFrom_fields, UpdateFrom_phi.
  - by simplify_eq.
  - by simplify_eq.
Qed.

Lemma mutations_keep_vectors_aligned_witness :
  wf_object
    (fst (VirtualObject.UpdateFrom (VirtualObject.create_tracked 2 0 3 false)
            (VirtualObject.create_tracked 2 1 1 true))).
Proof.
  apply (mutations_keep_vectors_aligned
           (DoUpdateFrom (VirtualObject.create_tracked 2 0 3 false))
           (VirtualObject.create_tracked 2 1 1 true)).
  - reflexivity.
  - intros other H. injection H as <-. reflexivity.
  - reflexivity.
Defined.

(** ** The replacement table: updates and queries *)

Lemma replacement_insert tbl node rep m :
  node < length tbl ->
  replacement (<[node := rep]> tbl) m
  = if decide (m = node) then rep else replacement tbl m.
Proof.
  intros Hlt. unfold replacement. rewrite length_insert.
  destruct (decide (m = node)) as [->|Hne].
  - case_decide; [lia|]. by rewrite list_lookup_insert_eq.
  - by rewrite list_lookup_insert_ne.
Qed.

(** X7.  [SetReplacement] records [rep] for [node] and nothing else: the
    node must have an entry in the table, afterwards [replacement(node)] is
    [rep], the replacement of every other node and the size of the table
    are as before, and the result is [true] exactly when the entry was
    different. *)
Theorem SetReplacement_then_replacement (node : NodeId) (rep : option NodeId)
    (s : Analysis) (c : bool) (s' : Analysis) :
  SetReplacement node rep s = Some (c, s') ->
  node < length (replacements_ s) /\
  EscapeAnalysis_replacement node s' = Some (rep, s') /\
  (forall m, m <> node ->
     replacement (replacements_ s') m = replacement (replacements_ s) m) /\
  length (replacements_ s') = length (replacements_ s) /\
  (c = true <-> replacement (replacements_ s) node <> rep).
Proof.
  intros H. unfold SetReplacement in H.
  apply bind_Some in H as (tbl & s0 & Htbl & H).
  apply gets_Some in Htbl as [-> ->].
  apply bind_Some in H as (old & s0 & Hold & H).
  apply lift_Some in Hold as [Hold ->].
  apply bind_Some in H as ([] & s1 & Hmod & H). apply modify_Some in Hmod.
  apply ret_Some in H as [-> ->]. subst s1.
  assert (node < length (replacements_ s)) as Hlt by (by eapply lookup_lt_Some).
  split; [done|]. split.
  { unfold EscapeAnalysis_replacement.
    rewrite (bind_run _ _ _ (<[node := rep]> (replacements_ s)) _) by done.
    unfold ret. do 2 f_equal. rewrite replacement_insert by done.
    by rewrite decide_True. }
  split.
  { intros m Hm. simpl. rewrite replacement_insert by done.
    by rewrite decide_False. }
  split; [simpl; by rewrite length_insert|].
  assert (replacement (replacements_ s) node = old) as ->.
  { unfold replacement. case_decide; [lia|]. by rewrite Hold. }
  rewrite negb_true_iff, bool_decide_eq_false. done.
Qed.

Lemma SetReplacement_then_replacement_witness :
  replacement
    (replacements_
       (set_replacements [None; Some 0; None] (new_EscapeAnalysis (mkGraph [] 0 0))))
    1 <> None.
Proof.
  apply (SetReplacement_then_replacement 1 None
           (set_replacements [None; Some 0; None]
              (new_EscapeAnalysis (mkGraph [] 0 0))) true
           (set_replacements [None; None; None]
              (new_EscapeAnalysis (mkGraph [] 0 0)))).
  - reflexivity.
  - reflexivity.
Defined.

(** X8.  [GetReplacement] and [ResolveReplacement] follow the same chain:
    [GetReplacement(id)] is null exactly when the node has no replacement,
    and otherwise it is the node that [ResolveReplacement] returns, which
    has no replacement of its own.  Neither changes the analysis. *)
Theorem GetReplacement_is_resolved (id : NodeId) (s : Analysis)
    (r : option NodeId) (s' : Analysis) :
  GetReplacement id s = Some (r, s') ->
  s' = s /\
  (r = None <-> replacement (replacements_ s) id = None) /\
  forall n, r = Some n ->
    ResolveReplacement id s = Some (n, s) /\
    replacement (replacements_ s) n = None /\
    n <> id.
Proof.
  intros H. apply GetReplacement_Some in H as [H ->]. split; [done|].
  rewrite GetReplacement_fuel_spec in H.
  destruct (replacement (replacements_ s) id) as [m|] eqn:Hid.
  - destruct (ResolveReplacement_fuel _ _ id) as [n|] eqn:Hres; [|done].
    simpl in H. simplify_eq. split; [done|].
    intros n' ?. simplify_eq.
    split.
    { unfold ResolveReplacement.
      rewrite (bind_run _ _ _ (replacements_ s) s) by done.
      unfold lift, resolve. by rewrite Hres. }
    apply ResolveReplacement_fuel_Some in Hres as (k & _ & _ & Hnone).
    split; [done|]. intros ->. congruence.
  - destruct (ResolveReplacement_fuel _ _ id) as [n|] eqn:Hres; [|done].
    simpl in H. simplify_eq. split; [done|]. done.
Qed.

(** The node 2 is replaced by the node 1, which is replaced by the
    node 0. *)
Definition replacement_chain : Analysis :=
  set_replacements [None; Some 0; Some 1] (new_EscapeAnalysis (mkGraph [] 0 0)).

Lemma GetReplacement_is_resolved_witness :
  ResolveReplacement 2 replacement_chain = Some (0, replacement_chain).
Proof.
  destruct (GetReplacement_is_resolved 2 replacement_chain (Some 0)
              replacement_chain eq_refl) as (_ & _ & H).
  apply (H 0 eq_refl).
Defined.

(** ** Phi equivalence *)

Lemma all_inputs_equivalent_swap eqv eqv' ins1 ins2 idx :
  (forall a b, eqv a b = eqv' b a) ->
  all_inputs_equivalent eqv ins1 ins2 idx
  = all_inputs_equivalent eqv' ins2 ins1 idx.
Proof.
  intros Heqv. induction idx as [|i idx IH]; simpl; [done|].
  destruct (ins1 !! i) as [a|], (ins2 !! i) as [b|]; try done.
  rewrite Heqv, IH. done.
Qed.

Lemma IsEquivalentPhi_fuel_sym fuel g :
  forall a b, IsEquivalentPhi_fuel fuel g a b = IsEquivalentPhi_fuel fuel g b a.
Proof.
  induction fuel as [|fuel IH]; intros a b; simpl; [done|].
  destruct (decide (a = b)) as [->|Hne].
  - by rewrite decide_True.
  - rewrite decide_False by done.
    destruct (nodes g !! a) as [n1|], (nodes g !! b) as [n2|]; try done.
    destruct (decide (opcode (op n1) = kPhi)) as [H1|H1],
             (decide (opcode (op n2) = kPhi)) as [H2|H2],
             (decide (ValueInputCount (op n1) = ValueInputCount (op n2)))
               as [H3|H3];
      rewrite ?(bool_decide_eq_true_2 _ H1), ?(bool_decide_eq_true_2 _ H2),
        ?(bool_decide_eq_false_2 _ H1), ?(bool_decide_eq_false_2 _ H2);
      try (rewrite !bool_decide_eq_false_2 by (intros ?; congruence));
      try (rewrite !bool_decide_eq_true_2 by (intros ?; congruence));
      simpl; try done.
    rewrite <- H3. apply all_inputs_equivalent_swap. intros x y. apply IH.
Qed.

Lemma IsEquivalentPhi_fuel_distinct fuel g a b :
  IsEquivalentPhi_fuel fuel g a b = Some true -> a <> b ->
  exists n1 n2,
    nodes g !! a = Some n1 /\ nodes g !! b = Some n2 /\
    opcode (op n1) = kPhi /\ opcode (op n2) = kPhi /\
    ValueInputCount (op n1) = ValueInputCount (op n2).
Proof.
  destruct fuel as [|fuel]; simpl; [done|]. intros H Hne.
  rewrite decide_False in H by done.
  destruct (nodes g !! a) as [n1|], (nodes g !! b) as [n2|]; try done.
  exists n1, n2.
  destruct (decide (opcode (op n1) = kPhi)) as [H1|H1];
    [|by rewrite (bool_decide_eq_true_2 _ H1) in H].
  destruct (decide (opcode (op n2) = kPhi)) as [H2|H2];
    [|by rewrite (bool_decide_eq_true_2 _ H2), orb_true_r in H].
  destruct (decide (ValueInputCount (op n1) = ValueInputCount (op n2)))
    as [H3|H3]; [done|].
  by rewrite (bool_decide_eq_true_2 _ H3), orb_true_r in H.
Qed.

(** X9.  The equivalence of phis is reflexive and symmetric, also in
    whether it returns at all; two different nodes are equivalent only
    when both are phis with the same number of value inputs; and
    [CompareVirtualObjects], which compares the resolved nodes, is
    symmetric too. *)
Theorem IsEquivalentPhi_symmetric (a b : NodeId) (s : Analysis) :
  IsEquivalentPhi a a s = Some (true, s) /\
  IsEquivalentPhi a b s = IsEquivalentPhi b a s /\
  CompareVirtualObjects a b s = CompareVirtualObjects b a s /\
  (a <> b -> IsEquivalentPhi a b s = Some (true, s) ->
   exists n1 n2,
     nodes (graph_ s) !! a = Some n1 /\ nodes (graph_ s) !! b = Some n2 /\
     opcode (op n1) = kPhi /\ opcode (op n2) = kPhi /\
     ValueInputCount (op n1) = ValueInputCount (op n2)).
Proof.
  assert (forall x y, IsEquivalentPhi x y s = IsEquivalentPhi y x s) as Hsym.
  { intros x y. unfold IsEquivalentPhi.
    rewrite !(bind_run _ _ s (graph_ s) s) by done.
    by rewrite IsEquivalentPhi_fuel_sym. }
  split.
  { unfold IsEquivalentPhi. rewrite (bind_run _ _ s (graph_ s) s) by done.
    unfold equivalence_fuel. simpl. by rewrite decide_True. }
  split; [apply Hsym|]. split.
  { assert (forall x y,
              CompareVirtualObjects x y s =
              match resolve (replacements_ s) x, resolve (replacements_ s) y with
              | Some l, Some r =>
                  match IsEquivalentPhi l r s with
                  | Some (e, _) => Some (e, s)
                  | None => None
                  end
              | _, _ => None
              end) as Hcmp.
    { intros x y.
      unfold CompareVirtualObjects, ResolveReplacement, IsEquivalentPhi,
        bind, gets, lift, ret.
      destruct (resolve (replacements_ s) x) as [l|]; [|done].
      destruct (resolve (replacements_ s) y) as [r|]; [|done].
      destruct (IsEquivalentPhi_fuel _ _ l r) as [[|]|]; done. }
    rewrite !Hcmp.
    destruct (resolve (replacements_ s) a) as [l|],
             (resolve (replacements_ s) b) as [r|]; try done.
    by rewrite (Hsym l r). }
  intros Hne H. unfold IsEquivalentPhi in H.
  rewrite (bind_run _ _ s (graph_ s) s) in H by done.
  apply lift_Some in H as [H _].
  by eapply IsEquivalentPhi_fuel_distinct.
Qed.

(** ** MergeCache::GetFields *)

Lemma set_cache_fields_inv l s u s' :
  set_cache_fields l s = Some (u, s') ->
  exists c, cache_ s = Some c /\
    s' = set_cache (Some (MergeCache.mk (MergeCache.states_ c)
                            (MergeCache.objects_ c) l)) s.
Proof.
  unfold set_cache_fields, get_cache. intros H.
  apply bind_Some in H as (c & s0 & Hc & H).
  apply bind_Some in Hc as (oc & s1 & Hoc & Hc).
  apply gets_Some in Hoc as [-> ->]. apply lift_Some in Hc as [Hc ->].
  apply modify_Some in H. eauto.
Qed.

Lemma push_cache_field_inv n s u s' :
  push_cache_field n s = Some (u, s') ->
  exists c, cache_ s = Some c /\
    s' = set_cache (Some (MergeCache.mk (MergeCache.states_ c)
                            (MergeCache.objects_ c)
                            (MergeCache.fields_ c ++ [n]))) s.
Proof.
  unfold push_cache_field, cache_fields, get_cache. intros H.
  apply bind_Some in H as (l & s0 & Hl & H).
  apply bind_Some in Hl as (c & s1 & Hc & Hl).
  apply bind_Some in Hc as (oc & s2 & Hoc & Hc).
  apply gets_Some in Hoc as [-> ->]. apply lift_Some in Hc as [Hc ->].
  apply ret_Some in Hl as [-> ->].
  apply set_cache_fields_inv in H as (c' & Hc' & ->).
  exists c. split; [done|]. by simplify_eq.
Qed.

(** The field at [pos] of the object at [p], when the object has that
    field and it is not null. *)
Definition field_at (objs : list VirtualObject.t) (pos : Z) (p : ObjPtr)
    : option NodeId :=
  objs !! p ≫= fun o =>
    if decide (Z.of_nat (VirtualObject.field_count o) <= pos)%Z then None
    else mjoin (VirtualObject.GetField o (Z.to_nat pos)).

Lemma GetFields_loop pos (objs : list ObjPtr) :
  forall rep s r s' c,
    cache_ s = Some c ->
    foldM
      (fun rep obj =>
         let* o := load_object obj in
         if decide (Z.of_nat (VirtualObject.field_count o) <= pos)%Z then ret rep
         else
           let* field := lift (VirtualObject.GetField o (Z.to_nat pos)) in
           match field with
           | Some f => push_cache_field f
           | None => ret tt
           end;;
           if decide (field = rep) then ret rep else ret None)
      rep objs s = Some (r, s') ->
    s' = set_cache
           (Some (MergeCache.mk (MergeCache.states_ c) (MergeCache.objects_ c)
                    (MergeCache.fields_ c
                       ++ omap (field_at (zone_objects s) pos) objs))) s /\
    forall f, r = Some f ->
      rep = Some f /\
      forall p o, p ∈ objs -> zone_objects s !! p = Some o ->
        (pos < Z.of_nat (VirtualObject.field_count o))%Z ->
        VirtualObject.GetField o (Z.to_nat pos) = Some (Some f).
Proof.
  induction objs as [|p objs IH]; intros rep s r s' c Hc H; simpl in H.
  - apply ret_Some in H as [-> ->]. split.
    + simpl. rewrite app_nil_r. destruct s, c; simpl in *. by subst.
    + intros f ->. split; [done|]. intros p o Hp. by apply elem_of_nil in Hp.
  - apply bind_Some in H as (rep1 & s1 & Hbody & H).
    apply bind_Some in Hbody as (o & s0 & Ho & Hbody).
    apply load_object_Some in Ho as [Ho ->].
    destruct (decide (Z.of_nat (VirtualObject.field_count o) <= pos)%Z)
      as [Hshort|Hlong].
    + apply ret_Some in Hbody as [-> ->].
      destruct (IH _ _ _ _ c Hc H) as [-> Hrep]. split.
      * do 3 f_equal. simpl. unfold field_at at 2. rewrite Ho. simpl.
        by rewrite decide_True.
      * intros f Hf. destruct (Hrep f Hf) as [-> Hall]. split; [done|].
        intros q o' [->|Hq]%elem_of_cons Hq' Hlt; [|by eapply Hall].
        simplify_eq. lia.
    + apply bind_Some in Hbody as (field & s0 & Hfield & Hbody).
      apply lift_Some in Hfield as [Hfield ->].
      apply bind_Some in Hbody as ([] & s2 & Hpush & Hbody).
      assert (exists c2,
                cache_ s2 = Some c2 /\ zone_objects s2 = zone_objects s /\
                MergeCache.states_ c2 = MergeCache.states_ c /\
                MergeCache.objects_ c2 = MergeCache.objects_ c /\
                MergeCache.fields_ c2
                  = MergeCache.fields_ c ++ omap (field_at (zone_objects s) pos) [p] /\
                set_cache (Some c2) s = s2) as (c2 & Hc2 & Hz2 & Hst & Hob & Hfl & Hs2).
      { simpl. unfold field_at. rewrite Ho. simpl.
        rewrite decide_False by done. rewrite Hfield. simpl.
        destruct field as [f|].
        - apply push_cache_field_inv in Hpush as (c' & Hc' & ->).
          simplify_eq. eexists. repeat split; done.
        - apply ret_Some in Hpush as [_ ->]. exists c.
          rewrite app_nil_r. repeat split; try done.
          destruct s; simpl in *. by subst. }
      assert (s1 = s2 /\ (rep1 = rep \/ rep1 = None) /\
              (rep1 = rep -> rep1 <> None -> field = rep)) as (-> & Hrep1 & Hagree).
      { destruct (decide (field = rep)) as [->|Hne];
          apply ret_Some in Hbody as [-> ->]; split; auto.
        split; [by right|]. done. }
      destruct (IH _ _ _ _ c2 Hc2 H) as [-> Hrep]. split.
      * rewrite <- Hs2.
        change (zone_objects (set_cache (Some c2) s)) with (zone_objects s).
        rewrite Hst, Hob, Hfl, <- app_assoc, <- omap_app. done.
      * intros f Hf. destruct (Hrep f Hf) as [-> Hall].
        destruct Hrep1 as [Hrep1|?]; [|done].
        split; [done|].
        intros q o' [->|Hq]%elem_of_cons Hq' Hlt.
        -- simplify_eq. rewrite Hfield. f_equal. apply Hagree; done.
        -- eapply Hall; [done| |done]. by rewrite Hz2.
Qed.

(** X10.  [MergeCache::GetFields(pos)] rebuilds the field list of the
    cache: it becomes the list of the non-null fields at [pos] of the
    cached objects that have such a field, in the order of the objects;
    nothing else changes.  The result is a node only when the first object
    has the field and every cached object that has the field holds that
    same node there. *)
Theorem GetFields_collects_and_agrees (pos : Z) (s : Analysis)
    (c : MergeCache.t) (r : option NodeId) (s' : Analysis) :
  cache_ s = Some c ->
  MergeCache_GetFields pos s = Some (r, s') ->
  s' = set_cache
         (Some (MergeCache.mk (MergeCache.states_ c) (MergeCache.objects_ c)
                  (omap (field_at (zone_objects s) pos) (MergeCache.objects_ c))))
         s /\
  forall f, r = Some f ->
    (exists front fo,
       head (MergeCache.objects_ c) = Some front /\
       zone_objects s !! front = Some fo /\
       (pos < Z.of_nat (VirtualObject.field_count fo))%Z) /\
    forall p o, p ∈ MergeCache.objects_ c -> zone_objects s !! p = Some o ->
      (pos < Z.of_nat (VirtualObject.field_count o))%Z ->
      VirtualObject.GetField o (Z.to_nat pos) = Some (Some f).
Proof.
  intros Hc H. unfold MergeCache_GetFields in H.
  apply bind_Some in H as ([] & s1 & Hclear & H).
  apply set_cache_fields_inv in Hclear as (c' & Hc' & ->). simplify_eq.
  apply bind_Some in H as (objs & s0 & Hobjs & H).
  unfold cache_objects, get_cache in Hobjs.
  apply bind_Some in Hobjs as (c1 & s1 & Hc1 & Hobjs).
  apply bind_Some in Hc1 as (oc & s2 & Hoc & Hc1).
  apply gets_Some in Hoc as [-> ->]. apply lift_Some in Hc1 as [Hc1 ->].
  apply ret_Some in Hobjs as [-> ->]. simpl in Hc1. simplify_eq. simpl in H.
  apply bind_Some in H as (front & s0 & Hfront & H).
  apply lift_Some in Hfront as [Hfront ->].
  apply bind_Some in H as (fo & s0 & Hfo & H).
  apply load_object_Some in Hfo as [Hfo ->]. simpl in Hfo.
  apply bind_Some in H as (rep0 & s0 & Hrep0 & H).
  assert (s0 = set_cache
                 (Some (MergeCache.mk (MergeCache.states_ c)
                          (MergeCache.objects_ c) [])) s /\
          (rep0 <> None ->
           (pos < Z.of_nat (VirtualObject.field_count fo))%Z)) as [-> Hhas].
  { destruct (decide (Z.of_nat (VirtualObject.field_count fo) <= pos)%Z).
    - apply ret_Some in Hrep0 as [-> ->]. done.
    - apply lift_Some in Hrep0 as [_ ->]. split; [done|]. lia. }
  eapply GetFields_loop in H as [-> Hrep]; [|reflexivity].
  split; [done|].
  intros f Hf. destruct (Hrep f Hf) as [-> Hall]. split; [|exact Hall].
  exists front, fo. split; [done|]. split; [done|]. by apply Hhas.
Qed.

(** Two snapshots of an object agree on the field 0 and differ on the
    field 1. *)
Definition two_cached_objects : Analysis :=
  mkAnalysis (mkGraph [] 0 0)
    [VirtualObject.mk 2 3%N [Some 5; Some 6] [false; false] None 0;
     VirtualObject.mk 2 3%N [Some 5; Some 7] [false; false] None 1]
    [] [] [] 1%N [] [] [] [] (Some (MergeCache.mk [] [0; 1] [9])).

Lemma GetFields_collects_and_agrees_witness :
  exists s',
    MergeCache_GetFields 1 two_cached_objects = Some (None, s') /\
    cache_ s' = Some (MergeCache.mk [] [0; 1] [6; 7]).
Proof.
  destruct (MergeCache_GetFields 1 two_cached_objects) as [[r s']|] eqn:E;
    [|vm_compute in E; discriminate E].
  destruct (GetFields_collects_and_agrees 1 two_cached_objects _ r s'
              eq_refl E) as [Hs' _].
  exists s'. split.
  - vm_compute in E. injection E as <- _. reflexivity.
  - rewrite Hs'. reflexivity.
Defined.

(** ** What a run never does *)

(** What every step of the analysis leaves related.  The graph keeps its
    start and its end, a node keeps its operator and the number of its
    inputs, and a node that is added is a phi.  A status word keeps
    [kEscaped] and [kTracked] once it has them.  No object and no state
    leaves the zone, and a state keeps its owner and its number of
    slots. *)
Definition run_frame : relation Analysis :=
  fun s s' =>
    start (graph_ s') = start (graph_ s) /\
    end_ (graph_ s') = end_ (graph_ s) /\
    (forall x nd, nodes (graph_ s) !! x = Some nd ->
       exists nd', nodes (graph_ s') !! x = Some nd' /\ op nd' = op nd /\
                   length (inputs nd') = length (inputs nd)) /\
    (forall x nd', nodes (graph_ s') !! x = Some nd' ->
       nodes (graph_ s) !! x = None -> opcode (op nd') = kPhi) /\
    (forall m v, status_ s !! m = Some v ->
       exists v', status_ s' !! m = Some v' /\
                  (has_flag v kEscaped = true -> has_flag v' kEscaped = true) /\
                  (has_flag v kTracked = true -> has_flag v' kTracked = true)) /\
    length (zone_objects s) <= length (zone_objects s') /\
    (forall q st, zone_states s !! q = Some st ->
       exists st', zone_states s' !! q = Some st' /\
                   VirtualState.owner_ st' = VirtualState.owner_ st /\
                   length (VirtualState.info_ st')
                     = length (VirtualState.info_ st)).

Lemma run_frame_same s s' :
  graph_ s' = graph_ s -> status_ s' = status_ s ->
  zone_objects s' = zone_objects s -> zone_states s' = zone_states s ->
  run_frame s s'.
Proof.
  intros Hg Hst Hzo Hzs. unfold run_frame. rewrite Hg, Hst, Hzo, Hzs.
  split; [done|]. split; [done|]. split; [by eauto|].
  split; [intros x nd' H1 H2; congruence|].
  split; [by eauto|]. split; [done|]. by eauto.
Qed.

#[global] Instance run_frame_refl : Reflexive run_frame.
Proof. intros s. by apply run_frame_same. Qed.

#[global] Instance run_frame_trans : Transitive run_frame.
Proof.
  intros s1 s2 s3 (A1 & A2 & A3 & A4 & A5 & A6 & A7)
    (B1 & B2 & B3 & B4 & B5 & B6 & B7).
  split; [congruence|]. split; [congruence|]. split.
  { intros x nd Hx. destruct (A3 x nd Hx) as (nd2 & H2 & Ho & Hl).
    destruct (B3 x nd2 H2) as (nd3 & H3 & Ho' & Hl').
    exists nd3. split; [done|]. split; congruence. }
  split.
  { intros x nd3 H3 H1. destruct (nodes (graph_ s2) !! x) as [nd2|] eqn:H2.
    - destruct (B3 x nd2 H2) as (nd3' & H3' & Ho & _). simplify_eq.
      rewrite Ho. by eapply A4.
    - by eapply B4. }
  split.
  { intros m v Hv. destruct (A5 m v Hv) as (v2 & H2 & He & Ht).
    destruct (B5 m v2 H2) as (v3 & H3 & He' & Ht').
    exists v3. auto. }
  split; [lia|].
  intros q st Hq. destruct (A7 q st Hq) as (st2 & H2 & Ho & Hl).
  destruct (B7 q st2 H2) as (st3 & H3 & Ho' & Hl').
  exists st3. split; [done|]. split; congruence.
Qed.

Lemma run_frame_graph s g' :
  start g' = start (graph_ s) -> end_ g' = end_ (graph_ s) ->
  (forall x nd, nodes (graph_ s) !! x = Some nd ->
     exists nd', nodes g' !! x = Some nd' /\ op nd' = op nd /\
                 length (inputs nd') = length (inputs nd)) ->
  (forall x nd', nodes g' !! x = Some nd' ->
     nodes (graph_ s) !! x = None -> opcode (op nd') = kPhi) ->
  run_frame s (set_graph g' s).
Proof.
  intros H1 H2 H3 H4. unfold run_frame. simpl.
  do 4 (split; [done|]). split; [by eauto|]. split; [done|]. by eauto.
Qed.

Lemma NewNode_run_frame o ins :
  opcode o = kPhi -> post run_frame (NewNode o ins).
Proof.
  intros Hphi s r s' H. unfold NewNode in H. minv H.
  apply run_frame_graph; simpl; try done.
  - intros x nd Hx. exists nd. split; [by apply lookup_app_l_Some|done].
  - intros x nd' Hx Hnone. apply lookup_ge_None in Hnone.
    rewrite lookup_app_r in Hx by done.
    apply list_lookup_singleton_Some in Hx as [_ <-]. done.
Qed.

Lemma ReplaceValueInput_run_frame n value i :
  post run_frame (ReplaceValueInput n value i).
Proof.
  intros s r s' H. unfold ReplaceValueInput in H. minv H.
  case_decide; [|done]. minv H.
  apply run_frame_graph; simpl; try done.
  - intros x nd Hx. destruct (decide (x = n)) as [->|Hne].
    + simplify_eq. eexists. split.
      { apply list_lookup_insert_eq. by eapply lookup_lt_Some. }
      simpl. by rewrite length_insert.
    + exists nd. by rewrite list_lookup_insert_ne.
  - intros x nd' Hx Hnone. apply lookup_ge_None in Hnone.
    apply lookup_lt_Some in Hx. rewrite length_insert in Hx. lia.
Qed.

Lemma run_frame_status s st' :
  (forall m v, status_ s !! m = Some v ->
     exists v', st' !! m = Some v' /\
                (has_flag v kEscaped = true -> has_flag v' kEscaped = true) /\
                (has_flag v kTracked = true -> has_flag v' kTracked = true)) ->
  run_frame s (set_status st' s).
Proof.
  intros H. unfold run_frame. simpl.
  split; [done|]. split; [done|]. split; [by eauto|].
  split; [intros x nd' H1 H2; congruence|].
  split; [done|]. split; [done|]. by eauto.
Qed.

Lemma status_or_run_frame id mask : post run_frame (status_or id mask).
Proof.
  intros s r s' H. apply status_or_Some in H as (v & Hv & ->).
  apply run_frame_status. intros m w Hm.
  destruct (decide (m = id)) as [->|Hne].
  - simplify_eq. exists (set_flag v mask). split.
    { apply list_lookup_insert_eq. by eapply lookup_lt_Some. }
    rewrite !has_flag_set_flag. split; intros ->; done.
  - exists w. by rewrite list_lookup_insert_ne.
Qed.

Lemma status_clear_run_frame id mask :
  N.land mask kEscaped = 0%N -> N.land mask kTracked = 0%N ->
  post run_frame (status_clear id mask).
Proof.
  intros He Ht s r s' H. apply status_clear_Some in H as (v & Hv & ->).
  apply run_frame_status. intros m w Hm.
  destruct (decide (m = id)) as [->|Hne].
  - simplify_eq. exists (clear_flag v mask). split.
    { apply list_lookup_insert_eq. by eapply lookup_lt_Some. }
    by rewrite !has_flag_clear_flag_other.
  - exists w. by rewrite list_lookup_insert_ne.
Qed.

Lemma grow_size_ge n : n <= grow_size n.
Proof. unfold grow_size. apply Nat.div_le_lower_bound; lia. Qed.

Lemma ResizeStatusVector_run_frame : post run_frame ResizeStatusVector.
Proof.
  intros s r s' H. unfold ResizeStatusVector, NodeCount in H. minv H.
  case_decide as Hle; minv H; [|reflexivity].
  apply run_frame_status. intros m v Hm. exists v. split; [|done].
  pose proof (grow_size_ge (length (nodes (graph_ s)))) as Hge.
  rewrite resize_grow by lia. by apply lookup_app_l_Some.
Qed.

Lemma store_object_run_frame p o : post run_frame (store_object p o).
Proof.
  intros s r s' H. apply store_object_Some in H as [_ ->].
  unfold run_frame. simpl. rewrite length_insert.
  split; [done|]. split; [done|]. split; [by eauto|].
  split; [intros x nd' H1 H2; congruence|].
  split; [by eauto|]. split; [done|]. by eauto.
Qed.

Lemma new_object_run_frame o : post run_frame (new_object o).
Proof.
  intros s r s' H. apply new_object_Some in H as [_ ->].
  unfold run_frame. simpl. rewrite length_app.
  split; [done|]. split; [done|]. split; [by eauto|].
  split; [intros x nd' H1 H2; congruence|].
  split; [by eauto|]. split; [lia|]. by eauto.
Qed.

Lemma run_frame_states s sts' :
  (forall q st, zone_states s !! q = Some st ->
     exists st', sts' !! q = Some st' /\
                 VirtualState.owner_ st' = VirtualState.owner_ st /\
                 length (VirtualState.info_ st')
                   = length (VirtualState.info_ st)) ->
  run_frame s (set_zone_states sts' s).
Proof.
  intros H. unfold run_frame. simpl.
  split; [done|]. split; [done|]. split; [by eauto|].
  split; [intros x nd' H1 H2; congruence|].
  split; [by eauto|]. split; [done|]. done.
Qed.

Lemma SetVirtualObject_run_frame this alias obj :
  post run_frame (SetVirtualObject this alias obj).
Proof.
  intros s r s' H. apply SetVirtualObject_Some in H as (st & Hst & Hlt & ->).
  apply run_frame_states. intros q st' Hq.
  destruct (decide (q = this)) as [->|Hne].
  - simplify_eq. eexists. split.
    { apply list_lookup_insert_eq. by eapply lookup_lt_Some. }
    simpl. by rewrite length_insert.
  - exists st'. by rewrite list_lookup_insert_ne.
Qed.

Lemma new_state_run_frame st : post run_frame (new_state st).
Proof.
  intros s r s' H. apply new_state_Some in H as [_ ->].
  apply run_frame_states. intros q st' Hq. exists st'.
  split; [by apply lookup_app_l_Some|done].
Qed.

#[global] Hint Resolve ReplaceValueInput_run_frame status_or_run_frame
  ResizeStatusVector_run_frame store_object_run_frame new_object_run_frame
  SetVirtualObject_run_frame new_state_run_frame : post.
#[global] Hint Extern 1 (post run_frame (NewNode _ _)) =>
  apply NewNode_run_frame; reflexivity : post.
#[global] Hint Extern 1 (post run_frame (status_clear _ _)) =>
  apply status_clear_run_frame; reflexivity : post.

Ltac frame_special :=
  match goal with
  | |- post run_frame (modify _) =>
      apply post_modify; intros ?; apply run_frame_same; reflexivity
  end.

Ltac frame_auto := repeat first [frame_special | post_step].

Lemma IsDanglingEffectNode_loop_run_frame node edges :
  post run_frame (IsDanglingEffectNode_loop node edges).
Proof. induction edges as [|e edges IH]; simpl; frame_auto. Qed.
#[global] Hint Resolve IsDanglingEffectNode_loop_run_frame : post.

Lemma IsEffectBranchPoint_loop_run_frame node edges count :
  post run_frame (IsEffectBranchPoint_loop node edges count).
Proof.
  revert count. induction edges as [|e edges IH]; intros count; simpl; frame_auto.
Qed.
#[global] Hint Resolve IsEffectBranchPoint_loop_run_frame : post.

Lemma EscapeAnalysis_Process_run_frame kPointerSize kPointerSizeLog2 node :
  post run_frame (EscapeAnalysis_Process kPointerSize kPointerSizeLog2 node).
Proof. unfold EscapeAnalysis_Process. frame_auto. Qed.
#[global] Hint Resolve EscapeAnalysis_Process_run_frame : post.

Lemma RunObjectAnalysis_loop_run_frame kPointerSize kPointerSizeLog2 fuel :
  forall queue,
    post run_frame
      (RunObjectAnalysis_loop kPointerSize kPointerSizeLog2 fuel queue).
Proof.
  induction fuel as [|fuel IH]; intros queue; simpl; [apply post_fail|].
  destruct queue as [|node queue]; frame_auto.
Qed.
#[global] Hint Resolve RunObjectAnalysis_loop_run_frame : post.

Lemma AssignAliases_loop_run_frame fuel : post run_frame (AssignAliases_loop fuel).
Proof. induction fuel as [|fuel IH]; simpl; frame_auto. Qed.
#[global] Hint Resolve AssignAliases_loop_run_frame : post.

Lemma IsAllocationPhi_loop_run_frame edges :
  post run_frame (IsAllocationPhi_loop edges).
Proof. induction edges as [|e edges IH]; simpl; frame_auto. Qed.
#[global] Hint Resolve IsAllocationPhi_loop_run_frame : post.

Lemma CheckUsesForEscape_loop_run_frame edges uses rep phi_escaping :
  post run_frame (CheckUsesForEscape_loop edges uses rep phi_escaping).
Proof. induction edges as [|e edges IH]; simpl; frame_auto. Qed.
#[global] Hint Resolve CheckUsesForEscape_loop_run_frame : post.

Lemma EscapeStatusAnalysis_Process_run_frame node :
  post run_frame (EscapeStatusAnalysis_Process node).
Proof. unfold EscapeStatusAnalysis_Process. frame_auto. Qed.
#[global] Hint Resolve EscapeStatusAnalysis_Process_run_frame : post.

Lemma RunStatusAnalysis_loop_run_frame fuel :
  post run_frame (RunStatusAnalysis_loop fuel).
Proof. induction fuel as [|fuel IH]; simpl; frame_auto. Qed.
#[global] Hint Resolve RunStatusAnalysis_loop_run_frame : post.

Lemma Run_run_frame kPointerSize kPointerSizeLog2 fuel :
  post run_frame (Run kPointerSize kPointerSizeLog2 fuel).
Proof. unfold Run. frame_auto. Qed.

(** X11.  A run of the analysis on a new [EscapeAnalysis] only appends to
    the graph: when [Run] returns, the graph has the start and the end it
    had, its nodes are the nodes it was given, with the operators and the
    inputs they had, followed by the nodes the run made, and every node the
    run made is a [Phi]. *)
Theorem Run_only_appends_phis kPointerSize kPointerSizeLog2 fuel g s' :
  Run kPointerSize kPointerSizeLog2 fuel (new_EscapeAnalysis g) = Some (tt, s') ->
  start (graph_ s') = start g /\
  end_ (graph_ s') = end_ g /\
  exists added,
    nodes (graph_ s') = nodes g ++ added /\
    Forall (fun nd => opcode (op nd) = kPhi) added.
Proof.
  intros H. pose proof (Run_nodes_kept _ _ _ _ _ H) as Hk.
  apply Run_run_frame in H as (H1 & H2 & _ & H4 & _). simpl in *.
  split; [done|]. split; [done|].
  exists (drop (length (nodes g)) (nodes (graph_ s'))).
  assert (take (length (nodes g)) (nodes (graph_ s')) = nodes g) as Htake.
  { apply list_eq. intros i. destruct (decide (i < length (nodes g))) as [Hi|Hi].
    - rewrite lookup_take_lt by done.
      destruct (lookup_lt_is_Some_2 _ _ Hi) as [nd Hnd].
      rewrite Hnd. by apply Hk.
    - rewrite lookup_take_ge by lia. symmetry. apply lookup_ge_None. lia. }
  split.
  - rewrite <- (take_drop (length (nodes g)) (nodes (graph_ s'))) at 1.
    by rewrite Htake.
  - apply Forall_lookup. intros i nd Hi. rewrite lookup_drop in Hi.
    eapply H4; [exact Hi|]. apply lookup_ge_None. lia.
Qed.

Lemma Run_only_appends_phis_witness :
  start (graph_ dynamic_size_run) = start dynamic_size_graph /\
  end_ (graph_ dynamic_size_run) = end_ dynamic_size_graph /\
  exists added,
    nodes (graph_ dynamic_size_run) = nodes dynamic_size_graph ++ added /\
    Forall (fun nd => opcode (op nd) = kPhi) added.
Proof.
  apply (Run_only_appends_phis 8 3 100 dynamic_size_graph).
  vm_compute. reflexivity.
Defined.

(** X12.  No step of the analysis takes back that a node is escaped or
    that it has an entry: through a step of the status fixed point, a step
    of the virtual-state fixed point or a whole run, from any state, a node
    that [IsEscaped] reports escaped is reported escaped afterwards and is
    not reported virtual, and a node with an entry keeps its entry. *)
Theorem escaped_is_never_cleared kPointerSize kPointerSizeLog2 fuel node
    (s s' : Analysis) (b : bool) :
  EscapeStatusAnalysis_Process node s = Some (tt, s') \/
  EscapeAnalysis_Process kPointerSize kPointerSizeLog2 node s = Some (b, s') \/
  Run kPointerSize kPointerSizeLog2 fuel s = Some (tt, s') ->
  forall m,
    (EscapeStatusAnalysis_IsEscaped m s = Some (true, s) ->
     EscapeStatusAnalysis_IsEscaped m s' = Some (true, s') /\
     EscapeStatusAnalysis_IsVirtual m s' = Some (false, s')) /\
    (HasEntry m s = Some (true, s) -> HasEntry m s' = Some (true, s')).
Proof.
  intros H m.
  assert (run_frame s s') as (_ & _ & _ & _ & Hfl & _).
  { destruct H as [H|[H|H]].
    - by eapply EscapeStatusAnalysis_Process_run_frame.
    - by eapply EscapeAnalysis_Process_run_frame.
    - by eapply Run_run_frame. }
  split.
  - intros He. apply IsEscaped_Some in He as (v & Hv & He & _).
    apply Hfl in Hv as (v' & Hv' & Hesc & _).
    split.
    + apply IsEscaped_Some. exists v'. by rewrite Hesc.
    + apply IsVirtual_Some. exists v'. rewrite Hesc by done.
      by rewrite andb_false_r.
  - intros He. apply HasEntry_Some in He as (v & Hv & He & _).
    apply Hfl in Hv as (v' & Hv' & Hesc & Htr).
    apply HasEntry_Some. exists v'. split; [done|]. split; [|done].
    rewrite has_flag_lor_mask in *.
    destruct (has_flag v kTracked) eqn:Et.
    + by rewrite Htr.
    + destruct (has_flag v kEscaped) eqn:Ee; [|done].
      rewrite Hesc by done. by rewrite orb_true_r.
Qed.

Definition second_run : Analysis :=
  Eval vm_compute in
    match Run 8 3 100 dynamic_size_run with
    | Some (_, s) => s
    | None => dynamic_size_run
    end.

Lemma escaped_is_never_cleared_witness :
  EscapeStatusAnalysis_IsEscaped 2 dynamic_size_run
    = Some (true, dynamic_size_run) /\
  EscapeStatusAnalysis_IsEscaped 2 second_run = Some (true, second_run) /\
  EscapeStatusAnalysis_IsVirtual 2 second_run = Some (false, second_run) /\
  HasEntry 2 second_run = Some (true, second_run).
Proof.
  destruct (escaped_is_never_cleared 8 3 100 0 dynamic_size_run second_run
              true) with (m := 2) as [Hesc Hentry].
  { right. right. vm_compute. reflexivity. }
  split; [reflexivity|].
  split; [apply Hesc; reflexivity|].
  split; [apply Hesc; reflexivity|].
  apply Hentry. reflexivity.
Defined.

(** X13.  The zone only grows: through a step of the virtual-state fixed
    point or a whole run, from any state, no object is taken from the zone,
    every [VirtualState] stays where it is, and a [VirtualState] keeps the
    owner and the number of slots it was made with. *)
Theorem zone_only_grows kPointerSize kPointerSizeLog2 fuel node
    (s s' : Analysis) (b : bool) :
  EscapeAnalysis_Process kPointerSize kPointerSizeLog2 node s = Some (b, s') \/
  Run kPointerSize kPointerSizeLog2 fuel s = Some (tt, s') ->
  length (zone_objects s) <= length (zone_objects s') /\
  length (zone_states s) <= length (zone_states s') /\
  forall q st, zone_states s !! q = Some st ->
    exists st', zone_states s' !! q = Some st' /\
                VirtualState.owner_ st' = VirtualState.owner_ st /\
                length (VirtualState.info_ st') = length (VirtualState.info_ st).
Proof.
  intros H.
  assert (run_frame s s') as (_ & _ & _ & _ & _ & Hob & Hst).
  { destruct H as [H|H].
    - by eapply EscapeAnalysis_Process_run_frame.
    - by eapply Run_run_frame. }
  split; [done|]. split; [|done].
  destruct (decide (length (zone_states s) <= length (zone_states s')))
    as [|Hlt]; [done|].
  destruct (lookup_lt_is_Some_2 (zone_states s) (length (zone_states s')))
    as [st Hq]; [lia|].
  apply Hst in Hq as (st' & Hq' & _). apply lookup_lt_Some in Hq'. lia.
Qed.

Lemma zone_only_grows_witness :
  length (zone_objects dynamic_size_run) <= length (zone_objects second_run) /\
  length (zone_states dynamic_size_run) <= length (zone_states second_run) /\
  forall q st, zone_states dynamic_size_run !! q = Some st ->
    exists st', zone_states second_run !! q = Some st' /\
                VirtualState.owner_ st' = VirtualState.owner_ st /\
                length (VirtualState.info_ st') = length (VirtualState.info_ st).
Proof.
  apply (zone_only_grows 8 3 100 0 dynamic_size_run second_run true).
  right. vm_compute. reflexivity.
Defined.

(** ** The aliases that [AssignAliases] gives *)

(** [x] is a [FinishRegion] whose first value input is the [Allocate] node
    [y]. *)
Definition is_finish_of (g : Graph) (x y : NodeId) : Prop :=
  exists nd, nodes g !! x = Some nd /\ opcode (op nd) = kFinishRegion /\
             inputs nd !! 0 = Some y /\ is_allocate g y.

(** [x] and [y] have the same alias, the alias of an object. *)
Definition same_object_alias (s : Analysis) (x y : NodeId) : Prop :=
  exists a, aliases_ s !! x = Some a /\ aliases_ s !! y = Some a /\
            (a < kUntrackable)%N.

(** What the loop of [AssignAliases] keeps beside [discovery]: it marks and
    stacks reachable nodes only, the stack of the status fixed point holds
    allocations, in the order of their aliases, and a node that is no
    allocation has the alias of an object only when it is the
    [FinishRegion] of the allocation with that alias. *)
Record numbering (g : Graph) (c : option NodeId) (s : Analysis) : Prop := {
  num_marked : forall x, marked s x -> reachable g x;
  num_waiting : forall x, waiting c s x -> reachable g x;
  num_members : forall x, x ∈ status_stack_ s -> is_allocate g x;
  num_alias : forall i x,
    reverse (status_stack_ s) !! i = Some x ->
    aliases_ s !! x = Some (N.of_nat i);
  num_shared : forall x a,
    aliases_ s !! x = Some a -> (a < kUntrackable)%N -> ~ is_allocate g x ->
    exists y, is_finish_of g x y /\ aliases_ s !! y = Some a;
  num_finish : forall x y,
    marked s x -> ~ waiting c s x -> is_finish_of g x y ->
    same_object_alias s x y;
  num_range : forall x a, aliases_ s !! x = Some a -> (a <= kNotReachable)%N
}.

(** The alias of an object, once given, stays. *)
Definition alias_stable (s s' : Analysis) : Prop :=
  forall x a, aliases_ s !! x = Some a -> (a < kUntrackable)%N ->
              aliases_ s' !! x = Some a.

Lemma alias_stable_refl s : alias_stable s s.
Proof. by intros x a H. Qed.

Lemma alias_stable_trans s1 s2 s3 :
  alias_stable s1 s2 -> alias_stable s2 s3 -> alias_stable s1 s3.
Proof. intros H12 H23 x a H Hlt. apply H23; [by apply H12|done]. Qed.

Lemma alias_stable_same_object s s' x y :
  alias_stable s s' -> same_object_alias s x y -> same_object_alias s' x y.
Proof. intros Hst (a & Hx & Hy & Hlt). exists a. by auto. Qed.

Lemma is_finish_of_unique g x y y' :
  is_finish_of g x y -> is_finish_of g x y' -> y' = y.
Proof. intros (nd & ? & _ & ? & _) (nd' & ? & _ & ? & _). congruence. Qed.

Lemma is_finish_of_not_allocate g x y : is_finish_of g x y -> ~ is_allocate g x.
Proof. intros (nd & ? & ? & _) (nd' & ? & ?). simplify_eq. congruence. Qed.

Lemma numbering_push g c s y :
  numbering g c s -> reachable g y ->
  numbering g c (set_stack (y :: stack_ s) s).
Proof.
  intros [N1 N2 N3 N4 N5 N6 N7] Hy. constructor; try done.
  - intros x [?|Hx]; [apply N2; by left|].
    simpl in Hx. apply elem_of_cons in Hx as [->|Hx]; [done|].
    apply N2. by right.
  - intros x z Hx Hnw. apply N6; [done|].
    intros [?|?]; apply Hnw; [by left|right]. simpl.
    by apply list_elem_of_further.
Qed.

Lemma numbering_mark g c s y :
  discovery g c s -> numbering g c s ->
  aliases_ s !! y = Some kNotReachable -> reachable g y ->
  let s' := set_aliases (<[y := kUntrackable]> (aliases_ s))
                        (set_stack (y :: stack_ s) s) in
  numbering g c s' /\ alias_stable s s'.
Proof.
  intros D [N1 N2 N3 N4 N5 N6 N7] Hy Hreach s'.
  assert (forall x, x <> y -> aliases_ s' !! x = aliases_ s !! x) as Hother.
  { intros x Hne. simpl. by rewrite list_lookup_insert_ne. }
  assert (aliases_ s' !! y = Some kUntrackable) as Hy'.
  { simpl. apply list_lookup_insert_eq. by eapply lookup_lt_Some. }
  assert (forall x a, aliases_ s !! x = Some a -> (a < kUntrackable)%N -> x <> y)
    as Hobj.
  { intros x a Hx Hlt ->. simplify_eq.
    unfold kNotReachable, kUntrackable, Alias_max in Hlt. lia. }
  assert (forall x a, aliases_ s' !! x = Some a -> (a < kUntrackable)%N ->
                      aliases_ s !! x = Some a) as Hback.
  { intros x a Hx Hlt. destruct (decide (x = y)) as [->|Hne].
    - rewrite Hy' in Hx. simplify_eq. lia.
    - by rewrite <- Hother. }
  assert (alias_stable s s') as Hst.
  { intros x a Hx Hlt. rewrite Hother; [done|by eapply Hobj]. }
  split; [|done]. constructor.
  - intros x (a & Ha & Hne). destruct (decide (x = y)) as [->|Hxy]; [done|].
    apply N1. exists a. by rewrite <- Hother.
  - intros x [?|Hx]; [apply N2; by left|].
    simpl in Hx. apply elem_of_cons in Hx as [->|Hx]; [done|].
    apply N2. by right.
  - done.
  - intros i x Hx. simpl in Hx. apply Hst; [by apply N4|].
    destruct (disc_status_stack _ _ _ D x) as (a & Ha & Hlt).
    { apply elem_of_reverse. by eapply list_elem_of_lookup_2. }
    pose proof (N4 i x Hx) as Ha'. by simplify_eq.
  - intros x a Hx Hlt Hnot. apply Hback in Hx; [|done].
    destruct (N5 x a Hx Hlt Hnot) as (z & Hz & Hza). exists z. by auto.
  - intros x z (a & Ha & Hne) Hnw Hfin.
    assert (x <> y) as Hxy.
    { intros ->. apply Hnw. right. simpl. apply list_elem_of_here. }
    eapply alias_stable_same_object; [exact Hst|]. apply N6; [| |done].
    + exists a. by rewrite <- Hother.
    + intros [?|?]; apply Hnw; [by left|right]. simpl.
      by apply list_elem_of_further.
  - intros x a Hx. destruct (decide (x = y)) as [->|Hne].
    + rewrite Hy' in Hx. simplify_eq.
      unfold kNotReachable, kUntrackable, Alias_max. lia.
    + rewrite Hother in Hx by done. by eapply N7.
Qed.

Lemma numbering_assign g c s x a v :
  discovery g c s -> numbering g c s ->
  aliases_ s !! x = Some a -> (kUntrackable <= a)%N -> waiting c s x ->
  is_allocate g x -> status_ s !! x = Some v ->
  let s' :=
    set_status (<[x := set_flag v kOnStack]> (status_ s))
      (set_status_stack (x :: status_stack_ s)
         (set_aliases (<[x := next_free_alias_ s]> (aliases_ s))
            (set_next_free_alias
               ((next_free_alias_ s + 1) mod (Alias_max + 1))%N s))) in
  numbering g c s' /\ alias_stable s s'.
Proof.
  intros D [N1 N2 N3 N4 N5 N6 N7] Hx Hle Hwx Hal Hv s'.
  assert (x ∉ status_stack_ s) as Hnin.
  { intros Hin. destruct (disc_status_stack _ _ _ D x Hin) as (b & Hb & Hlt).
    simplify_eq. lia. }
  assert (x < length (nodes g)) as Hxn.
  { rewrite <- (disc_aliases _ _ _ D). by eapply lookup_lt_Some. }
  destruct (discovery_fresh g c s x D Hnin Hxn) as [Hfresh _].
  assert (aliases_ s' !! x = Some (next_free_alias_ s)) as Hx'.
  { simpl. apply list_lookup_insert_eq. by eapply lookup_lt_Some. }
  assert (forall z, z <> x -> aliases_ s' !! z = aliases_ s !! z) as Hother.
  { intros z Hne. simpl. by rewrite list_lookup_insert_ne. }
  assert (forall z b, aliases_ s !! z = Some b -> (b < kUntrackable)%N -> z <> x)
    as Hobj.
  { intros z b Hz Hlt ->. simplify_eq. lia. }
  assert (alias_stable s s') as Hst.
  { intros z b Hz Hlt. rewrite Hother; [done|by eapply Hobj]. }
  split; [|done]. constructor.
  - intros z (b & Hb & Hne). destruct (decide (z = x)) as [->|Hzx].
    + by apply N2.
    + apply N1. exists b. by rewrite <- Hother.
  - done.
  - intros z Hz. simpl in Hz. apply elem_of_cons in Hz as [->|Hz]; auto.
  - intros i z Hz. simpl in Hz. rewrite reverse_cons in Hz.
    apply lookup_app_Some in Hz as [Hz|[Hlen Hz]].
    + apply Hst; [by apply N4|].
      destruct (disc_status_stack _ _ _ D z) as (b & Hb & Hlt).
      { apply elem_of_reverse. by eapply list_elem_of_lookup_2. }
      pose proof (N4 i z Hz) as Hb'. by simplify_eq.
    + apply list_lookup_singleton_Some in Hz as [Hi ->].
      rewrite length_reverse in Hlen, Hi. rewrite Hx'. f_equal.
      rewrite (disc_next _ _ _ D). lia.
  - intros z b Hz Hlt Hnot.
    assert (z <> x) as Hzx by (intros ->; done).
    rewrite Hother in Hz by done.
    destruct (N5 z b Hz Hlt Hnot) as (y & Hy & Hya). exists y. by auto.
  - intros z y (b & Hb & Hne) Hnw Hfin.
    assert (z <> x) as Hzx by (intros ->; done).
    eapply alias_stable_same_object; [exact Hst|]. apply N6; [|done|done].
    exists b. by rewrite <- Hother.
  - intros z b Hz. destruct (decide (z = x)) as [->|Hne].
    + rewrite Hx' in Hz. simplify_eq.
      unfold kNotReachable, kUntrackable, Alias_max in *. lia.
    + rewrite Hother in Hz by done. by eapply N7.
Qed.

Lemma assign_alias_numbering g c x s s' a :
  discovery g c s -> numbering g c s ->
  aliases_ s !! x = Some a -> (kUntrackable <= a)%N -> waiting c s x ->
  is_allocate g x ->
  (let* fresh := NextAlias in
   set_alias_at x fresh;; EnqueueForStatusAnalysis x) s = Some (tt, s') ->
  numbering g c s' /\ alias_stable s s'.
Proof.
  intros D Nm Hx Hle Hwx Hal H.
  apply bind_Some in H as (fresh & s1 & Hnext & H).
  unfold NextAlias in Hnext. minv Hnext.
  apply bind_Some in H as ([] & s2 & Hset & H).
  unfold set_alias_at in Hset. minv Hset. case_decide; [|done]. minv Hset.
  unfold EnqueueForStatusAnalysis in H.
  apply bind_Some in H as (v & s3 & Hv & H).
  apply status_at_Some in Hv as [Hv ->]. simpl in Hv.
  destruct (has_flag v kOnStack) eqn:Hon; simpl in H.
  - exfalso. pose proof (disc_on_stack _ _ _ D x v Hv Hon) as Hin.
    destruct (disc_status_stack _ _ _ D x Hin) as (b & Hb & Hlt).
    simplify_eq. lia.
  - apply bind_Some in H as ([] & s4 & Hpush & H).
    unfold status_stack_push in Hpush. minv Hpush.
    apply status_or_Some in H as (v' & Hv' & ->). simpl in Hv'. simplify_eq.
    by apply (numbering_assign g c s x a v).
Qed.

(** The alias of the node in hand, the [FinishRegion] of [y], is set to
    the alias of [y]. *)
Lemma numbering_set_alias g node s y a :
  numbering g (Some node) s -> is_finish_of g node y ->
  node < length (aliases_ s) -> aliases_ s !! y = Some a ->
  (a < kUntrackable)%N ->
  let s' := set_aliases (<[node := a]> (aliases_ s)) s in
  numbering g (Some node) s' /\ alias_stable s s' /\
  same_object_alias s' node y.
Proof.
  intros [N1 N2 N3 N4 N5 N6 N7] Hfin Hlen Hy Hlt s'.
  pose proof (is_finish_of_not_allocate _ _ _ Hfin) as Hnot.
  assert (is_allocate g y) as Haly by (by destruct Hfin as (? & _ & _ & _ & ?)).
  assert (y <> node) as Hyn by (intros ->; done).
  assert (forall z, z <> node -> aliases_ s' !! z = aliases_ s !! z) as Hother.
  { intros z Hne. simpl. by rewrite list_lookup_insert_ne. }
  assert (aliases_ s' !! node = Some a) as Hnode.
  { simpl. by apply list_lookup_insert_eq. }
  assert (alias_stable s s') as Hst.
  { intros z b Hz Hltb. destruct (decide (z = node)) as [->|Hne].
    - destruct (N5 node b Hz Hltb Hnot) as (y' & Hfin' & Hy').
      rewrite (is_finish_of_unique _ _ _ _ Hfin Hfin') in Hy'.
      rewrite Hnode. congruence.
    - by rewrite Hother. }
  split; [|split; [done|]].
  2:{ exists a. split; [done|]. split; [by rewrite Hother|done]. }
  constructor.
  - intros z (b & Hb & Hne). destruct (decide (z = node)) as [->|Hzn].
    + apply N2. by left.
    + apply N1. exists b. by rewrite <- Hother.
  - done.
  - done.
  - intros i z Hz. simpl in Hz.
    assert (z <> node) as Hzn.
    { intros ->. apply Hnot, N3, elem_of_reverse.
      by eapply list_elem_of_lookup_2. }
    rewrite Hother by done. by apply N4.
  - intros z b Hz Hltb Hnotz. destruct (decide (z = node)) as [->|Hzn].
    + rewrite Hnode in Hz. simplify_eq. exists y.
      split; [done|]. by rewrite Hother.
    + rewrite Hother in Hz by done.
      destruct (N5 z b Hz Hltb Hnotz) as (y' & Hfin' & Hy').
      exists y'. split; [done|]. by apply Hst.
  - intros z y' (b & Hb & Hne) Hnw Hfin'.
    assert (z <> node) as Hzn by (intros ->; apply Hnw; by left).
    eapply alias_stable_same_object; [exact Hst|]. apply N6; [|done|done].
    exists b. by rewrite <- Hother.
  - intros z b Hz. destruct (decide (z = node)) as [->|Hne].
    + rewrite Hnode in Hz. simplify_eq.
      unfold kNotReachable, kUntrackable, Alias_max in *. lia.
    + rewrite Hother in Hz by done. by eapply N7.
Qed.

Lemma numbering_take g s node rest :
  numbering g None s -> stack_ s = node :: rest ->
  numbering g (Some node) (set_stack rest s).
Proof.
  intros [N1 N2 N3 N4 N5 N6 N7] Hstk.
  assert (forall x, waiting None s x <-> waiting (Some node) (set_stack rest s) x)
    as Hw.
  { intros x. unfold waiting. simpl. rewrite Hstk, elem_of_cons.
    split; [intros [?|[->|?]]|intros [?|?]]; simplify_eq; auto. }
  constructor; try done.
  - intros x Hx. apply N2. by apply Hw.
  - intros x y Hx Hnw. apply N6; [done|]. by rewrite Hw.
Qed.

Lemma numbering_release g node s :
  numbering g (Some node) s ->
  (forall y, is_finish_of g node y -> same_object_alias s node y) ->
  numbering g None s.
Proof.
  intros [N1 N2 N3 N4 N5 N6 N7] Hnode. constructor; try done.
  - intros x Hx. apply N2. destruct Hx as [?|?]; [done|by right].
  - intros x y Hx Hnw Hfin. destruct (decide (x = node)) as [->|Hne].
    + by apply Hnode.
    + apply N6; [done| |done]. intros [?|?]; [by simplify_eq|].
      apply Hnw. by right.
Qed.

(** The [switch] of the loop keeps the numbering, and a [FinishRegion] in
    hand leaves it with the alias of its allocation. *)
Lemma AssignAliases_visit_numbering g node s s' :
  discovery g (Some node) s -> numbering g (Some node) s ->
  AssignAliases_visit node s = Some (tt, s') ->
  numbering g (Some node) s' /\ alias_stable s s' /\
  forall y, is_finish_of g node y -> same_object_alias s' node y.
Proof.
  intros D Nm H. unfold AssignAliases_visit in H.
  apply bind_Some in H as (oc & s0 & Hoc & H).
  apply get_opcode_Some in Hoc as (nd & Hnd & -> & ->).
  rewrite (disc_graph _ _ _ D) in Hnd.
  assert (forall nd', nodes g !! node = Some nd' -> nd' = nd) as Huniq
    by (intros; congruence).
  destruct (opcode (op nd)) eqn:Hopc.
  all: try (minv H; split; [done|]; split; [apply alias_stable_refl|];
            intros y (nd' & Hnd' & Hoc' & _); apply Huniq in Hnd'; congruence).
  - (* kFinishRegion *)
    apply bind_Some in H as (allocate & s0 & Hin & H).
    apply InputAt_Some in Hin as (nd0 & Hnd0 & Hin & ->).
    rewrite (disc_graph _ _ _ D) in Hnd0. apply Huniq in Hnd0 as ->.
    apply bind_Some in H as (aoc & s0 & Haoc & H).
    apply get_opcode_Some in Haoc as (and & Hand & -> & ->).
    rewrite (disc_graph _ _ _ D) in Hand.
    destruct (decide (opcode (op and) = kAllocate)) as [Hal|Hal].
    2:{ minv H. split; [done|]. split; [apply alias_stable_refl|].
        intros y (nd' & Hnd' & _ & Hin' & nd'' & Hy & Hoc').
        apply Huniq in Hnd' as ->. congruence. }
    assert (is_allocate g allocate) as Hallocate by (by exists and).
    assert (is_finish_of g node allocate) as Hfin by (by exists nd).
    assert (reachable g allocate) as Hreach.
    { eapply reachable_input; [|exact Hnd|by eapply list_elem_of_lookup_2].
      apply (num_waiting _ _ _ Nm). by left. }
    apply bind_Some in H as (a & s0 & Ha & H).
    apply alias_at_Some in Ha as [Ha ->].
    apply bind_Some in H as ([] & s1 & Hassign & H).
    assert (discovery g (Some node) s1 /\ numbering g (Some node) s1 /\
            alias_stable s s1 /\
            exists a1, aliases_ s1 !! allocate = Some a1 /\
                       (a1 < kUntrackable)%N)
      as (D1 & N1 & Hst1 & a1 & Ha1 & Hlt1).
    { destruct (decide (kUntrackable <= a)%N) as [Hle|Hlt].
      - apply bind_Some in Hassign as ([] & s2 & Hpush & Hassign).
        assert (discovery g (Some node) s2 /\ numbering g (Some node) s2 /\
                aliases_ s2 = aliases_ s /\
                waiting (Some node) s2 allocate) as (D2 & N2 & Hal2 & Hw2).
        { destruct (decide (a = kNotReachable)) as [Hnr|Hnr].
          - apply stack_push_Some in Hpush as ->.
            split; [by apply discovery_push|].
            split; [by apply numbering_push|]. split; [done|].
            right. simpl. apply list_elem_of_here.
          - minv Hpush. split; [done|]. split; [done|]. split; [done|].
            by eapply (disc_untrackable _ _ _ D). }
        pose proof Hassign as Hassign'.
        eapply assign_alias_discovery in Hassign as (D' & _ & _ & Ha');
          [|exact D2|by rewrite Hal2|done|done].
        eapply assign_alias_numbering in Hassign' as (N' & Hst');
          [|exact D2|exact N2|by rewrite Hal2|done|done|done].
        split; [done|]. split; [done|]. split; [|done].
        intros z b Hz. apply Hst'. by rewrite Hal2.
      - minv Hassign. split; [done|]. split; [done|].
        split; [apply alias_stable_refl|].
        exists a. split; [done|lia]. }
    apply bind_Some in H as (a' & s2 & Ha' & H).
    apply alias_at_Some in Ha' as [Ha' ->].
    rewrite Ha1 in Ha'. injection Ha' as <-.
    apply set_alias_at_Some in H as [Hlen ->].
    destruct (numbering_set_alias g node s1 allocate a1 N1 Hfin Hlen Ha1 Hlt1)
      as (N' & Hst' & Hsame).
    split; [exact N'|]. split.
    + eapply alias_stable_trans; [exact Hst1|exact Hst'].
    + intros y Hy. by rewrite (is_finish_of_unique _ _ _ _ Hfin Hy).
  - (* kAllocate *)
    assert (is_allocate g node) as Hallocate by (by exists nd).
    assert (forall y, is_finish_of g node y -> same_object_alias s' node y)
      as Hno.
    { intros y Hy. by apply is_finish_of_not_allocate in Hy. }
    apply bind_Some in H as (a & s0 & Ha & H).
    apply alias_at_Some in Ha as [Ha ->].
    destruct (decide (kUntrackable <= a)%N) as [Hle|Hlt].
    + eapply assign_alias_numbering in H as (N' & Hst');
        [|exact D|exact Nm|exact Ha|done|by left|done].
      done.
    + minv H. split; [done|]. split; [apply alias_stable_refl|done].
Qed.

Lemma AssignAliases_inputs_numbering g node s s' :
  discovery g (Some node) s -> numbering g (Some node) s ->
  AssignAliases_inputs node s = Some (tt, s') ->
  numbering g (Some node) s' /\ alias_stable s s'.
Proof.
  intros D Nm H. unfold AssignAliases_inputs in H.
  apply bind_Some in H as (edges & s0 & Hedges & H).
  apply input_edges_Some in Hedges as (nd & Hnd & -> & ->).
  rewrite (disc_graph _ _ _ D) in Hnd.
  assert (reachable g node) as Hnode.
  { apply (num_waiting _ _ _ Nm). by left. }
  assert (forall e, e ∈ edges_of node nd -> reachable g (to e)) as Hto.
  { intros e He. eapply reachable_input; [exact Hnode|exact Hnd|].
    by eapply to_edges_of. }
  unfold forM_ in H. revert Hto H. generalize (edges_of node nd).
  intros edges Hto H. revert s D Nm H.
  induction edges as [|e edges IH]; intros s D Nm H; simpl in H.
  { minv H. split; [done|apply alias_stable_refl]. }
  apply bind_Some in H as ([] & s1 & He & H).
  assert (discovery g (Some node) s1 /\ numbering g (Some node) s1 /\
          alias_stable s s1) as (D1 & N1 & Hst1).
  { apply bind_Some in He as (a & s3 & Ha & He).
    apply alias_at_Some in Ha as [Ha ->].
    destruct (decide (a = kNotReachable)) as [->|Hne].
    - apply bind_Some in He as ([] & s3 & Hpush & He).
      apply stack_push_Some in Hpush as ->.
      apply set_alias_at_Some in He as [Hlen ->]. simpl in Hlen.
      destruct (discovery_mark g (Some node) s (to e) D Ha) as [D2 _].
      destruct (numbering_mark g (Some node) s (to e) D Nm Ha) as [N2 Hst2].
      { apply Hto, list_elem_of_here. }
      done.
    - minv He. split; [done|]. split; [done|apply alias_stable_refl]. }
  destruct (IH ltac:(intros; by apply Hto, list_elem_of_further) s1 D1 N1 H)
    as [N' Hst'].
  split; [done|]. eapply alias_stable_trans; [exact Hst1|exact Hst'].
Qed.

(** The loop of [AssignAliases] keeps the numbering. *)
Lemma AssignAliases_loop_numbering g fuel :
  forall s s',
    discovery g None s -> numbering g None s ->
    AssignAliases_loop fuel s = Some (tt, s') ->
    numbering g None s'.
Proof.
  induction fuel as [|fuel IH]; intros s s' D Nm H; simpl in H; [done|].
  apply bind_Some in H as (stk & s0 & Hstk & H).
  apply gets_Some in Hstk as [-> ->].
  destruct (stack_ s) as [|node rest] eqn:Hstack.
  { minv H. done. }
  apply bind_Some in H as ([] & s1 & Hpop & H). apply modify_Some in Hpop.
  apply bind_Some in H as ([] & s2 & Hvisit & H).
  apply bind_Some in H as ([] & s3 & Hinputs & H).
  assert (discovery g (Some node) s1) as D1
    by (subst s1; by apply discovery_take).
  assert (numbering g (Some node) s1) as N1
    by (subst s1; by apply numbering_take).
  destruct (AssignAliases_visit_discovery g node s1 s2 D1 Hvisit)
    as (D2 & Hm12 & Halloc).
  destruct (AssignAliases_visit_numbering g node s1 s2 D1 N1 Hvisit)
    as (N2 & _ & Hfin).
  destruct (AssignAliases_inputs_discovery g node s2 s3 D2 Hinputs)
    as (D3 & Hm23 & Hmarked).
  destruct (AssignAliases_inputs_numbering g node s2 s3 D2 N2 Hinputs)
    as (N3 & Hst23).
  eapply IH; [| |exact H].
  - eapply discovery_release; [exact D3| |exact Hmarked].
    intros Hal. destruct (Halloc Hal) as (a & Ha & Hlt).
    destruct (Hm23 node a Ha) as (a' & Ha' & _ & Hlt'). eauto.
  - eapply numbering_release; [exact N3|].
    intros y Hy. eapply alias_stable_same_object; [exact Hst23|by apply Hfin].
Qed.

(** The state in which [AssignAliases] enters its loop, when it is started
    on the tables of a new analysis. *)
Lemma AssignAliases_start fuel s s' :
  stack_ s = [] -> aliases_ s = [] ->
  AssignAliases fuel s = Some (tt, s') ->
  exists s0,
    AssignAliases_loop fuel s0 = Some (tt, s') /\
    graph_ s0 = graph_ s /\
    (N.of_nat (length (nodes (graph_ s))) < kUntrackable)%N /\
    end_ (graph_ s) < length (nodes (graph_ s)) /\
    stack_ s0 = [end_ (graph_ s)] /\
    aliases_ s0 = <[end_ (graph_ s) := kUntrackable]>
                    (replicate (length (nodes (graph_ s))) kNotReachable) /\
    status_stack_ s0 = status_stack_ s /\
    next_free_alias_ s0 = next_free_alias_ s /\
    ((forall x v, status_ s !! x = Some v -> has_flag v kOnStack = false) ->
     forall x v, status_ s0 !! x = Some v -> has_flag v kOnStack = false).
Proof.
  intros Hstk Hal H. unfold AssignAliases in H.
  apply bind_Some in H as ([] & s1 & Hresize & H).
  apply ResizeStatusVector_Some in Hresize
    as (Hg1 & Hstk1 & Hsstk1 & Hal1 & Hnext1 & Hst1).
  apply bind_Some in H as (g & s0 & Hg & H). apply gets_Some in Hg as [-> ->].
  apply bind_Some in H as ([] & s2 & Hpush & H).
  apply stack_push_Some in Hpush as ->.
  apply bind_Some in H as (n & s0 & Hn & H).
  unfold NodeCount in Hn. minv Hn. simpl in H.
  destruct (decide (N.of_nat (length (nodes (graph_ s1))) < kUntrackable)%N)
    as [Hcount|]; [|done].
  apply bind_Some in H as (al & s0 & Hal' & H).
  apply gets_Some in Hal' as [-> ->]. simpl in H.
  apply bind_Some in H as ([] & s3 & Hres & H). apply modify_Some in Hres.
  apply bind_Some in H as ([] & s4 & Hend & H).
  apply set_alias_at_Some in Hend as [Hlen ->].
  rewrite Hal1, Hal in Hres. unfold VirtualObject.resize in Hres.
  rewrite take_nil, Nat.sub_0_r in Hres. simpl in Hres.
  rewrite Hstk1, Hstk in Hres.
  subst s3. simpl in *. rewrite length_replicate in Hlen.
  eexists. split; [exact H|]. simpl. rewrite <- Hg1.
  do 7 (split; [done|]). intros Hstatus x v Hv.
  destruct Hst1 as [Hst1|[k Hst1]]; rewrite Hst1 in Hv.
  - by eapply Hstatus.
  - unfold VirtualObject.resize in Hv.
    apply lookup_app_Some in Hv as [Hv|(_ & Hv)].
    + apply lookup_take_Some in Hv as [Hv _]. by eapply Hstatus.
    + apply lookup_replicate in Hv as [-> _]. done.
Qed.

Lemma numbering_start g s :
  graph_ s = g -> stack_ s = [end_ g] -> status_stack_ s = [] ->
  aliases_ s = <[end_ g := kUntrackable]>
                 (replicate (length (nodes g)) kNotReachable) ->
  numbering g None s.
Proof.
  intros Hg Hstk Hsstk Hal.
  assert (forall x a, aliases_ s !! x = Some a -> a <> kNotReachable ->
                      x = end_ g /\ a = kUntrackable) as Honly.
  { intros x a Hx Hne. rewrite Hal in Hx.
    destruct (decide (x = end_ g)) as [->|Hxe].
    - apply list_lookup_insert_Some in Hx as [(_ & <- & _)|[? _]]; done.
    - rewrite list_lookup_insert_ne in Hx by done.
      apply lookup_replicate in Hx as [-> _]. done. }
  constructor.
  - intros x (a & Ha & Hne). apply Honly in Ha as [-> _]; [|done].
    apply reachable_end.
  - intros x [?|Hx]; [done|]. rewrite Hstk in Hx.
    apply list_elem_of_singleton in Hx as ->. apply reachable_end.
  - rewrite Hsstk. intros x Hx. by apply elem_of_nil in Hx.
  - rewrite Hsstk. intros i x Hx. done.
  - intros x a Hx Hlt _. apply Honly in Hx as [_ ->].
    + lia.
    + unfold kNotReachable, kUntrackable, Alias_max in *. lia.
  - intros x y (a & Ha & Hne) Hnw _. apply Honly in Ha as [-> _]; [|done].
    exfalso. apply Hnw. right. rewrite Hstk. apply list_elem_of_here.
  - intros x a Hx. destruct (decide (a = kNotReachable)) as [->|Hne]; [done|].
    apply Honly in Hx as [_ ->]; [|done].
    unfold kNotReachable, kUntrackable, Alias_max. lia.
Qed.

Lemma discovery_start g s :
  graph_ s = g -> (N.of_nat (length (nodes g)) < kUntrackable)%N ->
  end_ g < length (nodes g) ->
  stack_ s = [end_ g] -> status_stack_ s = [] ->
  aliases_ s = <[end_ g := kUntrackable]>
                 (replicate (length (nodes g)) kNotReachable) ->
  next_free_alias_ s = 0%N ->
  (forall x v, status_ s !! x = Some v -> has_flag v kOnStack = false) ->
  discovery g None s.
Proof.
  intros Hg Hcount Hlen Hstk Hsstk Hal Hnext Hstatus.
  set (n := length (nodes g)) in *. set (e := end_ g) in *.
  assert (forall x a, aliases_ s !! x = Some a -> a <> kNotReachable -> x = e)
    as Honly.
  { intros x a Hx Hne. rewrite Hal in Hx.
    destruct (decide (x = e)) as [|Hxe]; [done|].
    rewrite list_lookup_insert_ne in Hx by done.
    apply lookup_replicate in Hx as [-> _]. done. }
  assert (aliases_ s !! e = Some kUntrackable) as Hend.
  { rewrite Hal. apply list_lookup_insert_eq. by rewrite length_replicate. }
  constructor.
  - done.
  - done.
  - by rewrite Hal, length_insert, length_replicate.
  - by exists kUntrackable.
  - intros x nd i (a & Ha & Hne) Hnw. apply Honly in Ha as ->; [|done].
    exfalso. apply Hnw. right. rewrite Hstk. apply list_elem_of_here.
  - intros x a _ Ha Hne _. apply Honly in Ha as ->; [|done].
    right. rewrite Hstk. apply list_elem_of_here.
  - intros x a _ Ha Hlt.
    assert (x = e) as ->.
    { eapply Honly; [done|]. unfold kNotReachable, kUntrackable in *. lia. }
    rewrite Hend in Ha. simplify_eq. lia.
  - rewrite Hsstk. intros x Hx. by apply elem_of_nil in Hx.
  - intros x v Hv Hon. exfalso.
    assert (has_flag v kOnStack = false) as Hoff; [|congruence].
    by eapply Hstatus.
  - rewrite Hsstk. apply NoDup_nil_2.
  - by rewrite Hsstk, Hnext.
Qed.

(** The traversal, started on the tables of a new analysis, ends with
    both invariants and an empty stack. *)
Lemma AssignAliases_numbering fuel s s' :
  stack_ s = [] -> status_stack_ s = [] -> aliases_ s = [] ->
  next_free_alias_ s = 0%N ->
  (forall x v, status_ s !! x = Some v -> has_flag v kOnStack = false) ->
  AssignAliases fuel s = Some (tt, s') ->
  discovery (graph_ s) None s' /\ numbering (graph_ s) None s' /\
  stack_ s' = [].
Proof.
  intros Hstk Hsstk Hal Hnext Hstatus H.
  apply AssignAliases_start in H
    as (s0 & H & Hg & Hcount & Hend & Hstk0 & Hal0 & Hsstk0 & Hnext0 & Hst0);
    [|done|done].
  rewrite Hsstk in Hsstk0. rewrite Hnext in Hnext0.
  assert (discovery (graph_ s) None s0) as D0
    by (apply discovery_start; try done; by apply Hst0).
  assert (numbering (graph_ s) None s0) as N0
    by (by apply numbering_start).
  destruct (AssignAliases_loop_discovery _ _ _ _ D0 H) as [D' Hstk'].
  split; [done|]. split; [|done].
  eapply AssignAliases_loop_numbering; [exact D0|exact N0|exact H].
Qed.

(** The two fixed points leave the aliases and their counter alone. *)
Definition alias_frame : relation Analysis :=
  fun s s' =>
    aliases_ s' = aliases_ s /\ next_free_alias_ s' = next_free_alias_ s.

#[global] Instance alias_frame_refl : Reflexive alias_frame.
Proof. by intros s. Qed.
#[global] Instance alias_frame_trans : Transitive alias_frame.
Proof. intros s1 s2 s3 [A1 A2] [B1 B2]. split; congruence. Qed.

Ltac alias_special :=
  match goal with
  | |- post alias_frame (modify _) =>
      apply post_modify; intros ?; split; reflexivity
  end.

Ltac alias_auto := repeat first [alias_special | post_step].

Lemma IsDanglingEffectNode_loop_alias_frame node edges :
  post alias_frame (IsDanglingEffectNode_loop node edges).
Proof. induction edges as [|e edges IH]; simpl; alias_auto. Qed.
#[global] Hint Resolve IsDanglingEffectNode_loop_alias_frame : post.

Lemma IsEffectBranchPoint_loop_alias_frame node edges count :
  post alias_frame (IsEffectBranchPoint_loop node edges count).
Proof.
  revert count. induction edges as [|e edges IH]; intros count; simpl; alias_auto.
Qed.
#[global] Hint Resolve IsEffectBranchPoint_loop_alias_frame : post.

Lemma EscapeAnalysis_Process_alias_frame kPointerSize kPointerSizeLog2 node :
  post alias_frame (EscapeAnalysis_Process kPointerSize kPointerSizeLog2 node).
Proof. unfold EscapeAnalysis_Process. alias_auto. Qed.
#[global] Hint Resolve EscapeAnalysis_Process_alias_frame : post.

Lemma RunObjectAnalysis_loop_alias_frame kPointerSize kPointerSizeLog2 fuel :
  forall queue,
    post alias_frame
      (RunObjectAnalysis_loop kPointerSize kPointerSizeLog2 fuel queue).
Proof.
  induction fuel as [|fuel IH]; intros queue; simpl; [apply post_fail|].
  destruct queue as [|node queue]; alias_auto.
Qed.
#[global] Hint Resolve RunObjectAnalysis_loop_alias_frame : post.

Lemma IsAllocationPhi_loop_alias_frame edges :
  post alias_frame (IsAllocationPhi_loop edges).
Proof. induction edges as [|e edges IH]; simpl; alias_auto. Qed.
#[global] Hint Resolve IsAllocationPhi_loop_alias_frame : post.

Lemma CheckUsesForEscape_loop_alias_frame edges uses rep phi_escaping :
  post alias_frame (CheckUsesForEscape_loop edges uses rep phi_escaping).
Proof. induction edges as [|e edges IH]; simpl; alias_auto. Qed.
#[global] Hint Resolve CheckUsesForEscape_loop_alias_frame : post.

Lemma EscapeStatusAnalysis_Process_alias_frame node :
  post alias_frame (EscapeStatusAnalysis_Process node).
Proof. unfold EscapeStatusAnalysis_Process. alias_auto. Qed.
#[global] Hint Resolve EscapeStatusAnalysis_Process_alias_frame : post.

Lemma RunStatusAnalysis_loop_alias_frame fuel :
  post alias_frame (RunStatusAnalysis_loop fuel).
Proof. induction fuel as [|fuel IH]; simpl; alias_auto. Qed.
#[global] Hint Resolve RunStatusAnalysis_loop_alias_frame : post.

(** The alias map of a run is the one [AssignAliases] leaves. *)
Lemma Run_numbering kPointerSize kPointerSizeLog2 fuel g s' :
  Run kPointerSize kPointerSizeLog2 fuel (new_EscapeAnalysis g) = Some (tt, s') ->
  exists s1,
    discovery g None s1 /\ numbering g None s1 /\ stack_ s1 = [] /\
    aliases_ s' = aliases_ s1 /\ next_free_alias_ s' = next_free_alias_ s1.
Proof.
  intros H. unfold Run in H.
  apply bind_Some in H as (n & s0 & Hn & H).
  unfold NodeCount in Hn. minv Hn.
  apply bind_Some in H as (tbl & s0 & Htbl & H).
  apply gets_Some in Htbl as [-> ->].
  apply bind_Some in H as ([] & s0 & Hres & H). apply modify_Some in Hres.
  apply bind_Some in H as ([] & s1 & Hassign & H).
  subst s0. apply AssignAliases_numbering in Hassign as (D & Nm & Hstk);
    try done; simpl in *.
  2:{ intros x v Hv. apply lookup_replicate in Hv as [-> _]. done. }
  exists s1. do 3 (split; [done|]).
  cut (alias_frame s1 s'); [by intros [? ?]|]. revert H.
  match goal with
  | |- ?m s1 = Some (tt, s') -> _ =>
      cut (post alias_frame m); [intros Hp Hm; exact (Hp _ _ _ Hm)|]
  end.
  unfold RunObjectAnalysis, RunStatusAnalysis. alias_auto.
Qed.





(** ** A graph without allocations *)

(** No node has an entry: [kTracked] and [kEscaped] are clear in every
    status word. *)
Definition no_entry (s : Analysis) : Prop :=
  forall m v, status_ s !! m = Some v ->
              has_flag v (N.lor kTracked kEscaped) = false.

(** What the traversal of [AssignAliases] leaves alone: the graph, the
    zone, the tables of the virtual-state fixed point, and the two flags of
    every status word. *)
Definition traversal_frame : relation Analysis :=
  fun s s' =>
    graph_ s' = graph_ s /\
    zone_objects s' = zone_objects s /\
    zone_states s' = zone_states s /\
    virtual_states_ s' = virtual_states_ s /\
    replacements_ s' = replacements_ s /\
    cache_ s' = cache_ s /\
    (no_entry s -> no_entry s').

#[global] Instance traversal_frame_refl : Reflexive traversal_frame.
Proof. by intros s. Qed.
#[global] Instance traversal_frame_trans : Transitive traversal_frame.
Proof.
  intros s1 s2 s3 (A1 & A2 & A3 & A4 & A5 & A6 & A7)
    (B1 & B2 & B3 & B4 & B5 & B6 & B7).
  repeat split; try congruence. auto.
Qed.

Lemma status_or_traversal_frame id mask :
  has_flag mask (N.lor kTracked kEscaped) = false ->
  post traversal_frame (status_or id mask).
Proof.
  intros Hmask s r s' H. apply status_or_Some in H as (v & Hv & ->).
  repeat split; try done. intros Hno m w Hm. simpl in Hm.
  destruct (decide (m = id)) as [->|Hne].
  - apply list_lookup_insert_Some in Hm as [(_ & <- & _)|(? & _)]; [|done].
    rewrite has_flag_set_flag, Hmask, orb_false_r. by eapply Hno.
  - rewrite list_lookup_insert_ne in Hm by done. by eapply Hno.
Qed.

Lemma ResizeStatusVector_traversal_frame :
  post traversal_frame ResizeStatusVector.
Proof.
  intros s r s' H. unfold ResizeStatusVector, NodeCount in H. minv H.
  case_decide; minv H; [|reflexivity].
  repeat split; try done. intros Hno m v Hv. simpl in Hv.
  unfold VirtualObject.resize in Hv.
  apply lookup_app_Some in Hv as [Hv|(_ & Hv)].
  - apply lookup_take_Some in Hv as [Hv _]. by eapply Hno.
  - apply lookup_replicate in Hv as [-> _]. done.
Qed.

#[global] Hint Resolve ResizeStatusVector_traversal_frame : post.
#[global] Hint Extern 1 (post traversal_frame (status_or _ _)) =>
  apply status_or_traversal_frame; reflexivity : post.

Ltac traversal_special :=
  match goal with
  | |- post traversal_frame (modify _) =>
      apply post_modify; intros ?; repeat split; try reflexivity; auto
  end.

Ltac traversal_auto := repeat first [traversal_special | post_step].

Lemma AssignAliases_loop_traversal_frame fuel :
  post traversal_frame (AssignAliases_loop fuel).
Proof. induction fuel as [|fuel IH]; simpl; traversal_auto. Qed.
#[global] Hint Resolve AssignAliases_loop_traversal_frame : post.

Lemma AssignAliases_traversal_frame fuel :
  post traversal_frame (AssignAliases fuel).
Proof. unfold AssignAliases. traversal_auto. Qed.

Lemma GetReplacement_empty_table n k s :
  replacements_ s = replicate k None ->
  GetReplacement n s = Some (None, s).
Proof.
  intros Htbl. apply GetReplacement_Some. split; [|done].
  rewrite Htbl. unfold resolve_fuel. simpl.
  assert (replacement (replicate k (None : option NodeId)) n = None) as ->;
    [|done].
  unfold replacement. case_decide; [done|].
  destruct (replicate k None !! n) as [r|] eqn:E; [|done].
  by apply lookup_replicate in E as [-> _].
Qed.

(** X16.  On a graph in which [end] reaches no [Allocate] node, a run on a
    new [EscapeAnalysis] stops after the traversal: the graph is the one it
    was given, nothing is allocated in the zone, no cache and no virtual
    state is made, and every query answers that there is nothing: no node
    is escaped, none is virtual, none has a replacement, and [AliasCount]
    is 0. *)
Theorem Run_without_allocations kPointerSize kPointerSizeLog2 fuel g s' :
  (forall x, reachable g x -> ~ is_allocate g x) ->
  Run kPointerSize kPointerSizeLog2 fuel (new_EscapeAnalysis g) = Some (tt, s') ->
  graph_ s' = g /\
  zone_objects s' = [] /\ zone_states s' = [] /\
  cache_ s' = None /\ virtual_states_ s' = [] /\
  AliasCount s' = Some (0%N, s') /\
  forall n,
    EscapeAnalysis_IsEscaped n s' = Some (false, s') /\
    EscapeAnalysis_IsVirtual n s' = Some (false, s') /\
    GetReplacement n s' = Some (None, s').
Proof.
  intros Hnone H. unfold Run in H.
  apply bind_Some in H as (n & s0 & Hn & H).
  unfold NodeCount in Hn. minv Hn.
  apply bind_Some in H as (tbl & s0 & Htbl & H).
  apply gets_Some in Htbl as [-> ->].
  apply bind_Some in H as ([] & s0 & Hres & H). apply modify_Some in Hres.
  apply bind_Some in H as ([] & s1 & Hassign & H).
  pose proof (AssignAliases_traversal_frame _ _ _ _ Hassign)
    as (T1 & T2 & T3 & T4 & T5 & T6 & T7).
  subst s0. apply AssignAliases_numbering in Hassign as (D & Nm & Hstk);
    try done; simpl in *.
  2:{ intros x v Hv. apply lookup_replicate in Hv as [-> _]. done. }
  assert (status_stack_ s1 = []) as Hempty.
  { destruct (status_stack_ s1) as [|x l] eqn:E; [done|]. exfalso.
    assert (x ∈ status_stack_ s1) as Hx by (rewrite E; apply list_elem_of_here).
    apply (Hnone x); [|by apply (num_members _ _ _ Nm)].
    destruct (disc_status_stack _ _ _ D x Hx) as (a & Ha & Hlt).
    apply (num_marked _ _ _ Nm). exists a. split; [done|].
    unfold kNotReachable, kUntrackable, Alias_max in *. lia. }
  pose proof (disc_next _ _ _ D) as Hnext. rewrite Hempty in Hnext.
  simpl in Hnext.
  apply bind_Some in H as (count & s0 & Hcount & H).
  unfold AliasCount in Hcount. apply gets_Some in Hcount as [-> ->].
  rewrite Hnext in H. rewrite decide_False in H by lia.
  assert (s' = s1) as -> by (by minv H). clear H.
  assert (no_entry s1) as Hno.
  { apply T7. intros m v Hv. simpl in Hv.
    apply lookup_replicate in Hv as [-> _]. done. }
  split; [done|]. split; [done|]. split; [done|]. split; [done|].
  split; [done|]. split; [by unfold AliasCount, gets; rewrite Hnext|].
  intros n.
  assert (GetReplacement n s1 = Some (None, s1)) as Hrep.
  { eapply GetReplacement_empty_table. rewrite T5.
    unfold VirtualObject.resize. by rewrite take_nil. }
  assert (forall v, status_ s1 !! n = Some v ->
                    has_flag v kTracked = false /\ has_flag v kEscaped = false)
    as Hclear.
  { intros v Hv. specialize (Hno n v Hv). rewrite has_flag_lor_mask in Hno.
    by apply orb_false_elim in Hno. }
  unfold EscapeAnalysis_IsEscaped, EscapeAnalysis_IsVirtual,
    GetStatusVectorSize.
  rewrite !(bind_run _ _ s1 (length (status_ s1)) s1)
    by (by rewrite (bind_run _ _ s1 (status_ s1) s1)).
  destruct (decide (length (status_ s1) <= n)) as [Hle|Hlt]; [done|].
  destruct (lookup_lt_is_Some_2 (status_ s1) n) as [v Hv]; [lia|].
  destruct (Hclear v Hv) as [Ht He].
  split; [apply IsEscaped_Some; exists v; by rewrite He|].
  split; [apply IsVirtual_Some; exists v; by rewrite Ht|done].
Qed.

Lemma dead_allocation_graph_reachable x :
  reachable dead_allocation_graph x -> x = 1 \/ x = 0.
Proof.
  intros H. induction H as [|n nd i Hn IH Hnd Hi]; [by left|].
  destruct IH as [-> | ->]; simpl in Hnd; simplify_eq; simpl in Hi.
  - apply list_elem_of_singleton in Hi. by right.
  - by apply elem_of_nil in Hi.
Qed.

Lemma Run_without_allocations_witness :
  graph_ dead_allocation_run = dead_allocation_graph /\
  zone_objects dead_allocation_run = [] /\
  zone_states dead_allocation_run = [] /\
  cache_ dead_allocation_run = None /\
  virtual_states_ dead_allocation_run = [] /\
  AliasCount dead_allocation_run = Some (0%N, dead_allocation_run) /\
  forall n,
    EscapeAnalysis_IsEscaped n dead_allocation_run
      = Some (false, dead_allocation_run) /\
    EscapeAnalysis_IsVirtual n dead_allocation_run
      = Some (false, dead_allocation_run) /\
    GetReplacement n dead_allocation_run = Some (None, dead_allocation_run).
Proof.
  apply (Run_without_allocations 8 3 100 dead_allocation_graph).
  - intros x Hx (nd & Hnd & Hoc).
    destruct (dead_allocation_graph_reachable x Hx) as [-> | ->];
      simpl in Hnd; simplify_eq; simpl in Hoc; discriminate.
  - vm_compute. reflexivity.
Defined.

(** ** Which nodes can be virtual *)

(** The operators whose nodes the status fixed point tracks. *)
Definition trackable_opcode (oc : IrOpcode) : Prop :=
  oc = kAllocate \/ oc = kFinishRegion \/ oc = kPhi.

(** Every node whose status is tracked and not escaped is an [Allocate],
    a [FinishRegion] or a [Phi]. *)
Definition virtual_are_trackable (s : Analysis) : Prop :=
  forall m v,
    status_ s !! m = Some v ->
    has_flag v kTracked = true -> has_flag v kEscaped = false ->
    exists nd, nodes (graph_ s) !! m = Some nd /\
               trackable_opcode (opcode (op nd)).

Lemma paired_virtual_are_trackable s :
  paired (status_ s) -> virtual_are_trackable s.
Proof. intros Hp m v Hv Ht He. specialize (Hp m v Hv). congruence. Qed.

Lemma status_phase_virtual_are_trackable node s s' :
  status_phase node s s' ->
  (forall nd, node = Some nd ->
     exists n, nodes (graph_ s) !! nd = Some n /\
               trackable_opcode (opcode (op n))) ->
  virtual_are_trackable s -> virtual_are_trackable s'.
Proof.
  intros (Hg & _ & Hlen & Hkept) Hnode Hs m v' Hv' Ht He. rewrite Hg.
  destruct (decide (node = Some m)) as [->|Hne]; [by apply Hnode|].
  destruct (lookup_lt_is_Some_2 (status_ s) m) as [v Hv].
  { rewrite <- Hlen. by eapply lookup_lt_Some. }
  destruct (Hkept m v v' ltac:(congruence) Hv Hv') as [[Ht' He']|[_ He']].
  - apply (Hs m v Hv); congruence.
  - congruence.
Qed.

(** A step of the status fixed point on a node that is not tracked keeps
    or sets both flags of every status word. *)
Lemma EscapeStatusAnalysis_Process_untracked node s r s' :
  EscapeStatusAnalysis_Process node s = Some (r, s') ->
  exists nd, nodes (graph_ s) !! node = Some nd /\
             (trackable_opcode (opcode (op nd)) \/ status_phase None s s').
Proof.
  intros H. unfold EscapeStatusAnalysis_Process in H.
  apply bind_Some in H as (oc & s0 & Hoc & H).
  apply get_opcode_Some in Hoc as (nd & Hnd & -> & ->).
  exists nd. split; [done|].
  destruct (opcode (op nd)) eqn:Hopc;
    try (left; unfold trackable_opcode; by auto);
    right;
    match type of H with
    | ?m s = Some _ =>
        assert (post (status_phase None) m) as Hp by post_auto;
        exact (Hp _ _ _ H)
    end.
Qed.

(** The status fixed point keeps the invariant. *)
Lemma RunStatusAnalysis_loop_virtual_are_trackable fuel :
  forall s s',
    virtual_are_trackable s ->
    RunStatusAnalysis_loop fuel s = Some (tt, s') ->
    virtual_are_trackable s'.
Proof.
  induction fuel as [|fuel IH]; intros s s' Hs H; simpl in H; [done|].
  apply bind_Some in H as (stk & s0 & Hstk & H).
  apply gets_Some in Hstk as [-> ->].
  destruct (status_stack_ s) as [|node rest] eqn:Hstack.
  { by minv H. }
  apply bind_Some in H as ([] & s1 & Hpop & H). apply modify_Some in Hpop.
  apply bind_Some in H as ([] & s2 & Hclear & H).
  apply bind_Some in H as ([] & s3 & Hproc & H).
  apply bind_Some in H as ([] & s4 & Hvisited & H).
  assert (status_phase None s1 s2) as H12.
  { eapply (status_clear_status_phase None node kOnStack); [done|done|].
    exact Hclear. }
  assert (status_phase None s3 s4) as H34.
  { eapply (status_or_status_phase None node kVisited); [done|done|].
    exact Hvisited. }
  eapply IH; [|exact H].
  eapply (status_phase_virtual_are_trackable None); [exact H34|done|].
  assert (virtual_are_trackable s2) as Hs2.
  { eapply (status_phase_virtual_are_trackable None); [exact H12|done|].
    by subst s1. }
  destruct (EscapeStatusAnalysis_Process_untracked _ _ _ _ Hproc)
    as (nd & Hnd & [Htr|Hph]).
  - eapply (status_phase_virtual_are_trackable (Some node));
      [by eapply EscapeStatusAnalysis_Process_status_phase| |exact Hs2].
    intros x [= <-]. by exists nd.
  - by eapply (status_phase_virtual_are_trackable None).
Qed.

(** A run ends after the traversal, with the two flags paired in every
    status word, or in the status fixed point, which starts with the flags
    paired. *)
Lemma Run_status_start kPointerSize kPointerSizeLog2 fuel g s' :
  Run kPointerSize kPointerSizeLog2 fuel (new_EscapeAnalysis g) = Some (tt, s') ->
  paired (status_ s') \/
  exists s6, paired (status_ s6) /\
             RunStatusAnalysis_loop fuel s6 = Some (tt, s').
Proof.
  intros H. unfold Run in H.
  apply bind_Some in H as (n & s0 & Hn & H). unfold NodeCount in Hn. minv Hn.
  apply bind_Some in H as (tbl & s0 & Htbl & H). apply gets_Some in Htbl as [-> ->].
  apply bind_Some in H as ([] & s0 & Hmod & H). apply modify_Some in Hmod.
  apply bind_Some in H as ([] & s1 & Hassign & H).
  assert (paired (status_ s1)) as Hp1.
  { eapply (AssignAliases_pairing _ _ _ _ Hassign). subst s0. simpl.
    apply new_EscapeAnalysis_paired. }
  apply bind_Some in H as (count & s0' & Hcount & H).
  unfold AliasCount in Hcount. apply gets_Some in Hcount as [-> ->].
  destruct (decide (0 < next_free_alias_ s1)%N) as [_|Hzero].
  2:{ left. by minv H. }
  right.
  apply bind_Some in H as ([] & s2 & Hcache & H). apply modify_Some in Hcache.
  apply bind_Some in H as (n & s0' & Hn & H). unfold NodeCount in Hn. minv Hn.
  apply bind_Some in H as (tbl & s0' & Htbl & H).
  apply gets_Some in Htbl as [-> ->].
  apply bind_Some in H as ([] & s3 & Hmod' & H). apply modify_Some in Hmod'.
  apply bind_Some in H as ([] & s4 & Hresize & H).
  apply bind_Some in H as ([] & s5 & Hobject & H).
  unfold RunStatusAnalysis in H.
  apply bind_Some in H as ([] & s6 & Hresize' & H).
  apply ResizeStatusVector_object_phase in Hresize as (_ & _ & A3).
  apply RunObjectAnalysis_object_phase in Hobject as (_ & _ & B3).
  apply ResizeStatusVector_object_phase in Hresize' as (_ & _ & C3).
  exists s6. split; [|exact H].
  apply C3, B3, A3. by subst s3.
Qed.

Definition store_load_run : Analysis :=
  Eval vm_compute in after_run store_load_graph.

(** X17.  After a run on a new [EscapeAnalysis] only an [Allocate], a
    [FinishRegion] or a [Phi] is virtual: a node that [IsVirtual] reports
    is a node of the graph with one of these three operators. *)
Theorem virtual_nodes_are_allocations kPointerSize kPointerSizeLog2 fuel g s' n :
  Run kPointerSize kPointerSizeLog2 fuel (new_EscapeAnalysis g) = Some (tt, s') ->
  EscapeAnalysis_IsVirtual n s' = Some (true, s') ->
  exists nd, nodes (graph_ s') !! n = Some nd /\
             (opcode (op nd) = kAllocate \/ opcode (op nd) = kFinishRegion \/
              opcode (op nd) = kPhi).
Proof.
  intros Hrun Hvirt.
  assert (virtual_are_trackable s') as Hinv.
  { apply Run_status_start in Hrun as [Hp|(s6 & Hp & Hloop)].
    - by apply paired_virtual_are_trackable.
    - eapply RunStatusAnalysis_loop_virtual_are_trackable; [|exact Hloop].
      by apply paired_virtual_are_trackable. }
  unfold EscapeAnalysis_IsVirtual in Hvirt.
  apply bind_Some in Hvirt as (size & s0 & Hsize & Hvirt).
  unfold GetStatusVectorSize in Hsize. minv Hsize.
  case_decide; [by minv Hvirt|].
  apply IsVirtual_Some in Hvirt as (v & Hv & Hb & _).
  symmetry in Hb. apply andb_true_iff in Hb as [Ht He].
  apply negb_true_iff in He. by apply (Hinv n v).
Qed.

Lemma virtual_nodes_are_allocations_witness :
  exists nd, nodes (graph_ store_load_run) !! 2 = Some nd /\
             (opcode (op nd) = kAllocate \/ opcode (op nd) = kFinishRegion \/
              opcode (op nd) = kPhi).
Proof.
  apply (virtual_nodes_are_allocations 8 3 100 store_load_graph store_load_run).
  - vm_compute. reflexivity.
  - vm_compute. reflexivity.
Defined.

(** ** The memoised predicates *)

(** The bits that [IsDanglingEffectNode] sets for the answer [b]. *)
Definition dangling_answer (b : bool) : N :=
  if b then N.lor kDanglingComputed kDangling else kDanglingComputed.

Lemma IsDanglingEffectNode_loop_Some node edges s b s1 :
  IsDanglingEffectNode_loop node edges s = Some (b, s1) ->
  exists v, status_ s !! node = Some v /\
            s1 = set_status (<[node := set_flag v (dangling_answer b)]>
                               (status_ s)) s.
Proof.
  revert s. induction edges as [|e edges IH]; intros s H; simpl in H.
  - apply bind_Some in H as ([] & s2 & Hor & H). minv H.
    apply status_or_Some in Hor as (v & Hv & ->). by exists v.
  - apply bind_Some in H as (a & s2 & Ha & H).
    apply alias_at_Some in Ha as [_ ->].
    destruct (decide (a = kNotReachable)); [by apply IH|].
    apply bind_Some in H as (ee & s2 & Hee & H).
    unfold IsEffectEdge in Hee. apply bind_Some in Hee as (nd & s3 & Hnd & Hee).
    apply get_node_Some in Hnd as [_ ->]. minv Hee.
    match type of H with
    | (if ?c then _ else _) _ = _ => destruct c
    end; [|by apply IH].
    apply bind_Some in H as ([] & s2 & Hor & H). minv H.
    apply status_or_Some in Hor as (v & Hv & ->). by exists v.
Qed.

(** A call of [IsDanglingEffectNode] answers from the status word of the
    node, or computes the answer and records it there. *)
Lemma IsDanglingEffectNode_Some node s b s1 :
  IsDanglingEffectNode node s = Some (b, s1) ->
  exists v,
    status_ s !! node = Some v /\
    ((has_flag v kDanglingComputed = true /\ b = has_flag v kDangling /\
      s1 = s) \/
     (has_flag v kDanglingComputed = false /\
      s1 = set_status (<[node := set_flag v (dangling_answer b)]> (status_ s))
             s)).
Proof.
  intros H. unfold IsDanglingEffectNode in H.
  apply bind_Some in H as (v & s0 & Hv & H).
  apply status_at_Some in Hv as [Hv ->]. exists v. split; [done|].
  destruct (has_flag v kDanglingComputed) eqn:Hc.
  { minv H. left. by auto. }
  right. split; [done|].
  apply bind_Some in H as (o & s0 & Ho & H).
  unfold get_op in Ho. apply bind_Some in Ho as (nd & s2 & Hnd & Ho).
  apply get_node_Some in Hnd as [Hnd ->]. minv Ho.
  apply bind_Some in H as (from_start & s2 & Hfs & H).
  assert (s2 = s) as ->.
  { destruct (bool_decide (EffectInputCount (op nd) = 0)
              || bool_decide (EffectOutputCount (op nd) = 0));
      [by minv Hfs|].
    destruct (bool_decide (EffectInputCount (op nd) = 1)); [|by minv Hfs].
    apply bind_Some in Hfs as (e & s3 & He & Hfs).
    unfold GetEffectInput in He. apply bind_Some in He as (nd' & s4 & Hnd' & He).
    apply get_node_Some in Hnd' as [_ ->]. minv He.
    apply bind_Some in Hfs as (eoc & s3 & Heoc & Hfs).
    apply get_opcode_Some in Heoc as (? & _ & _ & ->). by minv Hfs. }
  destruct from_start.
  - apply bind_Some in H as ([] & s2 & Hor & H). minv H.
    apply status_or_Some in Hor as (v' & Hv' & ->). by simplify_eq.
  - apply bind_Some in H as (edges & s2 & Hedges & H).
    unfold use_edges in Hedges. minv Hedges.
    apply IsDanglingEffectNode_loop_Some in H as (v' & Hv' & ->).
    by simplify_eq.
Qed.

(** X18.  [IsDanglingEffectNode] is memoised in the status word of the
    node.  Where [kDangling] is not set without [kDanglingComputed], a
    second call returns what the first returned and changes nothing, and
    the first call changes nothing or sets, in the status word of the node
    alone, [kDanglingComputed] and, for the answer [true], [kDangling]. *)
Theorem IsDanglingEffectNode_is_memoised node s b s1 :
  (forall v, status_ s !! node = Some v ->
             has_flag v kDanglingComputed = false ->
             has_flag v kDangling = false) ->
  IsDanglingEffectNode node s = Some (b, s1) ->
  IsDanglingEffectNode node s1 = Some (b, s1) /\
  exists v,
    status_ s !! node = Some v /\
    (s1 = s \/
     s1 = set_status (<[node := set_flag v (dangling_answer b)]> (status_ s)) s).
Proof.
  intros Hpre H.
  apply IsDanglingEffectNode_Some in H
    as (v & Hv & [(Hc & -> & ->)|(Hc & ->)]).
  - split; [|exists v; by auto]. unfold IsDanglingEffectNode.
    rewrite (bind_run _ _ s v s) by (by apply status_at_Some).
    by rewrite Hc.
  - split; [|exists v; by auto]. specialize (Hpre v Hv Hc).
    set (s1 := set_status _ s). unfold IsDanglingEffectNode.
    rewrite (bind_run _ _ s1 (set_flag v (dangling_answer b)) s1).
    2:{ apply status_at_Some. split; [|done]. simpl.
        apply list_lookup_insert_eq. by eapply lookup_lt_Some. }
    rewrite !has_flag_set_flag, Hpre, Hc. by destruct b.
Qed.

Definition store_load_dangling : Analysis :=
  Eval vm_compute in state_after (IsDanglingEffectNode 5) store_load_run.

Lemma IsDanglingEffectNode_is_memoised_witness :
  IsDanglingEffectNode 5 store_load_dangling
    = Some (false, store_load_dangling) /\
  exists v,
    status_ store_load_run !! 5 = Some v /\
    (store_load_dangling = store_load_run \/
     store_load_dangling
       = set_status (<[5 := set_flag v (dangling_answer false)]>
                       (status_ store_load_run)) store_load_run).
Proof.
  apply (IsDanglingEffectNode_is_memoised 5 store_load_run false).
  - intros v Hv _. vm_compute in Hv. by simplify_eq.
  - vm_compute. reflexivity.
Defined.

(** The bits that [IsEffectBranchPoint] sets for the answer [b]. *)
Definition branch_answer (b : bool) : N :=
  if b then N.lor kBranchPointComputed kBranchPoint else kBranchPointComputed.

(** Only the status table changes, it keeps its size, and the two
    branch-point bits of every status word stay. *)
Definition branch_bits_kept (s s' : Analysis) : Prop :=
  s' = set_status (status_ s') s /\
  length (status_ s') = length (status_ s) /\
  forall m v v',
    status_ s !! m = Some v -> status_ s' !! m = Some v' ->
    has_flag v' kBranchPointComputed = has_flag v kBranchPointComputed /\
    has_flag v' kBranchPoint = has_flag v kBranchPoint.

Lemma branch_bits_kept_refl s : branch_bits_kept s s.
Proof.
  split; [by destruct s|]. split; [done|].
  intros m v v' H1 H2. by simplify_eq.
Qed.

Lemma branch_bits_kept_trans s1 s2 s3 :
  branch_bits_kept s1 s2 -> branch_bits_kept s2 s3 -> branch_bits_kept s1 s3.
Proof.
  intros (A1 & A2 & A3) (B1 & B2 & B3). split; [|split; [congruence|]].
  - rewrite B1 at 1. rewrite A1. done.
  - intros m v v' H1 H3.
    destruct (lookup_lt_is_Some_2 (status_ s2) m) as [v2 H2].
    { rewrite A2. by eapply lookup_lt_Some. }
    destruct (A3 m v v2 H1 H2) as [<- <-]. by apply (B3 m).
Qed.

Lemma IsDanglingEffectNode_branch_bits_kept node s b s1 :
  IsDanglingEffectNode node s = Some (b, s1) -> branch_bits_kept s s1.
Proof.
  intros H. apply IsDanglingEffectNode_Some in H
    as (v & Hv & [(_ & _ & ->)|(_ & ->)]); [apply branch_bits_kept_refl|].
  split; [done|]. simpl. split; [by rewrite length_insert|].
  intros m w w' Hw Hw'. destruct (decide (m = node)) as [->|Hne].
  - apply list_lookup_insert_Some in Hw' as [(_ & <- & _)|(? & _)]; [|done].
    simplify_eq. rewrite !has_flag_set_flag. by destruct b; rewrite !orb_false_r.
  - rewrite list_lookup_insert_ne in Hw' by done. by simplify_eq.
Qed.

Lemma IsEffectBranchPoint_loop_Some node edges count s b s1 :
  IsEffectBranchPoint_loop node edges count s = Some (b, s1) ->
  exists s0 v0,
    branch_bits_kept s s0 /\ status_ s0 !! node = Some v0 /\
    s1 = set_status (<[node := set_flag v0 (branch_answer b)]> (status_ s0)) s0.
Proof.
  revert count s. induction edges as [|e edges IH]; intros count s H; simpl in H.
  - apply bind_Some in H as ([] & s2 & Hor & H). minv H.
    apply status_or_Some in Hor as (v & Hv & ->).
    exists s, v. split; [apply branch_bits_kept_refl|done].
  - apply bind_Some in H as (a & s2 & Ha & H).
    apply alias_at_Some in Ha as [_ ->].
    destruct (decide (a = kNotReachable)); [by eapply IH|].
    apply bind_Some in H as (ee & s2 & Hee & H).
    unfold IsEffectEdge in Hee. apply bind_Some in Hee as (nd & s3 & Hnd & Hee).
    apply get_node_Some in Hnd as [_ ->]. minv Hee.
    match type of H with
    | (if ?c then _ else _) _ = _ => destruct c
    end; [|by eapply IH].
    apply bind_Some in H as (uoc & s2 & Huoc & H).
    apply get_opcode_Some in Huoc as (? & _ & _ & ->).
    apply bind_Some in H as (dangling & s2 & Hd & H).
    assert (branch_bits_kept s s2) as Hkept.
    { match type of Hd with
      | (if ?c then _ else _) _ = _ => destruct c
      end.
      - by eapply IsDanglingEffectNode_branch_bits_kept.
      - minv Hd. apply branch_bits_kept_refl. }
    assert (forall c, IsEffectBranchPoint_loop node edges c s2 = Some (b, s1) ->
              exists s0 v0,
                branch_bits_kept s s0 /\ status_ s0 !! node = Some v0 /\
                s1 = set_status (<[node := set_flag v0 (branch_answer b)]>
                                   (status_ s0)) s0) as Hrest.
    { intros c Hc. apply IH in Hc as (s0 & v0 & Hk & Hv0 & ->).
      exists s0, v0. split; [|done].
      eapply branch_bits_kept_trans; [exact Hkept|exact Hk]. }
    destruct dangling; [by eapply Hrest|].
    destruct (decide (1 < S count)); [|by eapply Hrest].
    apply bind_Some in H as ([] & s3 & Hor & H). minv H.
    apply status_or_Some in Hor as (v & Hv & ->). by exists s2, v.
Qed.

(** X19.  [IsEffectBranchPoint] is memoised in the status word of the
    node.  Where [kBranchPoint] is not set without
    [kBranchPointComputed], a second call returns what the first returned
    and changes nothing; the first call changes the status table only,
    and afterwards the node has [kBranchPointComputed], and [kBranchPoint]
    exactly for the answer [true]. *)
Theorem IsEffectBranchPoint_is_memoised node s b s1 :
  (forall v, status_ s !! node = Some v ->
             has_flag v kBranchPointComputed = false ->
             has_flag v kBranchPoint = false) ->
  IsEffectBranchPoint node s = Some (b, s1) ->
  IsEffectBranchPoint node s1 = Some (b, s1) /\
  s1 = set_status (status_ s1) s /\
  exists v1, status_ s1 !! node = Some v1 /\
             has_flag v1 kBranchPointComputed = true /\
             has_flag v1 kBranchPoint = b.
Proof.
  intros Hpre H. unfold IsEffectBranchPoint in H.
  apply bind_Some in H as (v & s0 & Hv & H).
  apply status_at_Some in Hv as [Hv ->].
  assert (forall w, status_ s1 !! node = Some w ->
                    has_flag w kBranchPointComputed = true ->
                    has_flag w kBranchPoint = b ->
                    IsEffectBranchPoint node s1 = Some (b, s1)) as Hcached.
  { intros w Hw Hc Hd. unfold IsEffectBranchPoint.
    rewrite (bind_run _ _ s1 w s1) by (by apply status_at_Some).
    by rewrite Hc, Hd. }
  destruct (has_flag v kBranchPointComputed) eqn:Hc.
  { minv H. split; [by eapply Hcached|]. split; [by destruct s|].
    by exists v. }
  specialize (Hpre v Hv Hc).
  apply bind_Some in H as (edges & s2 & Hedges & H).
  unfold use_edges in Hedges. minv Hedges.
  apply IsEffectBranchPoint_loop_Some in H
    as (s0 & v0 & (K1 & K2 & K3) & Hv0 & ->).
  destruct (K3 node v v0 Hv Hv0) as [Hc0 Hb0].
  assert (status_ (set_status (<[node := set_flag v0 (branch_answer b)]>
                                 (status_ s0)) s0) !! node
          = Some (set_flag v0 (branch_answer b))) as Hnode.
  { simpl. apply list_lookup_insert_eq. by eapply lookup_lt_Some. }
  assert (has_flag (set_flag v0 (branch_answer b)) kBranchPointComputed = true)
    as H1.
  { rewrite has_flag_set_flag. by destruct b; rewrite orb_true_r. }
  assert (has_flag (set_flag v0 (branch_answer b)) kBranchPoint = b) as H2.
  { rewrite has_flag_set_flag, Hb0, Hpre. by destruct b. }
  split; [by eapply Hcached|]. split.
  - simpl. generalize (<[node := set_flag v0 (branch_answer b)]> (status_ s0)).
    intros st. by rewrite K1.
  - eexists. split; [exact Hnode|]. by split.
Qed.

Definition store_load_branch : Analysis :=
  Eval vm_compute in state_after (IsEffectBranchPoint 7) store_load_run.

Lemma IsEffectBranchPoint_is_memoised_witness :
  IsEffectBranchPoint 7 store_load_branch = Some (false, store_load_branch) /\
  store_load_branch = set_status (status_ store_load_branch) store_load_run /\
  exists v1, status_ store_load_branch !! 7 = Some v1 /\
             has_flag v1 kBranchPointComputed = true /\
             has_flag v1 kBranchPoint = false.
Proof.
  apply (IsEffectBranchPoint_is_memoised 7 store_load_run false).
  - intros v Hv _. vm_compute in Hv. by simplify_eq.
  - vm_compute. reflexivity.
Defined.

(** The memo bits are consistent: an answer bit is set only together with
    the bit that says the answer was computed. *)
Definition memo_word_ok (v : N) : Prop :=
  (has_flag v kDangling = true -> has_flag v kDanglingComputed = true) /\
  (has_flag v kBranchPoint = true -> has_flag v kBranchPointComputed = true).

Definition memo_ok (s : Analysis) : Prop :=
  forall m v, status_ s !! m = Some v -> memo_word_ok v.

Definition memo_kept : relation Analysis :=
  fun s s' => memo_ok s -> memo_ok s'.

#[global] Instance memo_kept_refl : Reflexive memo_kept.
Proof. intros s H. exact H. Qed.
#[global] Instance memo_kept_trans : Transitive memo_kept.
Proof. intros s1 s2 s3 H12 H23 H. auto. Qed.

Lemma status_or_memo_kept id mask :
  memo_word_ok mask -> post memo_kept (status_or id mask).
Proof.
  intros [Hd Hb] s r s' H. apply status_or_Some in H as (v & Hv & ->).
  intros Hok m w Hm. simpl in Hm. destruct (decide (m = id)) as [->|Hne].
  - apply list_lookup_insert_Some in Hm as [(_ & <- & _)|(? & _)]; [|done].
    destruct (Hok id v Hv) as [Hd' Hb']. unfold memo_word_ok.
    rewrite !has_flag_set_flag. split; intros [?|?]%orb_true_iff.
    + by rewrite Hd' by done.
    + by rewrite Hd, orb_true_r by done.
    + by rewrite Hb' by done.
    + by rewrite Hb, orb_true_r by done.
  - rewrite list_lookup_insert_ne in Hm by done. by eapply Hok.
Qed.

Lemma status_clear_memo_kept id mask :
  N.land mask (N.lor (N.lor kDanglingComputed kDangling)
                     (N.lor kBranchPointComputed kBranchPoint)) = 0%N ->
  post memo_kept (status_clear id mask).
Proof.
  intros Hmask s r s' H. apply status_clear_Some in H as (v & Hv & ->).
  assert (forall bit, N.land mask bit = 0%N ->
                      has_flag (clear_flag v mask) bit = has_flag v bit) as Hbit.
  { intros bit Hb. by apply has_flag_clear_flag_other. }
  rewrite !N.land_lor_distr_r in Hmask.
  apply N.lor_eq_0_iff in Hmask as [[H1 H2]%N.lor_eq_0_iff [H3 H4]%N.lor_eq_0_iff].
  intros Hok m w Hm. simpl in Hm. destruct (decide (m = id)) as [->|Hne].
  - apply list_lookup_insert_Some in Hm as [(_ & <- & _)|(? & _)]; [|done].
    unfold memo_word_ok. rewrite !Hbit by done. by eapply Hok.
  - rewrite list_lookup_insert_ne in Hm by done. by eapply Hok.
Qed.

Lemma ResizeStatusVector_memo_kept : post memo_kept ResizeStatusVector.
Proof.
  intros s r s' H. unfold ResizeStatusVector, NodeCount in H. minv H.
  case_decide; minv H; [|reflexivity].
  intros Hok m v Hv. simpl in Hv. unfold VirtualObject.resize in Hv.
  apply lookup_app_Some in Hv as [Hv|(_ & Hv)].
  - apply lookup_take_Some in Hv as [Hv _]. by eapply Hok.
  - apply lookup_replicate in Hv as [-> _]. done.
Qed.

#[global] Hint Resolve ResizeStatusVector_memo_kept : post.
#[global] Hint Extern 1 (post memo_kept (status_or _ _)) =>
  apply status_or_memo_kept; split;
  (let H := fresh in
   intros H; first [reflexivity | vm_compute in H; discriminate H]) : post.
#[global] Hint Extern 1 (post memo_kept (status_clear _ _)) =>
  apply status_clear_memo_kept; reflexivity : post.

Ltac memo_special :=
  match goal with
  | |- post memo_kept (modify _) =>
      apply post_modify; intros ? ?; assumption
  end.

Ltac memo_auto := repeat first [memo_special | post_step].

Lemma IsDanglingEffectNode_loop_memo_kept node edges :
  post memo_kept (IsDanglingEffectNode_loop node edges).
Proof. induction edges as [|e edges IH]; simpl; memo_auto. Qed.
#[global] Hint Resolve IsDanglingEffectNode_loop_memo_kept : post.

Lemma IsEffectBranchPoint_loop_memo_kept node edges count :
  post memo_kept (IsEffectBranchPoint_loop node edges count).
Proof.
  revert count. induction edges as [|e edges IH]; intros count; simpl; memo_auto.
Qed.
#[global] Hint Resolve IsEffectBranchPoint_loop_memo_kept : post.

Lemma EscapeAnalysis_Process_memo_kept kPointerSize kPointerSizeLog2 node :
  post memo_kept (EscapeAnalysis_Process kPointerSize kPointerSizeLog2 node).
Proof. unfold EscapeAnalysis_Process. memo_auto. Qed.
#[global] Hint Resolve EscapeAnalysis_Process_memo_kept : post.

Lemma RunObjectAnalysis_loop_memo_kept kPointerSize kPointerSizeLog2 fuel :
  forall queue,
    post memo_kept
      (RunObjectAnalysis_loop kPointerSize kPointerSizeLog2 fuel queue).
Proof.
  induction fuel as [|fuel IH]; intros queue; simpl; [apply post_fail|].
  destruct queue as [|node queue]; memo_auto.
Qed.
#[global] Hint Resolve RunObjectAnalysis_loop_memo_kept : post.

Lemma AssignAliases_loop_memo_kept fuel : post memo_kept (AssignAliases_loop fuel).
Proof. induction fuel as [|fuel IH]; simpl; memo_auto. Qed.
#[global] Hint Resolve AssignAliases_loop_memo_kept : post.

Lemma IsAllocationPhi_loop_memo_kept edges :
  post memo_kept (IsAllocationPhi_loop edges).
Proof. induction edges as [|e edges IH]; simpl; memo_auto. Qed.
#[global] Hint Resolve IsAllocationPhi_loop_memo_kept : post.

Lemma CheckUsesForEscape_loop_memo_kept edges uses rep phi_escaping :
  post memo_kept (CheckUsesForEscape_loop edges uses rep phi_escaping).
Proof. induction edges as [|e edges IH]; simpl; memo_auto. Qed.
#[global] Hint Resolve CheckUsesForEscape_loop_memo_kept : post.

Lemma EscapeStatusAnalysis_Process_memo_kept node :
  post memo_kept (EscapeStatusAnalysis_Process node).
Proof. unfold EscapeStatusAnalysis_Process. memo_auto. Qed.
#[global] Hint Resolve EscapeStatusAnalysis_Process_memo_kept : post.

Lemma RunStatusAnalysis_loop_memo_kept fuel :
  post memo_kept (RunStatusAnalysis_loop fuel).
Proof. induction fuel as [|fuel IH]; simpl; memo_auto. Qed.
#[global] Hint Resolve RunStatusAnalysis_loop_memo_kept : post.

Lemma Run_memo_kept kPointerSize kPointerSizeLog2 fuel :
  post memo_kept (Run kPointerSize kPointerSizeLog2 fuel).
Proof. unfold Run. memo_auto. Qed.

(** X20.  The memo bits stay consistent: if no status word has
    [kDangling] without [kDanglingComputed] or [kBranchPoint] without
    [kBranchPointComputed], then none has after a step of either fixed
    point or after a whole run.  The status words of a new analysis are
    such, so the two memoised predicates answer from consistent bits
    throughout. *)
Theorem memo_bits_stay_consistent kPointerSize kPointerSizeLog2 fuel node
    (s s' : Analysis) (b : bool) :
  memo_ok s ->
  EscapeStatusAnalysis_Process node s = Some (tt, s') \/
  EscapeAnalysis_Process kPointerSize kPointerSizeLog2 node s = Some (b, s') \/
  Run kPointerSize kPointerSizeLog2 fuel s = Some (tt, s') ->
  memo_ok s' /\
  forall g, memo_ok (new_EscapeAnalysis g).
Proof.
  intros Hok H. split.
  - destruct H as [H|[H|H]].
    + by eapply EscapeStatusAnalysis_Process_memo_kept.
    + by eapply EscapeAnalysis_Process_memo_kept.
    + by eapply Run_memo_kept.
  - intros g m v Hv. simpl in Hv. apply lookup_replicate in Hv as [-> _]. done.
Qed.

Lemma memo_bits_stay_consistent_witness :
  memo_ok store_load_run /\
  forall g, memo_ok (new_EscapeAnalysis g).
Proof.
  apply (memo_bits_stay_consistent 8 3 100 0
           (new_EscapeAnalysis store_load_graph) store_load_run true).
  - intros m v Hv. unfold new_EscapeAnalysis in Hv. cbn [status_] in Hv.
    apply lookup_replicate in Hv as [-> _]. done.
  - right. right. vm_compute. reflexivity.
Defined.

(** ** The size of the virtual states *)

(** The alias counter is [n] and every state in the zone has [n] slots. *)
Definition sized (n : Alias) (s : Analysis) : Prop :=
  next_free_alias_ s = n /\
  forall q st, zone_states s !! q = Some st ->
               length (VirtualState.info_ st) = N.to_nat n.

Definition size_kept (n : Alias) : relation Analysis :=
  fun s s' => sized n s -> sized n s'.

#[global] Instance size_kept_refl n : Reflexive (size_kept n).
Proof. intros s H. exact H. Qed.
#[global] Instance size_kept_trans n : Transitive (size_kept n).
Proof. intros s1 s2 s3 H12 H23 H. auto. Qed.

Lemma size_bind_AliasCount {B} n (k : Alias -> M B) :
  (forall c, c = n -> post (size_kept n) (k c)) ->
  post (size_kept n) (bind AliasCount k).
Proof.
  intros Hk s r s' H Hinv. apply bind_Some in H as (c & s1 & Hc & H).
  unfold AliasCount in Hc. apply gets_Some in Hc as [-> ->].
  eapply Hk; [|exact H|exact Hinv]. apply Hinv.
Qed.

Lemma sized_states n s sts :
  sized n s ->
  (forall q st, sts !! q = Some st ->
                length (VirtualState.info_ st) = N.to_nat n) ->
  sized n (set_zone_states sts s).
Proof. intros [Hn _] Hsts. by split. Qed.

Lemma VirtualState_create_size_kept n owner :
  post (size_kept n) (VirtualState_create owner (N.to_nat n)).
Proof.
  intros s r s' H Hinv. unfold VirtualState_create in H.
  apply new_state_Some in H as [_ ->]. apply sized_states; [done|].
  intros q st Hq. apply lookup_app_Some in Hq as [Hq|[_ Hq]].
  - by eapply Hinv.
  - apply list_lookup_singleton_Some in Hq as [_ <-]. simpl.
    by rewrite length_replicate.
Qed.

Lemma copy_slots_length (info0 : list (option ObjPtr)) idx info :
  length
    (fold_left
       (fun info i =>
          match info0 !! i with
          | Some (Some p) => <[i := Some p]> info
          | _ => info
          end) idx info) = length info.
Proof.
  revert info. induction idx as [|i idx IH]; intros info; simpl; [done|].
  rewrite IH. destruct (info0 !! i) as [[p|]|]; [|done|done].
  by rewrite length_insert.
Qed.

Lemma VirtualState_copy_size_kept n owner state :
  post (size_kept n) (VirtualState_copy owner state).
Proof.
  intros s r s' H Hinv. unfold VirtualState_copy in H.
  apply bind_Some in H as (st & s1 & Hst & H).
  apply load_state_Some in Hst as [Hst ->].
  apply new_state_Some in H as [_ ->]. apply sized_states; [done|].
  intros q st' Hq. apply lookup_app_Some in Hq as [Hq|[_ Hq]].
  - by eapply Hinv.
  - apply list_lookup_singleton_Some in Hq as [_ <-]. simpl.
    rewrite copy_slots_length, length_replicate. by eapply Hinv.
Qed.

Lemma SetVirtualObject_size_kept n this alias obj :
  post (size_kept n) (SetVirtualObject this alias obj).
Proof.
  intros s r s' H Hinv. apply SetVirtualObject_Some in H as (st & Hst & _ & ->).
  apply sized_states; [done|]. intros q st' Hq.
  destruct (decide (q = this)) as [->|Hne].
  - apply list_lookup_insert_Some in Hq as [(_ & <- & _)|(? & _)]; [|done].
    simpl. rewrite length_insert. by eapply Hinv.
  - rewrite list_lookup_insert_ne in Hq by done. by eapply Hinv.
Qed.

#[global] Hint Resolve VirtualState_create_size_kept
  VirtualState_copy_size_kept SetVirtualObject_size_kept : post.

Ltac size_special :=
  match goal with
  | |- post (size_kept _) (bind AliasCount _) =>
      apply size_bind_AliasCount; intros ? ->
  | |- post (size_kept _) (modify _) =>
      apply post_modify; intros ? ?; assumption
  end.

Ltac size_auto := repeat first [size_special | post_step].

Lemma IsDanglingEffectNode_loop_size_kept n node edges :
  post (size_kept n) (IsDanglingEffectNode_loop node edges).
Proof. induction edges as [|e edges IH]; simpl; size_auto. Qed.
#[global] Hint Resolve IsDanglingEffectNode_loop_size_kept : post.

Lemma IsEffectBranchPoint_loop_size_kept n node edges count :
  post (size_kept n) (IsEffectBranchPoint_loop node edges count).
Proof.
  revert count. induction edges as [|e edges IH]; intros count; simpl; size_auto.
Qed.
#[global] Hint Resolve IsEffectBranchPoint_loop_size_kept : post.

Lemma EscapeAnalysis_Process_size_kept n kPointerSize kPointerSizeLog2 node :
  post (size_kept n) (EscapeAnalysis_Process kPointerSize kPointerSizeLog2 node).
Proof. unfold EscapeAnalysis_Process. size_auto. Qed.
#[global] Hint Resolve EscapeAnalysis_Process_size_kept : post.

Lemma RunObjectAnalysis_loop_size_kept n kPointerSize kPointerSizeLog2 fuel :
  forall queue,
    post (size_kept n)
      (RunObjectAnalysis_loop kPointerSize kPointerSizeLog2 fuel queue).
Proof.
  induction fuel as [|fuel IH]; intros queue; simpl; [apply post_fail|].
  destruct queue as [|node queue]; size_auto.
Qed.
#[global] Hint Resolve RunObjectAnalysis_loop_size_kept : post.

Lemma IsAllocationPhi_loop_size_kept n edges :
  post (size_kept n) (IsAllocationPhi_loop edges).
Proof. induction edges as [|e edges IH]; simpl; size_auto. Qed.
#[global] Hint Resolve IsAllocationPhi_loop_size_kept : post.

Lemma CheckUsesForEscape_loop_size_kept n edges uses rep phi_escaping :
  post (size_kept n) (CheckUsesForEscape_loop edges uses rep phi_escaping).
Proof. induction edges as [|e edges IH]; simpl; size_auto. Qed.
#[global] Hint Resolve CheckUsesForEscape_loop_size_kept : post.

Lemma EscapeStatusAnalysis_Process_size_kept n node :
  post (size_kept n) (EscapeStatusAnalysis_Process node).
Proof. unfold EscapeStatusAnalysis_Process. size_auto. Qed.
#[global] Hint Resolve EscapeStatusAnalysis_Process_size_kept : post.

Lemma RunStatusAnalysis_loop_size_kept n fuel :
  post (size_kept n) (RunStatusAnalysis_loop fuel).
Proof. induction fuel as [|fuel IH]; simpl; size_auto. Qed.
#[global] Hint Resolve RunStatusAnalysis_loop_size_kept : post.

(** When the run is over every state in the zone has as many slots as
    there are aliases. *)
Lemma Run_sized kPointerSize kPointerSizeLog2 fuel g s' :
  Run kPointerSize kPointerSizeLog2 fuel (new_EscapeAnalysis g) = Some (tt, s') ->
  sized (next_free_alias_ s') s'.
Proof.
  intros H. unfold Run in H.
  apply bind_Some in H as (n & s0 & Hn & H).
  unfold NodeCount in Hn. minv Hn.
  apply bind_Some in H as (tbl & s0 & Htbl & H).
  apply gets_Some in Htbl as [-> ->].
  apply bind_Some in H as ([] & s0 & Hres & H). apply modify_Some in Hres.
  apply bind_Some in H as ([] & s1 & Hassign & H).
  apply AssignAliases_traversal_frame in Hassign as (_ & _ & T3 & _).
  subst s0. simpl in T3.
  assert (sized (next_free_alias_ s1) s1) as Hs1.
  { split; [done|]. intros q st Hq. by rewrite T3 in Hq. }
  cut (sized (next_free_alias_ s1) s').
  { intros Hs'. destruct Hs' as [Hn Hs']. rewrite Hn. by split. }
  revert H Hs1.
  match goal with
  | |- ?m s1 = Some (tt, s') -> _ =>
      cut (post (size_kept (next_free_alias_ s1)) m);
        [intros Hp Hm; exact (Hp _ _ _ Hm)|]
  end.
  unfold RunObjectAnalysis, RunStatusAnalysis. size_auto.
Qed.

(** X21.  Every [VirtualState] of a run has exactly [AliasCount] slots:
    after a run on a new [EscapeAnalysis], [size()] of every state in the
    zone is the number of aliases, whether the state was made for [Start],
    for an effect phi, or as a copy. *)
Theorem states_have_AliasCount_slots kPointerSize kPointerSizeLog2 fuel g s' :
  Run kPointerSize kPointerSizeLog2 fuel (new_EscapeAnalysis g) = Some (tt, s') ->
  exists count,
    AliasCount s' = Some (count, s') /\
    forall q, q < length (zone_states s') ->
      VirtualState_size q s' = Some (N.to_nat count, s').
Proof.
  intros H. apply Run_sized in H as [_ Hsz].
  exists (next_free_alias_ s'). split; [done|].
  intros q Hq. destruct (lookup_lt_is_Some_2 _ _ Hq) as [st Hst].
  unfold VirtualState_size.
  rewrite (bind_run _ _ s' st s') by (by apply load_state_Some).
  unfold ret. by rewrite (Hsz q st Hst).
Qed.

Lemma states_have_AliasCount_slots_witness :
  exists count,
    AliasCount store_load_run = Some (count, store_load_run) /\
    forall q, q < length (zone_states store_load_run) ->
      VirtualState_size q store_load_run = Some (N.to_nat count, store_load_run).
Proof.
  apply (states_have_AliasCount_slots 8 3 100 store_load_graph).
  vm_compute. reflexivity.
Defined.

Lemma discovery_alias_count g c s :
  discovery g c s -> (next_free_alias_ s < kUntrackable)%N.
Proof.
  intros D.
  assert (length (status_stack_ s) <= length (nodes g)) as Hlen.
  { apply NoDup_bounded_length; [apply D|]. intros x Hx.
    destruct (disc_status_stack _ _ _ D x Hx) as (a & Ha & _).
    rewrite <- (disc_aliases _ _ _ D). by eapply lookup_lt_Some. }
  pose proof (disc_count _ _ _ D). rewrite (disc_next _ _ _ D). lia.
Qed.

(** X22.  After a run on a new [EscapeAnalysis], [GetVirtualObject(state,
    node)] on a state of the zone returns, without changing anything, and
    it returns an object only for a node that [end] reaches and that is an
    [Allocate] or the [FinishRegion] of an [Allocate]; for every other
    node it returns null. *)
Theorem GetVirtualObject_only_for_allocations
    kPointerSize kPointerSizeLog2 fuel g s' q node :
  Run kPointerSize kPointerSizeLog2 fuel (new_EscapeAnalysis g) = Some (tt, s') ->
  q < length (zone_states s') ->
  exists r,
    GetVirtualObject (Some q) node s' = Some (r, s') /\
    (r <> None ->
     reachable g node /\
     (is_allocate g node \/ exists y, is_finish_of g node y)).
Proof.
  intros Hrun Hq.
  pose proof (Run_sized _ _ _ _ _ Hrun) as [_ Hsz].
  apply Run_numbering in Hrun as (s1 & D & Nm & Hstk & Hal & Hnext).
  pose proof (discovery_alias_count _ _ _ D) as Hcount. rewrite <- Hnext in Hcount.
  destruct (lookup_lt_is_Some_2 _ _ Hq) as [st Hst].
  specialize (Hsz q st Hst).
  unfold GetVirtualObject.
  rewrite (bind_run _ _ s' (aliases_ s') s') by done.
  destruct (decide (length (aliases_ s') <= node)) as [Hle|Hlt].
  { exists None. by split. }
  destruct (lookup_lt_is_Some_2 (aliases_ s') node) as [a Ha]; [lia|].
  unfold GetAlias. rewrite (bind_run _ _ s' a s') by (by apply alias_at_Some).
  unfold lift at 1. simpl.
  rewrite (bind_run _ _ s' q s') by done.
  rewrite (bind_run _ _ s' (length (VirtualState.info_ st)) s').
  2:{ unfold VirtualState_size.
      by rewrite (bind_run _ _ s' st s') by (by apply load_state_Some). }
  destruct (decide (N.of_nat (length (VirtualState.info_ st)) <= a)%N)
    as [Hge|Hin].
  { exists None. by split. }
  destruct (lookup_lt_is_Some_2 (VirtualState.info_ st) (N.to_nat a))
    as [r Hr]; [lia|].
  exists r. split.
  { unfold VirtualObjectFromAlias.
    rewrite (bind_run _ _ s' st s') by (by apply load_state_Some).
    unfold lift. by rewrite Hr. }
  intros _. rewrite Hal in Ha.
  assert (a < kUntrackable)%N as Ha_lt by lia.
  split.
  - apply (num_marked _ _ _ Nm). exists a. split; [done|].
    unfold kNotReachable, kUntrackable, Alias_max in *. lia.
  - destruct (nodes g !! node) as [nd|] eqn:Hnd.
    + destruct (decide (opcode (op nd) = kAllocate)) as [Hoc|Hoc].
      * left. by exists nd.
      * right. destruct (num_shared _ _ _ Nm node a Ha Ha_lt) as (y & Hy & _).
        { intros (nd' & Hnd' & Hoc'). by simplify_eq. }
        by exists y.
    + right. destruct (num_shared _ _ _ Nm node a Ha Ha_lt) as (y & Hy & _).
      { intros (nd' & Hnd' & _). by simplify_eq. }
      by exists y.
Qed.

Lemma GetVirtualObject_only_for_allocations_witness :
  exists r,
    GetVirtualObject (Some 0) 3 store_load_run = Some (r, store_load_run) /\
    (r <> None ->
     reachable store_load_graph 3 /\
     (is_allocate store_load_graph 3 \/
      exists y, is_finish_of store_load_graph 3 y)).
Proof.
  apply (GetVirtualObject_only_for_allocations 8 3 100 store_load_graph).
  - vm_compute. reflexivity.
  - vm_compute. lia.
Defined.

(** ** ExistsVirtualAllocate *)

(** The loop of [ExistsVirtualAllocate] over the ids of the alias map. *)
Fixpoint ExistsVirtualAllocate_loop (ids : list NodeId) : M bool :=
  match ids with
  | [] => ret false
  | id :: rest =>
      let* alias := GetAlias id in
      if decide (alias < kUntrackable)%N then
        let* v := EscapeStatusAnalysis_IsVirtual id in
        if (v : bool) then ret true else ExistsVirtualAllocate_loop rest
      else ExistsVirtualAllocate_loop rest
  end.

(** [bool EscapeAnalysis::ExistsVirtualAllocate()]. *)
Definition ExistsVirtualAllocate : M bool :=
  let* al := gets aliases_ in
  ExistsVirtualAllocate_loop (seq 0 (length al)).

(** [id] has the alias of an object and is virtual. *)
Definition virtual_object_node (s : Analysis) (id : NodeId) : Prop :=
  exists a v, aliases_ s !! id = Some a /\ (a < kUntrackable)%N /\
              status_ s !! id = Some v /\
              has_flag v kTracked = true /\ has_flag v kEscaped = false.

Lemma ExistsVirtualAllocate_loop_spec ids s :
  (forall id, id ∈ ids -> id < length (aliases_ s) /\ id < length (status_ s)) ->
  exists b, ExistsVirtualAllocate_loop ids s = Some (b, s) /\
            (b = true <-> exists id, id ∈ ids /\ virtual_object_node s id).
Proof.
  induction ids as [|id ids IH]; intros Hids; simpl.
  { exists false. split; [done|]. split; [done|].
    intros (id & Hid & _). by apply elem_of_nil in Hid. }
  destruct (Hids id) as [Hal Hst]; [apply list_elem_of_here|].
  destruct (lookup_lt_is_Some_2 _ _ Hal) as [a Ha].
  destruct (lookup_lt_is_Some_2 _ _ Hst) as [v Hv].
  destruct IH as (b & Hb & Hiff).
  { intros id' Hid'. by apply Hids, list_elem_of_further. }
  unfold GetAlias. rewrite (bind_run _ _ s a s) by (by apply alias_at_Some).
  assert (forall b', (b' = true <-> virtual_object_node s id \/ b = true) ->
            (b' = true <->
             exists id', id' ∈ id :: ids /\ virtual_object_node s id')) as Hstep.
  { intros b' Hb'. rewrite Hb', Hiff. split.
    - intros [Hv'|(id' & Hid' & Hv')].
      + exists id. split; [apply list_elem_of_here|done].
      + exists id'. split; [by apply list_elem_of_further|done].
    - intros (id' & [->|Hid']%elem_of_cons & Hv'); [by left|right].
      by exists id'. }
  assert (virtual_object_node s id <->
          (a < kUntrackable)%N /\
          has_flag v kTracked && negb (has_flag v kEscaped) = true) as Hvirt.
  { rewrite andb_true_iff, negb_true_iff. split.
    - intros (a' & v' & Ha' & Hlt & Hv' & Ht & He). by simplify_eq.
    - intros (Hlt & Ht & He). by exists a, v. }
  destruct (decide (a < kUntrackable)%N) as [Hlt|Hge].
  - rewrite (bind_run _ _ s (has_flag v kTracked && negb (has_flag v kEscaped)) s).
    2:{ apply IsVirtual_Some. by exists v. }
    destruct (has_flag v kTracked && negb (has_flag v kEscaped)) eqn:E.
    + exists true. split; [done|]. apply Hstep. rewrite Hvirt.
      split; [intros _; left; by split|done].
    + exists b. split; [done|]. apply Hstep. rewrite Hvirt.
      split; [by auto|]. by intros [[_ ?]|?].
  - exists b. split; [done|]. apply Hstep. rewrite Hvirt.
    split; [by auto|]. by intros [[? _]|?].
Qed.

Lemma run_frame_status_length s s' :
  run_frame s s' -> length (status_ s) <= length (status_ s').
Proof.
  intros (_ & _ & _ & _ & Hst & _).
  destruct (decide (length (status_ s) <= length (status_ s'))) as [|Hlt];
    [done|].
  destruct (lookup_lt_is_Some_2 (status_ s) (length (status_ s'))) as [v Hv];
    [lia|].
  apply Hst in Hv as (v' & Hv' & _). apply lookup_lt_Some in Hv'. lia.
Qed.

(** X23.  After a run on a new [EscapeAnalysis], [ExistsVirtualAllocate]
    stays within the status table, changes nothing, and answers [true]
    exactly when some node that [end] reaches, an [Allocate] or the
    [FinishRegion] of an [Allocate], is virtual. *)
Theorem ExistsVirtualAllocate_iff kPointerSize kPointerSizeLog2 fuel g s' :
  Run kPointerSize kPointerSizeLog2 fuel (new_EscapeAnalysis g) = Some (tt, s') ->
  exists b,
    ExistsVirtualAllocate s' = Some (b, s') /\
    (b = true <->
     exists n,
       reachable g n /\
       (is_allocate g n \/ exists y, is_finish_of g n y) /\
       EscapeAnalysis_IsVirtual n s' = Some (true, s')).
Proof.
  intros Hrun.
  pose proof (run_frame_status_length _ _ (Run_run_frame _ _ _ _ _ _ Hrun))
    as Hstatus.
  simpl in Hstatus. rewrite length_replicate in Hstatus.
  apply Run_numbering in Hrun as (s1 & D & Nm & Hstk & Hal & _).
  pose proof (disc_aliases _ _ _ D) as Hlen. rewrite <- Hal in Hlen.
  assert (forall x, ~ waiting None s1 x) as Hnw.
  { intros x [?|Hx]; [done|]. rewrite Hstk in Hx. by apply elem_of_nil in Hx. }
  destruct (ExistsVirtualAllocate_loop_spec (seq 0 (length (aliases_ s'))) s')
    as (b & Hb & Hiff).
  { intros id Hid. apply elem_of_seq in Hid. lia. }
  exists b. split.
  { unfold ExistsVirtualAllocate.
    by rewrite (bind_run _ _ s' (aliases_ s') s'). }
  assert (forall n, EscapeAnalysis_IsVirtual n s' = Some (true, s') <->
            exists v, status_ s' !! n = Some v /\
                      has_flag v kTracked = true /\ has_flag v kEscaped = false)
    as Hvirt.
  { intros n. unfold EscapeAnalysis_IsVirtual, GetStatusVectorSize.
    rewrite (bind_run _ _ s' (length (status_ s')) s')
      by (by rewrite (bind_run _ _ s' (status_ s') s')).
    destruct (decide (length (status_ s') <= n)) as [Hle|Hlt].
    - split; [done|]. intros (v & Hv & _). apply lookup_lt_Some in Hv. lia.
    - rewrite IsVirtual_Some. split.
      + intros (v & Hv & Hb' & _). symmetry in Hb'.
        apply andb_true_iff in Hb' as [Ht He%negb_true_iff]. by exists v.
      + intros (v & Hv & Ht & He). exists v. by rewrite Ht, He. }
  rewrite Hiff. split.
  - intros (id & _ & a & v & Ha & Hlt & Hv & Ht & He).
    rewrite Hal in Ha. exists id. split; [|split].
    + apply (num_marked _ _ _ Nm). exists a. split; [done|].
      unfold kNotReachable, kUntrackable, Alias_max in *. lia.
    + destruct (nodes g !! id) as [nd|] eqn:Hnd.
      * destruct (decide (opcode (op nd) = kAllocate)) as [Hoc|Hoc].
        { left. by exists nd. }
        right. destruct (num_shared _ _ _ Nm id a Ha Hlt) as (y & Hy & _).
        { intros (nd' & Hnd' & Hoc'). by simplify_eq. }
        by exists y.
      * right. destruct (num_shared _ _ _ Nm id a Ha Hlt) as (y & Hy & _).
        { intros (nd' & Hnd' & _). by simplify_eq. }
        by exists y.
    + apply Hvirt. by exists v.
  - intros (n & Hreach & Hkind & (v & Hv & Ht & He)%Hvirt).
    assert (exists a, aliases_ s1 !! n = Some a /\ (a < kUntrackable)%N)
      as (a & Ha & Hlt).
    { destruct Hkind as [Halloc|[y Hfin]].
      - apply (disc_status_stack _ _ _ D).
        by eapply discovery_allocations.
      - destruct (num_finish _ _ _ Nm n y) as (a & Ha & _ & Hlt); try done.
        + by eapply discovery_reachable.
        + by exists a. }
    exists n. split.
    + apply elem_of_seq. apply lookup_lt_Some in Ha. rewrite Hal. lia.
    + exists a, v. by rewrite Hal.
Qed.

Lemma ExistsVirtualAllocate_iff_witness :
  exists b,
    ExistsVirtualAllocate store_load_run = Some (b, store_load_run) /\
    (b = true <->
     exists n,
       reachable store_load_graph n /\
       (is_allocate store_load_graph n \/
        exists y, is_finish_of store_load_graph n y) /\
       EscapeAnalysis_IsVirtual n store_load_run = Some (true, store_load_run)).
Proof.
  apply (ExistsVirtualAllocate_iff 8 3 100 store_load_graph).
  vm_compute. reflexivity.
Defined.

(** ** GetVirtualObject at a node *)

(** [VirtualObject* EscapeAnalysis::GetVirtualObject(Node* at, NodeId id)]:
    neither the alias map nor the state is checked for its bounds. *)
Definition GetVirtualObject_at (at_ : NodeId) (id : NodeId)
    : M (option ObjPtr) :=
  let* states := virtual_state_at at_ in
  match states with
  | Some st =>
      let* alias := GetAlias id in
      VirtualObjectFromAlias st (N.to_nat alias)
  | None => ret None
  end.

(** When the traversal is over, the nodes with the alias of an object are
    the reachable allocations and their [FinishRegion] nodes. *)
Lemma numbering_object_alias g s n a :
  discovery g None s -> numbering g None s -> stack_ s = [] ->
  aliases_ s !! n = Some a ->
  (a < kUntrackable)%N <->
  reachable g n /\ (is_allocate g n \/ exists y, is_finish_of g n y).
Proof.
  intros D Nm Hstk Ha.
  assert (forall x, ~ waiting None s x) as Hnw.
  { intros x [?|Hx]; [done|]. rewrite Hstk in Hx. by apply elem_of_nil in Hx. }
  split.
  - intros Hlt. split.
    + apply (num_marked _ _ _ Nm). exists a. split; [done|].
      unfold kNotReachable, kUntrackable, Alias_max in *. lia.
    + destruct (nodes g !! n) as [nd|] eqn:Hnd.
      * destruct (decide (opcode (op nd) = kAllocate)) as [Hoc|Hoc].
        { left. by exists nd. }
        right. destruct (num_shared _ _ _ Nm n a Ha Hlt) as (y & Hy & _).
        { intros (nd' & Hnd' & Hoc'). by simplify_eq. }
        by exists y.
      * right. destruct (num_shared _ _ _ Nm n a Ha Hlt) as (y & Hy & _).
        { intros (nd' & Hnd' & _). by simplify_eq. }
        by exists y.
  - intros [Hreach [Halloc|[y Hfin]]].
    + destruct (disc_status_stack _ _ _ D n) as (a' & Ha' & Hlt).
      { by eapply discovery_allocations. }
      by simplify_eq.
    + destruct (num_finish _ _ _ Nm n y) as (a' & Ha' & _ & Hlt); try done.
      * by eapply discovery_reachable.
      * by simplify_eq.
Qed.

(** The alias of an object is below the alias counter. *)
Lemma numbering_alias_bound g c s n a :
  discovery g c s -> numbering g c s ->
  aliases_ s !! n = Some a -> (a < kUntrackable)%N ->
  (a < next_free_alias_ s)%N.
Proof.
  intros D Nm Ha Hlt.
  assert (forall x, is_allocate g x -> aliases_ s !! x = Some a ->
                    (a < next_free_alias_ s)%N) as Halloc.
  { intros x Hx Hax.
    pose proof (disc_tracked _ _ _ D x a Hx Hax Hlt) as Hin.
    apply elem_of_reverse, list_elem_of_lookup in Hin as [i Hi].
    pose proof (num_alias _ _ _ Nm i x Hi) as Hai.
    apply lookup_lt_Some in Hi. rewrite length_reverse in Hi.
    rewrite (disc_next _ _ _ D). simplify_eq. lia. }
  destruct (nodes g !! n) as [nd|] eqn:Hnd.
  - destruct (decide (opcode (op nd) = kAllocate)) as [Hoc|Hoc].
    { apply (Halloc n); [by exists nd|done]. }
    destruct (num_shared _ _ _ Nm n a Ha Hlt) as (y & Hy & Hay).
    { intros (nd' & Hnd' & Hoc'). by simplify_eq. }
    apply (Halloc y); [|done]. by destruct Hy as (? & _ & _ & _ & ?).
  - destruct (num_shared _ _ _ Nm n a Ha Hlt) as (y & Hy & Hay).
    { intros (nd' & Hnd' & _). by simplify_eq. }
    apply (Halloc y); [|done]. by destruct Hy as (? & _ & _ & _ & ?).
Qed.

(** X24.  [GetVirtualObject(at, id)] indexes the state at [at] by the
    alias of [id] with no check.  After a run on a new [EscapeAnalysis],
    where [at] has a state of the zone: for a reachable [Allocate] or
    [FinishRegion] of an [Allocate] the access is within bounds and the
    result is that of the checked [GetVirtualObject(state, node)]; for
    every other node of the graph the alias is [kUntrackable] or
    [kNotReachable] and the access is out of bounds.  Where [at] has no
    state the result is null. *)
Theorem GetVirtualObject_at_needs_object_alias
    kPointerSize kPointerSizeLog2 fuel g s' at_ id :
  Run kPointerSize kPointerSizeLog2 fuel (new_EscapeAnalysis g) = Some (tt, s') ->
  id < length (nodes g) ->
  (virtual_states_ s' !! at_ = Some None ->
   GetVirtualObject_at at_ id s' = Some (None, s')) /\
  forall q,
    virtual_states_ s' !! at_ = Some (Some q) -> q < length (zone_states s') ->
    (reachable g id /\ (is_allocate g id \/ exists y, is_finish_of g id y) ->
     exists r, GetVirtualObject_at at_ id s' = Some (r, s') /\
               GetVirtualObject (Some q) id s' = Some (r, s')) /\
    (~ (reachable g id /\ (is_allocate g id \/ exists y, is_finish_of g id y)) ->
     GetVirtualObject_at at_ id s' = None).
Proof.
  intros Hrun Hid.
  pose proof (Run_sized _ _ _ _ _ Hrun) as [_ Hsz].
  apply Run_numbering in Hrun as (s1 & D & Nm & Hstk & Hal & Hnext).
  pose proof (discovery_alias_count _ _ _ D) as Hcount. rewrite <- Hnext in Hcount.
  pose proof (disc_aliases _ _ _ D) as Hlen. rewrite <- Hal in Hlen.
  destruct (lookup_lt_is_Some_2 (aliases_ s') id) as [a Ha]; [lia|].
  pose proof Ha as Ha1. rewrite Hal in Ha1.
  pose proof (numbering_object_alias g s1 id a D Nm Hstk Ha1) as Hobj.
  unfold GetVirtualObject_at. split.
  { intros Hat.
    by rewrite (bind_run _ _ s' None s') by (by apply virtual_state_at_run). }
  intros q Hat Hq.
  rewrite !(bind_run _ _ s' (Some q) s') by (by apply virtual_state_at_run).
  destruct (lookup_lt_is_Some_2 _ _ Hq) as [st Hst].
  specialize (Hsz q st Hst).
  unfold GetAlias. rewrite (bind_run _ _ s' a s') by (by apply alias_at_Some).
  unfold VirtualObjectFromAlias.
  rewrite (bind_run _ _ s' st s') by (by apply load_state_Some).
  split.
  - intros Hkind. apply Hobj in Hkind.
    pose proof (numbering_alias_bound _ _ _ _ _ D Nm Ha1 Hkind) as Hbound.
    rewrite <- Hnext in Hbound.
    destruct (lookup_lt_is_Some_2 (VirtualState.info_ st) (N.to_nat a))
      as [r Hr]; [lia|].
    exists r. unfold lift. rewrite Hr. split; [done|].
    unfold GetVirtualObject.
    rewrite (bind_run _ _ s' (aliases_ s') s') by done.
    rewrite decide_False by lia.
    unfold GetAlias. rewrite (bind_run _ _ s' a s') by (by apply alias_at_Some).
    unfold lift at 1. simpl.
    rewrite (bind_run _ _ s' q s') by done.
    rewrite (bind_run _ _ s' (length (VirtualState.info_ st)) s').
    2:{ unfold VirtualState_size.
        by rewrite (bind_run _ _ s' st s') by (by apply load_state_Some). }
    rewrite decide_False by lia.
    unfold VirtualObjectFromAlias.
    rewrite (bind_run _ _ s' st s') by (by apply load_state_Some).
    unfold lift. by rewrite Hr.
  - intros Hnot.
    assert (kUntrackable <= a)%N as Hge.
    { destruct (decide (a < kUntrackable)%N) as [Hlt|]; [|lia].
      by apply Hobj in Hlt. }
    unfold lift. rewrite (lookup_ge_None_2 (VirtualState.info_ st)); [done|].
    lia.
Qed.

Lemma GetVirtualObject_at_needs_object_alias_witness :
  (virtual_states_ store_load_run !! 5 = Some None ->
   GetVirtualObject_at 5 2 store_load_run = Some (None, store_load_run)) /\
  forall q,
    virtual_states_ store_load_run !! 5 = Some (Some q) ->
    q < length (zone_states store_load_run) ->
    (reachable store_load_graph 2 /\
     (is_allocate store_load_graph 2 \/
      exists y, is_finish_of store_load_graph 2 y) ->
     exists r, GetVirtualObject_at 5 2 store_load_run = Some (r, store_load_run) /\
               GetVirtualObject (Some q) 2 store_load_run
                 = Some (r, store_load_run)) /\
    (~ (reachable store_load_graph 2 /\
        (is_allocate store_load_graph 2 \/
         exists y, is_finish_of store_load_graph 2 y)) ->
     GetVirtualObject_at 5 2 store_load_run = None).
Proof.
  apply (GetVirtualObject_at_needs_object_alias 8 3 100 store_load_graph).
  - vm_compute. reflexivity.
  - vm_compute. lia.
Defined.

(** ** Every reachable allocation is classified *)

(** A status word with [kEscaped] has [kTracked] too. *)
Definition entries_sane (s : Analysis) : Prop :=
  forall m v, status_ s !! m = Some v ->
              has_flag v kEscaped = true -> has_flag v kTracked = true.

Definition sane_kept : relation Analysis :=
  fun s s' => entries_sane s -> entries_sane s'.

#[global] Instance sane_kept_refl : Reflexive sane_kept.
Proof. intros s H. exact H. Qed.
#[global] Instance sane_kept_trans : Transitive sane_kept.
Proof. intros s1 s2 s3 H12 H23 H. auto. Qed.

Lemma status_or_sane_kept id mask :
  (has_flag mask kEscaped = true -> has_flag mask kTracked = true) ->
  post sane_kept (status_or id mask).
Proof.
  intros Hmask s r s' H. apply status_or_Some in H as (v & Hv & ->).
  intros Hok m w Hm. simpl in Hm. destruct (decide (m = id)) as [->|Hne].
  - apply list_lookup_insert_Some in Hm as [(_ & <- & _)|(? & _)]; [|done].
    rewrite !has_flag_set_flag. intros [He|He]%orb_true_iff.
    + by rewrite (Hok id v Hv He).
    + by rewrite (Hmask He), orb_true_r.
  - rewrite list_lookup_insert_ne in Hm by done. by eapply Hok.
Qed.

Lemma status_clear_sane_kept id mask :
  N.land mask kTracked = 0%N -> N.land mask kEscaped = 0%N ->
  post sane_kept (status_clear id mask).
Proof.
  intros Ht He s r s' H. apply status_clear_Some in H as (v & Hv & ->).
  intros Hok m w Hm. simpl in Hm. destruct (decide (m = id)) as [->|Hne].
  - apply list_lookup_insert_Some in Hm as [(_ & <- & _)|(? & _)]; [|done].
    rewrite !has_flag_clear_flag_other by done. by eapply Hok.
  - rewrite list_lookup_insert_ne in Hm by done. by eapply Hok.
Qed.

#[global] Hint Extern 1 (post sane_kept (status_or _ _)) =>
  apply status_or_sane_kept;
  (let H := fresh in
   intros H; first [reflexivity | vm_compute in H; discriminate H]) : post.
#[global] Hint Extern 1 (post sane_kept (status_clear _ _)) =>
  apply status_clear_sane_kept; reflexivity : post.

Ltac sane_special :=
  match goal with
  | |- post sane_kept (modify _) =>
      apply post_modify; intros ? ?; assumption
  end.

Ltac sane_auto := repeat first [sane_special | post_step].

Lemma IsAllocationPhi_loop_sane_kept edges :
  post sane_kept (IsAllocationPhi_loop edges).
Proof. induction edges as [|e edges IH]; simpl; sane_auto. Qed.
#[global] Hint Resolve IsAllocationPhi_loop_sane_kept : post.

Lemma CheckUsesForEscape_loop_sane_kept edges uses rep phi_escaping :
  post sane_kept (CheckUsesForEscape_loop edges uses rep phi_escaping).
Proof. induction edges as [|e edges IH]; simpl; sane_auto. Qed.
#[global] Hint Resolve CheckUsesForEscape_loop_sane_kept : post.

Lemma EscapeStatusAnalysis_Process_sane_kept node :
  post sane_kept (EscapeStatusAnalysis_Process node).
Proof. unfold EscapeStatusAnalysis_Process. sane_auto. Qed.

(** The status of [m] has [kTracked]. *)
Definition tracked (m : NodeId) (s : Analysis) : Prop :=
  exists v, status_ s !! m = Some v /\ has_flag v kTracked = true.

Lemma run_frame_tracked m s s' : run_frame s s' -> tracked m s -> tracked m s'.
Proof.
  intros (_ & _ & _ & _ & Hst & _) (v & Hv & Ht).
  destruct (Hst m v Hv) as (v' & Hv' & _ & Ht'). exists v'. auto.
Qed.

(** Processing an allocation leaves it tracked. *)
Lemma ProcessAllocate_tracks node s s' :
  entries_sane s -> ProcessAllocate node s = Some (tt, s') -> tracked node s'.
Proof.
  intros Hsane H. unfold ProcessAllocate in H.
  apply bind_Some in H as (he & s0 & Hhe & H).
  apply HasEntry_Some in Hhe as (v & Hv & -> & ->).
  destruct (has_flag v (N.lor kTracked kEscaped)) eqn:Hentry; simpl in H.
  - assert (tracked node s) as Ht.
    { exists v. split; [done|]. rewrite has_flag_lor_mask in Hentry.
      apply orb_true_iff in Hentry as [?|He]; [done|]. by eapply Hsane. }
    eapply run_frame_tracked; [|exact Ht].
    revert H.
    match goal with
    | |- ?m s = Some (tt, s') -> _ =>
        cut (post run_frame m); [intros Hp Hm; exact (Hp _ _ _ Hm)|]
    end.
    frame_auto.
  - apply bind_Some in H as (done_ & s1 & Hdone & H).
    apply bind_Some in Hdone as ([] & s2 & Hor & Hdone).
    apply status_or_Some in Hor as (v' & Hv' & ->).
    assert (tracked node (set_status (<[node := set_flag v' kTracked]>
                                        (status_ s)) s)) as Ht.
    { exists (set_flag v' kTracked). split.
      - simpl. apply list_lookup_insert_eq. by eapply lookup_lt_Some.
      - rewrite has_flag_set_flag. by rewrite orb_true_r. }
    eapply run_frame_tracked; [|exact Ht].
    etrans.
    + revert Hdone.
      match goal with
      | |- ?m ?s0 = Some (done_, s1) -> _ =>
          cut (post run_frame m); [intros Hp Hm; exact (Hp _ _ _ Hm)|]
      end.
      frame_auto.
    + revert H.
      match goal with
      | |- ?m s1 = Some (tt, s') -> _ =>
          cut (post run_frame m); [intros Hp Hm; exact (Hp _ _ _ Hm)|]
      end.
      frame_auto.
Qed.

(** The status fixed point leaves every allocation that is on its stack
    tracked. *)
Lemma RunStatusAnalysis_loop_tracks m fuel :
  forall s s',
    entries_sane s -> is_allocate (graph_ s) m ->
    m ∈ status_stack_ s \/ tracked m s ->
    RunStatusAnalysis_loop fuel s = Some (tt, s') ->
    tracked m s'.
Proof.
  induction fuel as [|fuel IH]; intros s s' Hsane Halloc Hm H; simpl in H;
    [done|].
  apply bind_Some in H as (stk & s0 & Hstk & H).
  apply gets_Some in Hstk as [-> ->].
  destruct (status_stack_ s) as [|node rest] eqn:Hstack.
  { minv H. destruct Hm as [Hin|Hm]; [|done]. by apply elem_of_nil in Hin. }
  apply bind_Some in H as ([] & s1 & Hpop & H). apply modify_Some in Hpop.
  apply bind_Some in H as ([] & s2 & Hclear & H).
  apply bind_Some in H as ([] & s3 & Hproc & H).
  apply bind_Some in H as ([] & s4 & Hvisited & H).
  assert (status_phase None s1 s2) as H12.
  { eapply (status_clear_status_phase None node kOnStack); [done|done|].
    exact Hclear. }
  assert (status_phase (Some node) s2 s3) as H23
    by (by eapply EscapeStatusAnalysis_Process_status_phase).
  assert (status_phase None s3 s4) as H34.
  { eapply (status_or_status_phase None node kVisited); [done|done|].
    exact Hvisited. }
  assert (run_frame s1 s2) as F12.
  { eapply (status_clear_run_frame node kOnStack); [done|done|exact Hclear]. }
  assert (run_frame s2 s3) as F23
    by (by eapply EscapeStatusAnalysis_Process_run_frame).
  assert (run_frame s3 s4) as F34
    by (by eapply (status_or_run_frame node kVisited)).
  assert (entries_sane s1) as S1 by (by subst s1).
  assert (entries_sane s2) as S2.
  { eapply (status_clear_sane_kept node kOnStack); [done|done|exact Hclear|done]. }
  assert (entries_sane s3) as S3
    by (by eapply EscapeStatusAnalysis_Process_sane_kept).
  assert (entries_sane s4) as S4.
  { eapply (status_or_sane_kept node kVisited); [|exact Hvisited|done].
    intros Hf. vm_compute in Hf. discriminate Hf. }
  assert (graph_ s2 = graph_ s) as Hg2.
  { destruct H12 as [-> _]. by subst s1. }
  assert (graph_ s4 = graph_ s) as Hg4.
  { destruct H34 as [-> _]. destruct H23 as [-> _]. done. }
  eapply IH; [exact S4|by rewrite Hg4| |exact H].
  destruct (decide (m = node)) as [->|Hne].
  - right. eapply run_frame_tracked; [exact F34|].
    destruct Halloc as (nd & Hnd & Hoc).
    unfold EscapeStatusAnalysis_Process in Hproc.
    rewrite (bind_run _ _ _ kAllocate s2) in Hproc.
    2:{ rewrite <- Hoc. apply get_opcode_run. by rewrite Hg2. }
    simpl in Hproc. eapply ProcessAllocate_tracks; [exact S2|exact Hproc].
  - destruct Hm as [Hin|Hm].
    + left. destruct H34 as (_ & K34 & _). destruct H23 as (_ & K23 & _).
      destruct H12 as (_ & K12 & _). apply K34, K23, K12. subst s1. simpl.
      apply elem_of_cons in Hin as [?|?]; done.
    + right. eapply run_frame_tracked; [exact F34|].
      eapply run_frame_tracked; [exact F23|].
      eapply run_frame_tracked; [exact F12|]. by subst s1.
Qed.

(** A run with a reachable allocation comes to the status fixed point,
    with the flags paired and the allocation on the stack. *)
Lemma Run_status_work kPointerSize kPointerSizeLog2 fuel g s' m :
  reachable g m -> is_allocate g m ->
  Run kPointerSize kPointerSizeLog2 fuel (new_EscapeAnalysis g) = Some (tt, s') ->
  exists s6, paired (status_ s6) /\ m ∈ status_stack_ s6 /\
             RunStatusAnalysis_loop fuel s6 = Some (tt, s').
Proof.
  intros Hreach Halloc H. unfold Run in H.
  apply bind_Some in H as (n & s0 & Hn & H). unfold NodeCount in Hn. minv Hn.
  apply bind_Some in H as (tbl & s0 & Htbl & H). apply gets_Some in Htbl as [-> ->].
  apply bind_Some in H as ([] & s0 & Hmod & H). apply modify_Some in Hmod.
  apply bind_Some in H as ([] & s1 & Hassign & H).
  assert (paired (status_ s1)) as Hp1.
  { eapply (AssignAliases_pairing _ _ _ _ Hassign). subst s0. simpl.
    apply new_EscapeAnalysis_paired. }
  apply AssignAliases_discovery in Hassign as [D Hstk]; subst s0; try done.
  2:{ simpl. intros x v Hv. apply lookup_replicate in Hv as [-> _]. done. }
  simpl in D.
  pose proof (discovery_allocations g s1 m D Hstk Hreach Halloc) as Hin1.
  apply bind_Some in H as (count & s0 & Hcount & H).
  unfold AliasCount in Hcount. apply gets_Some in Hcount as [-> ->].
  destruct (decide (0 < next_free_alias_ s1)%N) as [_|Hzero].
  2:{ exfalso. apply Hzero. rewrite (disc_next _ _ _ D).
      destruct (status_stack_ s1); [by apply elem_of_nil in Hin1|simpl; lia]. }
  apply bind_Some in H as ([] & s2 & Hcache & H). apply modify_Some in Hcache.
  apply bind_Some in H as (n & s0 & Hn & H). unfold NodeCount in Hn. minv Hn.
  apply bind_Some in H as (tbl & s0 & Htbl & H). apply gets_Some in Htbl as [-> ->].
  apply bind_Some in H as ([] & s3 & Hmod & H). apply modify_Some in Hmod.
  apply bind_Some in H as ([] & s4 & Hresize & H).
  apply bind_Some in H as ([] & s5 & Hobject & H).
  unfold RunStatusAnalysis in H.
  apply bind_Some in H as ([] & s6 & Hresize' & H).
  apply ResizeStatusVector_object_phase in Hresize as (A1 & _ & A3).
  apply RunObjectAnalysis_object_phase in Hobject as (B1 & _ & B3).
  apply ResizeStatusVector_object_phase in Hresize' as (C1 & _ & C3).
  exists s6. split; [|split; [|exact H]].
  - apply C3, B3, A3. by subst s3.
  - rewrite C1, B1, A1. by subst s3.
Qed.



(** ** The stack of the status fixed point *)

(** [kOnStack] marks the nodes on the stack of the status fixed point, and
    no node is on it twice. *)
Definition worklist_ok (s : Analysis) : Prop :=
  NoDup (status_stack_ s) /\
  (forall x, x ∈ status_stack_ s ->
     exists v, status_ s !! x = Some v /\ has_flag v kOnStack = true) /\
  (forall x v, status_ s !! x = Some v -> has_flag v kOnStack = true ->
     x ∈ status_stack_ s).

Definition work_kept : relation Analysis :=
  fun s s' => worklist_ok s -> worklist_ok s'.

#[global] Instance work_kept_refl : Reflexive work_kept.
Proof. intros s H. exact H. Qed.
#[global] Instance work_kept_trans : Transitive work_kept.
Proof. intros s1 s2 s3 H12 H23 H. auto. Qed.

(** A status word changes, but not its [kOnStack]. *)
Lemma worklist_ok_insert s id v w :
  status_ s !! id = Some v -> has_flag w kOnStack = has_flag v kOnStack ->
  worklist_ok s -> worklist_ok (set_status (<[id := w]> (status_ s)) s).
Proof.
  intros Hv Hw (Hnd & Hin & Hon). split; [done|]. split; simpl.
  - intros x Hx. destruct (Hin x Hx) as (u & Hu & Hf).
    destruct (decide (x = id)) as [->|Hne].
    + exists w. split.
      * apply list_lookup_insert_eq. by eapply lookup_lt_Some.
      * simplify_eq. congruence.
    + exists u. by rewrite list_lookup_insert_ne.
  - intros x u Hu Hf. destruct (decide (x = id)) as [->|Hne].
    + apply list_lookup_insert_Some in Hu as [(_ & <- & _)|(? & _)]; [|done].
      apply (Hon id v); congruence.
    + rewrite list_lookup_insert_ne in Hu by done. by eapply Hon.
Qed.

Lemma status_or_work_kept id mask :
  has_flag mask kOnStack = false -> post work_kept (status_or id mask).
Proof.
  intros Hmask s r s' H Hok. apply status_or_Some in H as (v & Hv & ->).
  eapply worklist_ok_insert; [exact Hv| |exact Hok].
  by rewrite has_flag_set_flag, Hmask, orb_false_r.
Qed.

Lemma status_clear_work_kept id mask :
  N.land mask kOnStack = 0%N -> post work_kept (status_clear id mask).
Proof.
  intros Hmask s r s' H Hok. apply status_clear_Some in H as (v & Hv & ->).
  eapply worklist_ok_insert; [exact Hv| |exact Hok].
  by apply has_flag_clear_flag_other.
Qed.

Lemma ResizeStatusVector_work_kept : post work_kept ResizeStatusVector.
Proof.
  intros s r s' H. unfold ResizeStatusVector, NodeCount in H. minv H.
  case_decide; minv H; [|reflexivity].
  intros (Hnd & Hin & Hon). split; [done|]. split; simpl.
  - intros x Hx. destruct (Hin x Hx) as (v & Hv & Hf). exists v. split; [|done].
    pose proof (grow_size_ge (length (nodes (graph_ s)))) as Hge.
    rewrite resize_grow by lia. by apply lookup_app_l_Some.
  - intros x v Hv Hf. unfold VirtualObject.resize in Hv.
    apply lookup_app_Some in Hv as [Hv|(_ & Hv)].
    + apply lookup_take_Some in Hv as [Hv _]. by eapply Hon.
    + apply lookup_replicate in Hv as [-> _]. done.
Qed.

(** A node that is not on the stack is pushed and marked. *)
Lemma push_work_kept x v s s' :
  status_ s !! x = Some v -> has_flag v kOnStack = false ->
  (status_stack_push x;; status_or x kOnStack) s = Some (tt, s') ->
  worklist_ok s -> worklist_ok s'.
Proof.
  intros Hv Hoff H (Hnd & Hin & Hon).
  apply bind_Some in H as ([] & s1 & Hpush & H).
  unfold status_stack_push in Hpush. minv Hpush.
  apply status_or_Some in H as (v' & Hv' & ->). simpl in Hv'. simplify_eq.
  assert (x ∉ status_stack_ s) as Hnin.
  { intros Hx. destruct (Hin x Hx) as (u & Hu & Hf). simplify_eq. congruence. }
  split; [by apply NoDup_cons_2|]. split; simpl.
  - intros y [->|Hy]%elem_of_cons.
    + exists (set_flag v kOnStack). split.
      * apply list_lookup_insert_eq. by eapply lookup_lt_Some.
      * by rewrite has_flag_set_flag, orb_true_r.
    + destruct (Hin y Hy) as (u & Hu & Hf). exists u. split; [|done].
      rewrite list_lookup_insert_ne; [done|]. by intros ->.
  - intros y u Hu Hf. destruct (decide (y = x)) as [->|Hne].
    + apply list_elem_of_here.
    + rewrite list_lookup_insert_ne in Hu by done.
      apply list_elem_of_further. by eapply Hon.
Qed.

Lemma EnqueueForStatusAnalysis_work_kept node :
  post work_kept (EnqueueForStatusAnalysis node).
Proof.
  intros s r s' H Hok. unfold EnqueueForStatusAnalysis in H.
  apply bind_Some in H as (v & s0 & Hv & H).
  apply status_at_Some in Hv as [Hv ->].
  destruct (has_flag v kOnStack) eqn:Hon; simpl in H; [by minv H|].
  destruct r. by eapply push_work_kept.
Qed.

Lemma revisit_use_work_kept use :
  post work_kept
    (let* v := status_at use in
     if negb (has_flag v kOnStack) then
       let* nr := IsNotReachable use in
       if negb nr then status_stack_push use;; status_or use kOnStack
       else ret tt
     else ret tt).
Proof.
  intros s r s' H Hok.
  apply bind_Some in H as (v & s0 & Hv & H).
  apply status_at_Some in Hv as [Hv ->].
  destruct (has_flag v kOnStack) eqn:Hon; simpl in H; [by minv H|].
  apply bind_Some in H as (nr & s0 & Hnr & H).
  assert (s0 = s) as ->.
  { unfold IsNotReachable in Hnr. minv Hnr. case_decide; [by minv Hnr|].
    apply bind_Some in Hnr as (a & s1 & Ha & Hnr).
    apply alias_at_Some in Ha as [_ ->]. by minv Hnr. }
  destruct nr; simpl in H; [by minv H|].
  destruct r. by eapply push_work_kept.
Qed.

#[global] Hint Resolve ResizeStatusVector_work_kept
  EnqueueForStatusAnalysis_work_kept revisit_use_work_kept : post.
#[global] Hint Extern 1 (post work_kept (status_or _ _)) =>
  apply status_or_work_kept; reflexivity : post.
#[global] Hint Extern 1 (post work_kept (status_clear _ _)) =>
  apply status_clear_work_kept; reflexivity : post.

Ltac work_special :=
  match goal with
  | |- post work_kept (modify _) =>
      apply post_modify; intros ? ?; assumption
  end.

Ltac work_auto := repeat first [work_special | post_step].

Lemma RevisitInputs_work_kept node : post work_kept (RevisitInputs node).
Proof. unfold RevisitInputs. work_auto. Qed.

Lemma RevisitUses_work_kept node : post work_kept (RevisitUses node).
Proof. unfold RevisitUses. work_auto. Qed.
#[global] Hint Resolve RevisitInputs_work_kept RevisitUses_work_kept : post.

Lemma IsDanglingEffectNode_loop_work_kept node edges :
  post work_kept (IsDanglingEffectNode_loop node edges).
Proof. induction edges as [|e edges IH]; simpl; work_auto. Qed.
#[global] Hint Resolve IsDanglingEffectNode_loop_work_kept : post.

Lemma IsEffectBranchPoint_loop_work_kept node edges count :
  post work_kept (IsEffectBranchPoint_loop node edges count).
Proof.
  revert count. induction edges as [|e edges IH]; intros count; simpl; work_auto.
Qed.
#[global] Hint Resolve IsEffectBranchPoint_loop_work_kept : post.

Lemma EscapeAnalysis_Process_work_kept kPointerSize kPointerSizeLog2 node :
  post work_kept (EscapeAnalysis_Process kPointerSize kPointerSizeLog2 node).
Proof. unfold EscapeAnalysis_Process. work_auto. Qed.
#[global] Hint Resolve EscapeAnalysis_Process_work_kept : post.

Lemma RunObjectAnalysis_loop_work_kept kPointerSize kPointerSizeLog2 fuel :
  forall queue,
    post work_kept
      (RunObjectAnalysis_loop kPointerSize kPointerSizeLog2 fuel queue).
Proof.
  induction fuel as [|fuel IH]; intros queue; simpl; [apply post_fail|].
  destruct queue as [|node queue]; work_auto.
Qed.
#[global] Hint Resolve RunObjectAnalysis_loop_work_kept : post.

Lemma AssignAliases_loop_work_kept fuel : post work_kept (AssignAliases_loop fuel).
Proof. induction fuel as [|fuel IH]; simpl; work_auto. Qed.
#[global] Hint Resolve AssignAliases_loop_work_kept : post.

Lemma IsAllocationPhi_loop_work_kept edges :
  post work_kept (IsAllocationPhi_loop edges).
Proof. induction edges as [|e edges IH]; simpl; work_auto. Qed.
#[global] Hint Resolve IsAllocationPhi_loop_work_kept : post.

Lemma CheckUsesForEscape_loop_work_kept edges uses rep phi_escaping :
  post work_kept (CheckUsesForEscape_loop edges uses rep phi_escaping).
Proof. induction edges as [|e edges IH]; simpl; work_auto. Qed.
#[global] Hint Resolve CheckUsesForEscape_loop_work_kept : post.

Lemma EscapeStatusAnalysis_Process_work_kept node :
  post work_kept (EscapeStatusAnalysis_Process node).
Proof. unfold EscapeStatusAnalysis_Process. work_auto. Qed.
#[global] Hint Resolve EscapeStatusAnalysis_Process_work_kept : post.

(** The status fixed point keeps the invariant and ends with an empty
    stack. *)
Lemma RunStatusAnalysis_loop_work fuel :
  forall s s',
    worklist_ok s ->
    RunStatusAnalysis_loop fuel s = Some (tt, s') ->
    worklist_ok s' /\ status_stack_ s' = [].
Proof.
  induction fuel as [|fuel IH]; intros s s' Hok H; simpl in H; [done|].
  apply bind_Some in H as (stk & s0 & Hstk & H).
  apply gets_Some in Hstk as [-> ->].
  destruct (status_stack_ s) as [|node rest] eqn:Hstack.
  { by minv H. }
  apply bind_Some in H as ([] & s1 & Hpop & H). apply modify_Some in Hpop.
  apply bind_Some in H as ([] & s2 & Hclear & H).
  apply bind_Some in H as ([] & s3 & Hproc & H).
  apply bind_Some in H as ([] & s4 & Hvisited & H).
  apply status_clear_Some in Hclear as (v & Hv & ->).
  subst s1. simpl in *.
  destruct Hok as (Hnd & Hin & Hon). rewrite Hstack in Hnd, Hin, Hon.
  pose proof (NoDup_cons_1_1 _ _ Hnd) as Hnin.
  apply NoDup_cons_1_2 in Hnd.
  assert (worklist_ok
            (set_status (<[node := clear_flag v kOnStack]> (status_ s))
               (set_status_stack rest s))) as Hok2.
  { split; [done|]. split; simpl.
    - intros x Hx. destruct (Hin x) as (u & Hu & Hf);
        [by apply list_elem_of_further|].
      exists u. split; [|done]. rewrite list_lookup_insert_ne; [done|].
      by intros ->.
    - intros x u Hu Hf. destruct (decide (x = node)) as [->|Hne].
      + apply list_lookup_insert_Some in Hu as [(_ & <- & _)|(? & _)]; [|done].
        by rewrite has_flag_clear_flag_same in Hf.
      + rewrite list_lookup_insert_ne in Hu by done.
        specialize (Hon x u Hu Hf). apply elem_of_cons in Hon as [?|?]; done. }
  eapply IH; [|exact H].
  eapply (status_or_work_kept node kVisited); [done|exact Hvisited|].
  by eapply EscapeStatusAnalysis_Process_work_kept.
Qed.

Lemma new_EscapeAnalysis_worklist_ok g : worklist_ok (new_EscapeAnalysis g).
Proof.
  split; [apply NoDup_nil_2|]. split; simpl.
  - intros x Hx. by apply elem_of_nil in Hx.
  - intros x v Hv Hf. apply lookup_replicate in Hv as [-> _]. done.
Qed.

(** A run keeps the invariant and ends with an empty stack. *)
Lemma Run_work kPointerSize kPointerSizeLog2 fuel g s' :
  Run kPointerSize kPointerSizeLog2 fuel (new_EscapeAnalysis g) = Some (tt, s') ->
  worklist_ok s' /\ status_stack_ s' = [].
Proof.
  intros H. unfold Run in H.
  apply bind_Some in H as (n & s0 & Hn & H). unfold NodeCount in Hn. minv Hn.
  apply bind_Some in H as (tbl & s0 & Htbl & H). apply gets_Some in Htbl as [-> ->].
  apply bind_Some in H as ([] & s0 & Hmod & H). apply modify_Some in Hmod.
  apply bind_Some in H as ([] & s1 & Hassign & H).
  assert (worklist_ok s1) as Hok1.
  { assert (post work_kept (AssignAliases fuel)) as Hp
      by (unfold AssignAliases; work_auto).
    eapply Hp; [exact Hassign|]. subst s0.
    apply (new_EscapeAnalysis_worklist_ok g). }
  apply AssignAliases_discovery in Hassign as [D Hstk]; subst s0; try done.
  2:{ simpl. intros x v Hv. apply lookup_replicate in Hv as [-> _]. done. }
  apply bind_Some in H as (count & s0 & Hcount & H).
  unfold AliasCount in Hcount. apply gets_Some in Hcount as [-> ->].
  destruct (decide (0 < next_free_alias_ s1)%N) as [_|Hzero].
  2:{ assert (s' = s1) as -> by (by minv H).
      split; [done|]. rewrite (disc_next _ _ _ D) in Hzero.
      destruct (status_stack_ s1) as [|x l]; [done|]. simpl in Hzero. lia. }
  apply bind_Some in H as ([] & s2 & Hcache & H). apply modify_Some in Hcache.
  apply bind_Some in H as (n & s0 & Hn & H). unfold NodeCount in Hn. minv Hn.
  apply bind_Some in H as (tbl & s0 & Htbl & H). apply gets_Some in Htbl as [-> ->].
  apply bind_Some in H as ([] & s3 & Hmod & H). apply modify_Some in Hmod.
  apply bind_Some in H as ([] & s4 & Hresize & H).
  apply bind_Some in H as ([] & s5 & Hobject & H).
  unfold RunStatusAnalysis in H.
  apply bind_Some in H as ([] & s6 & Hresize' & H).
  eapply RunStatusAnalysis_loop_work; [|exact H].
  eapply ResizeStatusVector_work_kept; [exact Hresize'|].
  assert (post work_kept (RunObjectAnalysis kPointerSize kPointerSizeLog2 fuel))
    as Hp by (unfold RunObjectAnalysis; work_auto).
  eapply Hp; [exact Hobject|].
  eapply ResizeStatusVector_work_kept; [exact Hresize|]. by subst.
Qed.

(** X26.  [kOnStack] is membership in the stack of the status fixed
    point: if no node is on the stack twice and the nodes on it are those
    whose status has [kOnStack], the same holds after
    [EnqueueForStatusAnalysis], [RevisitInputs], [RevisitUses] and a step
    of the status fixed point. *)
Theorem status_stack_has_no_duplicates node (s s' : Analysis) :
  worklist_ok s ->
  EnqueueForStatusAnalysis node s = Some (tt, s') \/
  RevisitInputs node s = Some (tt, s') \/
  RevisitUses node s = Some (tt, s') \/
  EscapeStatusAnalysis_Process node s = Some (tt, s') ->
  NoDup (status_stack_ s') /\
  forall x v, status_ s' !! x = Some v ->
    (has_flag v kOnStack = true <-> x ∈ status_stack_ s').
Proof.
  intros Hok H.
  assert (worklist_ok s') as (Hnd & Hin & Hon).
  { destruct H as [H|[H|[H|H]]].
    - by eapply EnqueueForStatusAnalysis_work_kept.
    - by eapply RevisitInputs_work_kept.
    - by eapply RevisitUses_work_kept.
    - by eapply EscapeStatusAnalysis_Process_work_kept. }
  split; [done|]. intros x v Hv. split; [by apply Hon|].
  intros Hx. destruct (Hin x Hx) as (u & Hu & Hf). by simplify_eq.
Qed.

Definition store_load_enqueued : Analysis :=
  Eval vm_compute in state_after (EnqueueForStatusAnalysis 3) store_load_run.

Lemma status_stack_has_no_duplicates_witness :
  NoDup (status_stack_ store_load_enqueued) /\
  forall x v, status_ store_load_enqueued !! x = Some v ->
    (has_flag v kOnStack = true <-> x ∈ status_stack_ store_load_enqueued).
Proof.
  apply (status_stack_has_no_duplicates 3 store_load_run store_load_enqueued).
  - split; [apply NoDup_nil_2|]. split.
    + intros x Hx. by apply elem_of_nil in Hx.
    + intros x v Hv Hf. exfalso.
      do 9 (destruct x as [|x];
            [simpl in Hv; injection Hv as <-; vm_compute in Hf;
             discriminate Hf|]).
      simpl in Hv. discriminate Hv.
  - left. vm_compute. reflexivity.
Defined.

(** X27.  A run on a new [EscapeAnalysis] leaves the stack of the status
    fixed point empty and no node marked [kOnStack]. *)
Theorem Run_empties_status_stack kPointerSize kPointerSizeLog2 fuel g s' :
  Run kPointerSize kPointerSizeLog2 fuel (new_EscapeAnalysis g) = Some (tt, s') ->
  status_stack_ s' = [] /\
  forall x v, status_ s' !! x = Some v -> has_flag v kOnStack = false.
Proof.
  intros H. apply Run_work in H as [(_ & _ & Hon) Hempty].
  split; [done|]. intros x v Hv.
  destruct (has_flag v kOnStack) eqn:Hf; [|done].
  specialize (Hon x v Hv Hf). rewrite Hempty in Hon.
  by apply elem_of_nil in Hon.
Qed.

Lemma Run_empties_status_stack_witness :
  status_stack_ store_load_run = [] /\
  forall x v, status_ store_load_run !! x = Some v -> has_flag v kOnStack = false.
Proof.
  apply (Run_empties_status_stack 8 3 100 store_load_graph).
  vm_compute. reflexivity.
Defined.
